(** * Quad-tree planet segment node (src/og/quadTree/Node.js)

    A shallow embedding of the quad-tree node of the globe renderer, and the
    properties of its specification that concern it.

    Conventions of the embedding.

    - JavaScript objects live in a store: a node is named by a reference
      ([ref]) and the store ([heap]) maps references to node records, so two
      variables holding the same node are the same reference.
    - A JavaScript number is an exact rational ([Q]); rounding is outside
      the embedding.  A quotient by zero, which JavaScript evaluates to
      [Infinity] or [NaN] without throwing, is [None] ([num_div]).  Where
      the code only stores such a quotient (the bias of
      whileNormalMapCreating) the embedding stores it too; where the code
      computes on with it (the seam ratio of addToRender, the grid of
      whileTerrainLoading) the embedding has no value to go on with, and the
      properties about those paths state the hypotheses that keep every
      divisor non-zero.
    - The four-slot arrays of the code ([neighbors], [hasNeighbor],
      [sideSize], [nodes]) are only ever indexed by the constants of
      quadTree.js; they are records with four fields ([Quad]) read and
      written through the side or part that names the slot.
    - A fallible computation returns [option]: [None] is a thrown
      [TypeError] (a property read from [null]), a thrown [RangeError] (an
      array of invalid length), an arithmetic on a quotient by zero, or an
      exhausted fuel for the loops that climb parent links; for those the
      properties give a fuel that suffices. *)

From Stdlib Require Import ZArith QArith Qround Qabs Qpower Lia Lqa List.
From stdpp Require Import base option list gmap.

Local Open Scope Z_scope.

(** ** Numbers *)

Definition num_eqb (a b : Q) : bool := Qeq_bool a b.
Definition num_leb (a b : Q) : bool := Qle_bool a b.
Definition num_ltb (a b : Q) : bool := negb (Qle_bool b a).

(** [a / b].  JavaScript does not throw on a zero divisor: the quotient is
    then [Infinity], [-Infinity] or [NaN], none of which is a rational;
    [None] stands for that value. *)
Definition num_div (a b : Q) : option Q :=
  if num_eqb b 0 then None else Some (a / b)%Q.

(** [Math.ceil] and [Math.floor], back in the numbers. *)
Definition ceil (a : Q) : Q := inject_Z (Qceiling a).
Definition floor (a : Q) : Q := inject_Z (Qfloor a).

(** [Math.pow(2, k)] for an integer [k] of either sign. *)
Definition pow2 (k : Z) : Q := Qpower 2 k.

(** [a << k] of JavaScript: the left operand as a 32-bit integer, the shift
    count taken modulo 32, the result wrapped to a signed 32-bit integer. *)
Definition toInt32 (z : Z) : Z := (z + 2 ^ 31) mod 2 ^ 32 - 2 ^ 31.
Definition shl32 (a k : Z) : Z := toInt32 (Z.shiftl (toInt32 a) (Z.land k 31)).

(** ** quadTree.js: the constants and adjacency tables *)

Module quadTree.

(** Modelled from the spec: quadTree.js is not among the sources.  The
    child slots are NW=0, NE=1, SW=2, SE=3. *)
Inductive Part := NW | NE | SW | SE.

(** Modelled from the spec: the sides are N=0, E=1, S=2, W=3. *)
Inductive Side := N | E | S | W.

(** Modelled from the spec: the three traversal states. *)
Inductive State := NOTRENDERING | RENDERING | WALKTHROUGH.

(** Modelled from the spec: [OPSIDE[side]] is the opposite side. *)
Definition OPSIDE (s : Side) : Side :=
  match s with N => S | E => W | S => N | W => E end.

(** Modelled from the spec: [NEIGHBOUR[side][partId]] is the sibling's
    partId if the neighbour across [side] is within the same parent, else
    -1 (here [None]). *)
Definition NEIGHBOUR (s : Side) (p : Part) : option Part :=
  match s, p with
  | N, SW => Some NW | N, SE => Some NE
  | E, NW => Some NE | E, SW => Some SE
  | S, NW => Some SW | S, NE => Some SE
  | W, NE => Some NW | W, SE => Some SW
  | _, _ => None
  end.

(** Modelled from the spec: [OPPART[side][partId]] is the child index to
    descend into when mirroring a recorded path across [side]: the part
    mirrored top-to-bottom for N and S, left-to-right for E and W. *)
Definition OPPART (s : Side) (p : Part) : Part :=
  match s with
  | N | S => match p with NW => SW | NE => SE | SW => NW | SE => NE end
  | E | W => match p with NW => NE | NE => NW | SW => SE | SE => SW end
  end.

End quadTree.

Global Instance Part_eq_dec : EqDecision quadTree.Part.
Proof. solve_decision. Defined.
Global Instance Side_eq_dec : EqDecision quadTree.Side.
Proof. solve_decision. Defined.
Global Instance State_eq_dec : EqDecision quadTree.State.
Proof. solve_decision. Defined.

(** ** Four-slot arrays *)

Record Quad (A : Type) := mkQuad { q0 : A; q1 : A; q2 : A; q3 : A }.
Arguments mkQuad {A} _ _ _ _.
Arguments q0 {A} _.
Arguments q1 {A} _.
Arguments q2 {A} _.
Arguments q3 {A} _.

Definition quad_all {A} (x : A) : Quad A := mkQuad x x x x.

Definition side_get {A} (q : Quad A) (s : quadTree.Side) : A :=
  match s with
  | quadTree.N => q0 q | quadTree.E => q1 q
  | quadTree.S => q2 q | quadTree.W => q3 q
  end.

Definition side_set {A} (q : Quad A) (s : quadTree.Side) (x : A) : Quad A :=
  match s with
  | quadTree.N => mkQuad x (q1 q) (q2 q) (q3 q)
  | quadTree.E => mkQuad (q0 q) x (q2 q) (q3 q)
  | quadTree.S => mkQuad (q0 q) (q1 q) x (q3 q)
  | quadTree.W => mkQuad (q0 q) (q1 q) (q2 q) x
  end.

Definition part_get {A} (q : Quad A) (p : quadTree.Part) : A :=
  match p with
  | quadTree.NW => q0 q | quadTree.NE => q1 q
  | quadTree.SW => q2 q | quadTree.SE => q3 q
  end.

Definition part_set {A} (q : Quad A) (p : quadTree.Part) (x : A) : Quad A :=
  match p with
  | quadTree.NW => mkQuad x (q1 q) (q2 q) (q3 q)
  | quadTree.NE => mkQuad (q0 q) x (q2 q) (q3 q)
  | quadTree.SW => mkQuad (q0 q) (q1 q) x (q3 q)
  | quadTree.SE => mkQuad (q0 q) (q1 q) (q2 q) x
  end.

(** ** mercator.js, LonLat.js, Extent.js, the projections *)

Module mercator.

(** Modelled from the spec: mercator.js is not among the sources;
    [POLE] = 180 degrees. *)
Definition POLE : Q := 180.

(** Modelled from the spec: [MAX_LAT] is about 85.0511287798 degrees. *)
Definition MAX_LAT : Q := 850511287798 # 10000000000.

End mercator.

Definition POLE : Q := mercator.POLE.
Definition MAX_LAT : Q := mercator.MAX_LAT.

Record LonLat := mkLonLat { lon : Q; lat : Q; height : Q }.

(** [new LonLat(lon, lat)]: the height defaults to zero. *)
Definition newLonLat (x y : Q) : LonLat := mkLonLat x y 0.

Record Extent := mkExtent { southWest : LonLat; northEast : LonLat }.

(** Modelled from the spec: Extent.js is not among the sources; the extent
    provides its width and its height. *)
Definition getWidth (e : Extent) : Q := (lon (northEast e) - lon (southWest e))%Q.
Definition getHeight (e : Extent) : Q := (lat (northEast e) - lat (southWest e))%Q.

(** Modelled from the spec: the inside test of an extent, borders included. *)
Definition isInside (e : Extent) (p : LonLat) : bool :=
  num_leb (lon (southWest e)) (lon p) && num_leb (lon p) (lon (northEast e)) &&
  num_leb (lat (southWest e)) (lat p) && num_leb (lat p) (lat (northEast e)).

(** Modelled from the spec: the two projections a segment can have; the
    code compares their [id]s. *)
Inductive Projection := EPSG3857 | EPSG4326.

Global Instance Projection_eq_dec : EqDecision Projection.
Proof. solve_decision. Defined.

(** ** The segment and the node *)

(** A cell of a [Float32Array]: a number, or [NaN] ([None]), which is what a
    store of [undefined] leaves there. *)
Definition cell := option Q.

Definition ref := nat.

(** The fields of the planet segment that Node.js reads and writes.  The
    segment class itself is not among the sources.  The third component of
    [normalMapTextureBias] is the stored quotient [1 / dZ2] of
    whileNormalMapCreating, which is not finite when [dZ2] is zero
    ([num_div]). *)
Record Segment := mkSegment {
  tileZoom : Z;
  tileX : Z;
  tileY : Z;
  _extent : Extent;
  _projection : Projection;
  gridSize : Q;
  seg_ready : bool;
  terrainReady : bool;
  terrainIsLoading : bool;
  terrainExists : bool;
  normalMapReady : bool;
  parentNormalMapReady : bool;
  _inTheQueue : bool;
  refreshIndexesBuffer : bool;
  terrainVertices : option (list cell);
  tempVertices : option (list cell);
  normalMapNormals : option (list cell);
  normalMapNormalsRaw : option (list cell);
  normalMapTexture : option Z;
  normalMapTextureBias : Q * Q * option Q
}.

(** The node object, field by field as the constructor sets it.  [segment],
    [neighbors], [sideSize] and [parentNode] can be [null] (after
    [destroy]); [state] is [null] until the first traversal. *)
Record Node := mkNode {
  SegmentPrototype : Projection;
  parentNode : option ref;
  partId : quadTree.Part;
  nodeId : Z;
  state : option quadTree.State;
  appliedTerrainNodeId : Z;
  sideSize : option (Quad Q);
  ready : bool;
  hasNeighbor : Quad bool;
  neighbors : option (Quad (option ref));
  nodes : Quad (option ref);
  segment : option Segment;
  _cameraInside : bool
}.

Definition set_parentNode (v : option ref) (n : Node) : Node :=
  mkNode (SegmentPrototype n) v (partId n) (nodeId n) (state n) (appliedTerrainNodeId n)
    (sideSize n) (ready n) (hasNeighbor n) (neighbors n) (nodes n) (segment n)
    (_cameraInside n).
Definition set_state (v : option quadTree.State) (n : Node) : Node :=
  mkNode (SegmentPrototype n) (parentNode n) (partId n) (nodeId n) v
    (appliedTerrainNodeId n) (sideSize n) (ready n) (hasNeighbor n) (neighbors n)
    (nodes n) (segment n) (_cameraInside n).
Definition set_appliedTerrainNodeId (v : Z) (n : Node) : Node :=
  mkNode (SegmentPrototype n) (parentNode n) (partId n) (nodeId n) (state n) v
    (sideSize n) (ready n) (hasNeighbor n) (neighbors n) (nodes n) (segment n)
    (_cameraInside n).
Definition set_sideSize (v : option (Quad Q)) (n : Node) : Node :=
  mkNode (SegmentPrototype n) (parentNode n) (partId n) (nodeId n) (state n)
    (appliedTerrainNodeId n) v (ready n) (hasNeighbor n) (neighbors n) (nodes n)
    (segment n) (_cameraInside n).
Definition set_ready (v : bool) (n : Node) : Node :=
  mkNode (SegmentPrototype n) (parentNode n) (partId n) (nodeId n) (state n)
    (appliedTerrainNodeId n) (sideSize n) v (hasNeighbor n) (neighbors n) (nodes n)
    (segment n) (_cameraInside n).
Definition set_hasNeighbor (v : Quad bool) (n : Node) : Node :=
  mkNode (SegmentPrototype n) (parentNode n) (partId n) (nodeId n) (state n)
    (appliedTerrainNodeId n) (sideSize n) (ready n) v (neighbors n) (nodes n)
    (segment n) (_cameraInside n).
Definition set_neighbors (v : option (Quad (option ref))) (n : Node) : Node :=
  mkNode (SegmentPrototype n) (parentNode n) (partId n) (nodeId n) (state n)
    (appliedTerrainNodeId n) (sideSize n) (ready n) (hasNeighbor n) v (nodes n)
    (segment n) (_cameraInside n).
Definition set_nodes (v : Quad (option ref)) (n : Node) : Node :=
  mkNode (SegmentPrototype n) (parentNode n) (partId n) (nodeId n) (state n)
    (appliedTerrainNodeId n) (sideSize n) (ready n) (hasNeighbor n) (neighbors n) v
    (segment n) (_cameraInside n).
Definition set_segment (v : option Segment) (n : Node) : Node :=
  mkNode (SegmentPrototype n) (parentNode n) (partId n) (nodeId n) (state n)
    (appliedTerrainNodeId n) (sideSize n) (ready n) (hasNeighbor n) (neighbors n)
    (nodes n) v (_cameraInside n).
Definition set_cameraInside (v : bool) (n : Node) : Node :=
  mkNode (SegmentPrototype n) (parentNode n) (partId n) (nodeId n) (state n)
    (appliedTerrainNodeId n) (sideSize n) (ready n) (hasNeighbor n) (neighbors n)
    (nodes n) (segment n) v.

(** ** getCommonSide (Node.js, lines 421-456) *)

(** The comparison of the two extents; [zoom] is [this.segment.tileZoom].
    [None] is the returned -1. *)
Definition commonSide (zoom : Z) (a b : Extent) : option quadTree.Side :=
  let a_ne_lon := lon (northEast a) in
  let a_ne_lat := lat (northEast a) in
  let a_sw_lon := lon (southWest a) in
  let a_sw_lat := lat (southWest a) in
  let b_ne_lon := lon (northEast b) in
  let b_ne_lat := lat (northEast b) in
  let b_sw_lon := lon (southWest b) in
  let b_sw_lat := lat (southWest b) in
  if num_leb a_ne_lat b_ne_lat && num_leb b_sw_lat a_sw_lat
     || num_leb b_ne_lat a_ne_lat && num_leb a_sw_lat b_sw_lat
  then
    if num_eqb a_ne_lon b_sw_lon then Some quadTree.E
    else if num_eqb a_sw_lon b_ne_lon then Some quadTree.W
    else if 0 <? zoom then
      if num_eqb a_ne_lon POLE && num_eqb b_sw_lon (- POLE) then Some quadTree.E
      else if num_eqb a_sw_lon (- POLE) && num_eqb b_ne_lon POLE then Some quadTree.E
      else if num_eqb a_sw_lon (- POLE) && num_eqb b_ne_lon POLE then Some quadTree.W
      else None
    else None
  else if num_leb b_sw_lon a_sw_lon && num_leb a_ne_lon b_ne_lon
          || num_leb a_sw_lon b_sw_lon && num_leb b_ne_lon a_ne_lon
  then
    if num_eqb a_ne_lat b_sw_lat then Some quadTree.N
    else if num_eqb a_sw_lat b_ne_lat then Some quadTree.S
    else if num_eqb a_ne_lat POLE && num_eqb b_sw_lat MAX_LAT then Some quadTree.N
    else if num_eqb a_sw_lat (- POLE) && num_eqb b_ne_lat (- MAX_LAT) then Some quadTree.S
    else None
  else None.

(** The latitude ranges of the two extents are nested (first test of
    [getCommonSide]). *)
Definition latNested (a b : Extent) : Prop :=
  (lat (northEast a) <= lat (northEast b) /\ lat (southWest b) <= lat (southWest a))%Q \/
  (lat (northEast b) <= lat (northEast a) /\ lat (southWest a) <= lat (southWest b))%Q.

(** ** The planet: store of nodes, rendered list, camera, terrain *)

Record Camera := mkCamera {
  _lonLat : LonLat;
  _lonLatMerc : LonLat;
  _insideSegment : option ref;
  _insideSegmentPosition : option LonLat
}.

Record Terrain := mkTerrain {
  minZoom : Z;
  maxZoom : Z;
  fileGridSize : Q
}.

(** Calls that leave Node.js: methods of the segment (GPU buffers, terrain
    provider) and of the normal-map worker.  The embedding records them in
    call order; [seg r] is the segment of node [r]. *)
Inductive Call :=
| createPlainSegment (r : ref)
| loadTerrain (r : ref)
| deleteBuffers (r : ref)
| createCoordsBuffers (r : ref) (vertices : list cell) (grid : Q)
| normalMapCreator_queue (r : ref)
| destroySegment (r : ref).

Record World := mkWorld {
  heap : gmap ref Node;
  _renderedNodes : list ref;
  _createdNodesCount : Z;
  activeCamera : Camera;
  terrain : Terrain;
  calls : list Call
}.

Definition set_heap (h : gmap ref Node) (w : World) : World :=
  mkWorld h (_renderedNodes w) (_createdNodesCount w) (activeCamera w) (terrain w) (calls w).
Definition set_renderedNodes (l : list ref) (w : World) : World :=
  mkWorld (heap w) l (_createdNodesCount w) (activeCamera w) (terrain w) (calls w).
Definition set_createdNodesCount (c : Z) (w : World) : World :=
  mkWorld (heap w) (_renderedNodes w) c (activeCamera w) (terrain w) (calls w).
Definition set_activeCamera (c : Camera) (w : World) : World :=
  mkWorld (heap w) (_renderedNodes w) (_createdNodesCount w) c (terrain w) (calls w).
Definition call (c : Call) (w : World) : World :=
  mkWorld (heap w) (_renderedNodes w) (_createdNodesCount w) (activeCamera w) (terrain w)
    (calls w ++ [c]).

Definition getNode (w : World) (r : ref) : option Node := heap w !! r.

Definition setNode (r : ref) (n : Node) (w : World) : World :=
  set_heap (<[r := n]> (heap w)) w.

(** An assignment to a field of the object [r]: [f] computes the new record,
    and fails where the assignment dereferences [null]. *)
Definition modify (r : ref) (f : Node -> option Node) (w : World) : option World :=
  n ← getNode w r;
  n' ← f n;
  Some (setNode r n' w).

(** [r.neighbors[s] = v] *)
Definition assign_neighbor (s : quadTree.Side) (v : option ref) (n : Node) : option Node :=
  nb ← neighbors n;
  Some (set_neighbors (Some (side_set nb s v)) n).

(** [r.hasNeighbor[s] = v] *)
Definition assign_hasNeighbor (s : quadTree.Side) (v : bool) (n : Node) : option Node :=
  Some (set_hasNeighbor (side_set (hasNeighbor n) s v) n).

(** [r.sideSize[s] = v] *)
Definition assign_sideSize (s : quadTree.Side) (v : Q) (n : Node) : option Node :=
  ss ← sideSize n;
  Some (set_sideSize (Some (side_set ss s v)) n).

(** Observations of the store. *)
Definition neighborAt (w : World) (r : ref) (s : quadTree.Side) : option (option ref) :=
  n ← getNode w r; nb ← neighbors n; Some (side_get nb s).

Definition sideSizeAt (w : World) (r : ref) (s : quadTree.Side) : option Q :=
  n ← getNode w r; ss ← sideSize n; Some (side_get ss s).

Definition hasNeighborAt (w : World) (r : ref) (s : quadTree.Side) : option bool :=
  n ← getNode w r; Some (side_get (hasNeighbor n) s).

Definition segmentAt (w : World) (r : ref) : option Segment :=
  n ← getNode w r; segment n.

(** [this.getCommonSide(node)]: reading [_extent] of a [null] segment
    throws. *)
Definition getCommonSide (w : World) (this node : ref) : option (option quadTree.Side) :=
  sa ← segmentAt w this;
  sb ← segmentAt w node;
  Some (commonSide (tileZoom sa) (_extent sa) (_extent sb)).

(** ** addToRender (Node.js, lines 381-419) *)

(** The seam ratio of line 399. *)
Definition seamRatio (ap bp : Segment) : option Q :=
  num_div (gridSize ap) (gridSize bp * pow2 (tileZoom bp - tileZoom ap)).

(** Lines 393-394: [node.neighbors[cs] = ni; ni.neighbors[opcs] = node]. *)
Definition link (node ni : ref) (cs : quadTree.Side) (w : World) : option World :=
  w ← modify node (assign_neighbor cs (Some ni)) w;
  modify ni (assign_neighbor (quadTree.OPSIDE cs) (Some node)) w.

(** Lines 401-402: [node.hasNeighbor[cs] = true; ni.hasNeighbor[opcs] = true]. *)
Definition flag (node ni : ref) (cs : quadTree.Side) (w : World) : option World :=
  w ← modify node (assign_hasNeighbor cs true) w;
  modify ni (assign_hasNeighbor (quadTree.OPSIDE cs) true) w.

(** [node.sideSize[cs] = v1; ni.sideSize[opcs] = v2], the shape of lines
    405-406, 409-410 and 412-413. *)
Definition resize (node ni : ref) (cs : quadTree.Side) (v1 v2 : Q) (w : World)
    : option World :=
  w ← modify node (assign_sideSize cs v1) w;
  modify ni (assign_sideSize (quadTree.OPSIDE cs) v2) w.

(** The size negotiation of lines 397-414, for the registering node [node],
    the registered node [ni] and the common side [cs]. *)
Definition negotiate (node ni : ref) (cs : quadTree.Side) (w : World) : option World :=
  ap ← segmentAt w node;
  bp ← segmentAt w ni;
  ld ← seamRatio ap bp;
  w ← flag node ni cs w;
  if num_ltb 1 ld then
    q ← num_div (gridSize ap) ld;
    resize node ni cs (ceil q) (gridSize bp) w
  else if num_ltb ld 1 then
    resize node ni cs (gridSize ap) (ceil (gridSize bp * ld)) w
  else
    resize node ni cs (gridSize ap) (gridSize bp) w.

(** The guard of line 396: negotiation is entered unless both flags are
    set. *)
Definition negotiates (w : World) (node ni : ref) (cs : quadTree.Side) : option bool :=
  x ← hasNeighborAt w node cs;
  y ← hasNeighborAt w ni (quadTree.OPSIDE cs);
  Some (negb (x && y)).

(** The body of the loop of lines 387-417 for one registered node [ni]. *)
Definition encounter (node ni : ref) (w : World) : option World :=
  cs ← getCommonSide w node ni;
  match cs with
  | None => Some w
  | Some cs =>
      w ← link node ni cs w;
      go ← negotiates w node ni cs;
      if (go : bool) then negotiate node ni cs w else Some w
  end.

(** The loop itself: [nis] are the registered nodes in the order the loop
    meets them. *)
Fixpoint scan (node : ref) (nis : list ref) (w : World) : option World :=
  match nis with
  | [] => Some w
  | ni :: rest => w' ← encounter node ni w; scan node rest w'
  end.

(** [node.addToRender()]: the list is walked from its tail to its head,
    then the node is pushed. *)
Definition addToRender (node : ref) (w : World) : option World :=
  w ← modify node (fun n => Some (set_state (Some quadTree.RENDERING) n)) w;
  w ← scan node (rev (_renderedNodes w)) w;
  Some (set_renderedNodes (_renderedNodes w ++ [node]) w).

(** ** The constructor and createChildrenNodes (Node.js, lines 60-108) *)

(** What the segment constructor derives on its own from the zoom and the
    extent: the tile coordinates and the initial grid size.  The segment
    classes are not among the sources, so the planet supplies this. *)
Record SegmentInit := mkSegmentInit {
  init_tileX : Z;
  init_tileY : Z;
  init_gridSize : Q
}.

Definition SegmentOracle := Projection -> Z -> Extent -> SegmentInit.

(** Modelled from the spec: [new segmentPrototype(node, planet, tileZoom,
    extent)].  The prototype is one of two classes, told apart by their
    projection; the segment keeps the zoom and the extent it is given, no
    flag is set and no array is allocated yet. *)
Definition newSegment (oracle : SegmentOracle) (proto : Projection)
    (zoom : Z) (extent : Extent) : Segment :=
  let i := oracle proto zoom extent in
  mkSegment zoom (init_tileX i) (init_tileY i) extent proto (init_gridSize i)
    false false false false false false false false
    None None None None None (0%Q, 0%Q, Some 1%Q).

Definition part_index (p : quadTree.Part) : Z :=
  match p with
  | quadTree.NW => 0 | quadTree.NE => 1 | quadTree.SW => 2 | quadTree.SE => 3
  end.

(** The record built by [new Node(segmentPrototype, planet, partId, parent,
    id, tileZoom, extent)].  [createBounds] only computes the bounding
    sphere of the segment, which the embedding does not carry. *)
Definition newNode (oracle : SegmentOracle) (proto : Projection)
    (part : quadTree.Part) (parent : option ref) (id : Z) (zoom : Z)
    (extent : Extent) : Node :=
  mkNode proto parent part (part_index part + id) None (-1)
    (Some (quad_all 1%Q)) false (quad_all false) (Some (quad_all None))
    (quad_all None) (Some (newSegment oracle proto zoom extent)) false.

(** Allocation of the new object, and [planet._createdNodesCount++]. *)
Definition allocNode (n : Node) (w : World) : ref * World :=
  let r := fresh (dom (heap w)) in
  (r, set_createdNodesCount (_createdNodesCount w + 1) (setNode r n w)).

(** [this.nodes[part] = child] *)
Definition assign_child (part : quadTree.Part) (child : ref) (n : Node) : option Node :=
  Some (set_nodes (part_set (nodes n) part (Some child)) n).

(** [nd[part] = new Node(this.SegmentPrototype, p, part, this, id, z, extent)] *)
Definition spawnChild (oracle : SegmentOracle) (this : ref) (part : quadTree.Part)
    (id z : Z) (extent : Extent) (w : World) : option World :=
  n ← getNode w this;
  let '(r, w) :=
    allocNode (newNode oracle (SegmentPrototype n) part (Some this) id z extent) w in
  modify this (assign_child part r) w.

Definition createChildrenNodes (oracle : SegmentOracle) (this : ref) (w : World)
    : option World :=
  w ← modify this (fun n => Some (set_ready true n)) w;
  n ← getNode w this;
  ps ← segment n;
  let ext := _extent ps in
  let size_x := (getWidth ext * (1 # 2))%Q in
  let size_y := (getHeight ext * (1 # 2))%Q in
  let ne := northEast ext in
  let sw := southWest ext in
  let z := tileZoom ps + 1 in
  let id := nodeId n * 4 + 1 in
  let c := newLonLat (lon sw + size_x) (lat sw + size_y) in
  w ← spawnChild oracle this quadTree.NW id z
        (mkExtent (newLonLat (lon sw) (lat sw + size_y))
                  (newLonLat (lon sw + size_x) (lat ne))) w;
  w ← spawnChild oracle this quadTree.NE id z
        (mkExtent c (newLonLat (lon ne) (lat ne))) w;
  w ← spawnChild oracle this quadTree.SW id z
        (mkExtent (newLonLat (lon sw) (lat sw)) c) w;
  spawnChild oracle this quadTree.SE id z
        (mkExtent (newLonLat (lon sw + size_x) (lat sw))
                  (newLonLat (lon ne) (lat sw + size_y))) w.



(** ** renderTree, up to the camera test (Node.js, lines 263-299) *)

(** [Math.abs] *)
Definition num_abs (a : Q) : Q := Qabs a.

(** The choice of lines 283-290: the test that is run, if any, and the
    position it is run on.  [None] is the [inside] that stays [undefined]. *)
Definition cameraTest (cam : Camera) (seg : Segment) : option (bool * LonLat) :=
  if num_leb (num_abs (lat (_lonLat cam))) MAX_LAT &&
     bool_decide (_projection seg = EPSG3857)
  then Some (isInside (_extent seg) (_lonLatMerc cam), _lonLatMerc cam)
  else if bool_decide (_projection seg = EPSG4326)
  then Some (isInside (_extent seg) (_lonLat cam), _lonLat cam)
  else None.

(** Lines 264-269 of [renderTree]: the state and the neighbour slots. *)
Definition renderTree_reset (this : ref) (w : World) : option World :=
  w ← modify this (fun n => Some (set_state (Some quadTree.WALKTHROUGH) n)) w;
  w ← modify this (assign_neighbor quadTree.N None) w;
  w ← modify this (assign_neighbor quadTree.E None) w;
  w ← modify this (assign_neighbor quadTree.S None) w;
  modify this (assign_neighbor quadTree.W None) w.

(** Lines 264-299 of [renderTree]: the reset, then the camera-inside flag.
    [cam._insideSegment] holds the node whose segment it is. *)
Definition renderTree_enter (this : ref) (w : World) : option World :=
  w ← renderTree_reset this w;
  n ← getNode w this;
  match parentNode n with
  | Some p =>
      w ← modify this (fun n => Some (set_cameraInside false n)) w;
      pn ← getNode w p;
      if _cameraInside pn then
        seg ← segment n;
        let cam := activeCamera w in
        let inside := fst <$> cameraTest cam seg in
        let w :=
          match cameraTest cam seg with
          | Some (_, pos) =>
              set_activeCamera (mkCamera (_lonLat cam) (_lonLatMerc cam)
                                  (_insideSegment cam) (Some pos)) w
          | None => w
          end in
        match inside with
        | Some true =>
            let cam := activeCamera w in
            let w := set_activeCamera (mkCamera (_lonLat cam) (_lonLatMerc cam)
                                         (Some this) (_insideSegmentPosition cam)) w in
            modify this (fun n => Some (set_cameraInside true n)) w
        | _ => Some w
        end
      else Some w
  | None => modify this (fun n => Some (set_cameraInside true n)) w
  end.

(** ** A frame, as far as the neighbour links go

    In a frame the driver empties the rendered list and [renderTree] walks
    the tree, each node once.  For a node that ends up rendered the walk
    clears the neighbour slots (lines 266-269) and, through
    [prepareForRendering] and [renderNode], calls [addToRender]; nothing in
    between reads or writes a neighbour slot or an extent.  A node that is
    only walked through is reset and not registered. *)
Inductive Visit :=
| Rendered (x : ref)
| Passed (x : ref).

Definition visited (v : Visit) : ref :=
  match v with Rendered x | Passed x => x end.

Definition visit (v : Visit) (w : World) : option World :=
  match v with
  | Rendered x => w ← renderTree_reset x w; addToRender x w
  | Passed x => renderTree_reset x w
  end.

Fixpoint visits (vs : list Visit) (w : World) : option World :=
  match vs with
  | [] => Some w
  | v :: rest => w' ← visit v w; visits rest w'
  end.

(** The frame: the rendered list is emptied, then the nodes are visited. *)
Definition frame (vs : list Visit) (w : World) : option World :=
  visits vs (set_renderedNodes [] w).

Definition cameraInsideAt (w : World) (r : ref) : option bool :=
  n ← getNode w r; Some (_cameraInside n).

(** ** getEqualNeighbor (Node.js, lines 212-234) *)

(** The inner loop of lines 226-229: [pn] goes down through the recorded
    parts, last pushed first, and stops at a missing child.  [path] is the
    recorded [pathId] read from its end. *)
Fixpoint descend (w : World) (side : quadTree.Side) (pn : option ref)
    (path : list quadTree.Part) : option (option ref) :=
  match pn, path with
  | Some r, c :: rest =>
      n ← getNode w r;
      descend w side (part_get (nodes n) (quadTree.OPPART side c)) rest
  | _, _ => Some pn
  end.

(** The outer loop of lines 219-232.  Leaving it at the root, the function
    returns nothing ([undefined]). *)
Fixpoint walkUp (fuel : nat) (w : World) (side : quadTree.Side) (pn : ref)
    (pathId : list quadTree.Part) : option (option ref) :=
  match fuel with
  | O => None
  | Datatypes.S fuel =>
      n ← getNode w pn;
      match parentNode n with
      | None => Some None
      | Some p =>
          let pathId := pathId ++ [partId n] in
          match quadTree.NEIGHBOUR side (partId n) with
          | Some _ => descend w (quadTree.OPSIDE side) (Some p) (rev pathId)
          | None => walkUp fuel w side p pathId
          end
      end
  end.

(** [this.getEqualNeighbor(side)]: the result is a node, or no node
    ([null] or [undefined]). *)
Definition getEqualNeighbor (fuel : nat) (w : World) (this : ref)
    (side : quadTree.Side) : option (option ref) :=
  n ← getNode w this;
  match quadTree.NEIGHBOUR side (partId n) with
  | Some part =>
      p ← parentNode n;
      pn ← getNode w p;
      Some (part_get (nodes pn) part)
  | None => walkUp fuel w side this []
  end.

(** Field updates of the segment. *)
Definition seg_set_gridSize (v : Q) (s : Segment) : Segment :=
  mkSegment (tileZoom s) (tileX s) (tileY s) (_extent s) (_projection s) v (seg_ready s)
    (terrainReady s) (terrainIsLoading s) (terrainExists s) (normalMapReady s)
    (parentNormalMapReady s) (_inTheQueue s) (refreshIndexesBuffer s)
    (terrainVertices s) (tempVertices s) (normalMapNormals s) (normalMapNormalsRaw s)
    (normalMapTexture s) (normalMapTextureBias s).
Definition seg_set_ready (v : bool) (s : Segment) : Segment :=
  mkSegment (tileZoom s) (tileX s) (tileY s) (_extent s) (_projection s) (gridSize s) v
    (terrainReady s) (terrainIsLoading s) (terrainExists s) (normalMapReady s)
    (parentNormalMapReady s) (_inTheQueue s) (refreshIndexesBuffer s)
    (terrainVertices s) (tempVertices s) (normalMapNormals s) (normalMapNormalsRaw s)
    (normalMapTexture s) (normalMapTextureBias s).
Definition seg_set_terrainReady (v : bool) (s : Segment) : Segment :=
  mkSegment (tileZoom s) (tileX s) (tileY s) (_extent s) (_projection s) (gridSize s)
    (seg_ready s) v (terrainIsLoading s) (terrainExists s) (normalMapReady s)
    (parentNormalMapReady s) (_inTheQueue s) (refreshIndexesBuffer s)
    (terrainVertices s) (tempVertices s) (normalMapNormals s) (normalMapNormalsRaw s)
    (normalMapTexture s) (normalMapTextureBias s).
Definition seg_set_terrainIsLoading (v : bool) (s : Segment) : Segment :=
  mkSegment (tileZoom s) (tileX s) (tileY s) (_extent s) (_projection s) (gridSize s)
    (seg_ready s) (terrainReady s) v (terrainExists s) (normalMapReady s)
    (parentNormalMapReady s) (_inTheQueue s) (refreshIndexesBuffer s)
    (terrainVertices s) (tempVertices s) (normalMapNormals s) (normalMapNormalsRaw s)
    (normalMapTexture s) (normalMapTextureBias s).
Definition seg_set_terrainExists (v : bool) (s : Segment) : Segment :=
  mkSegment (tileZoom s) (tileX s) (tileY s) (_extent s) (_projection s) (gridSize s)
    (seg_ready s) (terrainReady s) (terrainIsLoading s) v (normalMapReady s)
    (parentNormalMapReady s) (_inTheQueue s) (refreshIndexesBuffer s)
    (terrainVertices s) (tempVertices s) (normalMapNormals s) (normalMapNormalsRaw s)
    (normalMapTexture s) (normalMapTextureBias s).
Definition seg_set_parentNormalMapReady (v : bool) (s : Segment) : Segment :=
  mkSegment (tileZoom s) (tileX s) (tileY s) (_extent s) (_projection s) (gridSize s)
    (seg_ready s) (terrainReady s) (terrainIsLoading s) (terrainExists s)
    (normalMapReady s) v (_inTheQueue s) (refreshIndexesBuffer s) (terrainVertices s)
    (tempVertices s) (normalMapNormals s) (normalMapNormalsRaw s) (normalMapTexture s)
    (normalMapTextureBias s).
Definition seg_set_inTheQueue (v : bool) (s : Segment) : Segment :=
  mkSegment (tileZoom s) (tileX s) (tileY s) (_extent s) (_projection s) (gridSize s)
    (seg_ready s) (terrainReady s) (terrainIsLoading s) (terrainExists s)
    (normalMapReady s) (parentNormalMapReady s) v (refreshIndexesBuffer s)
    (terrainVertices s) (tempVertices s) (normalMapNormals s) (normalMapNormalsRaw s)
    (normalMapTexture s) (normalMapTextureBias s).
Definition seg_set_refreshIndexesBuffer (v : bool) (s : Segment) : Segment :=
  mkSegment (tileZoom s) (tileX s) (tileY s) (_extent s) (_projection s) (gridSize s)
    (seg_ready s) (terrainReady s) (terrainIsLoading s) (terrainExists s)
    (normalMapReady s) (parentNormalMapReady s) (_inTheQueue s) v (terrainVertices s)
    (tempVertices s) (normalMapNormals s) (normalMapNormalsRaw s) (normalMapTexture s)
    (normalMapTextureBias s).
Definition seg_set_terrainVertices (v : option (list cell)) (s : Segment) : Segment :=
  mkSegment (tileZoom s) (tileX s) (tileY s) (_extent s) (_projection s) (gridSize s)
    (seg_ready s) (terrainReady s) (terrainIsLoading s) (terrainExists s)
    (normalMapReady s) (parentNormalMapReady s) (_inTheQueue s) (refreshIndexesBuffer s)
    v (tempVertices s) (normalMapNormals s) (normalMapNormalsRaw s) (normalMapTexture s)
    (normalMapTextureBias s).
Definition seg_set_tempVertices (v : option (list cell)) (s : Segment) : Segment :=
  mkSegment (tileZoom s) (tileX s) (tileY s) (_extent s) (_projection s) (gridSize s)
    (seg_ready s) (terrainReady s) (terrainIsLoading s) (terrainExists s)
    (normalMapReady s) (parentNormalMapReady s) (_inTheQueue s) (refreshIndexesBuffer s)
    (terrainVertices s) v (normalMapNormals s) (normalMapNormalsRaw s)
    (normalMapTexture s) (normalMapTextureBias s).
Definition seg_set_normalMapNormals (v : option (list cell)) (s : Segment) : Segment :=
  mkSegment (tileZoom s) (tileX s) (tileY s) (_extent s) (_projection s) (gridSize s)
    (seg_ready s) (terrainReady s) (terrainIsLoading s) (terrainExists s)
    (normalMapReady s) (parentNormalMapReady s) (_inTheQueue s) (refreshIndexesBuffer s)
    (terrainVertices s) (tempVertices s) v (normalMapNormalsRaw s) (normalMapTexture s)
    (normalMapTextureBias s).
Definition seg_set_normalMapNormalsRaw (v : option (list cell)) (s : Segment) : Segment :=
  mkSegment (tileZoom s) (tileX s) (tileY s) (_extent s) (_projection s) (gridSize s)
    (seg_ready s) (terrainReady s) (terrainIsLoading s) (terrainExists s)
    (normalMapReady s) (parentNormalMapReady s) (_inTheQueue s) (refreshIndexesBuffer s)
    (terrainVertices s) (tempVertices s) (normalMapNormals s) v (normalMapTexture s)
    (normalMapTextureBias s).
Definition seg_set_normalMapTexture (v : option Z) (s : Segment) : Segment :=
  mkSegment (tileZoom s) (tileX s) (tileY s) (_extent s) (_projection s) (gridSize s)
    (seg_ready s) (terrainReady s) (terrainIsLoading s) (terrainExists s)
    (normalMapReady s) (parentNormalMapReady s) (_inTheQueue s) (refreshIndexesBuffer s)
    (terrainVertices s) (tempVertices s) (normalMapNormals s) (normalMapNormalsRaw s) v
    (normalMapTextureBias s).
Definition seg_set_normalMapTextureBias (v : Q * Q * option Q) (s : Segment) : Segment :=
  mkSegment (tileZoom s) (tileX s) (tileY s) (_extent s) (_projection s) (gridSize s)
    (seg_ready s) (terrainReady s) (terrainIsLoading s) (terrainExists s)
    (normalMapReady s) (parentNormalMapReady s) (_inTheQueue s) (refreshIndexesBuffer s)
    (terrainVertices s) (tempVertices s) (normalMapNormals s) (normalMapNormalsRaw s)
    (normalMapTexture s) v.

(** [seg.f = v] for the segment of node [r]. *)
Definition modify_segment (r : ref) (f : Segment -> Segment) (w : World) : option World :=
  modify r (fun n => s ← segment n; Some (set_segment (Some (f s)) n)) w.

(** Modelled from the spec: [seg.createPlainSegment()] materializes the
    plain segment, which is what the flag [ready] records. *)
Definition seg_createPlainSegment (r : ref) (w : World) : option World :=
  modify_segment r (seg_set_ready true) (call (createPlainSegment r) w).

(** Modelled from the spec: [_normalMapCreator.queue(seg)] is a hand-off
    that sets [_inTheQueue]. *)
Definition seg_queue (r : ref) (w : World) : option World :=
  modify_segment r (seg_set_inTheQueue true) (call (normalMapCreator_queue r) w).

(** Modelled from the spec: [seg.loadTerrain()], [seg.deleteBuffers()],
    [seg.createCoordsBuffers(...)] and [seg.destroySegment()] are hand-offs
    to the terrain provider and to the GPU; they need the segment. *)
Definition seg_call (r : ref) (c : Call) (w : World) : option World :=
  _ ← segmentAt w r; Some (call c w).

(** ** Climbing the parent links

    [while (pn.parentNode && !stop(pn)) pn = pn.parentNode], the loop of
    lines 124, 469, 486, 512 and 616.  [stop] reads the segment of [pn]. *)
Fixpoint climb (fuel : nat) (stop : Segment -> bool) (w : World) (pn : ref) : option ref :=
  match fuel with
  | O => None
  | Datatypes.S fuel =>
      n ← getNode w pn;
      match parentNode n with
      | None => Some pn
      | Some p =>
          s ← segment n;
          if stop s then Some pn else climb fuel stop w p
      end
  end.

(** ** whileNormalMapCreating (Node.js, lines 458-498) *)

(** Lines 481-497: the node is deeper than the terrain goes. *)
Definition normalMapBeyondMaxZoom (fuel : nat) (this pn : ref) (seg : Segment) (w : World)
    : option World :=
  let maxZ := maxZoom (terrain w) in
  if maxZ <? tileZoom seg then
    pseg ← segmentAt w pn;
    if tileZoom pseg =? maxZ then
      modify_segment this (seg_set_parentNormalMapReady true) w
    else
      pn ← climb fuel (fun s => tileZoom s =? maxZ) w this;
      pns ← segmentAt w pn;
      if negb (seg_ready pns) then
        w ← seg_createPlainSegment pn w;
        seg_call pn (loadTerrain pn) w
      else if negb (_inTheQueue pns) && negb (terrainIsLoading pns) then
        seg_queue pn w
      else Some w
  else Some w.

Definition whileNormalMapCreating (fuel : nat) (this : ref) (w : World) : option World :=
  n ← getNode w this;
  seg ← segment n;
  let maxZ := maxZoom (terrain w) in
  w ← (if (tileZoom seg <=? maxZ) && negb (terrainIsLoading seg) &&
          terrainReady seg && negb (_inTheQueue seg)
       then seg_queue this w else Some w);
  pn ← climb fuel normalMapReady w this;
  pseg ← segmentAt w pn;
  let dZ2 := shl32 2 (tileZoom seg - tileZoom pseg - 1) in
  w ← modify_segment this (seg_set_normalMapTexture (normalMapTexture pseg)) w;
  pseg ← segmentAt w pn;
  w ← modify_segment this (seg_set_normalMapTextureBias
         (inject_Z (tileX seg - tileX pseg * dZ2),
          inject_Z (tileY seg - tileY pseg * dZ2),
          num_div 1 (inject_Z dZ2))) w;
  normalMapBeyondMaxZoom fuel this pn seg w.

(** ** getMatrixSubArray (Node.js, lines 33-47) *)

(** The integer part of a number, towards zero. *)
Definition trunc (q : Q) : Z := if num_leb 0 q then Qfloor q else Qceiling q.

(** [new Float32Array(len)]: [len] cells holding zero; a negative length
    throws. *)
Definition newFloat32Array (len : Q) : option (list cell) :=
  let n := trunc len in
  if n <? 0 then None else Some (replicate (Z.to_nat n) (Some 0%Q)).

(** A number used as an array index names a cell only if it is a
    non-negative integer. *)
Definition index_of (q : Q) : option nat :=
  if num_eqb q (floor q) && num_leb 0 q then Some (Z.to_nat (Qfloor q)) else None.

(** [arr[ind]], as it arrives in a cell it is stored to: a read outside the
    array is [undefined], stored as [NaN]. *)
Definition readAt (arr : list cell) (ind : Q) : cell :=
  i ← index_of ind; c ← arr !! i; c.

(** The values [i] takes in [for (i = from; i < to; i++)]. *)
Definition steps (from to : Q) : list Q :=
  map (fun k => (from + inject_Z (Z.of_nat k))%Q)
      (seq 0 (Z.to_nat (Qceiling (to - from)))).

(** [res[vInd++] = x]: a write past the end of a typed array is dropped. *)
Definition put (x : cell) (st : list cell * nat) : list cell * nat :=
  (<[snd st := x]> (fst st), Datatypes.S (snd st)).

(** The body of the inner loop, lines 40-43. *)
Definition copyVertex (sourceArr : list cell) (gridSize i j : Q)
    (st : list cell * nat) : list cell * nat :=
  let ind := (3 * (i * (gridSize + 1) + j))%Q in
  put (readAt sourceArr (ind + 2))
    (put (readAt sourceArr (ind + 1))
      (put (readAt sourceArr ind) st)).

Definition getMatrixSubArray (sourceArr : option (list cell))
    (gridSize i0 j0 size : Q) : option (list cell) :=
  let i0size := (i0 + size + 1)%Q in
  let j0size := (j0 + size + 1)%Q in
  res ← newFloat32Array (i0size * j0size * 3);
  match sourceArr with
  | Some src =>
      Some (fst (foldl (fun st i =>
                   foldl (fun st j => copyVertex src gridSize i j st)
                         st (steps j0 j0size))
                 (res, O) (steps i0 i0size)))
  | None =>
      match steps i0 i0size, steps j0 j0size with
      | _ :: _, _ :: _ => None
      | _, _ => Some res
      end
  end.

(** ** whileTerrainLoading (Node.js, lines 500-629) *)

(** Modelled from the spec: the vectors of math/Vec3.js (not among the
    sources) are three coordinates, scaled and added coordinate by
    coordinate; a coordinate computed from [NaN] is [NaN]. *)
Definition Vec3 : Type := cell * cell * cell.

Definition cell_lift (f : Q -> Q -> Q) (a b : cell) : cell :=
  x ← a; y ← b; Some (f x y).

Definition vec_sub (a b : Vec3) : Vec3 :=
  let '(ax, ay, az) := a in
  let '(bx, by_, bz) := b in
  (cell_lift Qminus ax bx, cell_lift Qminus ay by_, cell_lift Qminus az bz).

Definition vec_add (a b : Vec3) : Vec3 :=
  let '(ax, ay, az) := a in
  let '(bx, by_, bz) := b in
  (cell_lift Qplus ax bx, cell_lift Qplus ay by_, cell_lift Qplus az bz).

Definition scaleTo (a : Vec3) (s : Q) : Vec3 :=
  let '(ax, ay, az) := a in
  (cell_lift Qmult ax (Some s), cell_lift Qmult ay (Some s), cell_lift Qmult az (Some s)).

(** The vertex made of the cells [k], [k+1], [k+2] of a typed array. *)
Definition vertexAt (arr : list cell) (k : nat) : Vec3 :=
  (mjoin (arr !! k), mjoin (arr !! (k + 1)%nat), mjoin (arr !! (k + 2)%nat)).

Definition _vertOrder : list (Q * Q) := [(0, 0); (1, 0); (0, 1); (1, 1)]%Q.

(** [Math.sqrt(_vertOrder.length) - 1] *)
Definition _neGridSize : Q := 1.

(** Lines 538-545: the node is at most as fine as one ancestor cell. *)
Definition subMesh (this pn : ref) (grid fgs fgsZ : Q) (offsetX offsetY : Z)
    (w : World) : option (option (list cell) * option (list cell) * World) :=
  w ← modify_segment this (seg_set_gridSize grid) w;
  w ← modify this (fun n => Some (set_sideSize (Some (quad_all grid)) n)) w;
  pseg ← segmentAt w pn;
  tempVertices ← getMatrixSubArray (terrainVertices pseg) (gridSize pseg)
    (grid * inject_Z offsetY) (grid * inject_Z offsetX) grid;
  tempNormalMapNormals ← getMatrixSubArray (normalMapNormals pseg) fgs
    (fgsZ * inject_Z offsetY) (fgsZ * inject_Z offsetX) fgsZ;
  Some (Some tempVertices, Some tempNormalMapNormals, w).

(** Lines 547-590: the node lies inside one ancestor cell. *)
Definition interpolate (this pn : ref) (grid : Q) (offsetX offsetY : Z)
    (w : World) : option (option (list cell) * option (list cell) * World) :=
  w ← modify_segment this (seg_set_gridSize _neGridSize) w;
  seg ← segmentAt w this;
  w ← modify this (fun n => Some (set_sideSize (Some (quad_all (gridSize seg))) n)) w;
  let i0 := floor (grid * inject_Z offsetY) in
  let j0 := floor (grid * inject_Z offsetX) in
  pseg ← segmentAt w pn;
  bigOne ← getMatrixSubArray (terrainVertices pseg) (gridSize pseg) i0 j0 1;
  insideSize ← num_div 1 grid;
  let t_i0 := (inject_Z offsetY - insideSize * i0)%Q in
  let t_j0 := (inject_Z offsetX - insideSize * j0)%Q in
  let v_lt := vertexAt bigOne 0 in
  let v_rb := vertexAt bigOne 9 in
  let vn := vec_sub (vertexAt bigOne 3) (vertexAt bigOne 0) in
  let vw := vec_sub (vertexAt bigOne 6) (vertexAt bigOne 0) in
  let ve := vec_sub (vertexAt bigOne 3) (vertexAt bigOne 9) in
  let vs := vec_sub (vertexAt bigOne 6) (vertexAt bigOne 9) in
  tempVertices ← newFloat32Array (3 * inject_Z (Z.of_nat (length _vertOrder)));
  let tempVertices :=
    foldl (fun tv '(i, (x, y)) =>
             let vi_y := (y + t_i0)%Q in
             let vi_x := (x + t_j0)%Q in
             let vi_x_is := (vi_x * grid)%Q in
             let vi_y_is := (vi_y * grid)%Q in
             let '(cx, cy, cz) :=
               if num_ltb (vi_y + vi_x) insideSize
               then vec_add (vec_add (scaleTo vn vi_x_is) (scaleTo vw vi_y_is)) v_lt
               else vec_add (vec_add (scaleTo vs (1 - vi_x_is)) (scaleTo ve (1 - vi_y_is))) v_rb in
             let i3 := (i * 3)%nat in
             <[(i3 + 2)%nat := cz]> (<[(i3 + 1)%nat := cy]> (<[i3 := cx]> tv)))
          tempVertices (imap (fun i v => (i, v)) _vertOrder) in
  Some (Some tempVertices, None, w).

(** Lines 527-598: the mesh inherited from the ancestor [pn]. *)
Definition inheritMesh (this pn : ref) (dZ2 offsetX offsetY : Z) (w : World)
    : option (option (list cell) * option (list cell) * World) :=
  n ← getNode w this;
  pnode ← getNode w pn;
  pseg ← segment pnode;
  if terrainExists pseg && negb (appliedTerrainNodeId n =? nodeId pnode) then
    grid ← num_div (gridSize pseg) (inject_Z dZ2);
    let fgs := fileGridSize (terrain w) in
    fgsZ ← num_div fgs (inject_Z dZ2);
    w ← seg_call this (deleteBuffers this) w;
    w ← modify_segment this (seg_set_refreshIndexesBuffer true) w;
    '(tempVertices, tempNormalMapNormals, w) ←
      (if num_leb 1 grid
       then subMesh this pn grid fgs fgsZ offsetX offsetY w
       else interpolate this pn grid offsetX offsetY w);
    seg ← segmentAt w this;
    vertices ← tempVertices;
    w ← seg_call this (createCoordsBuffers this vertices (gridSize seg)) w;
    w ← modify_segment this (seg_set_tempVertices tempVertices) w;
    pnode ← getNode w pn;
    w ← modify this (fun n => Some (set_appliedTerrainNodeId (nodeId pnode) n)) w;
    Some (tempVertices, tempNormalMapNormals, w)
  else Some (None, None, w).

(** Lines 600-625: the node is deeper than the terrain goes. *)
Definition beyondMaxZoom (fuel : nat) (this pn : ref)
    (tempVertices tempNormalMapNormals : option (list cell)) (w : World)
    : option World :=
  seg ← segmentAt w this;
  let maxZ := maxZoom (terrain w) in
  if maxZ <? tileZoom seg then
    pseg ← segmentAt w pn;
    if maxZ <=? tileZoom pseg then
      w ← modify_segment this (seg_set_terrainReady true) w;
      w ← modify_segment this (seg_set_terrainIsLoading false) w;
      w ← modify this (fun n => Some (set_appliedTerrainNodeId (nodeId n) n)) w;
      pseg ← segmentAt w pn;
      if terrainExists pseg then
        w ← modify_segment this (seg_set_terrainExists true) w;
        w ← modify_segment this (seg_set_terrainVertices tempVertices) w;
        w ← modify_segment this (seg_set_normalMapNormals tempNormalMapNormals) w;
        raw ← tempNormalMapNormals;
        modify_segment this (seg_set_normalMapNormalsRaw (Some raw)) w
      else Some w
    else
      pn ← climb fuel (fun s => tileZoom s =? maxZ) w this;
      pns ← segmentAt w pn;
      w ← (if negb (seg_ready pns) then seg_createPlainSegment pn w else Some w);
      seg_call pn (loadTerrain pn) w
  else Some w.

Definition whileTerrainLoading (fuel : nat) (this : ref) (w : World)
    : option (bool * World) :=
  seg ← segmentAt w this;
  w ← (if negb (seg_ready seg) then seg_createPlainSegment this w else Some w);
  pn ← climb fuel terrainReady w this;
  pseg ← segmentAt w pn;
  w ← (if terrainReady pseg then
         let dZ2 := shl32 2 (tileZoom seg - tileZoom pseg - 1) in
         let offsetX := tileX seg - tileX pseg * dZ2 in
         let offsetY := tileY seg - tileY pseg * dZ2 in
         '(tempVertices, tempNormalMapNormals, w) ←
           inheritMesh this pn dZ2 offsetX offsetY w;
         beyondMaxZoom fuel this pn tempVertices tempNormalMapNormals w
       else Some w);
  Some (true, w).

(** ** destroy (Node.js, lines 631-644) *)

(** [n[s] && n[s].neighbors && (n[s].neighbors[t] = null)] with
    [n = this.neighbors]. *)
Definition unlink (this : ref) (s t : quadTree.Side) (w : World) : option World :=
  nd ← getNode w this;
  n ← neighbors nd;
  match side_get n s with
  | None => Some w
  | Some m =>
      mn ← getNode w m;
      match neighbors mn with
      | None => Some w
      | Some _ => modify m (assign_neighbor t None) w
      end
  end.

(** Line 640 assigns [this.hasNeighbors], a property the node does not
    otherwise have; [hasNeighbor] is not touched. *)
Definition destroy (this : ref) (w : World) : option World :=
  w ← modify this (fun n => Some (set_state (Some quadTree.NOTRENDERING) n)) w;
  w ← seg_call this (destroySegment this) w;
  w ← unlink this quadTree.N quadTree.S w;
  w ← unlink this quadTree.E quadTree.W w;
  w ← unlink this quadTree.S quadTree.N w;
  w ← unlink this quadTree.W quadTree.E w;
  w ← modify this (fun n => Some (set_neighbors None n)) w;
  w ← modify this (fun n => Some (set_parentNode None n)) w;
  w ← modify this (fun n => Some (set_sideSize None n)) w;
  modify this (fun n => Some (set_segment None n)) w.

(** ** Sample data *)

Definition sampleOracle : SegmentOracle := fun _ _ _ => mkSegmentInit 0 0 32.

Definition sampleExtent (lon0 lat0 lon1 lat1 : Q) : Extent :=
  mkExtent (newLonLat lon0 lat0) (newLonLat lon1 lat1).

(** A live node without parent or children, as the constructor leaves it,
    for a segment of the given zoom, extent and grid size. *)
Definition sampleNode (zoom : Z) (e : Extent) (grid : Q) : Node :=
  mkNode EPSG3857 None quadTree.NW 0 None (-1) (Some (quad_all 1%Q)) false
    (quad_all false) (Some (quad_all None)) (quad_all None)
    (Some (seg_set_gridSize grid (newSegment sampleOracle EPSG3857 zoom e))) false.

Definition sampleCamera : Camera :=
  mkCamera (mkLonLat 0 0 0) (mkLonLat 0 0 0) None None.

Definition sampleWorld (h : gmap ref Node) (rendered : list ref) : World :=
  mkWorld h rendered 0 sampleCamera (mkTerrain 0 14 32) [].

(** ** getState (Node.js, lines 194-204) *)

(** The loop of lines 197-202 from the ancestor [pn] upwards: [false] is
    the early [return quadTree.NOTRENDERING], [true] the end of the loop. *)
Fixpoint ancestorsWalked (fuel : nat) (w : World) (pn : option ref) : option bool :=
  match pn with
  | None => Some true
  | Some p =>
      match fuel with
      | O => None
      | Datatypes.S fuel =>
          n ← getNode w p;
          if bool_decide (state n = Some quadTree.WALKTHROUGH)
          then ancestorsWalked fuel w (parentNode n)
          else Some false
      end
  end.

Definition getState (fuel : nat) (w : World) (this : ref)
    : option (option quadTree.State) :=
  n ← getNode w this;
  walked ← ancestorsWalked fuel w (parentNode n);
  Some (if (walked : bool) then state n else Some quadTree.NOTRENDERING).

(** ** isBrother (Node.js, lines 258-261) *)

(** [node.id]: neither the constructor (lines 60-77) nor the prototype gives
    a node a property [id], its identifier is [nodeId]; the read yields
    [undefined] ([None]). *)
Definition Node_id (n : Node) : option Z := None.

(** [!(this.parentNode || node.parentNode) ||
     this.parentNode.id === node.parentNode.id] *)
Definition isBrother (w : World) (this node : ref) : option bool :=
  a ← getNode w this;
  b ← getNode w node;
  match parentNode a, parentNode b with
  | None, None => Some true
  | _, _ =>
      pa ← parentNode a;
      pan ← getNode w pa;
      pb ← parentNode b;
      pbn ← getNode w pb;
      Some (bool_decide (Node_id pan = Node_id pbn))
  end.

(** ** The children array and its length

    [destroyBranches] sets [this.nodes.length = 0]; the loops of
    [clearTree], [destroyBranches] and [traverseTree] run up to
    [this.nodes.length].  The array has four slots from the constructor on,
    none after line 679, and four again once [createChildrenNodes] has
    stored the children.  The node record keeps four slots, which read
    [undefined] in an emptied array; the forest keeps, beside the planet,
    the nodes whose array is emptied. *)
Record Forest := mkForest {
  planet : World;
  emptied : gset ref
}.

(** [r.nodes.length] *)
Definition nodesLength (f : Forest) (r : ref) : nat :=
  if decide (r ∈ emptied f) then 0%nat else 4%nat.

Definition part_at (i : nat) : option quadTree.Part :=
  match i with
  | 0%nat => Some quadTree.NW
  | 1%nat => Some quadTree.NE
  | 2%nat => Some quadTree.SW
  | 3%nat => Some quadTree.SE
  | _ => None
  end.

(** [r.nodes[i]] for an index within the array. *)
Definition nodeAt (f : Forest) (r : ref) (i : nat) : option (option ref) :=
  n ← getNode (planet f) r;
  p ← part_at i;
  Some (part_get (nodes n) p).

(** A step that concerns the planet only. *)
Definition onPlanet (g : World -> option World) (f : Forest) : option Forest :=
  w ← g (planet f); Some (mkForest w (emptied f)).

(** [for (i = 0; i < l.length; i++) body(l[i])] over an array that the
    body does not change. *)
Fixpoint forEach {A S : Type} (body : A -> S -> option S) (l : list A) (s : S)
    : option S :=
  match l with
  | [] => Some s
  | a :: rest => s' ← body a s; forEach body rest s'
  end.

(** [for (; i < this.nodes.length; i++) this.nodes[i].body()]: the length
    and the slot are read at each turn; at most four turns are left from
    [i = 0], the array having at most four slots. *)
Fixpoint forNodes (turns i : nat) (body : ref -> Forest -> option Forest)
    (this : ref) (f : Forest) : option Forest :=
  match turns with
  | O => Some f
  | Datatypes.S turns =>
      if decide (i < nodesLength f this)%nat then
        c ← nodeAt f this i;
        c ← c;
        f' ← body c f;
        forNodes turns (Datatypes.S i) body this f'
      else Some f
  end.

(** ** destroyBranches (Node.js, lines 668-690) *)

(** [this.nodes.length = 0] *)
Definition truncateNodes (this : ref) (f : Forest) : option Forest :=
  n ← getNode (planet f) this;
  Some (mkForest (setNode this (set_nodes (quad_all None) n) (planet f))
                 ({[this]} ∪ emptied f)).

(** The copy of lines 674-676: the slots of [this.nodes], as many as the
    array is long. *)
Definition nodesToRemove (f : Forest) (n : Node) (this : ref) : list (option ref) :=
  take (nodesLength f this)
       [q0 (nodes n); q1 (nodes n); q2 (nodes n); q3 (nodes n)].

Fixpoint destroyBranches (fuel : nat) (this : ref) (f : Forest) : option Forest :=
  match fuel with
  | O => None
  | Datatypes.S fuel =>
      n ← getNode (planet f) this;
      if ready n then
        let removed := nodesToRemove f n this in
        f ← onPlanet (modify this (fun n => Some (set_ready false n))) f;
        f ← truncateNodes this f;
        forEach (fun (c : option ref) f =>
                   c ← c;
                   f ← destroyBranches fuel c f;
                   onPlanet (destroy c) f)
                removed f
      else Some f
  end.

(** ** clearTree (Node.js, lines 646-659) *)

Fixpoint clearTree (fuel : nat) (this : ref) (f : Forest) : option Forest :=
  match fuel with
  | O => None
  | Datatypes.S fuel =>
      st ← getState fuel (planet f) this;
      if bool_decide (st = Some quadTree.NOTRENDERING) then
        destroyBranches fuel this f
      else if bool_decide (st = Some quadTree.RENDERING) then
        destroyBranches fuel this f
      else forNodes 4 0 (clearTree fuel) this f
  end.

(** ** traverseTree (Node.js, lines 692-699) *)

(** The callback is any function of the node; it may change the forest. *)
Fixpoint traverseTree (fuel : nat) (callback : ref -> Forest -> option Forest)
    (this : ref) (f : Forest) : option Forest :=
  match fuel with
  | O => None
  | Datatypes.S fuel =>
      f ← callback this f;
      n ← getNode (planet f) this;
      if ready n then forNodes 4 0 (traverseTree fuel callback) this f
      else Some f
  end.

(** ** prepareForRendering, traverseNodes, renderTree and renderNode
       (Node.js, lines 236-256 and 263-375) *)

(** Calls of [renderTree] and [renderNode] to the segment of node [r] that
    the calls of [Call] do not cover.  They are recorded in call order, in
    a list of their own. *)
Inductive ViewCall :=
| collectRenderNodes (r : ref)
| addViewExtent (r : ref).

(** The planet as [renderTree] and [renderNode] use it: the world, and the
    fields [lightEnabled], [maxCurrZoom], [minCurrZoom] and
    [terrain.gridSizeByZoom.length]. *)
Record Planet := mkPlanet {
  world : World;
  lightEnabled : bool;
  maxCurrZoom : Z;
  minCurrZoom : Z;
  gridSizeByZoom_length : Z;
  viewCalls : list ViewCall
}.

Definition set_world (w : World) (p : Planet) : Planet :=
  mkPlanet w (lightEnabled p) (maxCurrZoom p) (minCurrZoom p)
    (gridSizeByZoom_length p) (viewCalls p).
Definition set_maxCurrZoom (z : Z) (p : Planet) : Planet :=
  mkPlanet (world p) (lightEnabled p) z (minCurrZoom p)
    (gridSizeByZoom_length p) (viewCalls p).
Definition set_minCurrZoom (z : Z) (p : Planet) : Planet :=
  mkPlanet (world p) (lightEnabled p) (maxCurrZoom p) z
    (gridSizeByZoom_length p) (viewCalls p).
Definition viewCall (c : ViewCall) (p : Planet) : Planet :=
  mkPlanet (world p) (lightEnabled p) (maxCurrZoom p) (minCurrZoom p)
    (gridSizeByZoom_length p) (viewCalls p ++ [c]).

(** A function of the world, run on the world of the planet. *)
Definition onWorld (g : World -> option World) (p : Planet) : option Planet :=
  w ← g (world p); Some (set_world w p).

(** Modelled from the spec: the tests that [renderTree] leaves to the
    camera and to the segment, whose classes are not among the sources.
    [containsSphere w r] is [cam.frustum.containsSphere(seg.bsphere)],
    [nearEnough w r] is the comparison
    [cam.eye.distance(seg.bsphere.center) - seg.bsphere.radius <
     VISIBLE_DISTANCE * Math.sqrt(h)] and [acceptForRendering w r] is
    [seg.acceptForRendering(cam)], for the segment [seg] of node [r]; they
    can read anything of the world. *)
Record View := mkView {
  containsSphere : World -> ref -> bool;
  nearEnough : World -> ref -> bool;
  acceptForRendering : World -> ref -> bool
}.

(** [this.state = quadTree.NOTRENDERING] *)
Definition hide (this : ref) (p : Planet) : option Planet :=
  onWorld (modify this (fun n => Some (set_state (Some quadTree.NOTRENDERING) n))) p.

(** [renderNode] (lines 340-375).  [loops] bounds the loops over the
    parent links in [whileTerrainLoading] and [whileNormalMapCreating]. *)
Definition renderNode (loops : nat) (onlyTerrain : bool) (this : ref) (p : Planet)
    : option Planet :=
  seg ← segmentAt (world p) this;
  p ← (if negb (terrainReady seg) then
         '(go, w) ← whileTerrainLoading loops this (world p);
         if (go : bool)
         then onWorld (seg_call this (loadTerrain this)) (set_world w p)
         else Some (set_world w p)
       else Some p);
  if onlyTerrain then hide this p
  else
    seg ← segmentAt (world p) this;
    p ← (if lightEnabled p && negb (normalMapReady seg) &&
            negb (parentNormalMapReady seg)
         then onWorld (whileNormalMapCreating loops this) p
         else Some p);
    n ← getNode (world p) this;
    seg ← segment n;
    let p := if negb (_cameraInside n) && (maxCurrZoom p <? tileZoom seg)
             then set_maxCurrZoom (tileZoom seg) p else p in
    let p := if tileZoom seg <? minCurrZoom p
             then set_minCurrZoom (tileZoom seg) p else p in
    let p := viewCall (addViewExtent this) p in
    onWorld (addToRender this) p.

(** [prepareForRendering] (lines 236-246) *)
Definition prepareForRendering (loops : nat) (h : Q) (altVis onlyTerrain : bool)
    (this : ref) (p : Planet) : option Planet :=
  if num_ltb h 3000000 then
    if altVis then renderNode loops onlyTerrain this p
    else hide this p
  else renderNode loops onlyTerrain this p.

(** [this.nodes[part].renderTree(maxZoom)]; the slot is read when the call
    is made. *)
Definition renderChild (renderTree : ref -> Planet -> option Planet)
    (this : ref) (part : quadTree.Part) (p : Planet) : option Planet :=
  n ← getNode (world p) this;
  c ← part_get (nodes n) part;
  renderTree c p.

(** [traverseNodes] (lines 248-256); [renderTree] is the method it calls
    on the children. *)
Definition traverseNodes (renderTree : ref -> Planet -> option Planet)
    (oracle : SegmentOracle) (this : ref) (p : Planet) : option Planet :=
  n ← getNode (world p) this;
  p ← (if negb (ready n) then onWorld (createChildrenNodes oracle this) p
       else Some p);
  p ← renderChild renderTree this quadTree.NW p;
  p ← renderChild renderTree this quadTree.NE p;
  p ← renderChild renderTree this quadTree.SW p;
  renderChild renderTree this quadTree.SE p.

(** [!maxZoom] for an argument that is a number or [undefined] ([None]). *)
Definition falsy (maxZoom : option Z) : bool :=
  match maxZoom with
  | None => true
  | Some z => z =? 0
  end.

(** [renderTree] (lines 263-333).  [fuel] bounds the depth of the
    recursion through [traverseNodes]. *)
Fixpoint renderTree (fuel loops : nat) (view : View) (oracle : SegmentOracle)
    (maxZoom : option Z) (this : ref) (p : Planet) : option Planet :=
  match fuel with
  | O => None
  | Datatypes.S fuel =>
      p ← onWorld (renderTree_enter this) p;
      n ← getNode (world p) this;
      seg ← segment n;
      let cam := activeCamera (world p) in
      let inFrustum := containsSphere view (world p) this in
      let underBottom := false in
      let h := height (_lonLat cam) in
      let onlyTerrain := negb inFrustum && underBottom in
      let altVis := nearEnough view (world p) this in
      p ← (if inFrustum || onlyTerrain || _cameraInside n then
             if (tileZoom seg <? 2) && normalMapReady seg then
               traverseNodes (renderTree fuel loops view oracle maxZoom) oracle this p
             else if bool_decide (maxZoom = Some (tileZoom seg)) ||
                     falsy maxZoom && acceptForRendering view (world p) this then
               prepareForRendering loops h altVis onlyTerrain this p
             else if tileZoom seg <? gridSizeByZoom_length p - 1 then
               traverseNodes (renderTree fuel loops view oracle maxZoom) oracle this p
             else
               prepareForRendering loops h altVis onlyTerrain this p
           else hide this p);
      Some (if inFrustum && (altVis || num_ltb 10000 h)
            then viewCall (collectRenderNodes this) p else p)
  end.

(* ===================================================================== *)
(** * Notions used by the statements *)
(* ===================================================================== *)

(** ** getCommonSide: the antimeridian rules *)

Definition antimeridianWorld : World :=
  sampleWorld
    (<[1%nat := sampleNode 1 (sampleExtent (-180) 0 (-90) 90) 32]>
       (<[0%nat := sampleNode 1 (sampleExtent 90 0 180 90) 32]> ∅)) [].

(** ** Total correctness of a fallible computation *)

(** [ok m Q]: the computation [m] returns, and its result satisfies [Q]. *)
Definition ok {A} (m : option A) (Q : A -> Prop) : Prop :=
  exists a, m = Some a /\ Q a.

(** ** What one assignment changes *)

Definition keeps_neighbors (w w' : World) : Prop :=
  forall r s, neighborAt w' r s = neighborAt w r s.
Definition keeps_sideSize (w w' : World) : Prop :=
  forall r s, sideSizeAt w' r s = sideSizeAt w r s.
Definition keeps_hasNeighbor (w w' : World) : Prop :=
  forall r s, hasNeighborAt w' r s = hasNeighborAt w r s.
Definition keeps_segment (w w' : World) : Prop :=
  forall r, segmentAt w' r = segmentAt w r.
Definition keeps_rendered (w w' : World) : Prop :=
  _renderedNodes w' = _renderedNodes w.

(** ** addToRender: one encounter *)

(** Two slots assigned one after the other, [(node, cs)] then
    [(ni, opcs)]: how an observation [obs] of the store reads afterwards. *)
Definition two_slots {X} (obs obs' : ref -> quadTree.Side -> option X)
    (node : ref) (cs : quadTree.Side) (v1 : X)
    (ni : ref) (opcs : quadTree.Side) (v2 : X) : Prop :=
  forall r s, obs' r s =
    if decide (r = ni /\ s = opcs) then Some v2
    else if decide (r = node /\ s = cs) then Some v1
    else obs r s.

(** The sizes the negotiation chooses for the ratio [ld]. *)
Definition chosenSizes (ap bp : Segment) (ld v1 v2 : Q) : Prop :=
  ((1 < ld)%Q -> v1 = ceil (gridSize ap / ld) /\ v2 = gridSize bp) /\
  ((ld < 1)%Q -> v1 = gridSize ap /\ v2 = ceil (gridSize bp * ld)) /\
  ((ld == 1)%Q -> v1 = gridSize ap /\ v2 = gridSize bp).

(** A node at zoom 5 beside a node at zoom 3, both with grid size 32. *)
Definition seamWorld : World :=
  sampleWorld
    (<[1%nat := sampleNode 3 (sampleExtent 0 0 40 40) 32]>
       (<[0%nat := sampleNode 5 (sampleExtent 40 0 50 10) 32]> ∅)) [1%nat].

(** Two nodes of the same zoom side by side; the first already has its
    flag set on the east side, the second has no flag set. *)
Definition guardWorld : World :=
  sampleWorld
    (<[1%nat := sampleNode 1 (sampleExtent 10 0 20 10) 32]>
       (<[0%nat := set_hasNeighbor (side_set (quad_all false) quadTree.E true)
                     (sampleNode 1 (sampleExtent 0 0 10 10) 32)]> ∅)) [1%nat].

(** ** addToRender: the whole loop *)

(** When the loop of [node.addToRender()] reaches the registered node [ni],
    the guard of line 396 lets the negotiation on the side [cs] run: the
    flag of [ni] on the opposite side is not set, or the flag of [node] on
    [cs] is not set and none of the nodes [met] that the loop met before
    [ni] has the side [cs] in common with [node] (the encounter with such a
    node sets that flag). *)
Definition negotiationRuns (w : World) (node ni : ref) (cs : quadTree.Side)
    (met : list ref) : Prop :=
  hasNeighborAt w ni (quadTree.OPSIDE cs) = Some false \/
  (hasNeighborAt w node cs = Some false /\
   Forall (fun nj => getCommonSide w node nj <> Some (Some cs)) met).

(** None of the nodes [rest] that the loop still has to meet negotiates the
    side [cs] of [node] again: those that have the side in common with
    [node] have their flag on the opposite side set already. *)
Definition sideSettled (w : World) (node : ref) (cs : quadTree.Side)
    (rest : list ref) : Prop :=
  Forall (fun nj => getCommonSide w node nj = Some (Some cs) ->
                    hasNeighborAt w nj (quadTree.OPSIDE cs) = Some true) rest.

(** A node at zoom 1 with grid size 32 and, registered on its east side,
    two nodes at zoom 2: the southern one with grid size 8, the northern
    one with grid size 32. *)
Definition lodWorld : World :=
  sampleWorld
    (<[2%nat := sampleNode 2 (sampleExtent 10 5 15 10) 32]>
       (<[1%nat := sampleNode 2 (sampleExtent 10 0 15 5) 8]>
          (<[0%nat := sampleNode 1 (sampleExtent 0 0 10 10) 32]> ∅)))
    [1%nat; 2%nat].

(** ** createChildrenNodes *)





(** ** renderTree: the camera-inside flag *)

(** The test the specification describes: mercator coordinates for a
    mercator segment below [MAX_LAT], equirectangular ones in every other
    case. *)
Definition specCameraTest (cam : Camera) (seg : Segment) : bool :=
  if num_leb (num_abs (lat (_lonLat cam))) MAX_LAT &&
     bool_decide (_projection seg = EPSG3857)
  then isInside (_extent seg) (_lonLatMerc cam)
  else isInside (_extent seg) (_lonLat cam).

(** A mercator segment with extent [0,0]..[100,100] under a parent that has
    the camera inside; the camera stands at latitude 89, above [MAX_LAT]. *)
Definition polarWorld : World :=
  mkWorld
    (<[1%nat := set_parentNode (Some 0%nat)
                  (sampleNode 1 (sampleExtent 0 0 100 100) 32)]>
       (<[0%nat := set_cameraInside true
                     (sampleNode 0 (sampleExtent 0 0 200 200) 32)]> ∅))
    [] 0 (mkCamera (mkLonLat 10 89 1000) (mkLonLat 10 89 1000) None None)
    (mkTerrain 0 14 32) [].

(** ** What is kept by an assignment, in general *)

(** The observation [obs] of every node reads the same in [w'] as in [w]. *)
Definition kept {X} (obs : Node -> X) (w w' : World) : Prop :=
  forall r, obs <$> getNode w' r = obs <$> getNode w r.

(** An observation of the segment, seen from the node. *)
Definition onSegment {X} (f : Segment -> X) (n : Node) : option X :=
  f <$> segment n.

(** ** Climbing the parent links *)

(** [lineage w r l]: [l] lists [r] and its ancestors, up to a node without
    parent. *)
Inductive lineage (w : World) : ref -> list ref -> Prop :=
| lineage_root r n :
    getNode w r = Some n -> parentNode n = None -> lineage w r [r]
| lineage_child r n p l :
    getNode w r = Some n -> parentNode n = Some p -> lineage w p l ->
    lineage w r (r :: l).

(** ** whileNormalMapCreating *)

(** The fields of a segment that place it in the tree of tiles. *)
Definition placement (s : Segment) : Z * Z * Z * bool :=
  (tileZoom s, tileX s, tileY s, normalMapReady s).

(** The normal map a segment samples: the texture and the bias. *)
Definition sampledMap (s : Segment) : option Z * (Q * Q * option Q) :=
  (normalMapTexture s, normalMapTextureBias s).

(** A tile of the given zoom and coordinates, with a texture handle. *)
Definition tileSegment (zoom x y : Z) (texture : option Z) : Segment :=
  mkSegment zoom x y (sampleExtent 0 0 1 1) EPSG3857 32
    false false false false false false false false
    None None None None texture (0%Q, 0%Q, Some 1%Q).

Definition tileNode (parent : option ref) (part : quadTree.Part) (id : Z)
    (s : Segment) : Node :=
  mkNode EPSG3857 parent part id None (-1) (Some (quad_all 1%Q)) false
    (quad_all false) (Some (quad_all None)) (quad_all None) (Some s) false.

(** A root, a child and a grandchild; no normal map is ready, the root
    holds the texture handle 7. *)
Definition normalMapWorld : World :=
  sampleWorld
    (<[2%nat := tileNode (Some 1%nat) quadTree.SE 10 (tileSegment 2 3 1 None)]>
       (<[1%nat := tileNode (Some 0%nat) quadTree.NE 2 (tileSegment 1 1 0 None)]>
          (<[0%nat := tileNode None quadTree.NW 0 (tileSegment 0 0 0 (Some 7))]> ∅)))
    [].

(** ** destroy *)

(** [a] holds [b] in the slot of side [s]. *)
Definition holds (w : World) (a : ref) (s : quadTree.Side) (b : ref) : Prop :=
  neighborAt w a s = Some (Some b).

(** Links come in facing pairs: a node held on side [s] holds its holder,
    if at all, on the opposite side. *)
Definition facing (w : World) : Prop :=
  forall a b s t, holds w a s b -> holds w b t a -> t = quadTree.OPSIDE s.

(** The four statements of lines 635-638, over the sides in order. *)
Fixpoint unlinks (this : ref) (sides : list quadTree.Side) (w : World) : option World :=
  match sides with
  | [] => Some w
  | s :: rest => w' ← unlink this s (quadTree.OPSIDE s) w; unlinks this rest w'
  end.

Definition present (w : World) (r : ref) : Prop := is_Some (getNode w r).

(** What is true of the store [w'] reached from [w] while node [x] is
    being unlinked: a slot either reads as before or was emptied, and only
    slots facing [x] are emptied. *)
Definition unlinking (x : ref) (w w' : World) : Prop :=
  (forall r u,
     neighborAt w' r u = neighborAt w r u \/
     (neighborAt w' r u = Some None /\
      exists s, neighborAt w x s = Some (Some r) /\ u = quadTree.OPSIDE s)) /\
  (forall r, present w r -> present w' r).

(** The node [x] is gone: the assignments of lines 639-643. *)
Definition dropReferences (x : ref) (w : World) : option World :=
  w ← modify x (fun n => Some (set_neighbors None n)) w;
  w ← modify x (fun n => Some (set_parentNode None n)) w;
  w ← modify x (fun n => Some (set_sideSize None n)) w;
  modify x (fun n => Some (set_segment None n)) w.

(** Two linked nodes: node 0 holds node 1 on its east side, node 1 holds
    node 0 on its west side. *)
Definition linkedWorld : World :=
  sampleWorld
    (<[1%nat := set_neighbors
                  (Some (side_set (quad_all None) quadTree.W (Some 0%nat)))
                  (sampleNode 1 (sampleExtent 10 0 20 10) 32)]>
       (<[0%nat := set_neighbors
                     (Some (side_set (quad_all None) quadTree.E (Some 1%nat)))
                     (sampleNode 1 (sampleExtent 0 0 10 10) 32)]> ∅))
    [0%nat; 1%nat].

(** ** whileTerrainLoading: the inherited mesh *)

(** The vertices of a 2 x 2 grid (3 x 3 vertices, 27 cells): cell [k] holds
    the number [100 + k]. *)
Definition gridVertices : list cell :=
  map (fun k => Some (inject_Z (100 + Z.of_nat k))) (seq 0 27).

Definition terrainSegment (zoom x y : Z) (ready : bool)
    (vertices : option (list cell)) : Segment :=
  mkSegment zoom x y (sampleExtent 0 0 1 1) EPSG3857 2
    true ready false ready false false false false
    vertices None vertices None None (0%Q, 0%Q, Some 1%Q).

(** A root with ready terrain on a 2 x 2 grid, and its south-east child
    (tile 1,1 of zoom 1), whose terrain is not loaded. *)
Definition terrainWorld : World :=
  mkWorld
    (<[1%nat := tileNode (Some 0%nat) quadTree.SE 4
                  (terrainSegment 1 1 1 false None)]>
       (<[0%nat := tileNode None quadTree.NW 0
                     (terrainSegment 0 0 0 true (Some gridVertices))]> ∅))
    [] 0 sampleCamera (mkTerrain 0 14 2) [].

(** The four vertices of the south-east cell of the root's grid: rows 1-2,
    columns 1-2. *)
Definition southEastPatch : list cell :=
  map (fun k => Some (inject_Z k))
      [112; 113; 114; 115; 116; 117; 121; 122; 123; 124; 125; 126].

(** ** getEqualNeighbor: the neighbour by tile coordinates *)

(** A path names a node by the parts chosen on the way down from the root;
    it is kept leaf first, as [pathId] is pushed. *)
Definition xbit (c : quadTree.Part) : Z :=
  match c with quadTree.NW | quadTree.SW => 0 | quadTree.NE | quadTree.SE => 1 end.

Definition ybit (c : quadTree.Part) : Z :=
  match c with quadTree.NW | quadTree.NE => 0 | quadTree.SW | quadTree.SE => 1 end.

Definition partOfBits (x y : Z) : quadTree.Part :=
  match x, y with
  | 0, 0 => quadTree.NW
  | 0, _ => quadTree.SW
  | _, 0 => quadTree.NE
  | _, _ => quadTree.SE
  end.

(** The tile coordinates of a path within the tree: the column counted from
    the west, the row counted from the north. *)
Fixpoint tileOf (path : list quadTree.Part) : Z * Z :=
  match path with
  | [] => (0, 0)
  | c :: rest =>
      let '(x, y) := tileOf rest in (2 * x + xbit c, 2 * y + ybit c)
  end.

(** The path of depth [d] to the tile [(x, y)], if the tile is one of the
    [2^d * 2^d] tiles of that depth. *)
Fixpoint pathOfTile (d : nat) (x y : Z) : option (list quadTree.Part) :=
  match d with
  | O => if (x =? 0) && (y =? 0) then Some [] else None
  | Datatypes.S d =>
      rest ← pathOfTile d (x / 2) (y / 2);
      Some (partOfBits (x mod 2) (y mod 2) :: rest)
  end.

(** One tile further across a side. *)
Definition tileStep (s : quadTree.Side) : Z * Z :=
  match s with
  | quadTree.N => (0, -1) | quadTree.E => (1, 0)
  | quadTree.S => (0, 1) | quadTree.W => (-1, 0)
  end.

(** Going down from [pn] along the parts of [path], root first; a missing
    child ends the descent with no node. *)
Fixpoint follow (w : World) (pn : option ref) (path : list quadTree.Part)
    : option (option ref) :=
  match pn, path with
  | Some r, c :: rest => n ← getNode w r; follow w (part_get (nodes n) c) rest
  | _, _ => Some pn
  end.

(** The node of the same depth across side [s] of the node at [path],
    found by its tile coordinates: no node if the tile is outside the tree
    or was never created. *)
Definition sameDepthNeighbor (w : World) (root : ref) (path : list quadTree.Part)
    (s : quadTree.Side) : option (option ref) :=
  let '(x, y) := tileOf path in
  let '(dx, dy) := tileStep s in
  match pathOfTile (length path) (x + dx) (y + dy) with
  | Some path' => follow w (Some root) (rev path')
  | None => Some None
  end.

(** The deepest existing node on the way to that tile: what the
    specification says is returned when the tile itself was never
    created. *)
Fixpoint followDeepest (w : World) (r : ref) (path : list quadTree.Part) : option ref :=
  match path with
  | [] => Some r
  | c :: rest =>
      n ← getNode w r;
      match part_get (nodes n) c with
      | Some r' => followDeepest w r' rest
      | None => Some r
      end
  end.

Definition deepestNeighbor (w : World) (root : ref) (path : list quadTree.Part)
    (s : quadTree.Side) : option (option ref) :=
  let '(x, y) := tileOf path in
  let '(dx, dy) := tileStep s in
  match pathOfTile (length path) (x + dx) (y + dy) with
  | Some path' => Some <$> followDeepest w root (rev path')
  | None => Some None
  end.

(** [descent w root path r]: the node [r] is reached from [root] along
    [path], and the parent links and part numbers on the way agree with the
    child slots. *)
Inductive descent (w : World) (root : ref) : list quadTree.Part -> ref -> Prop :=
| descent_root : descent w root [] root
| descent_child path p n c r cn :
    descent w root path p ->
    getNode w p = Some n ->
    part_get (nodes n) c = Some r ->
    getNode w r = Some cn ->
    parentNode cn = Some p ->
    partId cn = c ->
    descent w root (c :: path) r.

(** The neighbour path, part by part: a part with a sibling across the side
    is replaced by that sibling; otherwise it is mirrored and the step is
    carried to the level above. *)
Fixpoint nbPath (s : quadTree.Side) (path : list quadTree.Part)
    : option (list quadTree.Part) :=
  match path with
  | [] => None
  | c :: rest =>
      match quadTree.NEIGHBOUR s c with
      | Some c' => Some (c' :: rest)
      | None => (fun r => quadTree.OPPART s c :: r) <$> nbPath s rest
      end
  end.

(** A root with its four children; the north-west and the south-west
    child have children of their own, the north-east child has none. *)
Definition withChildren (a b c d : ref) (n : Node) : Node :=
  set_nodes (mkQuad (Some a) (Some b) (Some c) (Some d)) (set_ready true n).
Arguments withChildren (a b c d)%_nat_scope n.

Definition childNode (parent : ref) (part : quadTree.Part) (id zoom : Z) : Node :=
  tileNode (Some parent) part id (tileSegment zoom 0 0 None).
Arguments childNode parent%_nat_scope part (id zoom)%_Z_scope.

Definition treeWorld : World :=
  sampleWorld
    (list_to_map
       [ (0%nat, withChildren 1 2 3 4
                   (tileNode None quadTree.NW 0 (tileSegment 0 0 0 None)));
         (1%nat, withChildren 5 6 7 8 (childNode 0 quadTree.NW 1 1));
         (2%nat, childNode 0 quadTree.NE 2 1);
         (3%nat, withChildren 9 10 11 12 (childNode 0 quadTree.SW 3 1));
         (4%nat, childNode 0 quadTree.SE 4 1);
         (5%nat, childNode 1 quadTree.NW 5 2);
         (6%nat, childNode 1 quadTree.NE 6 2);
         (7%nat, childNode 1 quadTree.SW 7 2);
         (8%nat, childNode 1 quadTree.SE 8 2);
         (9%nat, childNode 3 quadTree.NW 13 2);
         (10%nat, childNode 3 quadTree.NE 14 2);
         (11%nat, childNode 3 quadTree.SW 15 2);
         (12%nat, childNode 3 quadTree.SE 16 2) ])
    [].

(** ** A frame: the neighbour links *)

(** A node the frame can register: its arrays are there and its segment
    has a positive grid size. *)
Definition live (w : World) (r : ref) : Prop :=
  (forall s, is_Some (neighborAt w r s)) /\
  (forall s, is_Some (sideSizeAt w r s)) /\
  exists seg, segmentAt w r = Some seg /\ (0 < gridSize seg)%Q.

Definition keeps_live (w w' : World) : Prop := forall r, live w r -> live w' r.

(** [x.getCommonSide(y)] answers [s], in the store [w0] at the start of the
    frame: the extents and zooms that [getCommonSide] compares do not
    change during the frame. *)
Definition commonSideIs (w0 : World) (x y : ref) (s : quadTree.Side) : Prop :=
  getCommonSide w0 x y = Some (Some s).

(** Side [t] of [b] is a common side of [b] and [c], as seen from either
    node. *)
Definition touches (w0 : World) (b : ref) (t : quadTree.Side) (c : ref) : Prop :=
  commonSideIs w0 b c t \/ commonSideIs w0 c b (quadTree.OPSIDE t).

(** While [x] registers against the rendered list [R], having met the
    nodes [P] so far. *)
Record Inner (w0 w : World) (R : list ref) (x : ref) (P : list ref) : Prop := {
  in_segment : keeps_segment w0 w;
  in_own : forall s b, holds w x s b -> b ∈ P /\ commonSideIs w0 x b s;
  in_back : forall a t, a ∈ R -> holds w a t x ->
            a ∈ P /\ commonSideIs w0 x a (quadTree.OPSIDE t);
  in_closed : forall a s b, a ∈ R -> holds w a s b -> b ∈ R \/ b = x;
  in_facing : facing w0 ->
              forall a b s t, a <> x -> b <> x ->
                holds w a s b -> holds w b t a -> t = quadTree.OPSIDE s;
  in_symmetric : forall a b s,
      (a ∈ R \/ a = x) -> (b ∈ R \/ b = x) -> holds w a s b ->
      holds w b (quadTree.OPSIDE s) a \/
      exists c, (c ∈ R \/ c = x) /\ c <> a /\ touches w0 b (quadTree.OPSIDE s) c
}.

(** Between two registrations, with rendered list [R]. *)
Record Outer (w0 w : World) (R : list ref) : Prop := {
  out_segment : keeps_segment w0 w;
  out_rendered : _renderedNodes w = R;
  out_closed : forall a s b, a ∈ R -> holds w a s b -> b ∈ R;
  out_facing : facing w0 -> facing w;
  out_symmetric : forall a b s,
      a ∈ R -> b ∈ R -> holds w a s b ->
      holds w b (quadTree.OPSIDE s) a \/
      exists c, c ∈ R /\ c <> a /\ touches w0 b (quadTree.OPSIDE s) c
}.

(** The nodes a list of visits registers, in order. *)
Definition renderedOf (vs : list Visit) : list ref :=
  omap (fun v => match v with Rendered x => Some x | Passed _ => None end) vs.

(** A coarse node (0) with two finer nodes (1 and 2) along its east
    side. *)
Definition mixedWorld : World :=
  sampleWorld
    (<[2%nat := sampleNode 2 (sampleExtent 10 5 15 10) 32]>
       (<[1%nat := sampleNode 2 (sampleExtent 10 0 15 5) 32]>
          (<[0%nat := sampleNode 1 (sampleExtent 0 0 10 10) 32]> ∅)))
    [].

Definition mixedFrame : list Visit := [Rendered 0%nat; Rendered 1%nat; Rendered 2%nat].

(** ** getMatrixSubArray: the patch *)

(** The three cells of the vertex that starts at cell [k] of [src], as they
    are read: a cell outside the array reads [NaN]. *)
Definition vertexCells (src : list cell) (k : nat) : list cell :=
  [mjoin (src !! k); mjoin (src !! (k + 1)%nat); mjoin (src !! (k + 2)%nat)].

(** Row [r] of the patch of [n + 1] columns that starts at row [a], column
    [b] of a grid of [g + 1] columns. *)
Definition patchRow (src : list cell) (g a b n r : nat) : list cell :=
  flat_map (fun c => vertexCells src (3 * ((a + r) * (g + 1) + (b + c)))%nat)
           (seq 0 (Datatypes.S n)).

(** The patch of [(n + 1) * (n + 1)] vertices, row by row. *)
Definition patchOf (src : list cell) (g a b n : nat) : list cell :=
  flat_map (patchRow src g a b n) (seq 0 (Datatypes.S n)).

(** ** getCommonSide: the two ends of a shared edge *)

(** The coordinate of the edge of an extent on a side. *)
Definition edge (e : Extent) (s : quadTree.Side) : Q :=
  match s with
  | quadTree.N => lat (northEast e)
  | quadTree.E => lon (northEast e)
  | quadTree.S => lat (southWest e)
  | quadTree.W => lon (southWest e)
  end.

(** An extent of positive width and height. *)
Definition properExtent (e : Extent) : Prop :=
  (lon (southWest e) < lon (northEast e))%Q /\
  (lat (southWest e) < lat (northEast e))%Q.

(** ** createChildrenNodes: the four new nodes *)

(** The extent of the child in slot [part] of a node with extent [ext]
    (lines 97-107). *)
Definition childExtent (ext : Extent) (part : quadTree.Part) : Extent :=
  let size_x := (getWidth ext * (1 # 2))%Q in
  let size_y := (getHeight ext * (1 # 2))%Q in
  let ne := northEast ext in
  let sw := southWest ext in
  let c := newLonLat (lon sw + size_x) (lat sw + size_y) in
  match part with
  | quadTree.NW => mkExtent (newLonLat (lon sw) (lat sw + size_y))
                            (newLonLat (lon sw + size_x) (lat ne))
  | quadTree.NE => mkExtent c (newLonLat (lon ne) (lat ne))
  | quadTree.SW => mkExtent (newLonLat (lon sw) (lat sw)) c
  | quadTree.SE => mkExtent (newLonLat (lon sw + size_x) (lat sw))
                            (newLonLat (lon ne) (lat sw + size_y))
  end.

(** The store after [this.createChildrenNodes()]: the four children
    [kids] are new objects, as the constructor builds them; [this] has them
    in its slots and is [ready]; the counter of created nodes went up by
    four; nothing else changed. *)
Record childrenCreated (oracle : SegmentOracle) (this : ref) (n : Node) (ps : Segment)
    (w w' : World) (kids : Quad ref) : Prop := {
  kids_distinct : NoDup [this; q0 kids; q1 kids; q2 kids; q3 kids];
  kids_new : forall p, getNode w (part_get kids p) = None;
  kids_parent :
    getNode w' this =
    Some (set_nodes (mkQuad (Some (q0 kids)) (Some (q1 kids))
                            (Some (q2 kids)) (Some (q3 kids)))
            (set_ready true n));
  kids_built : forall p,
    getNode w' (part_get kids p) =
    Some (newNode oracle (SegmentPrototype n) p (Some this) (nodeId n * 4 + 1)
            (tileZoom ps + 1) (childExtent (_extent ps) p));
  kids_others : forall r,
    r <> this -> (forall p, r <> part_get kids p) -> getNode w' r = getNode w r;
  kids_count : _createdNodesCount w' = _createdNodesCount w + 4;
  kids_world :
    _renderedNodes w' = _renderedNodes w /\ calls w' = calls w /\
    activeCamera w' = activeCamera w /\ terrain w' = terrain w
}.

(** ** addToRender: the side sizes stay within the grid *)

(** The grid size is a whole positive number. *)
Definition wholeGrid (seg : Segment) : Prop :=
  exists g : Z, 0 < g /\ (gridSize seg == inject_Z g)%Q.

(** Every side size of the node lies between 1 and the grid size of its
    segment. *)
Definition sizesBounded (w : World) (r : ref) : Prop :=
  exists seg, segmentAt w r = Some seg /\ wholeGrid seg /\
    forall s, exists v, sideSizeAt w r s = Some v /\ (1 <= v <= gridSize seg)%Q.

(** Three nodes side by side at zoom 3, 5 and 4 with grids of 32, 32 and 16;
    the first two are registered. *)
Definition boundedWorld : World :=
  sampleWorld
    (<[2%nat := sampleNode 4 (sampleExtent 50 0 70 20) 16]>
       (<[1%nat := sampleNode 5 (sampleExtent 40 0 50 10) 32]>
          (<[0%nat := sampleNode 3 (sampleExtent 0 0 40 40) 32]> ∅)))
    [0%nat; 1%nat].

(** ** destroy: what is left of the node *)

(** The node after lines 632 and 639-643 of [destroy]. *)
Definition destroyed (n : Node) : Node :=
  set_segment None
    (set_sideSize None
       (set_parentNode None
          (set_neighbors None (set_state (Some quadTree.NOTRENDERING) n)))).

(** From [w] to [w'] nothing changed but neighbour slots, and those were
    emptied. *)
Definition slotsCleared (w w' : World) : Prop :=
  kept (set_neighbors None) w w' /\
  (forall r u,
     neighborAt w' r u = neighborAt w r u \/
     (neighborAt w' r u = Some None /\ is_Some (neighborAt w r u))) /\
  _renderedNodes w' = _renderedNodes w /\ calls w' = calls w /\
  _createdNodesCount w' = _createdNodesCount w /\
  activeCamera w' = activeCamera w /\ terrain w' = terrain w.

(** ** getState: the effective state *)

(** The node [a] is in the state [WALKTHROUGH]. *)
Definition walkedAt (w : World) (a : ref) : bool :=
  bool_decide (state <$> getNode w a = Some (Some quadTree.WALKTHROUGH)).

(** ** The tree below a node *)

(** The shape of the tree of nodes under a node: a node without children
    array in use ([Leaf]) or a node with its four subtrees, in the order of
    the slots NW, NE, SW, SE. *)
Inductive Tree :=
| Leaf (r : ref)
| Branch (r : ref) (nw ne sw se : Tree).

Definition rootOf (t : Tree) : ref :=
  match t with Leaf r | Branch r _ _ _ _ => r end.

(** The nodes of the tree, each before its subtrees. *)
Fixpoint preorder (t : Tree) : list ref :=
  match t with
  | Leaf r => [r]
  | Branch r a b c d => r :: preorder a ++ preorder b ++ preorder c ++ preorder d
  end.

(** The nodes of the tree, each after its subtrees. *)
Fixpoint postorder (t : Tree) : list ref :=
  match t with
  | Leaf r => [r]
  | Branch r a b c d =>
      (postorder a ++ postorder b ++ postorder c ++ postorder d) ++ [r]
  end.

(** The nodes below the root, each after its subtrees. *)
Definition razedBelow (t : Tree) : list ref :=
  match t with
  | Leaf _ => []
  | Branch _ a b c d => postorder a ++ postorder b ++ postorder c ++ postorder d
  end.

(** The nodes of the tree that have children. *)
Fixpoint branches (t : Tree) : list ref :=
  match t with
  | Leaf _ => []
  | Branch r a b c d => r :: branches a ++ branches b ++ branches c ++ branches d
  end.

Fixpoint depth (t : Tree) : nat :=
  match t with
  | Leaf _ => 0%nat
  | Branch _ a b c d =>
      Datatypes.S (Nat.max (Nat.max (depth a) (depth b)) (Nat.max (depth c) (depth d)))
  end.

(** The store holds the tree [t]: a leaf is a node that is not [ready]; a
    branch is a [ready] node whose array holds the roots of the four
    subtrees. *)
Fixpoint shaped (f : Forest) (t : Tree) : Prop :=
  match t with
  | Leaf r => exists n, getNode (planet f) r = Some n /\ ready n = false
  | Branch r a b c d =>
      (exists n, getNode (planet f) r = Some n /\ ready n = true /\
                 (r ∉ emptied f) /\
                 nodes n = mkQuad (Some (rootOf a)) (Some (rootOf b))
                                  (Some (rootOf c)) (Some (rootOf d))) /\
      shaped f a /\ shaped f b /\ shaped f c /\ shaped f d
  end.

(** A node that [destroy] can be called on: it has its segment and its
    neighbour array, and the neighbours it holds are nodes of the store. *)
Definition destroyable (w : World) (d : ref) : Prop :=
  exists n, getNode w d = Some n /\ is_Some (segment n) /\ is_Some (neighbors n) /\
            forall s m, holds w d s m -> present w m.

(** The node after lines 678-679 of [destroyBranches]. *)
Definition truncated (n : Node) : Node :=
  set_nodes (quad_all None) (set_ready false n).

Definition cutNode (e d : bool) (n : Node) : Node :=
  let n := if e then truncated n else n in
  if d then destroyed n else n.

(** From [f] to [f'] the children arrays of the nodes [E] were emptied and
    the nodes [D] were destroyed, in this order; beyond that, neighbour
    slots were emptied, and nothing else changed. *)
Record Cut (f f' : Forest) (E D : list ref) : Prop := {
  cut_nodes : forall r,
    set_neighbors None <$> getNode (planet f') r =
    (fun n => set_neighbors None
                (cutNode (bool_decide (r ∈ E)) (bool_decide (r ∈ D)) n))
      <$> getNode (planet f) r;
  cut_slots : forall r u,
    r ∉ D ->
    neighborAt (planet f') r u = neighborAt (planet f) r u \/
    (neighborAt (planet f') r u = Some None /\ is_Some (neighborAt (planet f) r u));
  cut_gone : forall r u, r ∈ D -> neighborAt (planet f') r u = None;
  cut_calls : calls (planet f') = calls (planet f) ++ map destroySegment D;
  cut_emptied : emptied f' = list_to_set E ∪ emptied f;
  cut_planet :
    _renderedNodes (planet f') = _renderedNodes (planet f) /\
    _createdNodesCount (planet f') = _createdNodesCount (planet f) /\
    activeCamera (planet f') = activeCamera (planet f) /\
    terrain (planet f') = terrain (planet f)
}.

(** The tree of [treeWorld]: the root 0 has the children 1 to 4, of which
    1 and 3 have children. *)
Definition treeOfTreeWorld : Tree :=
  Branch 0%nat
    (Branch 1%nat (Leaf 5%nat) (Leaf 6%nat) (Leaf 7%nat) (Leaf 8%nat))
    (Leaf 2%nat)
    (Branch 3%nat (Leaf 9%nat) (Leaf 10%nat) (Leaf 11%nat) (Leaf 12%nat))
    (Leaf 4%nat).

Definition treeForest : Forest := mkForest treeWorld ∅.

(** ** traverseTree: the order of the visits *)

(** A callback that leaves the children arrays and the [ready] flags as
    they are. *)
Definition keepsTree (callback : ref -> Forest -> option Forest) : Prop :=
  forall r f f', callback r f = Some f' ->
    emptied f' = emptied f /\
    kept (fun n => (ready n, nodes n)) (planet f) (planet f').

(** A callback that notes the node it is given at the end of the rendered
    list. *)
Definition noteVisit (r : ref) (f : Forest) : option Forest :=
  onPlanet (fun w => Some (set_renderedNodes (_renderedNodes w ++ [r]) w)) f.

(** ** clearTree: what is cut *)

(** The parent links of the tree [t] agree with its shape; [p] is the
    parent of the root. *)
Fixpoint parented (f : Forest) (p : option ref) (t : Tree) : Prop :=
  (exists n, getNode (planet f) (rootOf t) = Some n /\ parentNode n = p) /\
  match t with
  | Leaf _ => True
  | Branch r a b c d =>
      parented f (Some r) a /\ parented f (Some r) b /\
      parented f (Some r) c /\ parented f (Some r) d
  end.

(** The nodes without children array in use. *)
Fixpoint leaves (t : Tree) : list ref :=
  match t with
  | Leaf r => [r]
  | Branch _ a b c d => leaves a ++ leaves b ++ leaves c ++ leaves d
  end.

(** The nodes at which [clearTree] stops and cuts: going down from the
    root through nodes in the state [WALKTHROUGH], the first nodes in
    another state; of these, the ones that have children. *)
Fixpoint cutAt (w : World) (t : Tree) : list ref :=
  match t with
  | Leaf _ => []
  | Branch r a b c d =>
      if walkedAt w r
      then cutAt w a ++ cutAt w b ++ cutAt w c ++ cutAt w d
      else branches t
  end.

(** The nodes below those, in the order they are destroyed. *)
Fixpoint cutBelow (w : World) (t : Tree) : list ref :=
  match t with
  | Leaf _ => []
  | Branch r a b c d =>
      if walkedAt w r
      then cutBelow w a ++ cutBelow w b ++ cutBelow w c ++ cutBelow w d
      else razedBelow t
  end.

(** The ancestors [anc] from [p] up to the root are all in the state
    [WALKTHROUGH]. *)
Inductive walkedChain (w : World) : option ref -> list ref -> Prop :=
| chain_top : walkedChain w None []
| chain_up a n rest :
    getNode w a = Some n ->
    state n = Some quadTree.WALKTHROUGH ->
    walkedChain w (parentNode n) rest ->
    walkedChain w (Some a) (a :: rest).

(** What [clearTree] needs of the tree [t] under the parent [p]: the shape
    and the parent links agree; every node has been given a state; a leaf
    in the state [WALKTHROUGH] has an emptied children array; the nodes
    below the root can be destroyed. *)
Definition clearable (f : Forest) (p : option ref) (t : Tree) : Prop :=
  shaped f t /\ parented f p t /\
  Forall (destroyable (planet f)) (razedBelow t) /\
  (forall x, x ∈ preorder t -> exists n st, getNode (planet f) x = Some n /\
                                           state n = Some st) /\
  (forall x, x ∈ leaves t -> walkedAt (planet f) x = true -> x ∈ emptied f).

(** [destroyBranches] on one subtree, for the induction:
    the arrays of its branches are emptied, the nodes below its root
    destroyed. *)
Definition razes (k : Tree) : Prop :=
  forall fuel f,
    shaped f k -> NoDup (preorder k) ->
    Forall (destroyable (planet f)) (razedBelow k) ->
    (depth k < fuel)%nat ->
    ok (destroyBranches fuel (rootOf k) f)
       (fun f' => Cut f f' (branches k) (razedBelow k)).

(** [clearTree] on one subtree under walked-through ancestors [anc], for the
    induction. *)
Definition clears (t : Tree) : Prop :=
  forall fuel f p anc,
    clearable f p t -> NoDup (preorder t) ->
    walkedChain (planet f) p anc ->
    (forall x, x ∈ anc -> x ∉ preorder t) ->
    (2 * depth t + length anc + 1 < fuel)%nat ->
    ok (clearTree fuel (rootOf t) f)
       (fun f' => Cut f f' (cutAt (planet f) t) (cutBelow (planet f) t)).

(** The tree of [treeWorld] after a traversal: the root and its south-west
    child were walked through, the north-west child was rendered with its
    children still there, the south-east child is a walked-through node
    without children; the children arrays of the nodes without children
    are empty. *)
Definition stateOfRendered (r : ref) : quadTree.State :=
  match r with
  | 0%nat | 3%nat | 4%nat => quadTree.WALKTHROUGH
  | 1%nat => quadTree.RENDERING
  | _ => quadTree.NOTRENDERING
  end.

Definition renderedForest : Forest :=
  mkForest
    (set_heap (map_imap (fun r n => Some (set_state (Some (stateOfRendered r)) n))
                        (heap treeWorld))
              treeWorld)
    (list_to_set (leaves treeOfTreeWorld)).

(** ** renderTree: the walk *)

(** What a call of [renderTree] did at a node: it hid the node, sent it to
    rendering, or went on to its four children. *)
Inductive Walked :=
| Hidden (x : ref)
| Shown (x : ref)
| Split (x : ref) (a b c d : Walked).

Definition rootW (t : Walked) : ref :=
  match t with Hidden x | Shown x | Split x _ _ _ _ => x end.

(** The nodes [renderTree] was called on, in call order. *)
Fixpoint visitedW (t : Walked) : list ref :=
  match t with
  | Hidden x | Shown x => [x]
  | Split x a b c d => x :: visitedW a ++ visitedW b ++ visitedW c ++ visitedW d
  end.

(** The nodes sent to rendering, in call order. *)
Fixpoint shownW (t : Walked) : list ref :=
  match t with
  | Hidden _ => []
  | Shown x => [x]
  | Split _ a b c d => shownW a ++ shownW b ++ shownW c ++ shownW d
  end.

(** The store carries the marks of the walk: a hidden node is in the state
    [NOTRENDERING], a node sent to rendering in the state [RENDERING]; a
    node the walk went through is in the state [WALKTHROUGH], it is
    [ready] and the walk went on to the four nodes of its children
    array. *)
Fixpoint marked (w : World) (t : Walked) : Prop :=
  match t with
  | Hidden x => state <$> getNode w x = Some (Some quadTree.NOTRENDERING)
  | Shown x => state <$> getNode w x = Some (Some quadTree.RENDERING)
  | Split x a b c d =>
      (exists n, getNode w x = Some n /\
                 state n = Some quadTree.WALKTHROUGH /\ ready n = true /\
                 nodes n = mkQuad (Some (rootW a)) (Some (rootW b))
                                  (Some (rootW c)) (Some (rootW d))) /\
      marked w a /\ marked w b /\ marked w c /\ marked w d
  end.

(** What the walk is about in a node: its state and its children. *)
Definition walkView (n : Node) : option quadTree.State * bool * Quad (option ref) :=
  (state n, ready n, nodes n).

(** The zoom of the tile of a node. *)
Definition zoomOf (n : Node) : option Z := tileZoom <$> segment n.

(** From [w] to [w'] nothing changed in the states, the children, the
    zooms and the rendered list. *)
Definition walkFrame (w w' : World) : Prop :=
  kept (fun n => (walkView n, zoomOf n)) w w' /\
  _renderedNodes w' = _renderedNodes w.

(** From [w] to [w'] the node [x] was given the state [st] and the nodes
    [added] were appended to the rendered list; no other state, no
    children array and no zoom changed. *)
Definition settles (x : ref) (st : quadTree.State) (added : list ref)
    (w w' : World) : Prop :=
  state <$> getNode w' x = Some (Some st) /\
  _renderedNodes w' = _renderedNodes w ++ added /\
  kept (fun n => (ready n, nodes n, zoomOf n)) w w' /\
  (forall r, r <> x -> state <$> getNode w' r = state <$> getNode w r).

(** From [w] to [w'] the trees [K], as they stood in [w], were walked with
    the outcomes [ts]: the marks are there, every node was visited once,
    the nodes sent to rendering were appended to the rendered list in the
    order of the walk, a visited node is a node of the trees or a new one,
    the nodes that were there and were not visited kept their state and
    children, and every new node was visited. *)
Record walkedOver (w w' : World) (K : list Tree) (ts : list Walked) : Prop := {
  wo_roots : map rootW ts = map rootOf K;
  wo_marked : Forall (marked w') ts;
  wo_once : NoDup (ts ≫= visitedW);
  wo_rendered : _renderedNodes w' = _renderedNodes w ++ (ts ≫= shownW);
  wo_origin : forall x, x ∈ ts ≫= visitedW ->
    x ∈ K ≫= preorder \/ getNode w x = None;
  wo_frame : forall x, x ∉ ts ≫= visitedW -> is_Some (getNode w x) ->
    walkView <$> getNode w' x = walkView <$> getNode w x;
  wo_new : forall x, getNode w x = None -> is_Some (getNode w' x) ->
    x ∈ ts ≫= visitedW
}.

(** The forest of a world none of whose children arrays was emptied. *)
Definition forestOf (w : World) : Forest := mkForest w ∅.

(** A camera that sees every node but node 4, is near enough to every node
    but node 7, and a segment test that sends to rendering every node but
    the nodes 0, 1 and 2; the planet of [treeWorld], lights off. *)
Definition sampleView : View :=
  mkView (fun _ r => negb (r =? 4)%nat) (fun _ r => negb (r =? 7)%nat)
         (fun _ r => negb (bool_decide (r ∈ [0; 1; 2]%nat))).

Definition samplePlanet : Planet := mkPlanet treeWorld false 0 0 20 [].

(** ** whileNormalMapCreating: the queue of the normal map creator *)

(** The nodes whose segments were handed to the normal map creator, in the
    order of the calls. *)
Definition queuedRefs (cs : list Call) : list ref :=
  omap (fun c => match c with normalMapCreator_queue r => Some r | _ => None end) cs.

(** The flag [_inTheQueue] of the segment of node [r]. *)
Definition queued (w : World) (r : ref) : option bool :=
  _inTheQueue <$> segmentAt w r.

(** From [w] to [w'] calls were added; no segment was queued twice, a
    queued segment was not in the queue before and is flagged afterwards,
    and no flag was taken back. *)
Definition queuing (w w' : World) : Prop :=
  exists added,
    calls w' = calls w ++ added /\
    NoDup (queuedRefs added) /\
    (forall r, r ∈ queuedRefs added ->
       queued w r <> Some true /\ queued w' r = Some true) /\
    (forall r, queued w r = Some true -> queued w' r = Some true).

(** A root and a child; the terrain of both is there, no normal map is. *)
Definition loadedWorld : World :=
  sampleWorld
    (<[1%nat := tileNode (Some 0%nat) quadTree.NE 2
                  (seg_set_terrainReady true (tileSegment 1 1 0 None))]>
       (<[0%nat := tileNode None quadTree.NW 0
                     (seg_set_terrainReady true (tileSegment 0 0 0 None))]> ∅)) [].

(** ** renderTree: the depth of the tree *)

(** From [w] to [w'] every node kept its zoom, and the nodes that are new
    have a zoom of at most [B]. *)
Definition deepened (B : Z) (w w' : World) : Prop :=
  (forall r n, getNode w r = Some n ->
     exists n', getNode w' r = Some n' /\ zoomOf n' = zoomOf n) /\
  (forall r n z, getNode w r = None -> getNode w' r = Some n ->
     zoomOf n = Some z -> z <= B).

(** The deepest zoom at which [renderTree] creates nodes. *)
Definition deepestZoom (p : Planet) : Z := Z.max 2 (gridSizeByZoom_length p - 1).

(** A root with four children whose terrain is there; no normal map is.
    The planet has its lights on; the camera sees every node and the
    segment test sends every node but the root to rendering. *)
Definition litWorld : World :=
  sampleWorld
    (list_to_map
       [ (0%nat, withChildren 1 2 3 4
                   (tileNode None quadTree.NW 0 (tileSegment 0 0 0 None)));
         (1%nat, tileNode (Some 0%nat) quadTree.NW 1
                   (seg_set_terrainReady true (tileSegment 1 0 0 None)));
         (2%nat, tileNode (Some 0%nat) quadTree.NE 2
                   (seg_set_terrainReady true (tileSegment 1 1 0 None)));
         (3%nat, tileNode (Some 0%nat) quadTree.SW 3
                   (seg_set_terrainReady true (tileSegment 1 0 1 None)));
         (4%nat, tileNode (Some 0%nat) quadTree.SE 4
                   (seg_set_terrainReady true (tileSegment 1 1 1 None))) ])
    [].

Definition litView : View :=
  mkView (fun _ _ => true) (fun _ _ => true) (fun _ r => negb (r =? 0)%nat).

Definition litPlanet : Planet := mkPlanet litWorld true 0 0 20 [].

(** ** renderTree: the divisors of a frame *)

(** What a frame divides by.  The seam ratio of addToRender divides by the
    grid size of a registered node (line 399).  whileTerrainLoading
    divides by [dZ2 = 2 << (k - 1)], where the node is [k] levels under
    the ancestor whose terrain it inherits (lines 518, 529 and 532), and by
    the grid it takes from that ancestor (line 555).  A node is sound when
    the grid size of its segment is not zero, its zoom is one of 0 to 31,
    and one more than the zoom of its parent, which has a segment: then
    [k] is one of 1 to 31,
    [2 << (k - 1)] is not zero, and no quotient of the frame has a zero
    divisor. *)
Definition nonZeroGrid (s : Segment) : bool := negb (num_eqb (gridSize s) 0).

Definition soundNode (w : World) (n : Node) : bool :=
  match segment n with
  | None => true
  | Some s =>
      nonZeroGrid s && (0 <=? tileZoom s) && (tileZoom s <=? 31) &&
      match parentNode n with
      | None => true
      | Some pr =>
          match segmentAt w pr with
          | Some ps => tileZoom s =? tileZoom ps + 1
          | None => false
          end
      end
  end.

Definition sound (w : World) : Prop :=
  map_Forall (fun _ n => soundNode w n = true) (heap w).

(** The planet of a frame whose quotients all have a divisor that is not
    zero: the nodes are sound, the segments that the frame creates have a
    grid size that is not zero, and the terrain lists at most 32 grid
    sizes, so that no node is created deeper than zoom 31. *)
Record soundFrame (oracle : SegmentOracle) (p : Planet) : Prop := {
  sound_world : sound (world p);
  sound_length : gridSizeByZoom_length p <= 32;
  sound_oracle : forall proto z e,
    num_eqb (init_gridSize (oracle proto z e)) 0 = false
}.

(** From [w] to [w'] no node changed its parent or its zoom, and no grid
    size became zero. *)
Definition steady (w w' : World) : Prop :=
  kept (fun n => (parentNode n, zoomOf n)) w w' /\
  (forall r s s', segmentAt w r = Some s -> segmentAt w' r = Some s' ->
     nonZeroGrid s = true -> nonZeroGrid s' = true).

(** A root alone, with its terrain and without normal map, on a planet with
    its lights on; the camera sees it and the segment test sends it to
    rendering. *)
Definition rootWorld : World :=
  sampleWorld
    (<[0%nat := tileNode None quadTree.NW 0
                  (seg_set_terrainReady true (tileSegment 0 0 0 None))]> ∅) [].

Definition rootView : View :=
  mkView (fun _ _ => true) (fun _ _ => true) (fun _ _ => true).

Definition rootPlanet : Planet := mkPlanet rootWorld true 0 0 20 [].

(* ===================================================================== *)
(** * Properties *)
(* ===================================================================== *)

(** ** Numbers *)

Lemma num_eqb_true a b : num_eqb a b = true <-> (a == b)%Q.
Proof. apply Qeq_bool_iff. Qed.

Lemma num_leb_true a b : num_leb a b = true <-> (a <= b)%Q.
Proof. apply Qle_bool_iff. Qed.

Lemma num_ltb_true a b : num_ltb a b = true <-> (a < b)%Q.
Proof.
  unfold num_ltb. rewrite negb_true_iff.
  split; intros H.
  - apply Qnot_le_lt. intros Hle. apply Qle_bool_iff in Hle. congruence.
  - destruct (Qle_bool b a) eqn:Hb; [|reflexivity].
    apply Qle_bool_iff in Hb. exfalso. apply (Qlt_not_le _ _ H Hb).
Qed.

Lemma num_ltb_false a b : num_ltb a b = false <-> (b <= a)%Q.
Proof.
  unfold num_ltb. rewrite negb_false_iff. apply Qle_bool_iff.
Qed.

(** ** quadTree.js: the constants and adjacency tables *)

Lemma OPSIDE_involutive s : quadTree.OPSIDE (quadTree.OPSIDE s) = s.
Proof. by destruct s. Qed.

Lemma OPSIDE_neq s : quadTree.OPSIDE s <> s.
Proof. by destruct s. Qed.

Lemma OPSIDE_inj s t : quadTree.OPSIDE s = quadTree.OPSIDE t -> s = t.
Proof. destruct s, t; simpl; congruence. Qed.

(** ** Four-slot arrays *)

Lemma side_get_set_eq {A} (q : Quad A) s x : side_get (side_set q s x) s = x.
Proof. by destruct s. Qed.

Lemma side_get_set_ne {A} (q : Quad A) s t x :
  s <> t -> side_get (side_set q s x) t = side_get q t.
Proof. destruct s, t; simpl; congruence. Qed.

Lemma side_get_set {A} (q : Quad A) s t x :
  side_get (side_set q s x) t = if decide (s = t) then x else side_get q t.
Proof.
  case_decide; subst; [apply side_get_set_eq | by apply side_get_set_ne].
Qed.

Lemma side_get_all {A} (x : A) s : side_get (quad_all x) s = x.
Proof. by destruct s. Qed.

(** ** getCommonSide (Node.js, lines 421-456) *)

Lemma latNested_test a b :
  latNested a b ->
  num_leb (lat (northEast a)) (lat (northEast b)) &&
    num_leb (lat (southWest b)) (lat (southWest a))
  || num_leb (lat (northEast b)) (lat (northEast a)) &&
    num_leb (lat (southWest a)) (lat (southWest b)) = true.
Proof.
  intros [[H1 H2]|[H1 H2]]; apply num_leb_true in H1, H2; rewrite H1, H2;
    [reflexivity | apply orb_true_r].
Qed.

(** ** The store *)

Lemma getNode_setNode r r' n w :
  getNode (setNode r n w) r' = if decide (r = r') then Some n else getNode w r'.
Proof.
  unfold getNode, setNode. simpl. rewrite lookup_insert. by repeat case_decide.
Qed.

Lemma getNode_setNode_eq r n w : getNode (setNode r n w) r = Some n.
Proof. rewrite getNode_setNode. by case_decide. Qed.

Lemma getNode_setNode_ne r r' n w :
  r <> r' -> getNode (setNode r n w) r' = getNode w r'.
Proof. intros. rewrite getNode_setNode. by case_decide. Qed.

Lemma modify_Some r f w n n' :
  getNode w r = Some n -> f n = Some n' -> modify r f w = Some (setNode r n' w).
Proof. intros Hn Hf. unfold modify. rewrite Hn. simpl. rewrite Hf. reflexivity. Qed.

Lemma modify_inv r f w w' :
  modify r f w = Some w' ->
  exists n n', getNode w r = Some n /\ f n = Some n' /\ w' = setNode r n' w.
Proof.
  unfold modify. intros H.
  destruct (getNode w r) as [n|]; simpl in H; [|discriminate].
  destruct (f n) as [n'|] eqn:Hf; simpl in H; [|discriminate].
  injection H as <-. exists n, n'. auto.
Qed.

(** ** getCommonSide: the antimeridian rules *)

(** C7.  For latitude-nested extents whose two ordinary longitude tests fail,
    at a zoom above 0, [getCommonSide] answers E in both antimeridian
    configurations (east edge on [POLE] facing a west edge on [-POLE], and
    west edge on [-POLE] facing an east edge on [POLE]); and it never
    answers W there: the third wrap-around test repeats the second. *)
Theorem getCommonSide_polar_wrap (w : World) (this node : ref) (sa sb : Segment) :
  segmentAt w this = Some sa ->
  segmentAt w node = Some sb ->
  latNested (_extent sa) (_extent sb) ->
  ~ (lon (northEast (_extent sa)) == lon (southWest (_extent sb)))%Q ->
  ~ (lon (southWest (_extent sa)) == lon (northEast (_extent sb)))%Q ->
  0 < tileZoom sa ->
  (((lon (northEast (_extent sa)) == POLE /\
     lon (southWest (_extent sb)) == - POLE) \/
    (lon (southWest (_extent sa)) == - POLE /\
     lon (northEast (_extent sb)) == POLE))%Q ->
   getCommonSide w this node = Some (Some quadTree.E)) /\
  getCommonSide w this node <> Some (Some quadTree.W).
Proof.
  intros Ha Hb Hnest Hne1 Hne2 Hz.
  unfold getCommonSide. rewrite Ha, Hb. simpl.
  unfold commonSide. rewrite (latNested_test _ _ Hnest).
  destruct (num_eqb (lon (northEast (_extent sa))) (lon (southWest (_extent sb)))) eqn:E1.
  { apply num_eqb_true in E1. contradiction. }
  destruct (num_eqb (lon (southWest (_extent sa))) (lon (northEast (_extent sb)))) eqn:E2.
  { apply num_eqb_true in E2. contradiction. }
  assert (Hz' : (0 <? tileZoom sa) = true) by (apply Z.ltb_lt; lia).
  rewrite Hz'.
  split.
  - intros [[H1 H2]|[H1 H2]]; apply num_eqb_true in H1, H2.
    + rewrite H1, H2. reflexivity.
    + rewrite H1, H2. simpl. destruct (_ && _); reflexivity.
  - destruct (_ && _); [discriminate|].
    destruct (_ && _); discriminate.
Qed.

Lemma getCommonSide_polar_wrap_witness :
  getCommonSide antimeridianWorld 0%nat 1%nat = Some (Some quadTree.E) /\
  getCommonSide antimeridianWorld 1%nat 0%nat = Some (Some quadTree.E).
Proof.
  split.
  - eapply (getCommonSide_polar_wrap antimeridianWorld 0%nat 1%nat);
      [reflexivity | reflexivity | right; split; discriminate
      | discriminate | discriminate | reflexivity | left; split; reflexivity].
  - eapply (getCommonSide_polar_wrap antimeridianWorld 1%nat 0%nat);
      [reflexivity | reflexivity | right; split; discriminate
      | discriminate | discriminate | reflexivity | right; split; reflexivity].
Defined.

(** ** Total correctness of a fallible computation *)

Lemma ok_Some {A} (a : A) (Q : A -> Prop) : Q a -> ok (Some a) Q.
Proof. intros. exists a. auto. Qed.

Lemma ok_bind {A B} (m : option A) (k : A -> option B) (P : A -> Prop) (Q : B -> Prop) :
  ok m P -> (forall a, P a -> ok (k a) Q) -> ok (m ≫= k) Q.
Proof.
  intros (a & -> & Ha) Hk. simpl. auto.
Qed.

Lemma ok_mono {A} (m : option A) (P Q : A -> Prop) :
  ok m P -> (forall a, P a -> Q a) -> ok m Q.
Proof. intros (a & -> & Ha) H. exists a. auto. Qed.

Lemma ok_inv {A} (m : option A) (Q : A -> Prop) a : ok m Q -> m = Some a -> Q a.
Proof. intros (a' & -> & Ha) [= ->]. exact Ha. Qed.

(** ** What one assignment changes *)

Lemma modify_getNode r f w w' :
  modify r f w = Some w' ->
  forall r', getNode w' r' = if decide (r = r') then getNode w r ≫= f else getNode w r'.
Proof.
  intros H r'. apply modify_inv in H as (n & n' & Hn & Hf & ->).
  rewrite getNode_setNode. case_decide; [|reflexivity].
  rewrite Hn. simpl. by rewrite Hf.
Qed.

Lemma modify_rendered r f w w' : modify r f w = Some w' -> keeps_rendered w w'.
Proof. intros H. apply modify_inv in H as (n & n' & Hn & Hf & ->). reflexivity. Qed.

(** The tactic behind the frame lemmas: look a node up after [modify]. *)
Ltac frame_modify H :=
  let r' := fresh "r'" in
  let n := fresh "n" in
  let n' := fresh "n'" in
  let Hn := fresh "Hn" in
  let Hf := fresh "Hf" in
  let Hr := fresh "Hr" in
  intros r'; try (let s' := fresh "s'" in intros s');
  unfold neighborAt, sideSizeAt, hasNeighborAt, segmentAt;
  rewrite (modify_getNode _ _ _ _ H r');
  apply modify_inv in H as (n & n' & Hn & Hf & _);
  destruct (decide (_ = r')) as [<-|Hr]; [|reflexivity];
  rewrite Hn; simpl; try rewrite Hf; simpl;
  unfold assign_neighbor, assign_hasNeighbor, assign_sideSize in Hf;
  simplify_option_eq; try reflexivity.

(** The same for the slot that is assigned. *)
Ltac slot_modify H :=
  let n := fresh "n" in
  let n' := fresh "n'" in
  let Hn := fresh "Hn" in
  let Hf := fresh "Hf" in
  let Hr := fresh "Hr" in
  let r' := fresh "r'" in
  let s' := fresh "s'" in
  intros r' s';
  unfold neighborAt, sideSizeAt, hasNeighborAt;
  rewrite (modify_getNode _ _ _ _ H r');
  apply modify_inv in H as (n & n' & Hn & Hf & _);
  destruct (decide (_ = r')) as [<-|Hr];
  [ rewrite Hn; simpl; try rewrite Hf; simpl;
    unfold assign_neighbor, assign_hasNeighbor, assign_sideSize in Hf;
    repeat match type of Hf with
           | context [neighbors ?n] => destruct (neighbors n); simpl in Hf
           | context [sideSize ?n] => destruct (sideSize n); simpl in Hf
           end;
    try discriminate; injection Hf as <-; simpl;
    rewrite side_get_set;
    destruct (decide (_ = s')) as [<-|?];
    [ rewrite decide_True by auto; reflexivity
    | rewrite decide_False by (intros [_ ?]; congruence); reflexivity ]
  | rewrite decide_False by (intros [? _]; congruence); reflexivity ].

Lemma assign_neighbor_neighbors r s v w w' :
  modify r (assign_neighbor s v) w = Some w' ->
  forall r' s', neighborAt w' r' s' =
    if decide (r' = r /\ s' = s) then Some v else neighborAt w r' s'.
Proof. intros H. slot_modify H. Qed.

Lemma assign_neighbor_sideSize r s v w w' :
  modify r (assign_neighbor s v) w = Some w' -> keeps_sideSize w w'.
Proof. intros H. frame_modify H. Qed.

Lemma assign_neighbor_hasNeighbor r s v w w' :
  modify r (assign_neighbor s v) w = Some w' -> keeps_hasNeighbor w w'.
Proof. intros H. frame_modify H. Qed.

Lemma assign_neighbor_segment r s v w w' :
  modify r (assign_neighbor s v) w = Some w' -> keeps_segment w w'.
Proof. intros H. frame_modify H. Qed.

Lemma assign_neighbor_ok r s v w :
  is_Some (neighborAt w r s) -> is_Some (modify r (assign_neighbor s v) w).
Proof.
  unfold neighborAt, modify, assign_neighbor. intros [x Hx].
  destruct (getNode w r) as [n|]; [|discriminate]. simpl in *.
  destruct (neighbors n); [|discriminate]. simpl. eauto.
Qed.

Lemma assign_hasNeighbor_hasNeighbor r s v w w' :
  modify r (assign_hasNeighbor s v) w = Some w' ->
  forall r' s', hasNeighborAt w' r' s' =
    if decide (r' = r /\ s' = s) then Some v else hasNeighborAt w r' s'.
Proof. intros H. slot_modify H. Qed.

Lemma assign_hasNeighbor_neighbors r s v w w' :
  modify r (assign_hasNeighbor s v) w = Some w' -> keeps_neighbors w w'.
Proof. intros H. frame_modify H. Qed.

Lemma assign_hasNeighbor_sideSize r s v w w' :
  modify r (assign_hasNeighbor s v) w = Some w' -> keeps_sideSize w w'.
Proof. intros H. frame_modify H. Qed.

Lemma assign_hasNeighbor_segment r s v w w' :
  modify r (assign_hasNeighbor s v) w = Some w' -> keeps_segment w w'.
Proof. intros H. frame_modify H. Qed.

Lemma assign_hasNeighbor_ok r s v w :
  is_Some (hasNeighborAt w r s) -> is_Some (modify r (assign_hasNeighbor s v) w).
Proof.
  unfold hasNeighborAt, modify, assign_hasNeighbor. intros [x Hx].
  destruct (getNode w r) as [n|]; [|discriminate]. simpl. eauto.
Qed.

Lemma assign_sideSize_sideSize r s v w w' :
  modify r (assign_sideSize s v) w = Some w' ->
  forall r' s', sideSizeAt w' r' s' =
    if decide (r' = r /\ s' = s) then Some v else sideSizeAt w r' s'.
Proof. intros H. slot_modify H. Qed.

Lemma assign_sideSize_neighbors r s v w w' :
  modify r (assign_sideSize s v) w = Some w' -> keeps_neighbors w w'.
Proof. intros H. frame_modify H. Qed.

Lemma assign_sideSize_hasNeighbor r s v w w' :
  modify r (assign_sideSize s v) w = Some w' -> keeps_hasNeighbor w w'.
Proof. intros H. frame_modify H. Qed.

Lemma assign_sideSize_segment r s v w w' :
  modify r (assign_sideSize s v) w = Some w' -> keeps_segment w w'.
Proof. intros H. frame_modify H. Qed.

Lemma assign_sideSize_ok r s v w :
  is_Some (sideSizeAt w r s) -> is_Some (modify r (assign_sideSize s v) w).
Proof.
  unfold sideSizeAt, modify, assign_sideSize. intros [x Hx].
  destruct (getNode w r) as [n|]; [|discriminate]. simpl in *.
  destruct (sideSize n); [|discriminate]. simpl. eauto.
Qed.

(** ** addToRender: one encounter *)

Lemma two_slots_second {X} (obs obs' : ref -> quadTree.Side -> option X)
    node cs v1 ni opcs v2 :
  two_slots obs obs' node cs v1 ni opcs v2 -> obs' ni opcs = Some v2.
Proof. intros H. rewrite H. by rewrite decide_True. Qed.

Lemma two_slots_first {X} (obs obs' : ref -> quadTree.Side -> option X)
    node cs v1 ni v2 :
  two_slots obs obs' node cs v1 ni (quadTree.OPSIDE cs) v2 -> obs' node cs = Some v1.
Proof.
  intros H. rewrite H.
  rewrite decide_False by (intros [_ Hs]; symmetry in Hs; by apply OPSIDE_neq in Hs).
  by rewrite decide_True.
Qed.

Lemma two_slots_other {X} (obs obs' : ref -> quadTree.Side -> option X)
    node cs v1 ni opcs v2 r s :
  two_slots obs obs' node cs v1 ni opcs v2 ->
  ~ (r = node /\ s = cs) -> ~ (r = ni /\ s = opcs) -> obs' r s = obs r s.
Proof. intros H H1 H2. rewrite H. by rewrite !decide_False. Qed.

Lemma keeps_segment_trans w1 w2 w3 :
  keeps_segment w1 w2 -> keeps_segment w2 w3 -> keeps_segment w1 w3.
Proof. intros H1 H2 r. by rewrite H2. Qed.

Lemma keeps_neighbors_trans w1 w2 w3 :
  keeps_neighbors w1 w2 -> keeps_neighbors w2 w3 -> keeps_neighbors w1 w3.
Proof. intros H1 H2 r s. by rewrite H2. Qed.

Lemma keeps_sideSize_trans w1 w2 w3 :
  keeps_sideSize w1 w2 -> keeps_sideSize w2 w3 -> keeps_sideSize w1 w3.
Proof. intros H1 H2 r s. by rewrite H2. Qed.

Lemma keeps_hasNeighbor_trans w1 w2 w3 :
  keeps_hasNeighbor w1 w2 -> keeps_hasNeighbor w2 w3 -> keeps_hasNeighbor w1 w3.
Proof. intros H1 H2 r s. by rewrite H2. Qed.

Lemma keeps_rendered_trans w1 w2 w3 :
  keeps_rendered w1 w2 -> keeps_rendered w2 w3 -> keeps_rendered w1 w3.
Proof. unfold keeps_rendered. congruence. Qed.

Lemma link_ok node ni cs w :
  is_Some (neighborAt w node cs) ->
  is_Some (neighborAt w ni (quadTree.OPSIDE cs)) ->
  ok (link node ni cs w) (fun w' =>
    two_slots (neighborAt w) (neighborAt w') node cs (Some ni)
              ni (quadTree.OPSIDE cs) (Some node) /\
    keeps_sideSize w w' /\ keeps_hasNeighbor w w' /\
    keeps_segment w w' /\ keeps_rendered w w').
Proof.
  intros Ha Hb. unfold link.
  destruct (assign_neighbor_ok node cs (Some ni) w Ha) as [w1 H1].
  rewrite H1. simpl.
  pose proof (assign_neighbor_neighbors _ _ _ _ _ H1) as N1.
  assert (Hb1 : is_Some (neighborAt w1 ni (quadTree.OPSIDE cs))).
  { rewrite N1. case_decide; eauto. }
  destruct (assign_neighbor_ok ni (quadTree.OPSIDE cs) (Some node) w1 Hb1) as [w2 H2].
  rewrite H2. apply ok_Some.
  pose proof (assign_neighbor_neighbors _ _ _ _ _ H2) as N2.
  split; [|split; [|split; [|split]]].
  - intros r s. rewrite N2. destruct (decide (r = ni /\ _)); [reflexivity|]. apply N1.
  - eapply keeps_sideSize_trans; eapply assign_neighbor_sideSize; eauto.
  - eapply keeps_hasNeighbor_trans; eapply assign_neighbor_hasNeighbor; eauto.
  - eapply keeps_segment_trans; eapply assign_neighbor_segment; eauto.
  - eapply keeps_rendered_trans; eapply modify_rendered; eauto.
Qed.

Lemma flag_ok node ni cs w :
  is_Some (hasNeighborAt w node cs) ->
  is_Some (hasNeighborAt w ni (quadTree.OPSIDE cs)) ->
  ok (flag node ni cs w) (fun w' =>
    two_slots (hasNeighborAt w) (hasNeighborAt w') node cs true
              ni (quadTree.OPSIDE cs) true /\
    keeps_sideSize w w' /\ keeps_neighbors w w' /\
    keeps_segment w w' /\ keeps_rendered w w').
Proof.
  intros Ha Hb. unfold flag.
  destruct (assign_hasNeighbor_ok node cs true w Ha) as [w1 H1].
  rewrite H1. simpl.
  pose proof (assign_hasNeighbor_hasNeighbor _ _ _ _ _ H1) as N1.
  assert (Hb1 : is_Some (hasNeighborAt w1 ni (quadTree.OPSIDE cs))).
  { rewrite N1. case_decide; eauto. }
  destruct (assign_hasNeighbor_ok ni (quadTree.OPSIDE cs) true w1 Hb1) as [w2 H2].
  rewrite H2. apply ok_Some.
  pose proof (assign_hasNeighbor_hasNeighbor _ _ _ _ _ H2) as N2.
  split; [|split; [|split; [|split]]].
  - intros r s. rewrite N2. destruct (decide (r = ni /\ _)); [reflexivity|]. apply N1.
  - eapply keeps_sideSize_trans; eapply assign_hasNeighbor_sideSize; eauto.
  - eapply keeps_neighbors_trans; eapply assign_hasNeighbor_neighbors; eauto.
  - eapply keeps_segment_trans; eapply assign_hasNeighbor_segment; eauto.
  - eapply keeps_rendered_trans; eapply modify_rendered; eauto.
Qed.

Lemma resize_ok node ni cs v1 v2 w :
  is_Some (sideSizeAt w node cs) ->
  is_Some (sideSizeAt w ni (quadTree.OPSIDE cs)) ->
  ok (resize node ni cs v1 v2 w) (fun w' =>
    two_slots (sideSizeAt w) (sideSizeAt w') node cs v1
              ni (quadTree.OPSIDE cs) v2 /\
    keeps_hasNeighbor w w' /\ keeps_neighbors w w' /\
    keeps_segment w w' /\ keeps_rendered w w').
Proof.
  intros Ha Hb. unfold resize.
  destruct (assign_sideSize_ok node cs v1 w Ha) as [w1 H1].
  rewrite H1. simpl.
  pose proof (assign_sideSize_sideSize _ _ _ _ _ H1) as N1.
  assert (Hb1 : is_Some (sideSizeAt w1 ni (quadTree.OPSIDE cs))).
  { rewrite N1. case_decide; eauto. }
  destruct (assign_sideSize_ok ni (quadTree.OPSIDE cs) v2 w1 Hb1) as [w2 H2].
  rewrite H2. apply ok_Some.
  pose proof (assign_sideSize_sideSize _ _ _ _ _ H2) as N2.
  split; [|split; [|split; [|split]]].
  - intros r s. rewrite N2. destruct (decide (r = ni /\ _)); [reflexivity|]. apply N1.
  - eapply keeps_hasNeighbor_trans; eapply assign_sideSize_hasNeighbor; eauto.
  - eapply keeps_neighbors_trans; eapply assign_sideSize_neighbors; eauto.
  - eapply keeps_segment_trans; eapply assign_sideSize_segment; eauto.
  - eapply keeps_rendered_trans; eapply modify_rendered; eauto.
Qed.

Lemma pow2_pos k : (0 < pow2 k)%Q.
Proof. unfold pow2. apply Qpower_0_lt. reflexivity. Qed.

Lemma num_div_Some a b : ~ (b == 0)%Q -> num_div a b = Some (a / b)%Q.
Proof.
  intros Hb. unfold num_div.
  destruct (num_eqb b 0) eqn:E; [|reflexivity].
  apply num_eqb_true in E. contradiction.
Qed.

Lemma seamRatio_Some ap bp :
  (0 < gridSize bp)%Q ->
  seamRatio ap bp =
  Some (gridSize ap / (gridSize bp * pow2 (tileZoom bp - tileZoom ap)))%Q.
Proof.
  intros Hb. unfold seamRatio. apply num_div_Some.
  intros H0. apply Qmult_integral in H0 as [H0|H0].
  - rewrite H0 in Hb. apply (Qlt_irrefl 0), Hb.
  - pose proof (pow2_pos (tileZoom bp - tileZoom ap)) as Hp.
    rewrite H0 in Hp. apply (Qlt_irrefl 0), Hp.
Qed.

Lemma segmentAt_hasNeighborAt w r s seg :
  segmentAt w r = Some seg -> is_Some (hasNeighborAt w r s).
Proof.
  unfold segmentAt, hasNeighborAt.
  destruct (getNode w r); [simpl; eauto|discriminate].
Qed.

Lemma neighborAt_any_side w r s t :
  is_Some (neighborAt w r s) -> is_Some (neighborAt w r t).
Proof.
  unfold neighborAt. destruct (getNode w r) as [n|]; simpl; [|by intros [? ?]].
  destruct (neighbors n); simpl; [eauto|by intros [? ?]].
Qed.

Lemma sideSizeAt_any_side w r s t :
  is_Some (sideSizeAt w r s) -> is_Some (sideSizeAt w r t).
Proof.
  unfold sideSizeAt. destruct (getNode w r) as [n|]; simpl; [|by intros [? ?]].
  destruct (sideSize n); simpl; [eauto|by intros [? ?]].
Qed.

Lemma negotiate_ok node ni cs w ap bp :
  segmentAt w node = Some ap ->
  segmentAt w ni = Some bp ->
  is_Some (sideSizeAt w node cs) ->
  is_Some (sideSizeAt w ni (quadTree.OPSIDE cs)) ->
  (0 < gridSize bp)%Q ->
  ok (negotiate node ni cs w) (fun w' =>
    (exists v1 v2,
       chosenSizes ap bp
         (gridSize ap / (gridSize bp * pow2 (tileZoom bp - tileZoom ap)))%Q v1 v2 /\
       two_slots (sideSizeAt w) (sideSizeAt w') node cs v1
                 ni (quadTree.OPSIDE cs) v2) /\
    two_slots (hasNeighborAt w) (hasNeighborAt w') node cs true
              ni (quadTree.OPSIDE cs) true /\
    keeps_neighbors w w' /\ keeps_segment w w' /\ keeps_rendered w w').
Proof.
  intros Ha Hb Hsa Hsb Hpos. unfold negotiate.
  rewrite Ha, Hb. simpl. rewrite (seamRatio_Some ap bp Hpos). simpl.
  set (ld := (gridSize ap / (gridSize bp * pow2 (tileZoom bp - tileZoom ap)))%Q).
  eapply ok_bind.
  { apply flag_ok; eapply segmentAt_hasNeighborAt; eauto. }
  intros w1 (Hhn & Hss & Hnb & Hseg & Hl). simpl.
  assert (Hsa1 : is_Some (sideSizeAt w1 node cs)) by (by rewrite Hss).
  assert (Hsb1 : is_Some (sideSizeAt w1 ni (quadTree.OPSIDE cs))) by (by rewrite Hss).
  assert (Hfin : forall v1 v2, chosenSizes ap bp ld v1 v2 ->
    ok (resize node ni cs v1 v2 w1) (fun w' =>
      (exists v1 v2, chosenSizes ap bp ld v1 v2 /\
         two_slots (sideSizeAt w) (sideSizeAt w') node cs v1
                   ni (quadTree.OPSIDE cs) v2) /\
      two_slots (hasNeighborAt w) (hasNeighborAt w') node cs true
                ni (quadTree.OPSIDE cs) true /\
      keeps_neighbors w w' /\ keeps_segment w w' /\ keeps_rendered w w')).
  { intros v1 v2 Hv. eapply ok_mono; [apply resize_ok; assumption|].
    intros w2 (Hss2 & Hhn2 & Hnb2 & Hseg2 & Hl2).
    split; [|split; [|split; [|split]]].
    - exists v1, v2. split; [assumption|].
      intros r s. rewrite Hss2. by rewrite Hss.
    - intros r s. rewrite Hhn2. apply Hhn.
    - eapply keeps_neighbors_trans; eauto.
    - eapply keeps_segment_trans; eauto.
    - eapply keeps_rendered_trans; eauto. }
  destruct (num_ltb 1 ld) eqn:E1.
  - apply num_ltb_true in E1.
    rewrite num_div_Some by (intros H0; rewrite H0 in E1; discriminate E1).
    simpl. apply Hfin. unfold chosenSizes.
    split; [auto|split]; intros H; exfalso; lra.
  - apply num_ltb_false in E1.
    destruct (num_ltb ld 1) eqn:E2.
    + apply num_ltb_true in E2. apply Hfin. unfold chosenSizes.
      split; [|split; [auto|]]; intros H; exfalso; lra.
    + apply num_ltb_false in E2. apply Hfin. unfold chosenSizes.
      split; [|split; [|auto]]; intros H; exfalso; lra.
Qed.

Lemma encounter_common_side node ni cs w :
  getCommonSide w node ni = Some (Some cs) ->
  encounter node ni w =
  (w ← link node ni cs w;
   go ← negotiates w node ni cs;
   if (go : bool) then negotiate node ni cs w else Some w).
Proof. intros H. unfold encounter. rewrite H. reflexivity. Qed.

Lemma encounter_no_common_side node ni w :
  getCommonSide w node ni = Some None -> encounter node ni w = Some w.
Proof. intros H. unfold encounter. rewrite H. reflexivity. Qed.

Lemma negotiates_keeps w w' node ni cs :
  keeps_hasNeighbor w w' -> negotiates w' node ni cs = negotiates w node ni cs.
Proof. intros H. unfold negotiates. by rewrite !H. Qed.

(** C5, as stated, fails: one flag is already set, the other is not, and
    the encounter still rewrites the side sizes. *)
Lemma addToRender_guard_counterexample :
  getCommonSide guardWorld 0%nat 1%nat = Some (Some quadTree.E) /\
  hasNeighborAt guardWorld 0%nat quadTree.E = Some true /\
  hasNeighborAt guardWorld 1%nat quadTree.W = Some false /\
  sideSizeAt guardWorld 0%nat quadTree.E = Some 1%Q /\
  sideSizeAt guardWorld 1%nat quadTree.W = Some 1%Q /\
  ok (encounter 0%nat 1%nat guardWorld) (fun w' =>
    sideSizeAt w' 0%nat quadTree.E = Some 32%Q /\
    sideSizeAt w' 1%nat quadTree.W = Some 32%Q).
Proof.
  repeat (split; [reflexivity|]).
  eexists. split; [vm_compute; reflexivity|].
  split; reflexivity.
Qed.

(** C5, amended.  For a detected common side [cs], the negotiation is
    skipped only when both flags are already set: then the encounter leaves
    every side size and every flag as it was.  As soon as one of the two
    flags is not set, the negotiation is performed. *)
Theorem addToRender_guard (w : World) (node ni : ref) (cs : quadTree.Side)
    (x y : bool) :
  getCommonSide w node ni = Some (Some cs) ->
  is_Some (neighborAt w node cs) ->
  is_Some (neighborAt w ni (quadTree.OPSIDE cs)) ->
  hasNeighborAt w node cs = Some x ->
  hasNeighborAt w ni (quadTree.OPSIDE cs) = Some y ->
  (x && y = true ->
   ok (encounter node ni w) (fun w' =>
     keeps_sideSize w w' /\ keeps_hasNeighbor w w')) /\
  (x && y = false ->
   encounter node ni w = link node ni cs w ≫= negotiate node ni cs).
Proof.
  intros Hcs Hna Hnb Hx Hy.
  rewrite (encounter_common_side _ _ _ _ Hcs).
  destruct (link_ok node ni cs w Hna Hnb) as (w1 & Hw1 & _ & Hss & Hhn & _).
  rewrite Hw1. simpl.
  rewrite (negotiates_keeps _ _ _ _ _ Hhn).
  unfold negotiates. rewrite Hx, Hy. simpl.
  split; intros ->; simpl.
  - by apply ok_Some.
  - reflexivity.
Qed.

Lemma addToRender_guard_witness :
  encounter 0%nat 1%nat guardWorld =
  link 0%nat 1%nat quadTree.E guardWorld ≫= negotiate 0%nat 1%nat quadTree.E.
Proof.
  eapply (addToRender_guard guardWorld 0%nat 1%nat quadTree.E true false);
    [reflexivity | by eexists | by eexists | reflexivity | reflexivity | reflexivity].
Defined.

(** ** createChildrenNodes *)





(** ** renderTree: the camera-inside flag *)

(** C6, as stated, fails: for a mercator segment and a camera above
    [MAX_LAT] the equirectangular test would pass, yet no test is run and
    the flag stays false. *)
Lemma renderTree_cameraInside_counterexample :
  (exists n seg,
     getNode polarWorld 1%nat = Some n /\ parentNode n = Some 0%nat /\
     cameraInsideAt polarWorld 0%nat = Some true /\
     segment n = Some seg /\
     specCameraTest (activeCamera polarWorld) seg = true) /\
  ok (renderTree_enter 1%nat polarWorld) (fun w' =>
    cameraInsideAt w' 1%nat = Some false).
Proof.
  split.
  - eexists _, _. repeat split; reflexivity.
  - eexists. split; [vm_compute; reflexivity|reflexivity].
Qed.

Lemma getNode_set_activeCamera c w r : getNode (set_activeCamera c w) r = getNode w r.
Proof. reflexivity. Qed.

(** C6, amended.  On a node whose parent has the camera inside, the flag
    is set exactly when the camera passes the test that is run: in
    mercator coordinates for an EPSG3857 segment with [|lat| <= MAX_LAT],
    in equirectangular coordinates for an EPSG4326 segment.  For an
    EPSG3857 segment and [|lat| > MAX_LAT] no test is run and the flag is
    false. *)
Theorem renderTree_cameraInside (w : World) (this p : ref) (n pn : Node)
    (seg : Segment) :
  getNode w this = Some n ->
  parentNode n = Some p ->
  p <> this ->
  getNode w p = Some pn ->
  _cameraInside pn = true ->
  is_Some (neighbors n) ->
  segment n = Some seg ->
  let cam := activeCamera w in
  ok (renderTree_enter this w) (fun w' =>
    exists b, cameraInsideAt w' this = Some b /\
      (b = true <->
       (_projection seg = EPSG3857 /\
        (num_abs (lat (_lonLat cam)) <= MAX_LAT)%Q /\
        isInside (_extent seg) (_lonLatMerc cam) = true) \/
       (_projection seg = EPSG4326 /\
        isInside (_extent seg) (_lonLat cam) = true))).
Proof.
  intros Hn Hp Hne Hpn Hin [nb Hnb] Hseg cam.
  unfold renderTree_enter, renderTree_reset, modify, assign_neighbor.
  rewrite Hn. simpl.
  repeat (rewrite getNode_setNode_eq; simpl; rewrite ?Hnb; simpl).
  rewrite Hp. repeat (rewrite getNode_setNode_eq; simpl).
  rewrite !getNode_setNode_ne by congruence. rewrite Hpn. simpl.
  rewrite Hin. rewrite Hseg. simpl.
  fold cam. unfold cameraTest.
  destruct (num_leb (num_abs (lat (_lonLat cam))) MAX_LAT) eqn:Elat;
    destruct (_projection seg) eqn:Eproj; simpl.
  - apply num_leb_true in Elat.
    destruct (isInside (_extent seg) (_lonLatMerc cam)) eqn:Ein; simpl.
    + rewrite !getNode_set_activeCamera, getNode_setNode_eq. simpl. apply ok_Some.
      exists true. unfold cameraInsideAt.
      rewrite ?getNode_set_activeCamera, getNode_setNode_eq. simpl.
      split; [reflexivity|]. split; [intros _; left; auto|reflexivity].
    + apply ok_Some. exists false. unfold cameraInsideAt.
      rewrite ?getNode_set_activeCamera, getNode_setNode_eq. simpl.
      split; [reflexivity|]. split; [discriminate|].
      intros [(_ & _ & H)|(H & _)]; discriminate.
  - destruct (isInside (_extent seg) (_lonLat cam)) eqn:Ein; simpl.
    + rewrite !getNode_set_activeCamera, getNode_setNode_eq. simpl. apply ok_Some.
      exists true. unfold cameraInsideAt.
      rewrite ?getNode_set_activeCamera, getNode_setNode_eq. simpl.
      split; [reflexivity|]. split; [intros _; right; auto|reflexivity].
    + apply ok_Some. exists false. unfold cameraInsideAt.
      rewrite ?getNode_set_activeCamera, getNode_setNode_eq. simpl.
      split; [reflexivity|]. split; [discriminate|].
      intros [(H & _)|(_ & H)]; discriminate.
  - apply ok_Some. exists false. unfold cameraInsideAt.
    rewrite ?getNode_set_activeCamera, getNode_setNode_eq. simpl.
    split; [reflexivity|]. split; [discriminate|].
    intros [(_ & H & _)|(H & _)]; [|discriminate].
    apply num_leb_true in H. congruence.
  - destruct (isInside (_extent seg) (_lonLat cam)) eqn:Ein; simpl.
    + rewrite !getNode_set_activeCamera, getNode_setNode_eq. simpl. apply ok_Some.
      exists true. unfold cameraInsideAt.
      rewrite ?getNode_set_activeCamera, getNode_setNode_eq. simpl.
      split; [reflexivity|]. split; [intros _; right; auto|reflexivity].
    + apply ok_Some. exists false. unfold cameraInsideAt.
      rewrite ?getNode_set_activeCamera, getNode_setNode_eq. simpl.
      split; [reflexivity|]. split; [discriminate|].
      intros [(H & _)|(_ & H)]; discriminate.
Qed.

Lemma renderTree_cameraInside_witness :
  ok (renderTree_enter 1%nat polarWorld) (fun w' =>
    exists b, cameraInsideAt w' 1%nat = Some b /\ b <> true).
Proof.
  eapply ok_mono.
  - eapply (renderTree_cameraInside polarWorld 1%nat 0%nat);
      [reflexivity | reflexivity | discriminate | reflexivity | reflexivity
      | by eexists | reflexivity].
  - intros w' (b & Hb & Hiff). exists b. split; [exact Hb|].
    intros Ht. apply Hiff in Ht as [(_ & H & _)|(H & _)];
      [exact (H eq_refl)|discriminate].
Defined.

(** ** What is kept by an assignment, in general *)

Lemma kept_refl {X} (obs : Node -> X) w : kept obs w w.
Proof. by intros r. Qed.

Lemma kept_trans {X} (obs : Node -> X) w1 w2 w3 :
  kept obs w1 w2 -> kept obs w2 w3 -> kept obs w1 w3.
Proof. intros H1 H2 r. by rewrite H2. Qed.

Lemma modify_kept {X} (obs : Node -> X) r f w w' :
  modify r f w = Some w' ->
  (forall n n', f n = Some n' -> obs n' = obs n) ->
  kept obs w w'.
Proof.
  intros H Hf r'. rewrite (modify_getNode _ _ _ _ H r').
  apply modify_inv in H as (n & n' & Hn & Hfn & _).
  destruct (decide (r = r')) as [<-|]; [|reflexivity].
  rewrite Hn. simpl. rewrite Hfn. simpl. f_equal. eauto.
Qed.

Lemma call_kept {X} (obs : Node -> X) c w : kept obs w (call c w).
Proof. by intros r. Qed.

Lemma kept_segmentAt {X} (f : Segment -> X) w w' r :
  kept (onSegment f) w w' -> f <$> segmentAt w' r = f <$> segmentAt w r.
Proof.
  intros H. specialize (H r). unfold segmentAt, onSegment in *.
  destruct (getNode w' r), (getNode w r); simpl in *; congruence.
Qed.

Lemma kept_segmentAt_is_Some {X} (f : Segment -> X) w w' r :
  kept (onSegment f) w w' -> is_Some (segmentAt w r) -> is_Some (segmentAt w' r).
Proof.
  intros H [s Hs]. pose proof (kept_segmentAt f w w' r H) as Hk.
  rewrite Hs in Hk. destruct (segmentAt w' r); [eauto|simpl in Hk; discriminate].
Qed.

Lemma kept_segmentAt_field {X} (f : Segment -> X) w w' r s s' :
  kept (onSegment f) w w' ->
  segmentAt w r = Some s -> segmentAt w' r = Some s' -> f s' = f s.
Proof.
  intros H Hs Hs'. pose proof (kept_segmentAt f w w' r H) as Hk.
  rewrite Hs, Hs' in Hk. simpl in Hk. congruence.
Qed.

Lemma modify_segment_kept {X} (obs : Segment -> X) r g w w' :
  modify_segment r g w = Some w' ->
  (forall s, obs (g s) = obs s) ->
  kept (onSegment obs) w w'.
Proof.
  intros H Hg. eapply modify_kept; [exact H|].
  intros n n' Hn. unfold onSegment. simpl in Hn.
  destruct (segment n) as [s|]; simpl in Hn; [|discriminate].
  injection Hn as <-. simpl. by rewrite Hg.
Qed.

Lemma modify_segment_links r g w w' :
  modify_segment r g w = Some w' -> kept parentNode w w'.
Proof.
  intros H. eapply modify_kept; [exact H|].
  intros n n' Hn. simpl in Hn.
  destruct (segment n); simpl in Hn; [|discriminate].
  by injection Hn as <-.
Qed.

Lemma modify_segment_Some r g w s :
  segmentAt w r = Some s ->
  exists w', modify_segment r g w = Some w' /\ segmentAt w' r = Some (g s).
Proof.
  unfold segmentAt, modify_segment, modify. intros Hs.
  destruct (getNode w r) as [n|]; simpl in *; [|discriminate].
  rewrite Hs. simpl. eexists. split; [reflexivity|].
  rewrite getNode_setNode_eq. reflexivity.
Qed.

(** ** Climbing the parent links *)

Lemma lineage_kept w w' r l :
  kept parentNode w w' -> lineage w r l -> lineage w' r l.
Proof.
  intros Hk H. induction H as [r n Hn Hp|r n p l Hn Hp _ IH].
  - pose proof (Hk r) as E. rewrite Hn in E. simpl in E.
    destruct (getNode w' r) as [n'|] eqn:Hn'; [|discriminate].
    eapply lineage_root; [exact Hn'|]. simpl in E. congruence.
  - pose proof (Hk r) as E. rewrite Hn in E. simpl in E.
    destruct (getNode w' r) as [n'|] eqn:Hn'; [|discriminate].
    eapply lineage_child; [exact Hn'| |exact IH]. simpl in E. congruence.
Qed.

Lemma climb_kept fuel stop w w' r :
  kept parentNode w w' -> kept (onSegment stop) w w' ->
  climb fuel stop w' r = climb fuel stop w r.
Proof.
  intros Hl Hs. revert r. induction fuel as [|fuel IH]; intros r; [reflexivity|].
  simpl. pose proof (Hl r) as El. pose proof (Hs r) as Es.
  unfold onSegment in Es.
  destruct (getNode w' r) as [n'|], (getNode w r) as [n|];
    simpl in *; try congruence.
  injection El as El. injection Es as Es. rewrite El.
  destruct (parentNode n); [|reflexivity].
  destruct (segment n'), (segment n); simpl in *; try congruence.
  injection Es as ->. rewrite IH. reflexivity.
Qed.

(** With fuel for the whole lineage the climb ends, on a node of the
    lineage. *)
Lemma climb_total fuel stop w r l :
  lineage w r l ->
  Forall (fun x => is_Some (segmentAt w x)) l ->
  (length l <= fuel)%nat ->
  exists top, climb fuel stop w r = Some top /\ top ∈ l.
Proof.
  intros H. revert fuel. induction H as [r n Hn Hp|r n p l Hn Hp _ IH];
    intros fuel Hall Hlen.
  - destruct fuel as [|fuel]; [simpl in Hlen; lia|].
    simpl. rewrite Hn. simpl. rewrite Hp. exists r. split; [reflexivity|].
    apply list_elem_of_here.
  - destruct fuel as [|fuel]; [simpl in Hlen; lia|].
    simpl. rewrite Hn. simpl. rewrite Hp.
    apply Forall_cons in Hall as [[s Hs] Hall].
    unfold segmentAt in Hs. rewrite Hn in Hs. simpl in Hs. rewrite Hs. simpl.
    destruct (stop s).
    + exists r. split; [reflexivity|]. apply list_elem_of_here.
    + destruct (IH fuel Hall) as (top & Ht & Hin); [simpl in Hlen; lia|].
      exists top. split; [exact Ht|]. by apply list_elem_of_further.
Qed.

(** If no node of the lineage stops the climb, it ends on the last one,
    the root. *)
Lemma climb_to_root fuel stop w r l :
  lineage w r l ->
  Forall (fun x => exists s, segmentAt w x = Some s /\ stop s = false) l ->
  (length l <= fuel)%nat ->
  exists root, last l = Some root /\ climb fuel stop w r = Some root.
Proof.
  intros H. revert fuel. induction H as [r n Hn Hp|r n p l Hn Hp Hlin IH];
    intros fuel Hall Hlen.
  - destruct fuel as [|fuel]; [simpl in Hlen; lia|].
    exists r. split; [reflexivity|]. simpl. rewrite Hn. simpl. by rewrite Hp.
  - destruct fuel as [|fuel]; [simpl in Hlen; lia|].
    apply Forall_cons in Hall as [(s & Hs & Hstop) Hall].
    destruct (IH fuel Hall) as (root & Hlast & Hc); [simpl in Hlen; lia|].
    exists root. split.
    + destruct l; [inversion Hlin|exact Hlast].
    + simpl. rewrite Hn. simpl. rewrite Hp.
      unfold segmentAt in Hs. rewrite Hn in Hs. simpl in Hs. rewrite Hs. simpl.
      rewrite Hstop. exact Hc.
Qed.

(** ** The hand-offs to the segment *)

Lemma seg_queue_ok r w :
  is_Some (segmentAt w r) ->
  ok (seg_queue r w) (fun w' =>
    kept parentNode w w' /\
    forall X (obs : Segment -> X),
      (forall s, obs (seg_set_inTheQueue true s) = obs s) ->
      kept (onSegment obs) w w').
Proof.
  intros [s Hs]. unfold seg_queue.
  destruct (modify_segment_Some r (seg_set_inTheQueue true)
              (call (normalMapCreator_queue r) w) s Hs) as (w' & Hw' & _).
  exists w'. split; [exact Hw'|]. split.
  - exact (modify_segment_links _ _ _ _ Hw').
  - intros X obs Hobs. exact (modify_segment_kept obs _ _ _ _ Hw' Hobs).
Qed.

Lemma seg_createPlainSegment_ok r w :
  is_Some (segmentAt w r) ->
  ok (seg_createPlainSegment r w) (fun w' =>
    kept parentNode w w' /\
    forall X (obs : Segment -> X),
      (forall s, obs (seg_set_ready true s) = obs s) ->
      kept (onSegment obs) w w').
Proof.
  intros [s Hs]. unfold seg_createPlainSegment.
  destruct (modify_segment_Some r (seg_set_ready true)
              (call (createPlainSegment r) w) s Hs) as (w' & Hw' & _).
  exists w'. split; [exact Hw'|]. split.
  - exact (modify_segment_links _ _ _ _ Hw').
  - intros X obs Hobs. exact (modify_segment_kept obs _ _ _ _ Hw' Hobs).
Qed.

Lemma seg_call_ok r c w :
  is_Some (segmentAt w r) ->
  ok (seg_call r c w) (fun w' => forall X (obs : Node -> X), kept obs w w').
Proof.
  intros [s Hs]. unfold seg_call. rewrite Hs. simpl.
  apply ok_Some. intros X obs. apply call_kept.
Qed.

Lemma modify_segment_ok r g w :
  is_Some (segmentAt w r) ->
  ok (modify_segment r g w) (fun w' =>
    kept parentNode w w' /\
    segmentAt w' r = g <$> segmentAt w r /\
    forall X (obs : Segment -> X),
      (forall s, obs (g s) = obs s) -> kept (onSegment obs) w w').
Proof.
  intros [s Hs].
  destruct (modify_segment_Some r g w s Hs) as (w' & Hw' & Hs').
  exists w'. split; [exact Hw'|]. split; [|split].
  - exact (modify_segment_links _ _ _ _ Hw').
  - by rewrite Hs, Hs'.
  - intros X obs Hobs. exact (modify_segment_kept obs _ _ _ _ Hw' Hobs).
Qed.

(** ** whileNormalMapCreating *)

Lemma normalMapBeyondMaxZoom_ok fuel this pn seg w l :
  lineage w this l ->
  Forall (fun x => is_Some (segmentAt w x)) l ->
  (length l <= fuel)%nat ->
  is_Some (segmentAt w this) ->
  is_Some (segmentAt w pn) ->
  ok (normalMapBeyondMaxZoom fuel this pn seg w) (fun w' => kept (onSegment sampledMap) w w').
Proof.
  intros Hlin Hall Hlen Hthis Hpn. unfold normalMapBeyondMaxZoom.
  destruct (_ <? _); [|apply ok_Some, kept_refl].
  destruct Hpn as [pseg Hpseg]. rewrite Hpseg. simpl.
  destruct (_ =? _).
  { eapply ok_mono; [by apply modify_segment_ok|].
    intros w' (_ & _ & H). by apply H. }
  destruct (climb_total fuel (fun s => tileZoom s =? maxZoom (terrain w)) w this l
              Hlin Hall Hlen) as (top & Hc & Hin).
  rewrite Hc. simpl.
  rewrite Forall_forall in Hall. destruct (Hall top Hin) as [pns Hpns].
  rewrite Hpns. simpl.
  destruct (negb (seg_ready pns)).
  { eapply ok_bind; [apply seg_createPlainSegment_ok; eauto|].
    intros w1 (_ & H1). simpl.
    eapply ok_mono.
    - apply seg_call_ok. eapply (kept_segmentAt_is_Some sampledMap); eauto.
    - intros w2 H2. eapply kept_trans; [by apply H1|apply H2]. }
  destruct (_ && _); [|apply ok_Some, kept_refl].
  eapply ok_mono; [apply seg_queue_ok; eauto|].
  intros w' (_ & H). by apply H.
Qed.

Lemma Forall_is_Some_segmentAt_kept {X} (f : Segment -> X) w w' l :
  kept (onSegment f) w w' ->
  Forall (fun x => is_Some (segmentAt w x)) l ->
  Forall (fun x => is_Some (segmentAt w' x)) l.
Proof.
  intros Hk H. eapply Forall_impl; [exact H|].
  intros x. by apply (kept_segmentAt_is_Some f).
Qed.

Lemma inject_Z_nonzero z : z <> 0 -> ~ (inject_Z z == 0)%Q.
Proof.
  intros Hz H. apply Hz. unfold Qeq in H. simpl in H. lia.
Qed.

(** The texture and the bias are taken from the node where the climb
    stopped, whatever the state of its normal map. *)
Lemma whileNormalMapCreating_from_stop fuel w this l top seg tseg :
  lineage w this l ->
  Forall (fun x => is_Some (segmentAt w x)) l ->
  (length l <= fuel)%nat ->
  climb fuel normalMapReady w this = Some top ->
  segmentAt w this = Some seg ->
  segmentAt w top = Some tseg ->
  let dZ2 := shl32 2 (tileZoom seg - tileZoom tseg - 1) in
  ok (whileNormalMapCreating fuel this w) (fun w' =>
    exists seg', segmentAt w' this = Some seg' /\
      normalMapTexture seg' = normalMapTexture tseg /\
      normalMapTextureBias seg' =
        (inject_Z (tileX seg - tileX tseg * dZ2),
         inject_Z (tileY seg - tileY tseg * dZ2),
         num_div 1 (inject_Z dZ2))).
Proof.
  intros Hlin Hall Hlen Hclimb Hseg Htseg dZ2.
  unfold whileNormalMapCreating.
  pose proof Hseg as Hseg0. unfold segmentAt in Hseg0.
  destruct (getNode w this) as [n|] eqn:Hn; simpl in Hseg0; [|discriminate].
  simpl. rewrite Hseg0. simpl.
  eapply (ok_bind _ _ (fun w1 =>
    kept parentNode w w1 /\
    forall X (obs : Segment -> X),
      (forall s, obs (seg_set_inTheQueue true s) = obs s) ->
      kept (onSegment obs) w w1)).
  { destruct (_ && _).
    - apply seg_queue_ok. eauto.
    - apply ok_Some. split; [apply kept_refl|]. intros. apply kept_refl. }
  intros w1 (L1 & K1). simpl.
  rewrite (climb_kept fuel normalMapReady w w1 this L1
             (K1 _ normalMapReady (fun _ => eq_refl))).
  rewrite Hclimb. simpl.
  destruct (kept_segmentAt_is_Some placement w w1 top (K1 _ placement (fun _ => eq_refl)))
    as [pseg1 Hpseg1]; [eauto|].
  destruct (kept_segmentAt_is_Some placement w w1 this (K1 _ placement (fun _ => eq_refl)))
    as [seg1 Hseg1]; [eauto|].
  rewrite Hpseg1. simpl.
  eapply ok_bind; [apply modify_segment_ok; eauto|].
  intros w2 (L2 & S2 & K2). simpl.
  destruct (kept_segmentAt_is_Some placement w1 w2 top (K2 _ placement (fun _ => eq_refl)))
    as [pseg2 Hpseg2]; [eauto|].
  rewrite Hpseg2. simpl.
  assert (Hz1 : tileZoom pseg1 = tileZoom tseg).
  { eapply (kept_segmentAt_field tileZoom w w1); eauto. }
  assert (Ht1 : normalMapTexture pseg1 = normalMapTexture tseg).
  { eapply (kept_segmentAt_field normalMapTexture w w1); eauto. }
  assert (Hx2 : tileX pseg2 = tileX tseg).
  { transitivity (tileX pseg1).
    - eapply (kept_segmentAt_field tileX w1 w2); eauto.
    - eapply (kept_segmentAt_field tileX w w1); eauto. }
  assert (Hy2 : tileY pseg2 = tileY tseg).
  { transitivity (tileY pseg1).
    - eapply (kept_segmentAt_field tileY w1 w2); eauto.
    - eapply (kept_segmentAt_field tileY w w1); eauto. }
  rewrite Hz1, Hx2, Hy2. rewrite Ht1 in S2. fold dZ2.
  eapply ok_bind.
  { apply modify_segment_ok. rewrite S2, Hseg1. simpl. eauto. }
  intros w3 (L3 & S3 & K3). simpl.
  rewrite S2, Hseg1 in S3. simpl in S3.
  eapply ok_mono.
  { apply (normalMapBeyondMaxZoom_ok fuel this top seg w3 l).
    - eapply lineage_kept; [exact L3|]. eapply lineage_kept; [exact L2|].
      eapply lineage_kept; [exact L1|]. exact Hlin.
    - eapply (Forall_is_Some_segmentAt_kept placement); [by apply K3|].
      eapply (Forall_is_Some_segmentAt_kept placement); [by apply K2|].
      eapply (Forall_is_Some_segmentAt_kept placement); [by apply K1|].
      exact Hall.
    - exact Hlen.
    - rewrite S3. eauto.
    - eapply (kept_segmentAt_is_Some placement w2 w3); [by apply K3|]. eauto. }
  intros w' K'.
  destruct (kept_segmentAt_is_Some sampledMap w3 w' this K') as [seg' Hseg'];
    [rewrite S3; eauto|].
  exists seg'. split; [exact Hseg'|].
  pose proof (kept_segmentAt_field sampledMap w3 w' this _ _ K' S3 Hseg') as E.
  unfold sampledMap in E. simpl in E. injection E as E1 E2. auto.
Qed.

(** C10.  The texture and the bias are assigned without looking at the
    state of the chosen ancestor: when no node from [this] up to the root
    has [normalMapReady], the climb stops at the root, and the segment's
    texture handle and bias
    [(tileX - root.tileX * dZ2, tileY - root.tileY * dZ2, 1 / dZ2)], with
    [dZ2 = 2 << (tileZoom - root.tileZoom - 1)], are still overwritten from
    the root segment, whose normal map is not ready. *)
Theorem whileNormalMapCreating_unguarded (fuel : nat) (w : World) (this root : ref)
    (l : list ref) (seg rseg : Segment) :
  lineage w this l ->
  last l = Some root ->
  Forall (fun x => exists s, segmentAt w x = Some s /\ normalMapReady s = false) l ->
  (length l <= fuel)%nat ->
  segmentAt w this = Some seg ->
  segmentAt w root = Some rseg ->
  let dZ2 := shl32 2 (tileZoom seg - tileZoom rseg - 1) in
  dZ2 <> 0 ->
  normalMapReady rseg = false /\
  ok (whileNormalMapCreating fuel this w) (fun w' =>
    exists seg', segmentAt w' this = Some seg' /\
      normalMapTexture seg' = normalMapTexture rseg /\
      normalMapTextureBias seg' =
        (inject_Z (tileX seg - tileX rseg * dZ2),
         inject_Z (tileY seg - tileY rseg * dZ2),
         Some (1 / inject_Z dZ2)%Q)).
Proof.
  intros Hlin Hlast Hall Hlen Hseg Hrseg dZ2 HdZ2.
  rewrite <- (num_div_Some 1 (inject_Z dZ2)) by (by apply inject_Z_nonzero).
  destruct (climb_to_root fuel normalMapReady w this l Hlin Hall Hlen)
    as (root' & Hlast' & Hclimb).
  assert (root' = root) as -> by congruence.
  split.
  - rewrite Forall_forall in Hall.
    destruct (Hall root) as (s & Hs & Hready); [by eapply last_Some_elem_of|].
    congruence.
  - eapply (whileNormalMapCreating_from_stop fuel w this l root seg rseg); eauto.
    eapply Forall_impl; [exact Hall|]. intros x (s & Hs & _). eauto.
Qed.

Lemma whileNormalMapCreating_unguarded_witness :
  normalMapReady (tileSegment 0 0 0 (Some 7)) = false /\
  ok (whileNormalMapCreating 3 2%nat normalMapWorld) (fun w' =>
    exists seg', segmentAt w' 2%nat = Some seg' /\
      normalMapTexture seg' = Some 7 /\
      normalMapTextureBias seg' = (3%Q, 1%Q, Some (1 / 4)%Q)).
Proof.
  eapply (whileNormalMapCreating_unguarded 3 normalMapWorld 2%nat 0%nat
            [2%nat; 1%nat; 0%nat] (tileSegment 2 3 1 None)
            (tileSegment 0 0 0 (Some 7))).
  - eapply lineage_child; [reflexivity|reflexivity|].
    eapply lineage_child; [reflexivity|reflexivity|].
    eapply lineage_root; reflexivity.
  - reflexivity.
  - repeat constructor; eexists; split; reflexivity.
  - simpl. lia.
  - reflexivity.
  - reflexivity.
  - discriminate.
Defined.

(** ** destroy *)

Lemma kept_present {X} (obs : Node -> X) w w' r :
  kept obs w w' -> present w r -> present w' r.
Proof.
  intros H [n Hn]. specialize (H r). rewrite Hn in H.
  destruct (getNode w' r) eqn:E; [by eexists|discriminate].
Qed.

Lemma kept_neighborAt w w' r s :
  kept neighbors w w' -> neighborAt w' r s = neighborAt w r s.
Proof.
  intros H. specialize (H r). unfold neighborAt.
  destruct (getNode w' r), (getNode w r); simpl in *; congruence.
Qed.

Lemma unlink_step x s w w0 :
  (forall s, neighborAt w x s <> Some (Some x)) ->
  (forall s m, neighborAt w x s = Some (Some m) -> present w m) ->
  is_Some (neighborAt w x s) ->
  unlinking x w w0 ->
  ok (unlink x s (quadTree.OPSIDE s) w0) (fun w' =>
    unlinking x w w' /\
    (forall r u, neighborAt w' r u = neighborAt w0 r u \/ neighborAt w' r u = Some None) /\
    (forall m, neighborAt w x s = Some (Some m) ->
               neighborAt w' m (quadTree.OPSIDE s) <> Some (Some x))).
Proof.
  intros Hself Hpres [v Hv] [HA HC].
  assert (Hx0 : neighborAt w0 x s = Some v).
  { destruct (HA x s) as [E|(_ & s' & E & _)]; [congruence|].
    by apply Hself in E. }
  unfold unlink. unfold neighborAt in Hx0.
  destruct (getNode w0 x) as [nd|]; simpl in Hx0; [|discriminate]. simpl.
  destruct (neighbors nd) as [nb|]; simpl in Hx0; [|discriminate]. simpl.
  injection Hx0 as Hx0. rewrite Hx0.
  destruct v as [m|].
  2:{ apply ok_Some. split; [by split|]. split; [by left|]. congruence. }
  destruct (HC m (Hpres _ _ Hv)) as [mn Hmn]. rewrite Hmn. simpl.
  destruct (neighbors mn) as [mnb|] eqn:Hmnb.
  2:{ apply ok_Some. split; [by split|]. split; [by left|].
      intros m' Hm'. rewrite Hv in Hm'. injection Hm' as <-.
      unfold neighborAt. rewrite Hmn. simpl. by rewrite Hmnb. }
  assert (Hok : is_Some (neighborAt w0 m (quadTree.OPSIDE s))).
  { unfold neighborAt. rewrite Hmn. simpl. rewrite Hmnb. simpl. eauto. }
  destruct (assign_neighbor_ok m (quadTree.OPSIDE s) None w0 Hok) as [w' Hw'].
  rewrite Hw'. apply ok_Some.
  pose proof (assign_neighbor_neighbors _ _ _ _ _ Hw') as Hnb.
  split; [split|split].
  - intros r u. rewrite Hnb. destruct (decide (r = m /\ _)) as [[-> ->]|_].
    + right. split; [reflexivity|]. eauto.
    + apply HA.
  - intros r Hr. eapply (kept_present parentNode w0 w'); [|by apply HC].
    eapply modify_kept; [exact Hw'|].
    intros n n' Hn. unfold assign_neighbor in Hn.
    destruct (neighbors n); simpl in Hn; [|discriminate]. by injection Hn as <-.
  - intros r u. rewrite Hnb. destruct (decide (_ /\ _)); auto.
  - intros m' Hm'. rewrite Hv in Hm'. injection Hm' as <-.
    rewrite Hnb, decide_True by auto. discriminate.
Qed.

Lemma unlinks_ok x sides w w0 :
  (forall s, neighborAt w x s <> Some (Some x)) ->
  (forall s m, neighborAt w x s = Some (Some m) -> present w m) ->
  (forall s, is_Some (neighborAt w x s)) ->
  unlinking x w w0 ->
  ok (unlinks x sides w0) (fun w' =>
    unlinking x w w' /\
    (forall r u, neighborAt w' r u = neighborAt w0 r u \/ neighborAt w' r u = Some None) /\
    (forall s m, s ∈ sides -> neighborAt w x s = Some (Some m) ->
                 neighborAt w' m (quadTree.OPSIDE s) <> Some (Some x))).
Proof.
  intros Hself Hpres Hsome. revert w0.
  induction sides as [|s rest IH]; intros w0 Hinv; simpl.
  - apply ok_Some. split; [exact Hinv|]. split; [by left|].
    intros s m Hin. by apply elem_of_nil in Hin.
  - eapply ok_bind; [by apply (unlink_step x s w w0)|].
    intros w1 (Hinv1 & Hmono1 & Hdone1). simpl.
    eapply ok_mono; [by apply IH|].
    intros w2 (Hinv2 & Hmono2 & Hdone2).
    split; [exact Hinv2|]. split.
    + intros r u. destruct (Hmono2 r u) as [-> | ->]; auto.
    + intros s' m Hin Hm. apply elem_of_cons in Hin as [->|Hin]; [|by eauto].
      destruct (Hmono2 m (quadTree.OPSIDE s)) as [-> | ->]; [by apply Hdone1|].
      discriminate.
Qed.

Lemma unlinking_refl x w : unlinking x w w.
Proof. split; [by left|auto]. Qed.

Lemma dropReferences_ok x w :
  present w x ->
  ok (dropReferences x w) (fun w' =>
    (forall r, r <> x -> getNode w' r = getNode w r) /\
    (forall s, neighborAt w' x s = None)).
Proof.
  intros [n Hn]. unfold dropReferences, modify. rewrite Hn. simpl.
  repeat (rewrite getNode_setNode_eq; simpl).
  apply ok_Some. split.
  - intros r Hr. rewrite !getNode_setNode_ne by congruence. reflexivity.
  - intros s. unfold neighborAt. rewrite getNode_setNode_eq. reflexivity.
Qed.

Lemma destroy_unfold x w :
  destroy x w =
  (w ← modify x (fun n => Some (set_state (Some quadTree.NOTRENDERING) n)) w;
   w ← seg_call x (destroySegment x) w;
   w ← unlinks x [quadTree.N; quadTree.E; quadTree.S; quadTree.W] w;
   dropReferences x w).
Proof.
  unfold destroy, dropReferences. simpl.
  destruct (modify x _ w) as [w0|]; [simpl|reflexivity].
  destruct (seg_call x _ w0) as [w1|]; [simpl|reflexivity].
  destruct (unlink x quadTree.N _ w1) as [w2|]; [simpl|reflexivity].
  destruct (unlink x quadTree.E _ w2) as [w3|]; [simpl|reflexivity].
  destruct (unlink x quadTree.S _ w3) as [w4|]; [simpl|reflexivity].
  destruct (unlink x quadTree.W _ w4) as [w5|]; reflexivity.
Qed.

(** What [destroy] does to the links: it only removes some, and it removes
    every reference to the node from the nodes the node held. *)
Lemma destroy_effect (w : World) (x : ref) :
  is_Some (segmentAt w x) ->
  (forall s, is_Some (neighborAt w x s)) ->
  (forall s m, holds w x s m -> present w m) ->
  (forall s m t, holds w x s m -> holds w m t x -> t = quadTree.OPSIDE s) ->
  ok (destroy x w) (fun w' =>
    (forall a s b, holds w' a s b -> holds w a s b) /\
    (forall s m, holds w x s m -> forall t, ~ holds w' m t x)).
Proof.
  unfold holds. intros Hseg Hnb Hpres Hfacing.
  assert (Hself : forall s, neighborAt w x s <> Some (Some x)).
  { intros s Hs. pose proof (Hfacing s x s Hs Hs) as E.
    symmetry in E. by apply OPSIDE_neq in E. }
  rewrite destroy_unfold.
  destruct Hseg as [seg Hseg].
  assert (Hx : present w x).
  { unfold segmentAt in Hseg. destruct (getNode w x) eqn:E; [by eexists|discriminate]. }
  destruct Hx as [n Hn].
  rewrite (modify_Some x (fun n => Some (set_state (Some quadTree.NOTRENDERING) n))
             w n _ Hn eq_refl). simpl.
  set (w0 := setNode x (set_state (Some quadTree.NOTRENDERING) n) w).
  assert (K0 : forall X (obs : Node -> X),
             (forall n, obs (set_state (Some quadTree.NOTRENDERING) n) = obs n) ->
             kept obs w w0).
  { intros X obs Hobs r. unfold w0. rewrite getNode_setNode.
    destruct (decide (x = r)) as [<-|]; [|reflexivity].
    rewrite Hn. simpl. by rewrite Hobs. }
  eapply ok_bind.
  { apply seg_call_ok. eapply (kept_segmentAt_is_Some placement w w0); [|eauto].
    apply (K0 _ (onSegment placement)). reflexivity. }
  intros w1 K1. cbv beta.
  assert (N1 : forall r s, neighborAt w1 r s = neighborAt w r s).
  { intros r s. rewrite (kept_neighborAt w0 w1) by apply K1.
    apply kept_neighborAt. by apply K0. }
  assert (P1 : forall r, present w r -> present w1 r).
  { intros r Hr. eapply (kept_present parentNode w0 w1); [apply K1|].
    eapply (kept_present parentNode w w0); [by apply K0|exact Hr]. }
  eapply ok_bind.
  { apply (unlinks_ok x [quadTree.N; quadTree.E; quadTree.S; quadTree.W] w1 w1).
    - intros s. rewrite N1. apply Hself.
    - intros s m. rewrite N1. intros Hm. apply P1. eauto.
    - intros s. rewrite N1. apply Hnb.
    - apply unlinking_refl. }
  intros w2 ((HA & HC) & _ & Hdone). cbv beta.
  eapply ok_mono.
  { apply dropReferences_ok. apply HC, P1. by eexists. }
  intros w3 [Hrest Hgone].
  assert (Hw3 : forall a s b,
            neighborAt w3 a s = Some (Some b) ->
            a <> x /\ neighborAt w2 a s = Some (Some b)).
  { intros a s b Hab. destruct (decide (a = x)) as [->|Hax].
    - rewrite Hgone in Hab. discriminate.
    - split; [exact Hax|]. unfold neighborAt in *. by rewrite <- (Hrest a Hax). }
  split.
  - intros a s b Hab. apply Hw3 in Hab as [_ Hab].
    destruct (HA a s) as [E|[E _]]; [|congruence].
    by rewrite <- N1, <- E.
  - intros s m Hm t Hback. apply Hw3 in Hback as [_ Hback].
    destruct (decide (t = quadTree.OPSIDE s)) as [->|Ht].
    + revert Hback. apply Hdone; [|by rewrite N1].
      destruct s; rewrite !elem_of_cons; auto.
    + destruct (HA m t) as [E|[E _]]; [|congruence].
      rewrite E, N1 in Hback. apply Ht. eauto.
Qed.

(** C9.  After [destroy], no node that the destroyed node held in its
    [neighbors] array refers back to it on any side.  The links are those
    [addToRender] installs: a neighbour held on side [s] refers back across
    the opposite side only, and that is the slot [destroy] empties. *)
Theorem destroy_unlinks (w : World) (x : ref) :
  is_Some (segmentAt w x) ->
  (forall s, is_Some (neighborAt w x s)) ->
  (forall s m, neighborAt w x s = Some (Some m) -> present w m) ->
  (forall s m t, neighborAt w x s = Some (Some m) ->
                 neighborAt w m t = Some (Some x) -> t = quadTree.OPSIDE s) ->
  ok (destroy x w) (fun w' =>
    forall s m, neighborAt w x s = Some (Some m) ->
      forall t, neighborAt w' m t <> Some (Some x)).
Proof.
  intros Hseg Hnb Hpres Hfacing.
  eapply ok_mono; [by apply destroy_effect|].
  intros w' [_ H]. exact H.
Qed.

(** [destroy] keeps the links in facing pairs. *)
Lemma destroy_facing (w : World) (x : ref) :
  is_Some (segmentAt w x) ->
  (forall s, is_Some (neighborAt w x s)) ->
  (forall s m, holds w x s m -> present w m) ->
  facing w ->
  ok (destroy x w) facing.
Proof.
  intros Hseg Hnb Hpres F.
  eapply ok_mono.
  { apply destroy_effect; auto. intros s m t. apply F. }
  intros w' [Hmono _] a b s t Hab Hba. eapply F; eauto.
Qed.

Lemma destroy_unlinks_witness :
  neighborAt linkedWorld 1%nat quadTree.W = Some (Some 0%nat) /\
  ok (destroy 0%nat linkedWorld) (fun w' =>
    forall t, neighborAt w' 1%nat t <> Some (Some 0%nat)).
Proof.
  split; [reflexivity|].
  eapply ok_mono.
  - apply (destroy_unlinks linkedWorld 0%nat).
    + by eexists.
    + intros s. destruct s; by eexists.
    + intros s m H. destruct s; vm_compute in H; try discriminate.
      injection H as <-. by eexists.
    + intros s m t H1 H2. destruct s; vm_compute in H1; try discriminate.
      injection H1 as <-. destruct t; vm_compute in H2; try discriminate.
      reflexivity.
  - intros w' H t. apply (H quadTree.E 1%nat). reflexivity.
Defined.

(** ** whileTerrainLoading: the inherited mesh *)

(** C3 fails on the code.  The child inherits grid size 1 and side sizes 1,
    and the array starts with the [(1+1)^2] vertices of its patch; but the
    array has [3 * (i0 + size + 1) * (j0 + size + 1) = 27] cells, not
    [3 * (1+1)^2 = 12]: [getMatrixSubArray] sizes its result by the end
    indices of the patch, and fifteen cells of zeros follow the vertices. *)
Theorem whileTerrainLoading_oversized_mesh :
  exists w' seg',
    whileTerrainLoading 2 1%nat terrainWorld = Some (true, w') /\
    segmentAt w' 1%nat = Some seg' /\
    (gridSize seg' == 1)%Q /\
    (forall s, exists v, sideSizeAt w' 1%nat s = Some v /\ (v == 1)%Q) /\
    tempVertices seg' = Some (southEastPatch ++ replicate 15 (Some 0%Q)) /\
    tempVertices seg' <> Some southEastPatch.
Proof.
  eexists _, _.
  split; [vm_compute; reflexivity|].
  split; [reflexivity|].
  split; [reflexivity|].
  split; [intros s; destruct s; eexists; split; reflexivity|].
  split; [reflexivity|discriminate].
Qed.

Lemma copyVertex_length src grid i j st :
  length (fst (copyVertex src grid i j st)) = length (fst st).
Proof. unfold copyVertex, put. simpl. by rewrite !length_insert. Qed.

Lemma copyRow_length src grid i cols st :
  length (fst (foldl (fun st j => copyVertex src grid i j st) st cols)) =
  length (fst st).
Proof.
  revert st. induction cols as [|j cols IH]; intros st; [reflexivity|].
  simpl. rewrite IH. apply copyVertex_length.
Qed.

Lemma copyRows_length src grid rows cols st :
  length (fst (foldl (fun st i =>
                 foldl (fun st j => copyVertex src grid i j st) st cols)
               st rows)) =
  length (fst st).
Proof.
  revert st. induction rows as [|i rows IH]; intros st; [reflexivity|].
  simpl. rewrite IH. apply copyRow_length.
Qed.

(** The result has as many cells as [(i0 + size + 1) * (j0 + size + 1)]
    vertices, whatever the size of the patch. *)
Lemma getMatrixSubArray_length src grid i0 j0 size res :
  getMatrixSubArray (Some src) grid i0 j0 size = Some res ->
  length res = Z.to_nat (trunc ((i0 + size + 1) * (j0 + size + 1) * 3)).
Proof.
  unfold getMatrixSubArray, newFloat32Array.
  destruct (_ <? 0); simpl; [discriminate|].
  intros [= <-]. rewrite copyRows_length. simpl. apply length_replicate.
Qed.

(** ** getEqualNeighbor: the neighbour by tile coordinates *)

Lemma NEIGHBOUR_OPPART s c c' :
  quadTree.NEIGHBOUR s c = Some c' -> quadTree.OPPART (quadTree.OPSIDE s) c = c'.
Proof. destruct s, c; simpl; congruence. Qed.

Lemma OPPART_OPSIDE s c :
  quadTree.OPPART (quadTree.OPSIDE s) c = quadTree.OPPART s c.
Proof. by destruct s. Qed.

Lemma partOfBits_bits c : partOfBits (xbit c) (ybit c) = c.
Proof. by destruct c. Qed.

Lemma xbit_range c : 0 <= xbit c < 2.
Proof. destruct c; simpl; lia. Qed.

Lemma ybit_range c : 0 <= ybit c < 2.
Proof. destruct c; simpl; lia. Qed.

Lemma NEIGHBOUR_bits s c c' :
  quadTree.NEIGHBOUR s c = Some c' ->
  xbit c + fst (tileStep s) = xbit c' /\ ybit c + snd (tileStep s) = ybit c'.
Proof. destruct s, c; simpl; intros [= <-]; simpl; lia. Qed.

Lemma carry_bits s c :
  quadTree.NEIGHBOUR s c = None ->
  xbit c + fst (tileStep s) = 2 * fst (tileStep s) + xbit (quadTree.OPPART s c) /\
  ybit c + snd (tileStep s) = 2 * snd (tileStep s) + ybit (quadTree.OPPART s c).
Proof. destruct s, c; simpl; intros [=]; lia. Qed.

Lemma pathOfTile_cons d x y c :
  pathOfTile (Datatypes.S d) (2 * x + xbit c) (2 * y + ybit c) =
  (fun r => c :: r) <$> pathOfTile d x y.
Proof.
  pose proof (xbit_range c). pose proof (ybit_range c).
  simpl.
  replace ((2 * x + xbit c) / 2) with x by (Z.div_mod_to_equations; lia).
  replace ((2 * y + ybit c) / 2) with y by (Z.div_mod_to_equations; lia).
  replace ((2 * x + xbit c) mod 2) with (xbit c) by (Z.div_mod_to_equations; lia).
  replace ((2 * y + ybit c) mod 2) with (ybit c) by (Z.div_mod_to_equations; lia).
  rewrite partOfBits_bits. destruct (pathOfTile d x y); reflexivity.
Qed.

Lemma pathOfTile_tileOf path :
  pathOfTile (length path) (fst (tileOf path)) (snd (tileOf path)) = Some path.
Proof.
  induction path as [|c rest IH]; [reflexivity|].
  cbn [tileOf length]. destruct (tileOf rest) as [x y]. cbn [fst snd] in *.
  rewrite pathOfTile_cons, IH. reflexivity.
Qed.

(** The neighbour path is the path of the next tile across the side. *)
Lemma nbPath_tile s path :
  pathOfTile (length path)
    (fst (tileOf path) + fst (tileStep s))
    (snd (tileOf path) + snd (tileStep s)) =
  nbPath s path.
Proof.
  induction path as [|c rest IH]; [by destruct s|].
  cbn [tileOf nbPath length].
  pose proof (pathOfTile_tileOf rest) as Hrest.
  destruct (tileOf rest) as [x y]. cbn [fst snd] in *.
  destruct (quadTree.NEIGHBOUR s c) as [c'|] eqn:E.
  - destruct (NEIGHBOUR_bits s c c' E) as [Hx Hy].
    replace (2 * x + xbit c + fst (tileStep s)) with (2 * x + xbit c') by lia.
    replace (2 * y + ybit c + snd (tileStep s)) with (2 * y + ybit c') by lia.
    rewrite pathOfTile_cons, Hrest. reflexivity.
  - destruct (carry_bits s c E) as [Hx Hy].
    replace (2 * x + xbit c + fst (tileStep s))
      with (2 * (x + fst (tileStep s)) + xbit (quadTree.OPPART s c)) by lia.
    replace (2 * y + ybit c + snd (tileStep s))
      with (2 * (y + snd (tileStep s)) + ybit (quadTree.OPPART s c)) by lia.
    rewrite pathOfTile_cons, IH. reflexivity.
Qed.

Lemma sameDepthNeighbor_nbPath w root path s :
  sameDepthNeighbor w root path s =
  match nbPath s path with
  | Some path' => follow w (Some root) (rev path')
  | None => Some None
  end.
Proof.
  unfold sameDepthNeighbor. rewrite <- nbPath_tile.
  destruct (tileOf path), (tileStep s). reflexivity.
Qed.

Lemma follow_None w path : follow w None path = Some None.
Proof. by destruct path. Qed.

Lemma follow_app w pn l1 l2 :
  follow w pn (l1 ++ l2) = follow w pn l1 ≫= fun r => follow w r l2.
Proof.
  revert pn. induction l1 as [|c l1 IH]; intros pn.
  - simpl. by destruct pn.
  - destruct pn as [r|]; [|simpl; by rewrite follow_None].
    simpl. destruct (getNode w r) as [n|]; [simpl; apply IH|reflexivity].
Qed.

Lemma descend_follow w s pn path :
  descend w s pn path = follow w pn (map (quadTree.OPPART s) path).
Proof.
  revert pn. induction path as [|c rest IH]; intros pn; [by destruct pn|].
  destruct pn as [r|]; [|reflexivity].
  simpl. destruct (getNode w r); [simpl; apply IH|reflexivity].
Qed.

Lemma descent_follow w root path r :
  descent w root path r -> follow w (Some root) (rev path) = Some (Some r).
Proof.
  induction 1 as [|path p n c r cn _ IH Hn Hc _ _ _]; [reflexivity|].
  simpl. rewrite follow_app, IH. simpl. rewrite Hn. simpl. by rewrite Hc.
Qed.

(** The climb of [getEqualNeighbor]: from the node at [path], with the
    parts [acc] already pushed, none of which had a sibling across the
    side. *)
Lemma walkUp_spec w root rn s fuel path pn acc :
  getNode w root = Some rn ->
  parentNode rn = None ->
  descent w root path pn ->
  (length path < fuel)%nat ->
  walkUp fuel w s pn acc =
  match nbPath s path with
  | Some path' =>
      follow w (Some root) (rev path' ++ rev (map (quadTree.OPPART s) acc))
  | None => Some None
  end.
Proof.
  intros Hroot Hnoparent Hd. revert fuel acc.
  induction Hd as [|path p n c r cn Hd IH Hn Hc Hcn Hp Hpart]; intros fuel acc Hlen.
  - destruct fuel as [|fuel]; [simpl in Hlen; lia|].
    simpl. rewrite Hroot. simpl. by rewrite Hnoparent.
  - destruct fuel as [|fuel]; [simpl in Hlen; lia|].
    simpl. rewrite Hcn. simpl. rewrite Hp, Hpart.
    destruct (quadTree.NEIGHBOUR s c) as [c'|] eqn:E.
    + rewrite descend_follow. simpl.
      rewrite <- app_assoc, follow_app, (descent_follow _ _ _ _ Hd). simpl.
      rewrite rev_app_distr, map_app. simpl.
      rewrite (NEIGHBOUR_OPPART _ _ _ E), Hn. simpl.
      rewrite map_rev. f_equal. f_equal. apply map_ext. intros a.
      apply OPPART_OPSIDE.
    + rewrite IH by (simpl in Hlen; lia).
      destruct (nbPath s path) as [path'|]; [|reflexivity].
      simpl. rewrite map_app, rev_app_distr. simpl.
      rewrite <- app_assoc. reflexivity.
Qed.

(** C8, as stated, fails: the north-east grandchild asks for its eastern
    neighbour; the tile of the same depth was never created, the deepest
    node on the way to it is the root's north-east child (node 2), and the
    function returns no node. *)
Lemma getEqualNeighbor_counterexample :
  descent treeWorld 0%nat [quadTree.NE; quadTree.NW] 6%nat /\
  sameDepthNeighbor treeWorld 0%nat [quadTree.NE; quadTree.NW] quadTree.E = Some None /\
  deepestNeighbor treeWorld 0%nat [quadTree.NE; quadTree.NW] quadTree.E
    = Some (Some 2%nat) /\
  getEqualNeighbor 3 treeWorld 6%nat quadTree.E = Some None.
Proof.
  split.
  { eapply descent_child; [eapply descent_child; [apply descent_root|..]|..];
      reflexivity. }
  repeat split; reflexivity.
Qed.

(** C8, amended.  For a node below the root, [getEqualNeighbor] returns the
    node of the same depth across the side when that node exists in the
    tree; otherwise (the tile across the side lies outside the tree, or the
    mirrored descent meets a child that was never created) it returns no
    node. *)
Theorem getEqualNeighbor_same_depth (fuel : nat) (w : World) (root this : ref)
    (rn : Node) (path : list quadTree.Part) (side : quadTree.Side) :
  getNode w root = Some rn ->
  parentNode rn = None ->
  descent w root path this ->
  path <> [] ->
  (length path < fuel)%nat ->
  getEqualNeighbor fuel w this side = sameDepthNeighbor w root path side.
Proof.
  intros Hroot Hnoparent Hd Hne Hlen.
  rewrite sameDepthNeighbor_nbPath.
  unfold getEqualNeighbor.
  destruct Hd as [|path p n c r cn Hd Hn Hc Hcn Hp Hpart]; [congruence|].
  rewrite Hcn. simpl. rewrite Hpart.
  destruct (quadTree.NEIGHBOUR side c) as [c'|] eqn:E.
  - rewrite Hp. simpl. rewrite Hn. simpl.
    rewrite follow_app, (descent_follow _ _ _ _ Hd). simpl. rewrite Hn. simpl.
    by destruct (part_get (nodes n) c').
  - rewrite (walkUp_spec w root rn side fuel (c :: path) r []
               Hroot Hnoparent); [|by eapply descent_child|exact Hlen].
    simpl. rewrite E.
    destruct (nbPath side path); simpl; [|reflexivity].
    by rewrite app_nil_r.
Qed.

Lemma getEqualNeighbor_same_depth_witness :
  getEqualNeighbor 3 treeWorld 8%nat quadTree.S = Some (Some 10%nat).
Proof.
  etransitivity.
  - eapply (getEqualNeighbor_same_depth 3 treeWorld 0%nat 8%nat _
              [quadTree.SE; quadTree.NW] quadTree.S).
    + reflexivity.
    + reflexivity.
    + eapply descent_child; [eapply descent_child; [apply descent_root|..]|..];
        reflexivity.
    + discriminate.
    + simpl. lia.
  - reflexivity.
Defined.

(** ** A frame: the neighbour links *)

Lemma keeps_live_trans w1 w2 w3 :
  keeps_live w1 w2 -> keeps_live w2 w3 -> keeps_live w1 w3.
Proof. intros H1 H2 r Hr. auto. Qed.

Lemma keeps_live_intro w w' :
  (forall r s, is_Some (neighborAt w r s) -> is_Some (neighborAt w' r s)) ->
  (forall r s, is_Some (sideSizeAt w r s) -> is_Some (sideSizeAt w' r s)) ->
  keeps_segment w w' ->
  keeps_live w w'.
Proof.
  intros Hn Hs Hseg r (H1 & H2 & seg & H3 & H4).
  split; [|split]; auto. exists seg. by rewrite Hseg.
Qed.

Lemma two_slots_is_Some {X} (obs obs' : ref -> quadTree.Side -> option X)
    node cs v1 ni opcs v2 r s :
  two_slots obs obs' node cs v1 ni opcs v2 -> is_Some (obs r s) -> is_Some (obs' r s).
Proof. intros H Hs. rewrite H. repeat case_decide; eauto. Qed.

Lemma getCommonSide_keeps w w' a b :
  keeps_segment w w' -> getCommonSide w' a b = getCommonSide w a b.
Proof. intros H. unfold getCommonSide. by rewrite !H. Qed.

Lemma kept_sideSizeAt w w' : kept sideSize w w' -> keeps_sideSize w w'.
Proof.
  intros H r s. specialize (H r). unfold sideSizeAt.
  destruct (getNode w' r), (getNode w r); simpl in *; congruence.
Qed.

Lemma kept_hasNeighborAt w w' : kept hasNeighbor w w' -> keeps_hasNeighbor w w'.
Proof.
  intros H r s. specialize (H r). unfold hasNeighborAt.
  destruct (getNode w' r), (getNode w r); simpl in *; congruence.
Qed.

Lemma kept_segment w w' : kept segment w w' -> keeps_segment w w'.
Proof.
  intros H r. specialize (H r). unfold segmentAt.
  destruct (getNode w' r), (getNode w r); simpl in *; congruence.
Qed.

(** An assignment to [state] alone. *)
Lemma set_state_ok x st w :
  present w x ->
  ok (modify x (fun n => Some (set_state st n)) w) (fun w' =>
    keeps_neighbors w w' /\ keeps_sideSize w w' /\ keeps_hasNeighbor w w' /\
    keeps_segment w w' /\ keeps_rendered w w').
Proof.
  intros [n Hn].
  rewrite (modify_Some x (fun n => Some (set_state st n)) w n _ Hn eq_refl).
  apply ok_Some.
  assert (K : forall X (obs : Node -> X),
             (forall n, obs (set_state st n) = obs n) ->
             kept obs w (setNode x (set_state st n) w)).
  { intros X obs Hobs r. rewrite getNode_setNode.
    destruct (decide (x = r)) as [<-|]; [|reflexivity].
    rewrite Hn. simpl. by rewrite Hobs. }
  split; [|split; [|split; [|split]]].
  - intros r s. apply kept_neighborAt. by apply K.
  - apply kept_sideSizeAt. by apply K.
  - apply kept_hasNeighborAt. by apply K.
  - apply kept_segment. by apply K.
  - reflexivity.
Qed.

Lemma live_present w r : live w r -> present w r.
Proof.
  intros (_ & _ & seg & Hseg & _). unfold segmentAt in Hseg. unfold present.
  destruct (getNode w r); [eauto|discriminate].
Qed.

(** One slot emptied. *)
Lemma clear_slot_ok x s w :
  is_Some (neighborAt w x s) ->
  ok (modify x (assign_neighbor s None) w) (fun w' =>
    (forall r t, neighborAt w' r t =
       if decide (r = x /\ t = s) then Some None else neighborAt w r t) /\
    keeps_sideSize w w' /\ keeps_hasNeighbor w w' /\
    keeps_segment w w' /\ keeps_rendered w w').
Proof.
  intros Hs. destruct (assign_neighbor_ok x s None w Hs) as [w' Hw'].
  exists w'. split; [exact Hw'|].
  split; [exact (assign_neighbor_neighbors _ _ _ _ _ Hw')|].
  split; [exact (assign_neighbor_sideSize _ _ _ _ _ Hw')|].
  split; [exact (assign_neighbor_hasNeighbor _ _ _ _ _ Hw')|].
  split; [exact (assign_neighbor_segment _ _ _ _ _ Hw')|].
  exact (modify_rendered _ _ _ _ Hw').
Qed.

(** The reset empties the four slots of the node and nothing else. *)
Lemma renderTree_reset_ok x w :
  live w x ->
  ok (renderTree_reset x w) (fun w' =>
    (forall r t, neighborAt w' r t =
       if decide (r = x) then Some None else neighborAt w r t) /\
    keeps_sideSize w w' /\ keeps_hasNeighbor w w' /\
    keeps_segment w w' /\ keeps_rendered w w').
Proof.
  intros Hlive. pose proof (live_present _ _ Hlive) as Hp.
  destruct Hlive as (Hnb & _).
  unfold renderTree_reset.
  eapply ok_bind; [by apply set_state_ok|].
  intros w1 (N1 & S1 & H1 & G1 & R1). cbv beta.
  eapply ok_bind; [apply clear_slot_ok; rewrite N1; apply Hnb|].
  intros w2 (N2 & S2 & H2 & G2 & R2). cbv beta.
  eapply ok_bind.
  { apply clear_slot_ok. rewrite N2. case_decide; [eauto|]. rewrite N1. apply Hnb. }
  intros w3 (N3 & S3 & H3 & G3 & R3). cbv beta.
  eapply ok_bind.
  { apply clear_slot_ok. rewrite N3. case_decide; [eauto|].
    rewrite N2. case_decide; [eauto|]. rewrite N1. apply Hnb. }
  intros w4 (N4 & S4 & H4 & G4 & R4). cbv beta.
  eapply ok_mono.
  { apply clear_slot_ok. rewrite N4. case_decide; [eauto|].
    rewrite N3. case_decide; [eauto|].
    rewrite N2. case_decide; [eauto|]. rewrite N1. apply Hnb. }
  intros w5 (N5 & S5 & H5 & G5 & R5).
  split; [|split; [|split; [|split]]].
  - intros r t. rewrite N5, N4, N3, N2, N1.
    destruct (decide (r = x)) as [->|Hr].
    + destruct t; repeat (case_decide; [reflexivity|]); exfalso; naive_solver.
    + by rewrite !decide_False by (intros [? _]; congruence).
  - intros r s. by rewrite S5, S4, S3, S2, S1.
  - intros r s. by rewrite H5, H4, H3, H2, H1.
  - intros r. by rewrite G5, G4, G3, G2, G1.
  - unfold keeps_rendered in *. congruence.
Qed.

(** One encounter between live nodes returns; it changes the two facing
    slots when there is a common side, and no neighbour slot otherwise. *)
Lemma encounter_live w x ni :
  live w x ->
  live w ni ->
  ok (encounter x ni w) (fun w' =>
    keeps_segment w w' /\ keeps_rendered w w' /\ keeps_live w w' /\
    exists cs, getCommonSide w x ni = Some cs /\
      match cs with
      | Some cs =>
          two_slots (neighborAt w) (neighborAt w') x cs (Some ni)
                    ni (quadTree.OPSIDE cs) (Some x)
      | None => keeps_neighbors w w'
      end).
Proof.
  intros Hx Hni.
  pose proof Hx as (Hxn & Hxs & sa & Hsa & Hga).
  pose proof Hni as (Hnn & Hns & sb & Hsb & Hgb).
  unfold encounter.
  assert (Hcs : getCommonSide w x ni =
                Some (commonSide (tileZoom sa) (_extent sa) (_extent sb))).
  { unfold getCommonSide. by rewrite Hsa, Hsb. }
  rewrite Hcs. simpl.
  destruct (commonSide (tileZoom sa) (_extent sa) (_extent sb)) as [cs|].
  2:{ apply ok_Some. split; [by intros r|]. split; [reflexivity|].
      split; [by intros r|]. exists None. split; [reflexivity|]. by intros r s. }
  eapply ok_bind; [apply link_ok; auto|].
  intros w1 (N1 & S1 & H1 & G1 & R1). cbv beta.
  assert (L1 : keeps_live w w1).
  { apply keeps_live_intro; [|intros r s; by rewrite S1|exact G1].
    intros r s. by eapply two_slots_is_Some. }
  assert (Hgo : is_Some (negotiates w1 x ni cs)).
  { unfold negotiates.
    destruct (segmentAt_hasNeighborAt w x cs sa Hsa) as [bx Hbx].
    destruct (segmentAt_hasNeighborAt w ni (quadTree.OPSIDE cs) sb Hsb) as [bn Hbn].
    rewrite !H1, Hbx, Hbn. simpl. eauto. }
  destruct Hgo as [go Hgo]. rewrite Hgo. simpl.
  destruct go.
  - eapply ok_mono.
    { apply (negotiate_ok x ni cs w1 sa sb); rewrite ?G1, ?S1; auto. }
    intros w2 ((v1 & v2 & _ & S2) & _ & N2 & G2 & R2).
    split; [by eapply keeps_segment_trans|].
    split; [by eapply keeps_rendered_trans|].
    split.
    + eapply keeps_live_trans; [exact L1|].
      apply keeps_live_intro; [intros r s; by rewrite N2| |exact G2].
      intros r s. by eapply two_slots_is_Some.
    + exists (Some cs). split; [reflexivity|]. intros r s. rewrite N2. apply N1.
  - apply ok_Some. split; [exact G1|]. split; [exact R1|]. split; [exact L1|].
    exists (Some cs). split; [reflexivity|]. exact N1.
Qed.

Section FrameLinks.

Variable w0 : World.

Lemma holds_two_slots w w' x cs ni a s b :
  x <> ni ->
  two_slots (neighborAt w) (neighborAt w') x cs (Some ni)
            ni (quadTree.OPSIDE cs) (Some x) ->
  holds w' a s b <->
  (a = ni /\ s = quadTree.OPSIDE cs /\ b = x) \/
  (a = x /\ s = cs /\ b = ni) \/
  (~ (a = ni /\ s = quadTree.OPSIDE cs) /\ ~ (a = x /\ s = cs) /\ holds w a s b).
Proof.
  intros Hne H. unfold holds. rewrite H.
  destruct (decide (a = ni /\ s = quadTree.OPSIDE cs)) as [[-> ->]|H1].
  - split.
    + intros [= <-]. auto.
    + intros [(_ & _ & ->)|[(-> & _)|(Hn & _)]]; [reflexivity|congruence|].
      exfalso. auto.
  - destruct (decide (a = x /\ s = cs)) as [[-> ->]|H2].
    + split.
      * intros [= <-]. auto.
      * intros [(-> & _)|[(_ & _ & ->)|(_ & Hn & _)]]; [congruence|reflexivity|].
        exfalso. auto.
    + split; [auto|].
      intros [(-> & -> & _)|[(-> & -> & _)|(_ & _ & Hh)]]; [exfalso; auto..|exact Hh].
Qed.

Lemma Inner_more w R x P P' :
  (forall a, a ∈ P -> a ∈ P') -> Inner w0 w R x P -> Inner w0 w R x P'.
Proof.
  intros Hsub [I1 I2 I3 I4 I5 I6].
  split; auto.
  - intros s b Hb. destruct (I2 s b Hb). auto.
  - intros a t Ha Hh. destruct (I3 a t Ha Hh). auto.
Qed.

(** One encounter keeps the invariant of the scan. *)
Lemma encounter_step w R x P ni :
  Inner w0 w R x P ->
  x ∉ R ->
  ni ∈ R ->
  live w x ->
  live w ni ->
  ok (encounter x ni w) (fun w' =>
    Inner w0 w' R x (ni :: P) /\ keeps_rendered w w' /\ keeps_live w w').
Proof.
  intros Hinv Hx Hni Lx Lni.
  assert (Hne : x <> ni) by (intros ->; contradiction).
  eapply ok_mono; [by apply encounter_live|].
  intros w' (G & Rn & L & cs & Hcs & Hnb).
  split; [|by split].
  destruct cs as [cs|].
  2:{ apply (Inner_more w' R x P); [intros a Ha; by apply list_elem_of_further|].
      destruct Hinv as [I1 I2 I3 I4 I5 I6].
      split; unfold holds in *.
      - by eapply keeps_segment_trans.
      - intros s b. rewrite Hnb. apply I2.
      - intros a t. rewrite Hnb. apply I3.
      - intros a s b. rewrite Hnb. apply I4.
      - intros F a b s t. rewrite !Hnb. by apply I5.
      - intros a b s. rewrite !Hnb. apply I6. }
  assert (Hc : commonSideIs w0 x ni cs).
  { unfold commonSideIs. rewrite <- Hcs. symmetry.
    apply getCommonSide_keeps. apply Hinv. }
  pose proof (fun a s b => holds_two_slots w w' x cs ni a s b Hne Hnb) as Hh.
  destruct Hinv as [I1 I2 I3 I4 I5 I6].
  split.
  - by eapply keeps_segment_trans.
  - intros s b Hb. apply Hh in Hb as [(-> & _)|[(_ & -> & ->)|(_ & _ & Hb)]].
    + congruence.
    + split; [apply list_elem_of_here|exact Hc].
    + destruct (I2 s b Hb). split; [by apply list_elem_of_further|assumption].
  - intros a t Ha Hb. apply Hh in Hb as [(-> & -> & _)|[(-> & _)|(_ & _ & Hb)]].
    + split; [apply list_elem_of_here|]. by rewrite OPSIDE_involutive.
    + contradiction.
    + destruct (I3 a t Ha Hb). split; [by apply list_elem_of_further|assumption].
  - intros a s b Ha Hb. apply Hh in Hb as [(_ & _ & ->)|[(-> & _)|(_ & _ & Hb)]].
    + by right.
    + contradiction.
    + by eapply I4.
  - intros F a b s t Hax Hbx Hab Hba.
    apply Hh in Hab as [(_ & _ & ->)|[(-> & _)|(_ & _ & Hab)]]; [congruence..|].
    apply Hh in Hba as [(_ & _ & ->)|[(-> & _)|(_ & _ & Hba)]]; [congruence..|].
    eapply (I5 F a b s t); eauto.
  - intros a b s Ha Hb Hab.
    apply Hh in Hab as [(-> & -> & ->)|[(-> & -> & ->)|(Hn1 & Hn2 & Hab)]].
    + left. apply Hh. right. left. by rewrite OPSIDE_involutive.
    + left. apply Hh. by left.
    + destruct (I6 a b s Ha Hb Hab) as [Hba|Hc']; [|by right].
      destruct (decide (b = ni /\ quadTree.OPSIDE s = quadTree.OPSIDE cs))
        as [[-> Hs]|Hb1].
      { apply OPSIDE_inj in Hs as ->.
        right. exists x. split; [by right|]. split.
        - intros ->. by apply Hn2.
        - right. by rewrite OPSIDE_involutive. }
      destruct (decide (b = x /\ quadTree.OPSIDE s = cs)) as [[-> Hs]|Hb2].
      { right. exists ni. split; [by left|]. split.
        - intros ->. apply Hn1. split; [reflexivity|].
          rewrite <- Hs. by rewrite OPSIDE_involutive.
        - left. by rewrite Hs. }
      left. apply Hh. right. right. auto.
Qed.

(** The scan of the rendered list keeps it, node after node. *)
Lemma scan_inv R x nis :
  forall w P,
    Inner w0 w R x P ->
    x ∉ R ->
    (forall ni, ni ∈ nis -> ni ∈ R) ->
    live w x ->
    (forall ni, ni ∈ nis -> live w ni) ->
    ok (scan x nis w) (fun w' =>
      Inner w0 w' R x (rev nis ++ P) /\ keeps_rendered w w' /\ keeps_live w w').
Proof.
  induction nis as [|ni rest IH]; intros w P Hinv Hx Hsub Lx Lnis.
  - apply ok_Some. split; [exact Hinv|]. split; [reflexivity|by intros r].
  - simpl. eapply ok_bind.
    { apply (encounter_step w R x P ni); auto.
      - apply Hsub, list_elem_of_here.
      - apply Lnis, list_elem_of_here. }
    intros w1 (Hinv1 & R1 & L1). cbv beta.
    eapply ok_mono.
    { apply (IH w1 (ni :: P)); auto.
      - intros a Ha. apply Hsub. by apply list_elem_of_further.
      - intros a Ha. apply L1, Lnis. by apply list_elem_of_further. }
    intros w2 (Hinv2 & R2 & L2).
    split; [|split].
    + rewrite <- app_assoc. exact Hinv2.
    + by eapply keeps_rendered_trans.
    + by eapply keeps_live_trans.
Qed.

Lemma elem_of_rev (l : list ref) (a : ref) : a ∈ rev l <-> a ∈ l.
Proof. rewrite !list_elem_of_In. symmetry. apply in_rev. Qed.

Lemma holds_set_renderedNodes l w a s b :
  holds (set_renderedNodes l w) a s b <-> holds w a s b.
Proof. reflexivity. Qed.

(** A node is reset and registered. *)
Lemma visit_rendered w R x :
  Outer w0 w R ->
  x ∉ R ->
  live w x ->
  (forall r, r ∈ R -> live w r) ->
  ok (visit (Rendered x) w) (fun w' => Outer w0 w' (R ++ [x]) /\ keeps_live w w').
Proof.
  intros [O1 O2 O3 O4 O5] Hx Lx LR. simpl.
  eapply ok_bind; [by apply renderTree_reset_ok|].
  intros w1 (N1 & S1 & H1 & G1 & R1). cbv beta.
  assert (L1 : keeps_live w w1).
  { apply keeps_live_intro; [|intros r s; by rewrite S1|exact G1].
    intros r s. rewrite N1. case_decide; eauto. }
  unfold addToRender.
  eapply ok_bind; [apply set_state_ok, live_present, L1, Lx|].
  intros w2 (N2 & S2 & H2 & G2 & R2). cbv beta.
  assert (L2 : keeps_live w1 w2).
  { apply keeps_live_intro; [intros r s; by rewrite N2|intros r s; by rewrite S2|exact G2]. }
  assert (Hold : forall a s b, holds w2 a s b <-> a <> x /\ holds w a s b).
  { intros a s b. unfold holds. rewrite N2, N1.
    destruct (decide (a = x)) as [->|Hax]; [split; [discriminate|tauto]|tauto]. }
  assert (Hlist : _renderedNodes w2 = R).
  { unfold keeps_rendered in *. congruence. }
  rewrite Hlist.
  assert (Hinv : Inner w0 w2 R x []).
  { split.
    - intros r. by rewrite G2, G1, O1.
    - intros s b Hb. apply Hold in Hb as [Hb _]. congruence.
    - intros a t Ha Hb. apply Hold in Hb as [_ Hb].
      exfalso. apply Hx. by eapply O3.
    - intros a s b Ha Hb. apply Hold in Hb as [_ Hb]. left. by eapply O3.
    - intros F a b s t _ _ Hab Hba. apply Hold in Hab as [_ Hab].
      apply Hold in Hba as [_ Hba]. by eapply O4.
    - intros a b s Ha _ Hab. apply Hold in Hab as [Hax Hab].
      destruct Ha as [Ha|Ha]; [|contradiction].
      assert (Hb : b ∈ R) by (by eapply O3).
      destruct (O5 a b s Ha Hb Hab) as [Hba|(c & Hc & Hca & Ht)].
      + left. apply Hold. split; [|exact Hba]. intros ->. contradiction.
      + right. exists c. auto. }
  eapply ok_bind.
  { apply (scan_inv R x (rev R) w2 []); auto.
    - intros ni. by rewrite elem_of_rev.
    - intros ni Hni. apply L2, L1, LR. by apply elem_of_rev. }
  intros w3 (Hinv3 & R3 & L3). cbv beta.
  apply ok_Some.
  rewrite rev_involutive, app_nil_r in Hinv3.
  destruct Hinv3 as [I1 I2 I3 I4 I5 I6].
  split.
  2:{ intros r Hr. apply L1, L2, L3 in Hr.
      destruct Hr as (A & B & C). split; [exact A|]. split; [exact B|exact C]. }
  rewrite R3, Hlist.
  split.
  - exact I1.
  - reflexivity.
  - intros a s b Ha Hb. apply holds_set_renderedNodes in Hb.
    apply elem_of_app. apply elem_of_app in Ha as [Ha|Ha].
    + destruct (I4 a s b Ha Hb) as [Hb'| ->]; [by left|].
      right. apply list_elem_of_here.
    + apply list_elem_of_singleton in Ha as ->. destruct (I2 s b Hb). by left.
  - intros F a b s t Hab Hba.
    apply holds_set_renderedNodes in Hab. apply holds_set_renderedNodes in Hba.
    destruct (decide (a = x)) as [->|Hax].
    + destruct (I2 s b Hab) as [Hb Hc].
      destruct (I3 b t Hb Hba) as [_ Hc'].
      unfold commonSideIs in *. rewrite Hc in Hc'. injection Hc' as ->.
      by rewrite OPSIDE_involutive.
    + destruct (decide (b = x)) as [->|Hbx].
      * destruct (I2 t a Hba) as [Ha Hc].
        destruct (I3 a s Ha Hab) as [_ Hc'].
        unfold commonSideIs in *. rewrite Hc in Hc'. by injection Hc' as ->.
      * by eapply (I5 F a b s t).
  - intros a b s Ha Hb Hab. apply holds_set_renderedNodes in Hab.
    assert (Hin : forall c, c ∈ R ++ [x] <-> c ∈ R \/ c = x).
    { intros c. rewrite elem_of_app, list_elem_of_singleton. tauto. }
    apply Hin in Ha. apply Hin in Hb.
    destruct (I6 a b s Ha Hb Hab) as [Hba|(c & Hc & Hca & Ht)].
    + by left.
    + right. exists c. split; [by apply Hin|]. auto.
Qed.

(** A node is reset and not registered. *)
Lemma visit_passed w R x :
  Outer w0 w R ->
  x ∉ R ->
  live w x ->
  ok (visit (Passed x) w) (fun w' => Outer w0 w' R /\ keeps_live w w').
Proof.
  intros [O1 O2 O3 O4 O5] Hx Lx. simpl.
  eapply ok_mono; [by apply renderTree_reset_ok|].
  intros w1 (N1 & S1 & H1 & G1 & R1).
  assert (Hold : forall a s b, holds w1 a s b <-> a <> x /\ holds w a s b).
  { intros a s b. unfold holds. rewrite N1.
    destruct (decide (a = x)) as [->|Hax]; [split; [discriminate|tauto]|tauto]. }
  split.
  2:{ apply keeps_live_intro; [|intros r s; by rewrite S1|exact G1].
      intros r s. rewrite N1. case_decide; eauto. }
  split.
  - intros r. by rewrite G1, O1.
  - unfold keeps_rendered in *. congruence.
  - intros a s b Ha Hb. apply Hold in Hb as [_ Hb]. by eapply O3.
  - intros F a b s t Hab Hba. apply Hold in Hab as [_ Hab].
    apply Hold in Hba as [_ Hba]. by eapply O4.
  - intros a b s Ha Hb Hab. apply Hold in Hab as [_ Hab].
    destruct (O5 a b s Ha Hb Hab) as [Hba|Hc]; [|by right].
    left. apply Hold. split; [|exact Hba]. intros ->. contradiction.
Qed.

Lemma visits_inv vs :
  forall w R,
    Outer w0 w R ->
    NoDup (map visited vs) ->
    (forall v, v ∈ vs -> visited v ∉ R) ->
    (forall r, r ∈ R -> live w r) ->
    (forall v, v ∈ vs -> live w (visited v)) ->
    ok (visits vs w) (fun w' => Outer w0 w' (R ++ renderedOf vs)).
Proof.
  induction vs as [|v rest IH]; intros w R Hout Hnd Hfresh LR Lvs.
  - apply ok_Some. unfold renderedOf. simpl. by rewrite app_nil_r.
  - cbn [visits].
    apply NoDup_cons in Hnd as [Hv Hnd].
    assert (Hvx : visited v ∉ R) by apply Hfresh, list_elem_of_here.
    assert (Lv : live w (visited v)) by apply Lvs, list_elem_of_here.
    assert (Hrest : forall v', v' ∈ rest -> visited v' <> visited v).
    { intros v' Hv' E. apply Hv. rewrite <- E. by apply list_elem_of_fmap_2. }
    destruct v as [x|x]; simpl in Hvx, Lv, Hrest.
    + eapply ok_bind; [by apply (visit_rendered w R x)|].
      intros w1 (Hout1 & L1). cbv beta.
      eapply ok_mono.
      { apply (IH w1 (R ++ [x])); auto.
        - intros v' Hv'. rewrite elem_of_app, list_elem_of_singleton.
          intros [Hin|Heq]; [|by eapply Hrest].
          by apply (Hfresh v' (list_elem_of_further _ _ _ Hv')).
        - intros r Hr. apply L1.
          apply elem_of_app in Hr as [Hr|Hr]; [by apply LR|].
          by apply list_elem_of_singleton in Hr as ->.
        - intros v' Hv'. apply L1, Lvs. by apply list_elem_of_further. }
      intros w2 Hout2. unfold renderedOf in *. simpl.
      by rewrite <- app_assoc in Hout2.
    + eapply ok_bind; [by apply (visit_passed w R x)|].
      intros w1 (Hout1 & L1). cbv beta.
      eapply ok_mono.
      { apply (IH w1 R); auto.
        - intros v' Hv'. by apply (Hfresh v' (list_elem_of_further _ _ _ Hv')).
        - intros v' Hv'. apply L1, Lvs. by apply list_elem_of_further. }
      intros w2 Hout2. exact Hout2.
Qed.

End FrameLinks.

Lemma Outer_start w : Outer (set_renderedNodes [] w) (set_renderedNodes [] w) [].
Proof.
  split.
  - by intros r.
  - reflexivity.
  - intros a s b Ha. by apply elem_of_nil in Ha.
  - auto.
  - intros a b s Ha. by apply elem_of_nil in Ha.
Qed.

Lemma frame_Outer vs w :
  NoDup (map visited vs) ->
  (forall v, v ∈ vs -> live w (visited v)) ->
  ok (frame vs w) (fun w' =>
    Outer (set_renderedNodes [] w) w' (renderedOf vs)).
Proof.
  intros Hnd Hlive. unfold frame.
  apply (visits_inv (set_renderedNodes [] w) vs (set_renderedNodes [] w) []).
  - apply Outer_start.
  - exact Hnd.
  - intros v _ Hin. by apply elem_of_nil in Hin.
  - intros r Hin. by apply elem_of_nil in Hin.
  - exact Hlive.
Qed.

(** C2, as stated, fails: after the frame node 1 holds node 0 on its west
    side, and node 0 holds node 2, not node 1, on its east side: the slot
    was overwritten when node 2 registered. *)
Lemma frame_neighbors_counterexample :
  ok (frame mixedFrame mixedWorld) (fun w' =>
    _renderedNodes w' = [0%nat; 1%nat; 2%nat] /\
    neighborAt w' 1%nat quadTree.W = Some (Some 0%nat) /\
    neighborAt w' 0%nat quadTree.E = Some (Some 2%nat)).
Proof.
  eexists. split; [vm_compute; reflexivity|].
  repeat split; reflexivity.
Qed.

(** C2, amended.  After a frame in which every visited node is visited
    once, for all nodes A and B of the rendered list and every side s such
    that A is the only rendered node with which B has its side opposite(s)
    in common: if A holds B on side s then B holds A on side opposite(s).
    (A second rendered node along that side of B takes the slot over.) *)
Theorem frame_neighbors_symmetric (vs : list Visit) (w : World) :
  NoDup (map visited vs) ->
  (forall v, v ∈ vs -> live w (visited v)) ->
  ok (frame vs w) (fun w' =>
    _renderedNodes w' = renderedOf vs /\
    forall A B s,
      A ∈ renderedOf vs -> B ∈ renderedOf vs ->
      (forall C, C ∈ renderedOf vs -> touches w B (quadTree.OPSIDE s) C -> C = A) ->
      holds w' A s B -> holds w' B (quadTree.OPSIDE s) A).
Proof.
  intros Hnd Hlive.
  eapply ok_mono; [by apply frame_Outer|].
  intros w' [O1 O2 O3 O4 O5].
  split; [exact O2|].
  intros A B s HA HB Honly Hab.
  destruct (O5 A B s HA HB Hab) as [Hba|(c & Hc & Hca & Ht)]; [exact Hba|].
  exfalso. apply Hca. apply Honly; [exact Hc|exact Ht].
Qed.

Lemma frame_neighbors_symmetric_witness :
  ok (frame mixedFrame mixedWorld) (fun w' =>
    holds w' 0%nat quadTree.E 2%nat -> holds w' 2%nat quadTree.W 0%nat).
Proof.
  eapply ok_mono.
  - apply (frame_neighbors_symmetric mixedFrame mixedWorld).
    + repeat (apply NoDup_cons; split); try apply NoDup_nil;
        rewrite ?not_elem_of_cons; repeat split; try discriminate;
        apply not_elem_of_nil.
    + intros v Hv.
      repeat (apply elem_of_cons in Hv as [->|Hv]); [..|by apply elem_of_nil in Hv];
        (split; [intros s; destruct s; by eexists|];
         split; [intros s; destruct s; by eexists|];
         eexists; split; reflexivity).
  - intros w' [_ H]. apply (H 0%nat 2%nat quadTree.E).
    + apply list_elem_of_here.
    + do 2 apply list_elem_of_further. apply list_elem_of_here.
    + intros C HC Ht.
      repeat (apply elem_of_cons in HC as [->|HC]); [..|by apply elem_of_nil in HC].
      * reflexivity.
      * destruct Ht as [Ht|Ht]; vm_compute in Ht; discriminate.
      * destruct Ht as [Ht|Ht]; vm_compute in Ht; discriminate.
Defined.

(** The links stay in facing pairs over a frame: the hypothesis under
    which [destroy] leaves no reference behind. *)
Lemma frame_facing vs w :
  NoDup (map visited vs) ->
  (forall v, v ∈ vs -> live w (visited v)) ->
  facing w ->
  ok (frame vs w) facing.
Proof.
  intros Hnd Hlive F.
  eapply ok_mono; [by apply frame_Outer|].
  intros w' [_ _ _ O4 _]. apply O4. exact F.
Qed.

(** ** addToRender: the whole loop *)

(** What one encounter between live nodes does to the side sizes and the
    flags. *)
Lemma encounter_seams w x ni :
  live w x ->
  live w ni ->
  ok (encounter x ni w) (fun w' =>
    keeps_segment w w' /\ keeps_live w w' /\
    exists cs, getCommonSide w x ni = Some cs /\
      match cs with
      | None => keeps_sideSize w w' /\ keeps_hasNeighbor w w'
      | Some cs =>
          exists go, negotiates w x ni cs = Some go /\
            if (go : bool) then
              (exists ap bp v1 v2,
                 segmentAt w x = Some ap /\ segmentAt w ni = Some bp /\
                 chosenSizes ap bp
                   (gridSize ap / (gridSize bp * pow2 (tileZoom bp - tileZoom ap)))%Q
                   v1 v2 /\
                 two_slots (sideSizeAt w) (sideSizeAt w') x cs v1
                           ni (quadTree.OPSIDE cs) v2) /\
              two_slots (hasNeighborAt w) (hasNeighborAt w') x cs true
                        ni (quadTree.OPSIDE cs) true
            else keeps_sideSize w w' /\ keeps_hasNeighbor w w'
      end).
Proof.
  intros Hx Hni.
  pose proof Hx as (Hxn & Hxs & sa & Hsa & Hga).
  pose proof Hni as (Hnn & Hns & sb & Hsb & Hgb).
  unfold encounter.
  assert (Hcs : getCommonSide w x ni =
                Some (commonSide (tileZoom sa) (_extent sa) (_extent sb))).
  { unfold getCommonSide. by rewrite Hsa, Hsb. }
  rewrite Hcs. simpl.
  destruct (commonSide (tileZoom sa) (_extent sa) (_extent sb)) as [cs|].
  2:{ apply ok_Some. split; [by intros r|]. split; [by intros r|].
      exists None. split; [reflexivity|]. split; by intros r s. }
  eapply ok_bind; [apply link_ok; auto|].
  intros w1 (N1 & S1 & H1 & G1 & R1). cbv beta.
  assert (L1 : keeps_live w w1).
  { apply keeps_live_intro; [|intros r s; by rewrite S1|exact G1].
    intros r s. by eapply two_slots_is_Some. }
  assert (Hgo : is_Some (negotiates w x ni cs)).
  { unfold negotiates.
    destruct (segmentAt_hasNeighborAt w x cs sa Hsa) as [bx Hbx].
    destruct (segmentAt_hasNeighborAt w ni (quadTree.OPSIDE cs) sb Hsb) as [bn Hbn].
    rewrite Hbx, Hbn. simpl. eauto. }
  destruct Hgo as [go Hgo].
  rewrite (negotiates_keeps _ _ _ _ _ H1), Hgo. simpl.
  destruct go.
  - eapply ok_mono.
    { apply (negotiate_ok x ni cs w1 sa sb); rewrite ?G1, ?S1; auto. }
    intros w2 ((v1 & v2 & Hv & S2) & F2 & N2 & G2 & R2).
    split; [by eapply keeps_segment_trans|].
    split.
    + eapply keeps_live_trans; [exact L1|].
      apply keeps_live_intro; [intros r s; by rewrite N2| |exact G2].
      intros r s. by eapply two_slots_is_Some.
    + exists (Some cs). split; [reflexivity|]. exists true. split; [exact Hgo|].
      split.
      * exists sa, sb, v1, v2. split; [exact Hsa|]. split; [exact Hsb|].
        split; [exact Hv|]. intros r s. rewrite S2. by rewrite !S1.
      * intros r s. rewrite F2. by rewrite !H1.
  - apply ok_Some. split; [exact G1|]. split; [exact L1|].
    exists (Some cs). split; [reflexivity|]. exists false. split; [exact Hgo|].
    split; assumption.
Qed.

(** What the loop does to the side sizes and the flags: the slots of the
    nodes it does not meet stay; so does a slot of the registering node on
    a side that no node it meets negotiates; and no flag is taken back. *)
Lemma scan_seams x nis :
  forall w,
    live w x -> (forall ni, ni ∈ nis -> live w ni) -> x ∉ nis ->
    ok (scan x nis w) (fun w' =>
      keeps_segment w w' /\ keeps_live w w' /\
      (forall r s, r <> x -> r ∉ nis ->
         sideSizeAt w' r s = sideSizeAt w r s /\
         hasNeighborAt w' r s = hasNeighborAt w r s) /\
      (forall s,
         Forall (fun nj => getCommonSide w x nj = Some (Some s) ->
                   hasNeighborAt w x s = Some true /\
                   hasNeighborAt w nj (quadTree.OPSIDE s) = Some true) nis ->
         sideSizeAt w' x s = sideSizeAt w x s /\
         hasNeighborAt w' x s = hasNeighborAt w x s) /\
      (forall r s, hasNeighborAt w r s = Some true ->
         hasNeighborAt w' r s = Some true)).
Proof.
  induction nis as [|ni nis IH]; intros w Lx Ln Hx.
  { apply ok_Some. split; [by intros r|]. split; [by intros r|]. auto. }
  simpl. apply not_elem_of_cons in Hx as [Hne Hx].
  eapply ok_bind.
  { apply encounter_seams; [exact Lx|]. apply Ln, list_elem_of_here. }
  intros w1 (G1 & L1 & c & Hc & E1). cbv beta.
  eapply ok_mono.
  { apply IH; [by apply L1| |exact Hx].
    intros r Hr. apply L1, Ln. by apply list_elem_of_further. }
  intros w2 (G2 & L2 & O2 & K2 & M2).
  (* the encounter, slot by slot *)
  assert (O1 : forall r s, r <> x -> r <> ni ->
            sideSizeAt w1 r s = sideSizeAt w r s /\
            hasNeighborAt w1 r s = hasNeighborAt w r s).
  { intros r s Hrx Hrn. destruct c as [cs|]; [|destruct E1; auto].
    destruct E1 as ([|] & _ & E1); [|destruct E1; auto].
    destruct E1 as ((ap & bp & v1 & v2 & _ & _ & _ & S1) & F1).
    split; eapply two_slots_other; eauto; intros [? _]; congruence. }
  assert (K1 : forall s,
            (getCommonSide w x ni = Some (Some s) ->
             hasNeighborAt w x s = Some true /\
             hasNeighborAt w ni (quadTree.OPSIDE s) = Some true) ->
            sideSizeAt w1 x s = sideSizeAt w x s /\
            hasNeighborAt w1 x s = hasNeighborAt w x s).
  { intros s Hs. destruct c as [cs|]; [|destruct E1; auto].
    destruct E1 as ([|] & Hgo & E1); [|destruct E1; auto].
    destruct E1 as ((ap & bp & v1 & v2 & _ & _ & _ & S1) & F1).
    destruct (decide (cs = s)) as [->|Hcs].
    { destruct (Hs Hc) as [Ha Hb]. unfold negotiates in Hgo.
      rewrite Ha, Hb in Hgo. discriminate Hgo. }
    split; eapply two_slots_other; eauto; intros [? ?]; congruence. }
  assert (M1 : forall r s, hasNeighborAt w r s = Some true ->
            hasNeighborAt w1 r s = Some true).
  { intros r s Hr. destruct c as [cs|]; [|destruct E1 as [_ E1]; by rewrite E1].
    destruct E1 as ([|] & _ & E1); [|destruct E1 as [_ E1]; by rewrite E1].
    destruct E1 as (_ & F1). rewrite F1. repeat case_decide; auto. }
  split; [by eapply keeps_segment_trans|].
  split; [by eapply keeps_live_trans|].
  split; [|split].
  - intros r s Hrx Hr. apply not_elem_of_cons in Hr as [Hrn Hr].
    destruct (O2 r s Hrx Hr) as [-> ->]. by apply O1.
  - intros s Hs. apply Forall_cons in Hs as [Hs Hrest].
    destruct (K2 s) as [-> ->]; [|by apply K1].
    eapply Forall_impl; [exact Hrest|]. intros nj Hnj Hcs.
    rewrite (getCommonSide_keeps _ _ _ _ G1) in Hcs.
    destruct (Hnj Hcs). split; by apply M1.
  - intros r s Hr. by apply M2, M1.
Qed.

Lemma scan_app x l1 l2 w :
  scan x (l1 ++ l2) w = (w' ← scan x l1 w; scan x l2 w').
Proof.
  revert w. induction l1 as [|a l1 IH]; intros w; [reflexivity|].
  simpl. destruct (encounter x a w) as [w1|]; [simpl; apply IH|reflexivity].
Qed.

Lemma live_flag w r s : live w r -> is_Some (hasNeighborAt w r s).
Proof. intros (_ & _ & seg & Hseg & _). by eapply segmentAt_hasNeighborAt. Qed.

(** The loop of [addToRender], seen from one registered node [ni] that has
    the side [cs] in common with the registering node and for which the
    negotiation runs. *)
Lemma scan_meets x ni front back cs ap bp :
  forall w,
    NoDup (x :: front ++ ni :: back) ->
    (forall r, r ∈ x :: front ++ ni :: back -> live w r) ->
    getCommonSide w x ni = Some (Some cs) ->
    negotiationRuns w x ni cs back ->
    segmentAt w x = Some ap ->
    segmentAt w ni = Some bp ->
    ok (scan x (rev (front ++ ni :: back)) w) (fun w' =>
      exists v1 v2,
        chosenSizes ap bp
          (gridSize ap / (gridSize bp * pow2 (tileZoom bp - tileZoom ap)))%Q v1 v2 /\
        sideSizeAt w' ni (quadTree.OPSIDE cs) = Some v2 /\
        (sideSettled w x cs front -> sideSizeAt w' x cs = Some v1)).
Proof.
  intros w Hnd Hlive Hcs Hruns Ha Hb.
  apply NoDup_cons in Hnd as [Hx Hnd].
  apply NoDup_app in Hnd as (Hfront & Hapart & Hnd).
  apply NoDup_cons in Hnd as [Hni Hback].
  assert (Hxni : ni <> x).
  { intros ->. apply Hx, elem_of_app. right. apply list_elem_of_here. }
  assert (Hnf : ni ∉ front).
  { intros Hin. apply (Hapart ni Hin), list_elem_of_here. }
  assert (Lx : live w x) by apply Hlive, list_elem_of_here.
  assert (Lni : live w ni).
  { apply Hlive, list_elem_of_further, elem_of_app. right. apply list_elem_of_here. }
  rewrite rev_app_distr. simpl. rewrite <- app_assoc, scan_app. simpl.
  (* the nodes met before [ni] *)
  eapply ok_bind.
  { apply (scan_seams x (rev back) w Lx).
    - intros r Hr. apply (proj1 (elem_of_rev _ _)) in Hr. apply Hlive, list_elem_of_further.
      apply elem_of_app. right. by apply list_elem_of_further.
    - intros Hr. apply (proj1 (elem_of_rev _ _)) in Hr. apply Hx, elem_of_app. right.
      by apply list_elem_of_further. }
  intros wA (GA & LA & OA & KA & MA). cbv beta.
  assert (Hgo : negotiates wA x ni cs = Some true).
  { unfold negotiates.
    destruct (OA ni (quadTree.OPSIDE cs) Hxni) as [_ Hf];
      [by rewrite elem_of_rev|].
    destruct (live_flag wA x cs (LA x Lx)) as [bx Hbx].
    destruct (live_flag w ni (quadTree.OPSIDE cs) Lni) as [bn Hbn].
    rewrite Hbx, Hf, Hbn. simpl.
    destruct Hruns as [Hr|[Hr Hnone]].
    - assert (bn = false) as -> by congruence. by rewrite andb_false_r.
    - destruct (KA cs) as [_ Hk].
      { apply Forall_forall. intros nj Hnj Hc. exfalso.
        apply (proj1 (elem_of_rev _ _)) in Hnj. rewrite Forall_forall in Hnone.
        by apply (Hnone nj Hnj). }
      assert (bx = false) as -> by congruence. reflexivity. }
  (* the encounter with [ni] *)
  eapply ok_bind; [apply (encounter_seams wA x ni); by apply LA|].
  intros wB (GB & LB & c & Hc & EB). cbv beta.
  rewrite (getCommonSide_keeps _ _ _ _ GA), Hcs in Hc. injection Hc as <-.
  destruct EB as (go & Hgo' & EB).
  assert (go = true) as -> by congruence.
  destruct EB as ((ap' & bp' & v1 & v2 & Ha' & Hb' & Hv & SB) & FB).
  rewrite GA in Ha', Hb'.
  assert (ap' = ap) as -> by congruence.
  assert (bp' = bp) as -> by congruence.
  (* the nodes met after [ni] *)
  eapply ok_mono.
  { apply (scan_seams x (rev front) wB).
    - by apply LB, LA.
    - intros r Hr. apply (proj1 (elem_of_rev _ _)) in Hr. apply LB, LA, Hlive.
      apply list_elem_of_further, elem_of_app. by left.
    - intros Hr. apply (proj1 (elem_of_rev _ _)) in Hr. apply Hx, elem_of_app. by left. }
  intros wC (GC & LC & OC & KC & MC).
  exists v1, v2. split; [exact Hv|]. split.
  - destruct (OC ni (quadTree.OPSIDE cs) Hxni) as [-> _]; [by rewrite elem_of_rev|].
    by eapply two_slots_second.
  - intros Hsettled. destruct (KC cs) as [-> _].
    + apply Forall_forall. intros nj Hnj Hc. apply (proj1 (elem_of_rev _ _)) in Hnj.
      unfold sideSettled in Hsettled. rewrite Forall_forall in Hsettled.
      rewrite (getCommonSide_keeps _ _ _ _ GB),
        (getCommonSide_keeps _ _ _ _ GA) in Hc.
      split.
      * by eapply two_slots_first.
      * rewrite FB. repeat case_decide; try reflexivity.
        apply MA. by apply Hsettled.
    + by eapply two_slots_first.
Qed.

(** C1, as stated, fails when two registered nodes lie on the same side of
    the registering node.  In [lodWorld] the loop of [addToRender] for node
    0 meets node 2 first; they share the east side of node 0, no flag is
    set, so the negotiation runs, with [ld = 32 / (32 * 2) < 1], for which
    the claim states [node.sideSize[E] = node.gridSize = 32].  The loop
    then meets node 1 on the same side, with [ld = 32 / (8 * 2) > 1], and
    assigns the slot again: [addToRender] leaves 16 there. *)
Lemma addToRender_seam_sizes_counterexample :
  _renderedNodes lodWorld = [1%nat; 2%nat] /\
  getCommonSide lodWorld 0%nat 2%nat = Some (Some quadTree.E) /\
  negotiationRuns lodWorld 0%nat 2%nat quadTree.E [] /\
  (exists ap bp,
     segmentAt lodWorld 0%nat = Some ap /\ segmentAt lodWorld 2%nat = Some bp /\
     (gridSize ap / (gridSize bp * pow2 (tileZoom bp - tileZoom ap)) < 1)%Q /\
     gridSize ap = 32%Q) /\
  ok (encounter 0%nat 2%nat lodWorld) (fun w' =>
    sideSizeAt w' 0%nat quadTree.E = Some 32%Q) /\
  ok (addToRender 0%nat lodWorld) (fun w' =>
    sideSizeAt w' 0%nat quadTree.E = Some 16%Q).
Proof.
  split; [reflexivity|]. split; [reflexivity|].
  split; [by left|].
  split; [eexists _, _; repeat (split; [reflexivity|]); reflexivity|].
  split; (eexists; split; [vm_compute; reflexivity|reflexivity]).
Qed.

(** C1, amended.  [node.addToRender()] with [ni] among the registered
    nodes, the side [cs] in common between [node] and [ni], the
    negotiation running when the loop reaches [ni], and
    [ld = node.gridSize / (ni.gridSize * 2^(ni.tileZoom - node.tileZoom))].
    When [addToRender] returns, [ni.sideSize[opposite(cs)]] is
    [ni.gridSize] for [ld > 1] and for [ld = 1], and [ceil(ni.gridSize *
    ld)] for [ld < 1].  [node.sideSize[cs]] is [ceil(node.gridSize / ld)]
    for [ld > 1] and [node.gridSize] otherwise, provided that no node the
    loop meets after [ni] (the nodes before [ni] in the list) negotiates
    the side [cs] again. *)
Theorem addToRender_seam_sizes (w : World) (node ni : ref) (front back : list ref)
    (cs : quadTree.Side) (ap bp : Segment) :
  _renderedNodes w = front ++ ni :: back ->
  NoDup (node :: front ++ ni :: back) ->
  (forall r, r ∈ node :: front ++ ni :: back -> live w r) ->
  getCommonSide w node ni = Some (Some cs) ->
  negotiationRuns w node ni cs back ->
  segmentAt w node = Some ap ->
  segmentAt w ni = Some bp ->
  let ld := (gridSize ap / (gridSize bp * pow2 (tileZoom bp - tileZoom ap)))%Q in
  ok (addToRender node w) (fun w' =>
    ((1 < ld)%Q ->
       sideSizeAt w' ni (quadTree.OPSIDE cs) = Some (gridSize bp) /\
       (sideSettled w node cs front ->
        sideSizeAt w' node cs = Some (ceil (gridSize ap / ld)))) /\
    ((ld < 1)%Q ->
       sideSizeAt w' ni (quadTree.OPSIDE cs) = Some (ceil (gridSize bp * ld)) /\
       (sideSettled w node cs front ->
        sideSizeAt w' node cs = Some (gridSize ap))) /\
    ((ld == 1)%Q ->
       sideSizeAt w' ni (quadTree.OPSIDE cs) = Some (gridSize bp) /\
       (sideSettled w node cs front ->
        sideSizeAt w' node cs = Some (gridSize ap)))).
Proof.
  intros Hlist Hnd Hlive Hcs Hruns Ha Hb ld. unfold addToRender.
  eapply ok_bind.
  { apply set_state_ok, live_present, Hlive, list_elem_of_here. }
  intros w0 (N0 & S0 & F0 & G0 & R0). cbv beta.
  assert (L0 : keeps_live w w0).
  { apply keeps_live_intro;
      [intros r s; by rewrite N0|intros r s; by rewrite S0|exact G0]. }
  rewrite R0, Hlist.
  eapply ok_bind.
  { apply (scan_meets node ni front back cs ap bp w0).
    - exact Hnd.
    - intros r Hr. by apply L0, Hlive.
    - by rewrite (getCommonSide_keeps _ _ _ _ G0).
    - destruct Hruns as [Hr|[Hr Hnone]]; [left; by rewrite F0|right].
      split; [by rewrite F0|].
      eapply Forall_impl; [exact Hnone|]. intros nj Hnj.
      by rewrite (getCommonSide_keeps _ _ _ _ G0).
    - by rewrite G0.
    - by rewrite G0. }
  intros w1 (v1 & v2 & (H1 & H2 & H3) & Hni & Hnode). cbv beta.
  apply ok_Some. fold ld in H1, H2, H3.
  change (sideSizeAt (set_renderedNodes (_renderedNodes w1 ++ [node]) w1))
    with (sideSizeAt w1).
  assert (Hset : sideSettled w node cs front -> sideSizeAt w1 node cs = Some v1).
  { intros Hs. apply Hnode. eapply Forall_impl; [exact Hs|].
    intros nj Hnj. rewrite (getCommonSide_keeps _ _ _ _ G0), F0. exact Hnj. }
  split; [|split]; intros Hld.
  - destruct (H1 Hld) as [-> ->]. auto.
  - destruct (H2 Hld) as [-> ->]. auto.
  - destruct (H3 Hld) as [-> ->]. auto.
Qed.

Lemma addToRender_seam_sizes_witness :
  ok (addToRender 0%nat seamWorld) (fun w' =>
    sideSizeAt w' 0%nat quadTree.W = Some 8%Q /\
    sideSizeAt w' 1%nat quadTree.E = Some 32%Q).
Proof.
  eapply ok_mono.
  - apply (addToRender_seam_sizes seamWorld 0%nat 1%nat [] [] quadTree.W).
    + reflexivity.
    + apply (bool_decide_unpack _). vm_compute. exact I.
    + intros r Hr.
      repeat (apply elem_of_cons in Hr as [->|Hr]); [..|by apply elem_of_nil in Hr];
        (split; [intros s; destruct s; by eexists|];
         split; [intros s; destruct s; by eexists|];
         eexists; split; reflexivity).
    + reflexivity.
    + left. reflexivity.
    + reflexivity.
    + reflexivity.
  - intros w' (H & _ & _). destruct (H eq_refl) as [Hni Hnode].
    split; [apply Hnode; constructor|exact Hni].
Defined.

(* ===================================================================== *)
(** * Further properties of the module *)
(* ===================================================================== *)

(** ** getMatrixSubArray: the patch and the padding *)

Lemma Qfloor_inject q z : (q == inject_Z z)%Q -> Qfloor q = z.
Proof. intros H. rewrite (Qfloor_comp _ _ H). apply Qfloor_Z. Qed.

Lemma Qceiling_inject q z : (q == inject_Z z)%Q -> Qceiling q = z.
Proof. intros H. rewrite (Qceiling_comp _ _ H). apply Qceiling_Z. Qed.

Lemma index_of_nat q (m : nat) :
  (q == inject_Z (Z.of_nat m))%Q -> index_of q = Some m.
Proof.
  intros H. unfold index_of, floor.
  rewrite (Qfloor_inject _ _ H).
  replace (num_eqb q (inject_Z (Z.of_nat m))) with true
    by (symmetry; by apply num_eqb_true).
  replace (num_leb 0 q) with true.
  - simpl. by rewrite Nat2Z.id.
  - symmetry. apply num_leb_true. rewrite H.
    change 0%Q with (inject_Z 0). rewrite <- Zle_Qle. lia.
Qed.

Lemma readAt_nat src q (m : nat) :
  (q == inject_Z (Z.of_nat m))%Q -> readAt src q = mjoin (src !! m).
Proof.
  intros H. unfold readAt. rewrite (index_of_nat _ _ H). simpl.
  by destruct (src !! m).
Qed.

Lemma trunc_nat q (m : nat) : (q == inject_Z (Z.of_nat m))%Q -> trunc q = Z.of_nat m.
Proof.
  intros H. unfold trunc.
  replace (num_leb 0 q) with true.
  - by apply Qfloor_inject.
  - symmetry. apply num_leb_true. rewrite H.
    change 0%Q with (inject_Z 0). rewrite <- Zle_Qle. lia.
Qed.

Lemma newFloat32Array_nat q (m : nat) :
  (q == inject_Z (Z.of_nat m))%Q ->
  newFloat32Array q = Some (replicate m (Some 0%Q)).
Proof.
  intros H. unfold newFloat32Array. rewrite (trunc_nat _ _ H).
  destruct (Z.ltb_spec (Z.of_nat m) 0); [lia|]. by rewrite Nat2Z.id.
Qed.

Lemma steps_nat from to (m : nat) :
  (to - from == inject_Z (Z.of_nat m))%Q ->
  steps from to = map (fun k => (from + inject_Z (Z.of_nat k))%Q) (seq 0 m).
Proof.
  intros H. unfold steps. by rewrite (Qceiling_inject _ _ H), Nat2Z.id.
Qed.

(** One vertex copied: three cells are written where the cursor stands. *)
Lemma copyVertex_app src grid i j (m : nat) (done rest : list cell) :
  (3 * (i * (grid + 1) + j) == inject_Z (Z.of_nat m))%Q ->
  (3 <= length rest)%nat ->
  copyVertex src grid i j (done ++ rest, length done) =
  ((done ++ vertexCells src m) ++ drop 3 rest, length (done ++ vertexCells src m)).
Proof.
  intros H Hl. unfold copyVertex.
  rewrite (readAt_nat src (3 * (i * (grid + 1) + j)) m) by exact H.
  rewrite (readAt_nat src (3 * (i * (grid + 1) + j) + 1) (m + 1)).
  2:{ rewrite H, Nat2Z.inj_add, inject_Z_plus. reflexivity. }
  rewrite (readAt_nat src (3 * (i * (grid + 1) + j) + 2) (m + 2)).
  2:{ rewrite H, Nat2Z.inj_add, inject_Z_plus. reflexivity. }
  destruct rest as [|x0 [|x1 [|x2 rest]]]; simpl in Hl; try lia.
  unfold put, vertexCells. simpl.
  rewrite !length_app. simpl. f_equal; [|lia].
  rewrite insert_app_r_alt by lia. rewrite Nat.sub_diag. simpl.
  rewrite insert_app_r_alt by lia.
  replace (Datatypes.S (length done) - length done)%nat with 1%nat by lia. simpl.
  rewrite insert_app_r_alt by lia.
  replace (Datatypes.S (Datatypes.S (length done)) - length done)%nat with 2%nat by lia.
  simpl. by rewrite <- !app_assoc.
Qed.

(** One row copied. *)
Lemma copyRow_app src (g a b r : nat) i j0 (cs : list nat) :
  (i == inject_Z (Z.of_nat (a + r)))%Q ->
  (j0 == inject_Z (Z.of_nat b))%Q ->
  forall done rest,
    (3 * length cs <= length rest)%nat ->
    foldl (fun st j => copyVertex src (inject_Z (Z.of_nat g)) i j st)
          (done ++ rest, length done)
          (map (fun k => (j0 + inject_Z (Z.of_nat k))%Q) cs) =
    let row := flat_map
      (fun c => vertexCells src (3 * ((a + r) * (g + 1) + (b + c)))%nat) cs in
    ((done ++ row) ++ drop (3 * length cs) rest, length (done ++ row)).
Proof.
  intros Hi Hj. induction cs as [|c cs IH]; intros done rest Hl.
  - simpl. by rewrite app_nil_r.
  - simpl in Hl. cbn [map foldl].
    rewrite (copyVertex_app src _ _ _ (3 * ((a + r) * (g + 1) + (b + c)))).
    + rewrite IH by (rewrite length_drop; lia).
      cbn [flat_map length]. cbv zeta.
      rewrite drop_drop.
      replace (3 + 3 * length cs)%nat with (3 * Datatypes.S (length cs))%nat by lia.
      by rewrite <- !app_assoc.
    + rewrite Hi, Hj.
      rewrite !Nat2Z.inj_mul, !Nat2Z.inj_add, !Nat2Z.inj_mul, !Nat2Z.inj_add.
      rewrite !inject_Z_mult, !inject_Z_plus, !inject_Z_mult, !inject_Z_plus.
      simpl. ring.
    + lia.
Qed.

(** All the rows copied. *)
Lemma copyRows_app src (g a b n : nat) i0 j0 (rs : list nat) :
  (i0 == inject_Z (Z.of_nat a))%Q ->
  (j0 == inject_Z (Z.of_nat b))%Q ->
  forall done rest,
    (3 * Datatypes.S n * length rs <= length rest)%nat ->
    foldl (fun st i =>
             foldl (fun st j => copyVertex src (inject_Z (Z.of_nat g)) i j st) st
                   (map (fun k => (j0 + inject_Z (Z.of_nat k))%Q) (seq 0 (Datatypes.S n))))
          (done ++ rest, length done)
          (map (fun k => (i0 + inject_Z (Z.of_nat k))%Q) rs) =
    let rows := flat_map (patchRow src g a b n) rs in
    ((done ++ rows) ++ drop (3 * Datatypes.S n * length rs) rest,
     length (done ++ rows)).
Proof.
  intros Hi Hj. induction rs as [|r rs IH]; intros done rest Hl.
  - simpl. rewrite Nat.mul_0_r. simpl. by rewrite app_nil_r.
  - cbn [length] in Hl. cbn [map foldl].
    rewrite (copyRow_app src g a b r).
    + cbv zeta. rewrite length_seq.
      rewrite IH by (rewrite length_drop; nia).
      cbn [flat_map length]. cbv zeta. rewrite drop_drop.
      replace (3 * Datatypes.S n + 3 * Datatypes.S n * length rs)%nat
        with (3 * Datatypes.S n * Datatypes.S (length rs))%nat by lia.
      unfold patchRow at 3. by rewrite <- !app_assoc.
    + rewrite Hi, Nat2Z.inj_add, inject_Z_plus. reflexivity.
    + exact Hj.
    + rewrite length_seq. nia.
Qed.

(** For a patch given by natural numbers, the result is the patch of
    [(n + 1) * (n + 1)] vertices of the source, row by row, each cell as it
    is read from the source ([NaN] outside it), followed by zeros up to the
    allocated [3 * (a + n + 1) * (b + n + 1)] cells. *)
Theorem getMatrixSubArray_patch (src : list cell) (g a b n : nat) :
  getMatrixSubArray (Some src) (inject_Z (Z.of_nat g)) (inject_Z (Z.of_nat a))
    (inject_Z (Z.of_nat b)) (inject_Z (Z.of_nat n)) =
  Some (patchOf src g a b n ++
        replicate (3 * (a + n + 1) * (b + n + 1) - 3 * (n + 1) * (n + 1))
                  (Some 0%Q)).
Proof.
  unfold getMatrixSubArray.
  rewrite (newFloat32Array_nat _ (3 * (a + n + 1) * (b + n + 1))).
  2:{ rewrite !Nat2Z.inj_mul, !Nat2Z.inj_add.
      rewrite !inject_Z_mult, !inject_Z_plus. simpl. ring. }
  cbn [mbind option_bind]. f_equal.
  rewrite (steps_nat (inject_Z (Z.of_nat a)) _ (Datatypes.S n)).
  2:{ rewrite Nat2Z.inj_succ, <- Z.add_1_r, inject_Z_plus. simpl. ring. }
  rewrite (steps_nat (inject_Z (Z.of_nat b)) _ (Datatypes.S n)).
  2:{ rewrite Nat2Z.inj_succ, <- Z.add_1_r, inject_Z_plus. simpl. ring. }
  pose proof (copyRows_app src g a b n (inject_Z (Z.of_nat a)) (inject_Z (Z.of_nat b))
                (seq 0 (Datatypes.S n)) (Qeq_refl _) (Qeq_refl _) []
                (replicate (3 * (a + n + 1) * (b + n + 1)) (Some 0%Q))) as H.
  rewrite length_seq, length_replicate in H.
  cbn [app length] in H.
  rewrite H by nia. cbv zeta. cbn [fst].
  rewrite drop_replicate. unfold patchOf.
  do 2 f_equal. lia.
Qed.

(** ** getCommonSide: the two ends of a shared edge *)

Lemma num_eqb_false a b : num_eqb a b = false <-> ~ (a == b)%Q.
Proof.
  rewrite <- num_eqb_true. destruct (num_eqb a b); split; congruence.
Qed.

Lemma num_eqb_sym a b : num_eqb a b = num_eqb b a.
Proof.
  destruct (num_eqb b a) eqn:E.
  - apply num_eqb_true. symmetry. by apply num_eqb_true.
  - apply num_eqb_false. intros H. apply num_eqb_false in E. apply E. by symmetry.
Qed.

Ltac split_ifs H :=
  repeat match type of H with
         | context [if ?b then _ else _] => destruct b eqn:?; try discriminate H
         end.

Lemma commonSide_mirror zoom zoom' (a b : Extent) (s : quadTree.Side) :
  properExtent a -> properExtent b ->
  commonSide zoom a b = Some s ->
  (edge a s == edge b (quadTree.OPSIDE s))%Q ->
  commonSide zoom' b a = Some (quadTree.OPSIDE s).
Proof.
  intros [Ha1 Ha2] [Hb1 Hb2] H He. unfold commonSide in *. cbv zeta in *.
  rewrite (orb_comm (num_leb (lat (northEast b)) _ && _)).
  destruct (num_leb (lat (northEast a)) (lat (northEast b)) && _ || _) eqn:EL.
  - destruct s; simpl in He; split_ifs H; simpl.
    + (* E *)
      replace (num_eqb (lon (northEast b)) (lon (southWest a))) with false
        by (symmetry; apply num_eqb_false; lra).
      replace (num_eqb (lon (southWest b)) (lon (northEast a))) with true
        by (symmetry; apply num_eqb_true; lra).
      reflexivity.
    + replace (num_eqb (lon (northEast b)) (lon (southWest a))) with false
        by (symmetry; apply num_eqb_false; lra).
      replace (num_eqb (lon (southWest b)) (lon (northEast a))) with true
        by (symmetry; apply num_eqb_true; lra).
      reflexivity.
    + replace (num_eqb (lon (northEast b)) (lon (southWest a))) with false
        by (symmetry; apply num_eqb_false; lra).
      replace (num_eqb (lon (southWest b)) (lon (northEast a))) with true
        by (symmetry; apply num_eqb_true; lra).
      reflexivity.
    + (* W *)
      replace (num_eqb (lon (northEast b)) (lon (southWest a))) with true
        by (symmetry; apply num_eqb_true; lra).
      reflexivity.
  - rewrite (orb_comm (num_leb (lon (southWest a)) _ && _)).
    destruct (num_leb (lon (southWest b)) (lon (southWest a)) && _ || _) eqn:EN;
      [|discriminate].
    destruct s; simpl in He; split_ifs H; simpl.
    + replace (num_eqb (lat (northEast b)) (lat (southWest a))) with false
        by (symmetry; apply num_eqb_false; lra).
      replace (num_eqb (lat (southWest b)) (lat (northEast a))) with true
        by (symmetry; apply num_eqb_true; lra).
      reflexivity.
    + replace (num_eqb (lat (northEast b)) (lat (southWest a))) with false
        by (symmetry; apply num_eqb_false; lra).
      replace (num_eqb (lat (southWest b)) (lat (northEast a))) with true
        by (symmetry; apply num_eqb_true; lra).
      reflexivity.
    + replace (num_eqb (lat (northEast b)) (lat (southWest a))) with true
        by (symmetry; apply num_eqb_true; lra).
      reflexivity.
    + replace (num_eqb (lat (northEast b)) (lat (southWest a))) with true
        by (symmetry; apply num_eqb_true; lra).
      reflexivity.
Qed.

(** When [x.getCommonSide(y)] answers [s] and the edge of [x] on side [s]
    is the edge of [y] on the opposite side, [y.getCommonSide(x)] answers
    the opposite side, for extents of positive width and height. *)
Theorem getCommonSide_mirror (w : World) (x y : ref) (sx sy : Segment)
    (s : quadTree.Side) :
  segmentAt w x = Some sx ->
  segmentAt w y = Some sy ->
  properExtent (_extent sx) ->
  properExtent (_extent sy) ->
  getCommonSide w x y = Some (Some s) ->
  (edge (_extent sx) s == edge (_extent sy) (quadTree.OPSIDE s))%Q ->
  getCommonSide w y x = Some (Some (quadTree.OPSIDE s)).
Proof.
  intros Hx Hy Px Py H He. unfold getCommonSide in *.
  rewrite Hx, Hy in *. simpl in *. injection H as H.
  f_equal. by eapply commonSide_mirror.
Qed.

Lemma getCommonSide_mirror_witness :
  getCommonSide guardWorld 0%nat 1%nat = Some (Some quadTree.E) /\
  getCommonSide guardWorld 1%nat 0%nat = Some (Some quadTree.W).
Proof.
  split; [reflexivity|].
  eapply (getCommonSide_mirror guardWorld 0%nat 1%nat _ _ quadTree.E);
    try reflexivity; split; reflexivity.
Defined.

(** ** createChildrenNodes: the four new nodes *)

Lemma spawnChild_effect oracle this part id z ext w n :
  getNode w this = Some n ->
  ok (spawnChild oracle this part id z ext w) (fun w' =>
    exists r,
      getNode w r = None /\
      getNode w' r =
        Some (newNode oracle (SegmentPrototype n) part (Some this) id z ext) /\
      getNode w' this = Some (set_nodes (part_set (nodes n) part (Some r)) n) /\
      (forall r', r' <> r -> r' <> this -> getNode w' r' = getNode w r') /\
      _createdNodesCount w' = _createdNodesCount w + 1 /\
      _renderedNodes w' = _renderedNodes w /\ calls w' = calls w /\
      activeCamera w' = activeCamera w /\ terrain w' = terrain w).
Proof.
  intros Hn. unfold spawnChild. rewrite Hn. simpl.
  set (r := fresh (dom (heap w))).
  assert (Hfresh : getNode w r = None).
  { unfold getNode. apply not_elem_of_dom. apply is_fresh. }
  assert (Hr : r <> this) by congruence.
  set (c := newNode oracle (SegmentPrototype n) part (Some this) id z ext).
  set (w1 := set_createdNodesCount _ _).
  assert (H1 : forall r', getNode w1 r' = if decide (r = r') then Some c else getNode w r').
  { intros r'. unfold w1, getNode. simpl. rewrite lookup_insert.
    destruct (decide (r = r')); reflexivity. }
  unfold modify. rewrite H1, decide_False by assumption. rewrite Hn. simpl.
  apply ok_Some. exists r.
  split; [assumption|]. rewrite !getNode_setNode, !H1.
  rewrite decide_False by congruence. rewrite decide_True by reflexivity.
  rewrite decide_True by reflexivity.
  split; [reflexivity|]. split; [reflexivity|].
  split.
  { intros r' Hr1 Hr2. rewrite getNode_setNode, H1, !decide_False by congruence.
    reflexivity. }
  repeat split; reflexivity.
Qed.

Lemma createChildrenNodes_effect oracle this w n ps :
  getNode w this = Some n ->
  segment n = Some ps ->
  ok (createChildrenNodes oracle this w) (fun w' =>
    exists kids, childrenCreated oracle this n ps w w' kids).
Proof.
  intros Hn Hps. unfold createChildrenNodes.
  rewrite (modify_Some this _ w n (set_ready true n) Hn eq_refl). simpl.
  set (w0 := setNode this (set_ready true n) w).
  assert (H0 : getNode w0 this = Some (set_ready true n)) by apply getNode_setNode_eq.
  assert (H0' : forall r, r <> this -> getNode w0 r = getNode w r).
  { intros r Hr. apply getNode_setNode_ne. congruence. }
  rewrite H0. simpl. rewrite Hps. simpl.
  eapply ok_bind; [apply (spawnChild_effect _ _ _ _ _ _ _ _ H0)|].
  intros w1 (nw & F1 & C1 & T1 & O1 & K1 & R1 & L1 & A1 & E1). simpl in T1.
  eapply ok_bind; [apply (spawnChild_effect _ _ _ _ _ _ _ _ T1)|].
  intros w2 (ne & F2 & C2 & T2 & O2 & K2 & R2 & L2 & A2 & E2). simpl in T2.
  eapply ok_bind; [apply (spawnChild_effect _ _ _ _ _ _ _ _ T2)|].
  intros w3 (sw & F3 & C3 & T3 & O3 & K3 & R3 & L3 & A3 & E3). simpl in T3.
  eapply ok_mono; [apply (spawnChild_effect _ _ _ _ _ _ _ _ T3)|].
  intros w4 (se & F4 & C4 & T4 & O4 & K4 & R4 & L4 & A4 & E4). simpl in T4.
  assert (Nnw : nw <> this) by congruence.
  assert (Nne : ne <> this) by congruence.
  assert (Nsw : sw <> this) by congruence.
  assert (Nse : se <> this) by congruence.
  assert (N12 : nw <> ne) by congruence.
  assert (N13 : nw <> sw).
  { intros <-. rewrite O2 in F3 by congruence. congruence. }
  assert (N23 : ne <> sw) by congruence.
  assert (N14 : nw <> se).
  { intros <-. rewrite O3, O2 in F4 by congruence. congruence. }
  assert (N24 : ne <> se).
  { intros <-. rewrite O3 in F4 by congruence. congruence. }
  assert (N34 : sw <> se) by congruence.
  exists (mkQuad nw ne sw se). split; simpl.
  - repeat (apply NoDup_cons; split); try apply NoDup_nil;
      rewrite ?not_elem_of_cons; repeat split; try congruence;
      apply not_elem_of_nil.
  - intros p. destruct p; simpl.
    + rewrite <- H0'; assumption.
    + rewrite <- H0', <- O1; congruence.
    + rewrite <- H0', <- O1, <- O2; congruence.
    + rewrite <- H0', <- O1, <- O2, <- O3; congruence.
  - exact T4.
  - intros p. destruct p; simpl.
    + rewrite O4, O3, O2 by congruence. exact C1.
    + rewrite O4, O3 by congruence. exact C2.
    + rewrite O4 by congruence. exact C3.
    + exact C4.
  - intros r Hr Hp.
    pose proof (Hp quadTree.NW). pose proof (Hp quadTree.NE).
    pose proof (Hp quadTree.SW). pose proof (Hp quadTree.SE). simpl in *.
    rewrite O4, O3, O2, O1 by congruence. apply H0'. congruence.
  - rewrite K4, K3, K2, K1. unfold w0. simpl. lia.
  - rewrite R4, R3, R2, R1, L4, L3, L2, L1, A4, A3, A2, A1, E4, E3, E2, E1.
    repeat split; reflexivity.
Qed.















(** ** addToRender: the side sizes stay within the grid *)

Lemma ceil_bounds q top (g : Z) :
  (top == inject_Z g)%Q -> (0 < q)%Q -> (q <= top)%Q -> (1 <= ceil q <= top)%Q.
Proof.
  intros Ht H0 Hg. unfold ceil. split.
  - change 1%Q with (inject_Z 1). rewrite <- Zle_Qle.
    pose proof (Qle_ceiling q) as H.
    assert (H1 : (0 < inject_Z (Qceiling q))%Q) by lra.
    change 0%Q with (inject_Z 0) in H1. rewrite <- Zlt_Qlt in H1. lia.
  - assert (H : (inject_Z (Qceiling q) <= inject_Z g)%Q); [|lra].
    rewrite <- Zle_Qle. rewrite <- (Qceiling_Z g). apply Qceiling_resp_le. lra.
Qed.

Lemma chosenSizes_bounded ap bp k v1 v2 :
  wholeGrid ap -> wholeGrid bp ->
  chosenSizes ap bp (gridSize ap / (gridSize bp * pow2 k))%Q v1 v2 ->
  (1 <= v1 <= gridSize ap)%Q /\ (1 <= v2 <= gridSize bp)%Q.
Proof.
  intros (a & Ha & Ea) (b & Hb & Eb) (H1 & H2 & H3).
  set (ld := (gridSize ap / (gridSize bp * pow2 k))%Q) in *.
  assert (Pa : (1 <= gridSize ap)%Q).
  { rewrite Ea. change 1%Q with (inject_Z 1). rewrite <- Zle_Qle. lia. }
  assert (Pb : (1 <= gridSize bp)%Q).
  { rewrite Eb. change 1%Q with (inject_Z 1). rewrite <- Zle_Qle. lia. }
  assert (Pd : (0 < gridSize bp * pow2 k)%Q).
  { apply Qmult_lt_0_compat; [lra|apply pow2_pos]. }
  assert (Pl : (0 < ld)%Q).
  { unfold ld. apply Qlt_shift_div_l; [exact Pd|lra]. }
  destruct (Q_dec ld 1) as [[Hlt|Hgt]|Heq].
  - destruct (H2 Hlt) as [-> ->]. split; [lra|].
    apply (ceil_bounds _ _ b Eb).
    + apply Qmult_lt_0_compat; lra.
    + nra.
  - destruct (H1 Hgt) as [-> ->]. split; [|lra].
    apply (ceil_bounds _ _ a Ea).
    + apply Qlt_shift_div_l; lra.
    + apply Qle_shift_div_r; [lra|nra].
  - destruct (H3 Heq) as [-> ->]. split; lra.
Qed.

Lemma sizesBounded_kept w w' r :
  keeps_segment w w' -> keeps_sideSize w w' -> sizesBounded w r -> sizesBounded w' r.
Proof.
  intros G S (seg & Hs & Hg & Hb). exists seg. rewrite G. split; [exact Hs|].
  split; [exact Hg|]. intros s. rewrite S. apply Hb.
Qed.

Lemma encounter_bounded w x ni :
  live w x -> live w ni ->
  sizesBounded w x -> sizesBounded w ni ->
  ok (encounter x ni w) (fun w' =>
    keeps_segment w w' /\ keeps_rendered w w' /\ keeps_live w w' /\
    forall r, sizesBounded w r -> sizesBounded w' r).
Proof.
  intros Hx Hni Bx Bni.
  pose proof Hx as (Hxn & Hxs & sa & Hsa & Hga).
  pose proof Hni as (Hnn & Hns & sb & Hsb & Hgb).
  unfold encounter.
  assert (Hcs : getCommonSide w x ni =
                Some (commonSide (tileZoom sa) (_extent sa) (_extent sb))).
  { unfold getCommonSide. by rewrite Hsa, Hsb. }
  rewrite Hcs. simpl.
  destruct (commonSide (tileZoom sa) (_extent sa) (_extent sb)) as [cs|].
  2:{ apply ok_Some. split; [by intros r|]. split; [reflexivity|].
      split; [by intros r|]. auto. }
  eapply ok_bind; [apply link_ok; auto|].
  intros w1 (N1 & S1 & H1 & G1 & R1). cbv beta.
  assert (L1 : keeps_live w w1).
  { apply keeps_live_intro; [|intros r s; by rewrite S1|exact G1].
    intros r s. by eapply two_slots_is_Some. }
  assert (Hgo : is_Some (negotiates w1 x ni cs)).
  { unfold negotiates.
    destruct (segmentAt_hasNeighborAt w x cs sa Hsa) as [bx Hbx].
    destruct (segmentAt_hasNeighborAt w ni (quadTree.OPSIDE cs) sb Hsb) as [bn Hbn].
    rewrite !H1, Hbx, Hbn. simpl. eauto. }
  destruct Hgo as [go Hgo]. rewrite Hgo. simpl.
  destruct go.
  - eapply ok_mono.
    { apply (negotiate_ok x ni cs w1 sa sb); rewrite ?G1, ?S1; auto. }
    intros w2 ((v1 & v2 & Hv & S2) & _ & N2 & G2 & R2).
    split; [by eapply keeps_segment_trans|].
    split; [by eapply keeps_rendered_trans|].
    split.
    + eapply keeps_live_trans; [exact L1|].
      apply keeps_live_intro; [intros r s; by rewrite N2| |exact G2].
      intros r s. by eapply two_slots_is_Some.
    + destruct Bx as (sa' & Hsa' & Wa & _). destruct Bni as (sb' & Hsb' & Wb & _).
      assert (sa' = sa) by congruence. assert (sb' = sb) by congruence. subst sa' sb'.
      destruct (chosenSizes_bounded _ _ _ _ _ Wa Wb Hv) as [B1 B2].
      intros r (seg & Hs & Hg & Hb). exists seg. rewrite G2, G1.
      split; [exact Hs|]. split; [exact Hg|].
      intros s. rewrite S2.
      destruct (decide (r = ni /\ s = quadTree.OPSIDE cs)) as [[-> ->]|_].
      { exists v2. split; [reflexivity|]. by replace seg with sb by congruence. }
      destruct (decide (r = x /\ s = cs)) as [[-> ->]|_].
      { exists v1. split; [reflexivity|]. by replace seg with sa by congruence. }
      rewrite S1. apply Hb.
  - apply ok_Some. split; [exact G1|]. split; [exact R1|]. split; [exact L1|].
    intros r. by apply sizesBounded_kept.
Qed.

Lemma scan_bounded x nis :
  forall w,
    live w x -> (forall ni, ni ∈ nis -> live w ni) ->
    sizesBounded w x -> (forall ni, ni ∈ nis -> sizesBounded w ni) ->
    ok (scan x nis w) (fun w' =>
      keeps_rendered w w' /\ forall r, sizesBounded w r -> sizesBounded w' r).
Proof.
  induction nis as [|ni nis IH]; intros w Lx Ln Bx Bn.
  - apply ok_Some. split; [reflexivity|auto].
  - simpl. eapply ok_bind.
    { apply encounter_bounded; [exact Lx| | exact Bx|];
        [apply Ln|apply Bn]; apply list_elem_of_here. }
    intros w1 (G1 & R1 & L1 & B1). cbv beta.
    eapply ok_mono.
    { apply IH.
      - by apply L1.
      - intros r Hr. apply L1, Ln. by apply list_elem_of_further.
      - by apply B1.
      - intros r Hr. apply B1, Bn. by apply list_elem_of_further. }
    intros w2 (R2 & B2). split; [by eapply keeps_rendered_trans|]. auto.
Qed.

(** The side sizes stay within the grid.  If the grid sizes are whole
    numbers and every side size of the registering node and of the
    registered nodes lies between 1 and the grid size of its node, then so
    it is after [addToRender], for every node of the rendered list. *)
Theorem addToRender_sizes_bounded (w : World) (x : ref) :
  live w x ->
  (forall r, r ∈ _renderedNodes w -> live w r) ->
  sizesBounded w x ->
  (forall r, r ∈ _renderedNodes w -> sizesBounded w r) ->
  ok (addToRender x w) (fun w' =>
    _renderedNodes w' = _renderedNodes w ++ [x] /\
    forall r, r ∈ _renderedNodes w' -> sizesBounded w' r).
Proof.
  intros Lx LR Bx BR. unfold addToRender.
  eapply ok_bind; [apply set_state_ok, live_present, Lx|].
  intros w1 (N1 & S1 & H1 & G1 & R1). cbv beta.
  assert (L1 : keeps_live w w1).
  { apply keeps_live_intro; [intros r s; by rewrite N1|intros r s; by rewrite S1|exact G1]. }
  assert (B1 : forall r, sizesBounded w r -> sizesBounded w1 r).
  { intros r. by apply sizesBounded_kept. }
  rewrite R1.
  eapply ok_bind.
  { apply (scan_bounded x (rev (_renderedNodes w)) w1).
    - by apply L1.
    - intros r Hr. apply L1, LR. by apply elem_of_rev.
    - by apply B1.
    - intros r Hr. apply B1, BR. by apply elem_of_rev. }
  intros w2 (R2 & B2). cbv beta. apply ok_Some. simpl.
  rewrite R2, R1. split; [reflexivity|].
  intros r Hr.
  assert (Hb : sizesBounded w2 r).
  { apply B2, B1. apply elem_of_app in Hr as [Hr|Hr]; [by apply BR|].
    apply list_elem_of_singleton in Hr as ->. exact Bx. }
  exact Hb.
Qed.

Lemma addToRender_sizes_bounded_witness :
  ok (addToRender 2%nat boundedWorld) (fun w' =>
    _renderedNodes w' = [0%nat; 1%nat; 2%nat] /\
    forall r, r ∈ _renderedNodes w' -> sizesBounded w' r).
Proof.
  assert (L : forall r, r ∈ [0%nat; 1%nat; 2%nat] -> live boundedWorld r).
  { intros r Hr.
    repeat (apply elem_of_cons in Hr as [->|Hr]);
      [| | |by apply elem_of_nil in Hr];
      (split; [intros s; destruct s; by eexists|];
       split; [intros s; destruct s; by eexists|];
       eexists; split; reflexivity). }
  assert (B : forall r, r ∈ [0%nat; 1%nat; 2%nat] -> sizesBounded boundedWorld r).
  { intros r Hr.
    repeat (apply elem_of_cons in Hr as [->|Hr]);
      [| | |by apply elem_of_nil in Hr];
      (eexists; split; [reflexivity|]; split;
       [eexists; split; [|reflexivity]; reflexivity|];
       intros s; destruct s; eexists; (split; [reflexivity|]);
       split; discriminate). }
  assert (S : forall r : ref, r ∈ [0%nat; 1%nat] -> r ∈ [0%nat; 1%nat; 2%nat]).
  { intros r Hr. apply elem_of_cons in Hr as [->|Hr]; [apply list_elem_of_here|].
    apply list_elem_of_further. apply elem_of_cons in Hr as [->|Hr];
      [apply list_elem_of_here|by apply elem_of_nil in Hr]. }
  apply (addToRender_sizes_bounded boundedWorld 2%nat).
  - apply L. do 2 apply list_elem_of_further. apply list_elem_of_here.
  - intros r Hr. apply L, S, Hr.
  - apply B. do 2 apply list_elem_of_further. apply list_elem_of_here.
  - intros r Hr. apply B, S, Hr.
Defined.

(** ** destroy: what is left of the node *)

Lemma slotsCleared_refl w : slotsCleared w w.
Proof. split; [by intros r|]. split; [by left|]. repeat split; reflexivity. Qed.

Lemma slotsCleared_trans w1 w2 w3 :
  slotsCleared w1 w2 -> slotsCleared w2 w3 -> slotsCleared w1 w3.
Proof.
  intros (K1 & N1 & R1 & C1 & I1 & A1 & T1) (K2 & N2 & R2 & C2 & I2 & A2 & T2).
  split; [by eapply kept_trans|].
  split.
  { intros r u. destruct (N2 r u) as [E|[E S]].
    - rewrite E. apply N1.
    - right. split; [exact E|].
      destruct (N1 r u) as [E'|[_ S']]; [by rewrite <- E'|exact S']. }
  repeat split; congruence.
Qed.

Lemma slotsCleared_kept {X} (obs : Node -> X) w w' :
  (forall v n, obs (set_neighbors v n) = obs n) ->
  slotsCleared w w' -> kept obs w w'.
Proof.
  intros Hobs (K & _) r. specialize (K r).
  destruct (getNode w' r) as [n'|], (getNode w r) as [n|]; simpl in *;
    try discriminate; [|reflexivity].
  assert (E : set_neighbors None n' = set_neighbors None n) by congruence.
  f_equal. rewrite <- (Hobs None n'), <- (Hobs None n). by rewrite E.
Qed.

Lemma slotsCleared_present w w' r : slotsCleared w w' -> present w r <-> present w' r.
Proof.
  intros (K & _). specialize (K r). unfold present.
  destruct (getNode w' r), (getNode w r); simpl in K; try discriminate;
    split; intros [? ?]; eauto; discriminate.
Qed.

Lemma slotsCleared_holds w w' a s b : slotsCleared w w' -> holds w' a s b -> holds w a s b.
Proof.
  intros (_ & N & _) H. unfold holds in *.
  destruct (N a s) as [E|[E _]]; congruence.
Qed.

Lemma clear_slot_cleared m t w :
  is_Some (neighborAt w m t) ->
  ok (modify m (assign_neighbor t None) w) (fun w' =>
    slotsCleared w w' /\ neighborAt w' m t = Some None).
Proof.
  intros Hs.
  destruct (assign_neighbor_ok m t None w Hs) as [w' Hw']. rewrite Hw'.
  apply ok_Some.
  pose proof (assign_neighbor_neighbors _ _ _ _ _ Hw') as N.
  split; [|by rewrite N, decide_True].
  split.
  { eapply modify_kept; [exact Hw'|].
    intros n n' Hf. unfold assign_neighbor in Hf.
    destruct (neighbors n); [|discriminate]. by injection Hf as <-. }
  split.
  { intros r u. rewrite N. case_decide as Hd; [|by left].
    destruct Hd as [-> ->]. right. by split. }
  apply modify_inv in Hw' as (n & n' & _ & _ & ->). repeat split; reflexivity.
Qed.

Lemma unlink_cleared x s t w :
  is_Some (neighborAt w x s) ->
  (forall m, holds w x s m -> present w m) ->
  ok (unlink x s t w) (slotsCleared w).
Proof.
  intros [v Hv] Hp. unfold unlink. unfold neighborAt in Hv.
  destruct (getNode w x) as [nd|] eqn:Hgetx; [simpl in *|discriminate].
  destruct (neighbors nd) as [nb|] eqn:Enb; [simpl in *|discriminate].
  injection Hv as <-.
  destruct (side_get nb s) as [m|] eqn:Em; [|apply ok_Some, slotsCleared_refl].
  assert (Hm : present w m).
  { apply Hp. unfold holds, neighborAt. rewrite Hgetx. simpl. rewrite Enb. simpl.
    by rewrite Em. }
  destruct Hm as [mn Hmn]. rewrite Hmn. simpl.
  destruct (neighbors mn) as [mnb|] eqn:Emn; [|apply ok_Some, slotsCleared_refl].
  eapply ok_mono.
  - apply clear_slot_cleared. unfold neighborAt. rewrite Hmn. simpl. rewrite Emn.
    simpl. eauto.
  - by intros w' [H _].
Qed.

Lemma unlinks_cleared x sides :
  forall w,
    (forall s, is_Some (neighborAt w x s)) ->
    (forall s m, holds w x s m -> present w m) ->
    ok (unlinks x sides w) (slotsCleared w).
Proof.
  induction sides as [|s sides IH]; intros w Hn Hp.
  - apply ok_Some, slotsCleared_refl.
  - simpl. eapply ok_bind; [apply unlink_cleared; [apply Hn|apply Hp]|].
    intros w1 C1. cbv beta.
    eapply ok_mono.
    + apply IH.
      * intros u. destruct C1 as (_ & N & _).
        destruct (N x u) as [E|[E _]]; rewrite E; [apply Hn|eauto].
      * intros u m Hm. apply (slotsCleared_present w w1 m C1), (Hp u).
        by eapply slotsCleared_holds.
    + intros w2 C2. by eapply slotsCleared_trans.
Qed.

(** [destroy] on a live node: the node itself, the other nodes, the
    planet. *)
Lemma destroy_node w x n :
  getNode w x = Some n ->
  is_Some (segment n) ->
  is_Some (neighbors n) ->
  (forall s m, holds w x s m -> present w m) ->
  ok (destroy x w) (fun w' =>
    getNode w' x = Some (destroyed n) /\
    (forall r, r <> x ->
       set_neighbors None <$> getNode w' r = set_neighbors None <$> getNode w r) /\
    (forall r u, r <> x ->
       neighborAt w' r u = neighborAt w r u \/
       (neighborAt w' r u = Some None /\ is_Some (neighborAt w r u))) /\
    _renderedNodes w' = _renderedNodes w /\
    calls w' = calls w ++ [destroySegment x] /\
    _createdNodesCount w' = _createdNodesCount w /\
    activeCamera w' = activeCamera w /\ terrain w' = terrain w).
Proof.
  intros Hn [seg Hseg] [nb Hnb] Hp.
  rewrite destroy_unfold.
  rewrite (modify_Some x (fun n => Some (set_state (Some quadTree.NOTRENDERING) n))
             w n _ Hn eq_refl). cbn [mbind option_bind].
  set (n0 := set_state (Some quadTree.NOTRENDERING) n).
  set (w0 := setNode x n0 w).
  assert (G0 : forall r, getNode w0 r = if decide (x = r) then Some n0 else getNode w r)
    by (intros r; apply getNode_setNode).
  assert (N0 : forall r u, neighborAt w0 r u = neighborAt w r u).
  { intros r u. unfold neighborAt. rewrite G0. case_decide; [subst r|reflexivity].
    by rewrite Hn. }
  unfold seg_call. unfold segmentAt at 1. rewrite G0, decide_True by reflexivity.
  cbn [mbind option_bind n0 set_state segment]. rewrite Hseg. cbn [mbind option_bind].
  set (w1 := call (destroySegment x) w0).
  eapply ok_bind.
  { apply (unlinks_cleared x _ w1).
    - intros s. change (is_Some (neighborAt w0 x s)). rewrite N0.
      unfold neighborAt. rewrite Hn. simpl. rewrite Hnb. simpl. eauto.
    - intros s m Hm. change (holds w0 x s m) in Hm. unfold holds in Hm.
      rewrite N0 in Hm. destruct (Hp s m Hm) as [mn Hmn].
      unfold present. change (getNode w1 m) with (getNode w0 m). rewrite G0.
      case_decide; eauto. }
  intros w2 C2. cbv beta.
  pose proof C2 as (K2 & N2 & R2 & L2 & I2 & A2 & T2).
  assert (Hx2 : exists n2, getNode w2 x = Some n2 /\
                           set_neighbors None n2 = set_neighbors None n0).
  { specialize (K2 x). change (getNode w1 x) with (getNode w0 x) in K2.
    rewrite G0, decide_True in K2 by reflexivity.
    destruct (getNode w2 x) as [n2|]; [|discriminate]. exists n2.
    split; [reflexivity|]. simpl in K2. congruence. }
  destruct Hx2 as (n2 & Hn2 & E2).
  unfold dropReferences, modify. rewrite Hn2. simpl.
  repeat (rewrite getNode_setNode_eq; simpl).
  apply ok_Some.
  split.
  { rewrite getNode_setNode_eq. f_equal. unfold destroyed. fold n0.
    rewrite <- E2. reflexivity. }
  split.
  { intros r Hr. rewrite !getNode_setNode_ne by congruence.
    rewrite (K2 r). change (getNode w1 r) with (getNode w0 r).
    rewrite G0, decide_False by congruence. reflexivity. }
  split.
  { intros r u Hr.
    assert (E : neighborAt (setNode x
                  (set_segment None (set_sideSize None (set_parentNode None
                     (set_neighbors None n2)))) (setNode x
                  (set_sideSize None (set_parentNode None (set_neighbors None n2)))
                  (setNode x (set_parentNode None (set_neighbors None n2))
                     (setNode x (set_neighbors None n2) w2)))) r u =
                neighborAt w2 r u).
    { unfold neighborAt. rewrite !getNode_setNode_ne by congruence. reflexivity. }
    rewrite E. destruct (N2 r u) as [E'|[E' S']]; [left|right].
    - rewrite E'. apply N0.
    - split; [exact E'|]. by rewrite <- N0. }
  simpl. rewrite R2, L2, I2, A2, T2. repeat split; reflexivity.
Qed.

Lemma destroy_hyps w x :
  is_Some (segmentAt w x) ->
  (forall s, is_Some (neighborAt w x s)) ->
  exists n, getNode w x = Some n /\ is_Some (segment n) /\ is_Some (neighbors n).
Proof.
  intros [seg Hseg] Hnb. unfold segmentAt in Hseg.
  destruct (getNode w x) as [n|] eqn:Hn; [|discriminate]. exists n.
  split; [reflexivity|]. split; [by eexists|].
  destruct (Hnb quadTree.N) as [v Hv]. unfold neighborAt in Hv. rewrite Hn in Hv.
  simpl in Hv. destruct (neighbors n); [by eexists|discriminate].
Qed.

(** What [destroy] leaves alone.  Line 640 assigns [this.hasNeighbors], not
    [hasNeighbor]: no flag of any node changes, those of the destroyed node
    included.  The node keeps its child slots and its [ready] flag, and it
    stays in the rendered list; the segment is told once. *)
Theorem destroy_leaves (w : World) (x : ref) :
  is_Some (segmentAt w x) ->
  (forall s, is_Some (neighborAt w x s)) ->
  (forall s m, neighborAt w x s = Some (Some m) -> present w m) ->
  ok (destroy x w) (fun w' =>
    keeps_hasNeighbor w w' /\ kept nodes w w' /\ kept ready w w' /\
    _renderedNodes w' = _renderedNodes w /\
    calls w' = calls w ++ [destroySegment x]).
Proof.
  intros Hseg Hnb Hp.
  destruct (destroy_hyps w x Hseg Hnb) as (n & Hn & Hs & Hb).
  eapply ok_mono; [apply (destroy_node w x n Hn Hs Hb Hp)|].
  intros w' (Hx & Hr & _ & R & C & _).
  assert (K : forall X (obs : Node -> X),
            (forall v m, obs (set_neighbors v m) = obs m) ->
            obs (destroyed n) = obs n -> kept obs w w').
  { intros X obs H1 H2 r. destruct (decide (r = x)) as [->|Hrx].
    - rewrite Hx, Hn. simpl. by rewrite H2.
    - specialize (Hr r Hrx).
      destruct (getNode w' r) as [a|], (getNode w r) as [b|]; simpl in *;
        try discriminate; [|reflexivity].
      assert (E : set_neighbors None a = set_neighbors None b) by congruence.
      f_equal. rewrite <- (H1 None a), <- (H1 None b). by rewrite E. }
  split; [apply kept_hasNeighborAt; by apply K|].
  split; [by apply K|]. split; [by apply K|]. auto.
Qed.

Lemma destroy_leaves_witness :
  ok (destroy 0%nat linkedWorld) (fun w' =>
    hasNeighborAt w' 0%nat quadTree.E = hasNeighborAt linkedWorld 0%nat quadTree.E /\
    _renderedNodes w' = [0%nat; 1%nat]).
Proof.
  eapply ok_mono.
  - apply (destroy_leaves linkedWorld 0%nat).
    + by eexists.
    + intros s. destruct s; by eexists.
    + intros s m H. destruct s; vm_compute in H; try discriminate.
      injection H as <-. by eexists.
  - intros w' (H & _ & _ & R & _). split; [apply H|exact R].
Defined.

Lemma encounter_segments x ni w w' :
  encounter x ni w = Some w' ->
  is_Some (segmentAt w x) /\ is_Some (segmentAt w ni) /\ keeps_segment w w'.
Proof.
  unfold encounter, getCommonSide. intros H.
  destruct (segmentAt w x) as [sa|]; [|discriminate].
  destruct (segmentAt w ni) as [sb|]; [|discriminate].
  split; [by eexists|]. split; [by eexists|]. simpl in H.
  destruct (commonSide _ _ _) as [cs|]; [|injection H as <-; by intros r].
  unfold link in H.
  destruct (modify x _ w) as [w1|] eqn:E1; [simpl in H|discriminate].
  destruct (modify ni _ w1) as [w2|] eqn:E2; [simpl in H|discriminate].
  assert (G2 : keeps_segment w w2).
  { eapply keeps_segment_trans; eapply assign_neighbor_segment; eauto. }
  destruct (negotiates w2 x ni cs) as [[|]|]; [simpl in H| |discriminate].
  2:{ by injection H as <-. }
  unfold negotiate in H.
  destruct (segmentAt w2 x); [simpl in H|discriminate].
  destruct (segmentAt w2 ni); [simpl in H|discriminate].
  destruct (seamRatio _ _) as [ld|]; [simpl in H|discriminate].
  unfold flag in H.
  destruct (modify x _ w2) as [w3|] eqn:E3; [simpl in H|discriminate].
  destruct (modify ni _ w3) as [w4|] eqn:E4; [simpl in H|discriminate].
  assert (G4 : keeps_segment w w4).
  { eapply keeps_segment_trans; [exact G2|].
    eapply keeps_segment_trans; eapply assign_hasNeighbor_segment; eauto. }
  assert (Hres : forall v1 v2, resize x ni cs v1 v2 w4 = Some w' -> keeps_segment w w').
  { intros v1 v2 Hr. unfold resize in Hr.
    destruct (modify x _ w4) as [w5|] eqn:E5; [simpl in Hr|discriminate].
    eapply keeps_segment_trans; [exact G4|].
    eapply keeps_segment_trans; eapply assign_sideSize_segment; eauto. }
  destruct (num_ltb 1 ld).
  - destruct (num_div _ ld); [simpl in H|discriminate]. eauto.
  - destruct (num_ltb ld 1); eauto.
Qed.

Lemma scan_segments x nis :
  forall w w', scan x nis w = Some w' ->
    forall ni, ni ∈ nis -> is_Some (segmentAt w ni).
Proof.
  induction nis as [|a nis IH]; intros w w' H ni Hni.
  - by apply elem_of_nil in Hni.
  - simpl in H. destruct (encounter x a w) as [w1|] eqn:E; [simpl in H|discriminate].
    apply encounter_segments in E as (_ & Ha & G).
    apply elem_of_cons in Hni as [->|Hni]; [exact Ha|].
    rewrite <- G. by eapply IH.
Qed.

(** [addToRender] reads the extent of every node of the rendered list: it
    returns only if each of them still has its segment. *)
Lemma addToRender_segments y w w' :
  addToRender y w = Some w' ->
  forall r, r ∈ _renderedNodes w -> is_Some (segmentAt w r).
Proof.
  unfold addToRender. intros H r Hr.
  destruct (modify y _ w) as [w1|] eqn:E1; [simpl in H|discriminate].
  destruct (scan y _ w1) as [w2|] eqn:E2; [|discriminate].
  pose proof (modify_rendered _ _ _ _ E1) as R1.
  assert (G1 : keeps_segment w w1).
  { apply kept_segment. eapply modify_kept; [exact E1|]. by intros n n' [= <-]. }
  rewrite <- G1. eapply scan_segments; [exact E2|].
  rewrite R1. by apply elem_of_rev.
Qed.

(** [destroy] does not take the node out of the rendered list.  A destroyed
    node that is in the list stays there without segment, and from then on
    every [addToRender], of any node, throws when it reaches it. *)
Theorem destroy_stale_entry (w : World) (x : ref) :
  is_Some (segmentAt w x) ->
  (forall s, is_Some (neighborAt w x s)) ->
  (forall s m, neighborAt w x s = Some (Some m) -> present w m) ->
  x ∈ _renderedNodes w ->
  ok (destroy x w) (fun w' =>
    x ∈ _renderedNodes w' /\ forall y, addToRender y w' = None).
Proof.
  intros Hseg Hnb Hp Hin.
  destruct (destroy_hyps w x Hseg Hnb) as (n & Hn & Hs & Hb).
  eapply ok_mono; [apply (destroy_node w x n Hn Hs Hb Hp)|].
  intros w' (Hx & _ & _ & R & _).
  split; [by rewrite R|].
  intros y. destruct (addToRender y w') as [w''|] eqn:E; [|reflexivity].
  pose proof (addToRender_segments _ _ _ E x) as [seg Hseg'].
  { by rewrite R. }
  unfold segmentAt in Hseg'. rewrite Hx in Hseg'. discriminate.
Qed.

Lemma destroy_stale_entry_witness :
  ok (destroy 0%nat linkedWorld) (fun w' =>
    0%nat ∈ _renderedNodes w' /\ addToRender 1%nat w' = None).
Proof.
  eapply ok_mono.
  - apply (destroy_stale_entry linkedWorld 0%nat).
    + by eexists.
    + intros s. destruct s; by eexists.
    + intros s m H. destruct s; vm_compute in H; try discriminate.
      injection H as <-. by eexists.
    + apply list_elem_of_here.
  - intros w' (H1 & H2). split; [exact H1|apply H2].
Defined.

(** A destroyed node cannot be destroyed again, nor walked by
    [renderTree]: its segment and its neighbour array are [null], and both
    calls throw. *)
Theorem destroy_once (w : World) (x : ref) :
  is_Some (segmentAt w x) ->
  (forall s, is_Some (neighborAt w x s)) ->
  (forall s m, neighborAt w x s = Some (Some m) -> present w m) ->
  ok (destroy x w) (fun w' =>
    destroy x w' = None /\ renderTree_enter x w' = None).
Proof.
  intros Hseg Hnb Hp.
  destruct (destroy_hyps w x Hseg Hnb) as (n & Hn & Hs & Hb).
  eapply ok_mono; [apply (destroy_node w x n Hn Hs Hb Hp)|].
  intros w' (Hx & _). split.
  - unfold destroy.
    rewrite (modify_Some x (fun n => Some (set_state (Some quadTree.NOTRENDERING) n))
               w' _ _ Hx eq_refl). cbn [mbind option_bind].
    unfold seg_call, segmentAt. rewrite getNode_setNode_eq. reflexivity.
  - unfold renderTree_enter, renderTree_reset.
    rewrite (modify_Some x (fun n => Some (set_state (Some quadTree.WALKTHROUGH) n))
               w' _ _ Hx eq_refl). cbn [mbind option_bind].
    match goal with
    | |- context [modify x (assign_neighbor quadTree.N None) ?v] =>
        replace (modify x (assign_neighbor quadTree.N None) v) with (@None World)
    end; [reflexivity|].
    unfold modify. rewrite getNode_setNode_eq. reflexivity.
Qed.

Lemma destroy_once_witness :
  ok (destroy 0%nat linkedWorld) (fun w' =>
    destroy 0%nat w' = None /\ renderTree_enter 0%nat w' = None).
Proof.
  apply (destroy_once linkedWorld 0%nat).
  - by eexists.
  - intros s. destruct s; by eexists.
  - intros s m H. destruct s; vm_compute in H; try discriminate.
    injection H as <-. by eexists.
Defined.

(** ** getEqualNeighbor: there and back *)

Lemma getEqualNeighbor_nbPath fuel w root rn this path side :
  getNode w root = Some rn ->
  parentNode rn = None ->
  descent w root path this ->
  path <> [] ->
  (length path < fuel)%nat ->
  getEqualNeighbor fuel w this side =
  match nbPath side path with
  | Some path' => follow w (Some root) (rev path')
  | None => Some None
  end.
Proof.
  intros Hroot Hnoparent Hd Hne Hlen.
  unfold getEqualNeighbor.
  destruct Hd as [|path p n c r cn Hd Hn Hc Hcn Hp Hpart]; [congruence|].
  rewrite Hcn. simpl. rewrite Hpart.
  destruct (quadTree.NEIGHBOUR side c) as [c'|] eqn:E.
  - rewrite Hp. simpl. rewrite Hn. simpl.
    rewrite follow_app, (descent_follow _ _ _ _ Hd). simpl. rewrite Hn. simpl.
    by destruct (part_get (nodes n) c').
  - rewrite (walkUp_spec w root rn side fuel (c :: path) r []
               Hroot Hnoparent); [|by eapply descent_child|exact Hlen].
    simpl. rewrite E.
    destruct (nbPath side path); simpl; [|reflexivity].
    by rewrite app_nil_r.
Qed.

Lemma tileStep_OPSIDE s :
  fst (tileStep (quadTree.OPSIDE s)) = - fst (tileStep s) /\
  snd (tileStep (quadTree.OPSIDE s)) = - snd (tileStep s).
Proof. by destruct s. Qed.

(** Two nodes of the same depth whose tiles are one step apart across a
    side find each other: [getEqualNeighbor] from the one across that side
    returns the other, and from the other across the opposite side it
    returns the first. *)
Theorem getEqualNeighbor_round_trip (fuel : nat) (w : World) (root this m : ref)
    (rn : Node) (path path' : list quadTree.Part) (s : quadTree.Side) :
  getNode w root = Some rn ->
  parentNode rn = None ->
  descent w root path this ->
  descent w root path' m ->
  path <> [] ->
  length path' = length path ->
  tileOf path' = (fst (tileOf path) + fst (tileStep s),
                  snd (tileOf path) + snd (tileStep s)) ->
  (length path < fuel)%nat ->
  getEqualNeighbor fuel w this s = Some (Some m) /\
  getEqualNeighbor fuel w m (quadTree.OPSIDE s) = Some (Some this).
Proof.
  intros Hroot Hnoparent Hd Hd' Hne Hlen Htile Hfuel.
  assert (Hne' : path' <> []).
  { intros ->. destruct path; [congruence|discriminate]. }
  split.
  - rewrite (getEqualNeighbor_nbPath fuel w root rn this path s) by assumption.
    rewrite <- nbPath_tile, <- Hlen.
    replace (fst (tileOf path) + fst (tileStep s)) with (fst (tileOf path'))
      by (by rewrite Htile).
    replace (snd (tileOf path) + snd (tileStep s)) with (snd (tileOf path'))
      by (by rewrite Htile).
    rewrite pathOfTile_tileOf. by apply descent_follow.
  - rewrite (getEqualNeighbor_nbPath fuel w root rn m path' (quadTree.OPSIDE s))
      by (try assumption; lia).
    rewrite <- nbPath_tile, Hlen, Htile. cbn [fst snd].
    destruct (tileStep_OPSIDE s) as [-> ->].
    replace (fst (tileOf path) + fst (tileStep s) + - fst (tileStep s))
      with (fst (tileOf path)) by lia.
    replace (snd (tileOf path) + snd (tileStep s) + - snd (tileStep s))
      with (snd (tileOf path)) by lia.
    rewrite pathOfTile_tileOf. by apply descent_follow.
Qed.

Lemma getEqualNeighbor_round_trip_witness :
  getEqualNeighbor 3 treeWorld 8%nat quadTree.S = Some (Some 10%nat) /\
  getEqualNeighbor 3 treeWorld 10%nat quadTree.N = Some (Some 8%nat).
Proof.
  eapply (getEqualNeighbor_round_trip 3 treeWorld 0%nat 8%nat 10%nat _
            [quadTree.SE; quadTree.NW] [quadTree.NE; quadTree.SW] quadTree.S).
  - reflexivity.
  - reflexivity.
  - eapply descent_child; [eapply descent_child; [apply descent_root|..]|..];
      reflexivity.
  - eapply descent_child; [eapply descent_child; [apply descent_root|..]|..];
      reflexivity.
  - discriminate.
  - reflexivity.
  - reflexivity.
  - simpl. lia.
Defined.

(** ** getState: the effective state *)

Lemma ancestorsWalked_lineage fuel w p l :
  lineage w p l ->
  (length l <= fuel)%nat ->
  ancestorsWalked fuel w (Some p) = Some (forallb (walkedAt w) l).
Proof.
  intros Hl. revert fuel. induction Hl as [r n Hn Hp|r n p l Hn Hp Hl IH]; intros fuel Hf.
  - destruct fuel; [simpl in Hf; lia|]. simpl. rewrite Hn. simpl.
    unfold walkedAt. rewrite Hn. simpl. rewrite Hp.
    destruct (decide (state n = Some quadTree.WALKTHROUGH)) as [E|E].
    + rewrite !bool_decide_eq_true_2 by congruence. by destruct fuel.
    + rewrite !bool_decide_eq_false_2 by congruence. reflexivity.
  - destruct fuel; [simpl in Hf; lia|]. simpl in Hf. cbn [ancestorsWalked].
    rewrite Hn. simpl. unfold walkedAt at 1. rewrite Hn. simpl. rewrite Hp.
    destruct (decide (state n = Some quadTree.WALKTHROUGH)) as [E|E].
    + rewrite !bool_decide_eq_true_2 by congruence. simpl. apply IH. lia.
    + rewrite !bool_decide_eq_false_2 by congruence. reflexivity.
Qed.

(** [getState] answers the node's own state when every proper ancestor is
    in the state [WALKTHROUGH], and [NOTRENDERING] as soon as one is not;
    [l] lists the node and its ancestors up to the root. *)
Theorem getState_spec (fuel : nat) (w : World) (this : ref) (n : Node) (l : list ref) :
  getNode w this = Some n ->
  lineage w this l ->
  (length l <= fuel)%nat ->
  getState fuel w this =
  Some (if forallb (walkedAt w) (tail l) then state n
        else Some quadTree.NOTRENDERING).
Proof.
  intros Hn Hl Hf. unfold getState. rewrite Hn. simpl.
  destruct Hl as [r m Hm Hp|r m p l Hm Hp Hl].
  - assert (m = n) by congruence. subst m. rewrite Hp. by destruct fuel.
  - assert (m = n) by congruence. subst m. rewrite Hp. simpl in Hf.
    rewrite (ancestorsWalked_lineage fuel w p l Hl) by lia. reflexivity.
Qed.

Lemma getState_spec_witness :
  getState 3 treeWorld 8%nat = Some (Some quadTree.NOTRENDERING) /\
  getState 3 treeWorld 0%nat = Some None.
Proof.
  split.
  - etransitivity.
    + eapply (getState_spec 3 treeWorld 8%nat _ [8%nat; 1%nat; 0%nat]).
      * reflexivity.
      * eapply lineage_child; [reflexivity|reflexivity|].
        eapply lineage_child; [reflexivity|reflexivity|].
        eapply lineage_root; reflexivity.
      * simpl. lia.
    + reflexivity.
  - etransitivity.
    + eapply (getState_spec 3 treeWorld 0%nat _ [0%nat]).
      * reflexivity.
      * eapply lineage_root; reflexivity.
      * simpl. lia.
    + reflexivity.
Defined.

(** ** isBrother *)

(** [isBrother] compares [parentNode.id], which no node has: for any two
    nodes that both have a parent it answers [true], whether the parents
    are the same node or not. *)
Theorem isBrother_any_parents (w : World) (a b pa pb : ref) (na nb : Node) :
  getNode w a = Some na ->
  getNode w b = Some nb ->
  parentNode na = Some pa ->
  parentNode nb = Some pb ->
  present w pa ->
  present w pb ->
  isBrother w a b = Some true.
Proof.
  intros Ha Hb Hpa Hpb [pan Hpan] [pbn Hpbn].
  unfold isBrother. rewrite Ha, Hb. simpl. rewrite Hpa, Hpb. simpl.
  rewrite Hpan, Hpbn. reflexivity.
Qed.

Lemma isBrother_any_parents_witness :
  (exists na nb, getNode treeWorld 5%nat = Some na /\ getNode treeWorld 9%nat = Some nb /\
                 parentNode na = Some 1%nat /\ parentNode nb = Some 3%nat) /\
  isBrother treeWorld 5%nat 9%nat = Some true.
Proof.
  split; [eexists _, _; repeat split; reflexivity|].
  eapply (isBrother_any_parents treeWorld 5%nat 9%nat 1%nat 3%nat);
    try reflexivity; by eexists.
Defined.

(** ** destroyBranches: the tree below the node is destroyed *)

Lemma cutNode_cutNode e1 d1 e2 d2 n :
  cutNode e2 d2 (cutNode e1 d1 n) = cutNode (e1 || e2) (d1 || d2) n.
Proof.
  unfold cutNode, truncated, destroyed.
  destruct e1, d1, e2, d2; cbn [orb]; reflexivity.
Qed.

Lemma cutNode_neighbors e d v n :
  set_neighbors None (cutNode e d (set_neighbors v n)) =
  set_neighbors None (cutNode e d n).
Proof. destruct n, e, d; reflexivity. Qed.

Lemma cutNode_mod e d a b :
  set_neighbors None a = set_neighbors None b ->
  set_neighbors None (cutNode e d a) = set_neighbors None (cutNode e d b).
Proof.
  intros H. rewrite <- (cutNode_neighbors e d None a), <- (cutNode_neighbors e d None b).
  by rewrite H.
Qed.

Lemma bool_decide_app (r : ref) (l1 l2 : list ref) :
  bool_decide (r ∈ l1 ++ l2) = bool_decide (r ∈ l1) || bool_decide (r ∈ l2).
Proof.
  destruct (decide (r ∈ l1)) as [H1|H1], (decide (r ∈ l2)) as [H2|H2];
    rewrite ?(bool_decide_eq_true_2 _ H1), ?(bool_decide_eq_false_2 _ H1),
            ?(bool_decide_eq_true_2 _ H2), ?(bool_decide_eq_false_2 _ H2); simpl;
    [apply bool_decide_eq_true_2|apply bool_decide_eq_true_2|
     apply bool_decide_eq_true_2|apply bool_decide_eq_false_2];
    rewrite elem_of_app; tauto.
Qed.

Lemma Cut_refl f : Cut f f [] [].
Proof.
  split.
  - intros r. destruct (getNode (planet f) r); reflexivity.
  - intros r u _. by left.
  - intros r u Hr. by apply elem_of_nil in Hr.
  - simpl. by rewrite app_nil_r.
  - simpl. by rewrite (left_id_L ∅ (∪)).
  - repeat split; reflexivity.
Qed.

Lemma Cut_trans f f1 f2 E1 D1 E2 D2 :
  Cut f f1 E1 D1 -> Cut f1 f2 E2 D2 -> Cut f f2 (E1 ++ E2) (D1 ++ D2).
Proof.
  intros [N1 S1 G1 C1 M1 (R1 & I1 & A1 & T1)] [N2 S2 G2 C2 M2 (R2 & I2 & A2 & T2)].
  split.
  - intros r. specialize (N1 r). specialize (N2 r).
    rewrite !bool_decide_app.
    destruct (getNode (planet f) r) as [n|]; simpl in *.
    + destruct (getNode (planet f1) r) as [n1|]; [simpl in *|discriminate].
      destruct (getNode (planet f2) r) as [n2|]; [simpl in *|discriminate].
      f_equal. rewrite <- cutNode_cutNode.
      assert (E1' : set_neighbors None n1 =
                    set_neighbors None (cutNode (bool_decide (r ∈ E1))
                                                (bool_decide (r ∈ D1)) n)) by congruence.
      assert (E2' : set_neighbors None n2 =
                    set_neighbors None (cutNode (bool_decide (r ∈ E2))
                                                (bool_decide (r ∈ D2)) n1)) by congruence.
      rewrite E2'. by apply cutNode_mod.
    + destruct (getNode (planet f1) r); [discriminate|].
      destruct (getNode (planet f2) r); [discriminate|reflexivity].
  - intros r u Hr. rewrite elem_of_app in Hr.
    destruct (S2 r u) as [E|[E Hs]]; [tauto| |].
    + rewrite E. apply S1. tauto.
    + right. split; [exact E|].
      destruct (S1 r u) as [E'|[_ Hs']]; [tauto| |exact Hs']. by rewrite <- E'.
  - intros r u Hr. destruct (decide (r ∈ D2)) as [H2|H2]; [by apply G2|].
    apply elem_of_app in Hr as [Hr|Hr]; [|contradiction].
    destruct (S2 r u H2) as [E|[_ Hs]].
    + rewrite E. by apply G1.
    + rewrite (G1 r u Hr) in Hs. by destruct Hs.
  - rewrite C2, C1, map_app, app_assoc. reflexivity.
  - rewrite M2, M1, list_to_set_app_L, (assoc_L (∪)). f_equal. apply (comm_L (∪)).
  - repeat split; congruence.
Qed.

Lemma Cut_present f f' E D r :
  Cut f f' E D -> present (planet f) r <-> present (planet f') r.
Proof.
  intros [N _ _ _ _ _]. specialize (N r). unfold present.
  destruct (getNode (planet f') r), (getNode (planet f) r); simpl in N;
    try discriminate; split; intros [? ?]; eauto; discriminate.
Qed.

(** A node outside [E] and [D] reads as before, but for its neighbour
    slots. *)
Lemma Cut_outside f f' E D r :
  Cut f f' E D -> r ∉ E -> r ∉ D ->
  set_neighbors None <$> getNode (planet f') r =
  set_neighbors None <$> getNode (planet f) r.
Proof.
  intros [N _ _ _ _ _] HE HD. rewrite N.
  rewrite !bool_decide_eq_false_2 by assumption. reflexivity.
Qed.

Lemma Cut_outside_obs {X} (obs : Node -> X) f f' E D r :
  (forall v n, obs (set_neighbors v n) = obs n) ->
  Cut f f' E D -> r ∉ E -> r ∉ D ->
  obs <$> getNode (planet f') r = obs <$> getNode (planet f) r.
Proof.
  intros Hobs C HE HD. pose proof (Cut_outside f f' E D r C HE HD) as H.
  destruct (getNode (planet f') r) as [a|], (getNode (planet f) r) as [b|];
    simpl in *; try discriminate; [|reflexivity].
  assert (Eq : set_neighbors None a = set_neighbors None b) by congruence.
  f_equal. rewrite <- (Hobs None a), <- (Hobs None b). by rewrite Eq.
Qed.

Lemma Cut_shaped f f' E D t :
  Cut f f' E D ->
  (forall r, r ∈ preorder t -> (r ∉ E) /\ (r ∉ D)) ->
  shaped f t -> shaped f' t.
Proof.
  intros C. induction t as [r|r a IHa b IHb c IHc d IHd]; intros Hout Hs.
  - destruct Hs as (n & Hn & Hr).
    destruct (Hout r) as [HE HD]; [apply list_elem_of_here|].
    pose proof (Cut_outside_obs ready f f' E D r (fun _ _ => eq_refl) C HE HD) as H.
    rewrite Hn in H. destruct (getNode (planet f') r) as [n'|] eqn:Hn'; [|discriminate].
    exists n'. split; [first [exact Hn'|reflexivity]|]. simpl in H. congruence.
  - destruct Hs as ((n & Hn & Hr & Hem & Hk) & Ha & Hb & Hc & Hd).
    assert (Hsub : forall k, k ∈ [a; b; c; d] ->
                   forall x, x ∈ preorder k -> (x ∉ E) /\ (x ∉ D)).
    { intros k Hk' x Hx. apply Hout. simpl. apply list_elem_of_further.
      rewrite !elem_of_app.
      repeat (apply elem_of_cons in Hk' as [->|Hk']); [tauto..|].
      by apply elem_of_nil in Hk'. }
    assert (Hroot : forall k, rootOf k ∈ preorder k).
    { intros k. destruct k; apply list_elem_of_here. }
    destruct (Hout r) as [HE HD]; [apply list_elem_of_here|].
    simpl. split; [|repeat split].
    + pose proof (Cut_outside_obs (fun n => (ready n, nodes n)) f f' E D r
                    (fun _ _ => eq_refl) C HE HD) as H.
      rewrite Hn in H. destruct (getNode (planet f') r) as [n'|] eqn:Hn'; [|discriminate].
      exists n'. split; [first [exact Hn'|reflexivity]|]. simpl in H.
      split; [congruence|]. split; [|congruence].
      rewrite (cut_emptied _ _ _ _ C). rewrite elem_of_union, elem_of_list_to_set.
      tauto.
    + apply IHa; [|exact Ha]. apply Hsub. apply list_elem_of_here.
    + apply IHb; [|exact Hb]. apply Hsub. apply list_elem_of_further, list_elem_of_here.
    + apply IHc; [|exact Hc]. apply Hsub.
      do 2 apply list_elem_of_further. apply list_elem_of_here.
    + apply IHd; [|exact Hd]. apply Hsub.
      do 3 apply list_elem_of_further. apply list_elem_of_here.
Qed.

Lemma Cut_holds f f' E D a s b :
  Cut f f' E D -> holds (planet f') a s b -> holds (planet f) a s b.
Proof.
  intros C H. unfold holds in *.
  destruct (decide (a ∈ D)) as [Ha|Ha].
  - rewrite (cut_gone _ _ _ _ C a s Ha) in H. discriminate.
  - destruct (cut_slots _ _ _ _ C a s Ha) as [Eq|[Eq _]]; congruence.
Qed.

Lemma Cut_destroyable f f' E D r :
  Cut f f' E D -> r ∉ D -> destroyable (planet f) r -> destroyable (planet f') r.
Proof.
  intros C HD (n & Hn & Hs & Hb & Hp).
  pose proof (cut_nodes _ _ _ _ C r) as N. rewrite Hn in N.
  rewrite (bool_decide_eq_false_2 _ HD) in N.
  destruct (getNode (planet f') r) as [n'|] eqn:Hn'; [|discriminate].
  cbn [fmap option_fmap option_map] in N.
  assert (Eq : set_neighbors None n' =
               set_neighbors None (cutNode (bool_decide (r ∈ E)) false n)) by congruence.
  exists n'. split; [exact Hn'|].
  split.
  { assert (segment n' = segment n); [|congruence].
    change (segment n') with (segment (set_neighbors None n')). rewrite Eq.
    by destruct (bool_decide (r ∈ E)). }
  split.
  { destruct (cut_slots _ _ _ _ C r quadTree.N HD) as [Eq'|[Eq' _]].
    - unfold neighborAt in Eq'. rewrite Hn, Hn' in Eq'. simpl in Eq'.
      destruct Hb as [nb Hnb]. rewrite Hnb in Eq'. simpl in Eq'.
      destruct (neighbors n'); [by eexists|discriminate].
    - unfold neighborAt in Eq'. rewrite Hn' in Eq'. simpl in Eq'.
      destruct (neighbors n'); [by eexists|discriminate]. }
  intros s m Hm. apply (Cut_present f f' E D m C). apply (Hp s).
  by eapply Cut_holds.
Qed.

Lemma truncate_cut f r n :
  getNode (planet f) r = Some n ->
  ok (f1 ← onPlanet (modify r (fun n => Some (set_ready false n))) f;
      truncateNodes r f1)
     (fun f' => Cut f f' [r] []).
Proof.
  intros Hn. unfold onPlanet.
  rewrite (modify_Some r (fun n => Some (set_ready false n)) _ n _ Hn eq_refl).
  cbn [mbind option_bind]. unfold truncateNodes. cbn [planet emptied].
  rewrite getNode_setNode_eq. cbn [mbind option_bind].
  apply ok_Some. split; cbn [planet emptied].
  - intros x. rewrite !getNode_setNode.
    rewrite (bool_decide_eq_false_2 (x ∈ [])) by apply not_elem_of_nil.
    destruct (decide (r = x)) as [<-|Hx].
    + rewrite (bool_decide_eq_true_2 (r ∈ [r])) by apply list_elem_of_here.
      rewrite Hn. reflexivity.
    + rewrite (bool_decide_eq_false_2 (x ∈ [r])).
      * by destruct (getNode (planet f) x).
      * rewrite list_elem_of_singleton. congruence.
  - intros x u _. left. unfold neighborAt. rewrite !getNode_setNode.
    destruct (decide (r = x)) as [<-|Hx]; [|reflexivity]. by rewrite Hn.
  - intros x u Hx. by apply elem_of_nil in Hx.
  - simpl. by rewrite app_nil_r.
  - simpl. by rewrite (right_id_L ∅ (∪)).
  - repeat split; reflexivity.
Qed.

Lemma destroy_cut f d :
  destroyable (planet f) d ->
  ok (onPlanet (destroy d) f) (fun f' => Cut f f' [] [d]).
Proof.
  intros (n & Hn & Hs & Hb & Hp). unfold onPlanet.
  eapply ok_bind; [apply (destroy_node _ d n Hn Hs Hb Hp)|].
  intros w' (Hd & Ho & Hsl & R & C & I & A & T). apply ok_Some.
  split; cbn [planet emptied].
  - intros x. rewrite (bool_decide_eq_false_2 (x ∈ [])) by apply not_elem_of_nil.
    destruct (decide (x = d)) as [->|Hx].
    + rewrite (bool_decide_eq_true_2 (d ∈ [d])) by apply list_elem_of_here.
      rewrite Hd, Hn. by destruct n.
    + rewrite (bool_decide_eq_false_2 (x ∈ [d])).
      * rewrite (Ho x Hx). by destruct (getNode (planet f) x).
      * rewrite list_elem_of_singleton. congruence.
  - intros x u Hx. apply Hsl. rewrite list_elem_of_singleton in Hx. congruence.
  - intros x u Hx. apply list_elem_of_singleton in Hx as ->.
    unfold neighborAt. by rewrite Hd.
  - exact C.
  - simpl. by rewrite (left_id_L ∅ (∪)).
  - repeat split; assumption.
Qed.

Lemma elem_of_postorder t x : x ∈ postorder t <-> x ∈ preorder t.
Proof.
  induction t as [r|r a IHa b IHb c IHc d IHd]; [reflexivity|].
  simpl. rewrite elem_of_cons, !elem_of_app, list_elem_of_singleton.
  rewrite IHa, IHb, IHc, IHd. tauto.
Qed.

Lemma postorder_root t : postorder t = razedBelow t ++ [rootOf t].
Proof. by destruct t. Qed.

Lemma preorder_root t : exists rest, preorder t = rootOf t :: rest /\
  forall x, x ∈ razedBelow t <-> x ∈ rest.
Proof.
  destruct t as [r|r a b c d]; simpl.
  - exists []. split; [reflexivity|]. reflexivity.
  - eexists. split; [reflexivity|]. intros x.
    rewrite !elem_of_app, !elem_of_postorder. reflexivity.
Qed.

Lemma elem_of_branches t x : x ∈ branches t -> x ∈ preorder t.
Proof.
  induction t as [r|r a IHa b IHb c IHc d IHd]; simpl.
  - intros H. by apply elem_of_nil in H.
  - rewrite !elem_of_cons, !elem_of_app. intuition.
Qed.

Lemma razedBelow_preorder t x : x ∈ razedBelow t -> x ∈ preorder t.
Proof.
  destruct (preorder_root t) as (rest & -> & H). rewrite H. apply list_elem_of_further.
Qed.

Lemma root_not_below t : NoDup (preorder t) -> rootOf t ∉ razedBelow t.
Proof.
  destruct (preorder_root t) as (rest & -> & H). rewrite H.
  intros Hn. by apply NoDup_cons in Hn as [? _].
Qed.

Lemma raze_kids (ks : list Tree) fuel f0 :
  Forall razes ks ->
  Forall (fun k => shaped f0 k /\ Forall (destroyable (planet f0)) (preorder k) /\
                   (depth k < fuel)%nat) ks ->
  forall f E D,
    Cut f0 f E D ->
    NoDup (concat (map preorder ks)) ->
    (forall x, x ∈ concat (map preorder ks) -> (x ∉ E) /\ (x ∉ D)) ->
    ok (forEach (fun (c : option ref) f =>
                   c ← c; f ← destroyBranches fuel c f; onPlanet (destroy c) f)
                (map (fun k => Some (rootOf k)) ks) f)
       (fun f' => Cut f0 f' (E ++ concat (map branches ks))
                            (D ++ concat (map postorder ks))).
Proof.
  intros IH. induction IH as [|k ks IHk _ IHks]; intros Hks f E D C Hnd Hout.
  - simpl. apply ok_Some. by rewrite !app_nil_r.
  - apply Forall_cons in Hks as [(Hs & Hd & Hf) Hks].
    cbn [map concat] in *. apply NoDup_app in Hnd as (Hndk & Hdisj & Hndks).
    assert (Houtk : forall x, x ∈ preorder k -> (x ∉ E) /\ (x ∉ D)).
    { intros x Hx. apply Hout. rewrite elem_of_app. by left. }
    cbn [forEach mbind option_bind].
    eapply ok_bind.
    { eapply ok_bind.
      - apply (IHk fuel f).
        + by eapply Cut_shaped.
        + exact Hndk.
        + apply Forall_forall. intros x Hx.
          apply razedBelow_preorder in Hx.
          eapply Cut_destroyable; [exact C|by apply Houtk|].
          rewrite Forall_forall in Hd. by apply Hd.
        + exact Hf.
      - intros f1 C1. cbv beta.
        eapply ok_mono.
        + apply destroy_cut.
          eapply (Cut_destroyable f f1); [exact C1|by apply root_not_below|].
          assert (Hr : rootOf k ∈ preorder k) by (destruct k; apply list_elem_of_here).
          eapply Cut_destroyable; [exact C|by apply Houtk|].
          rewrite Forall_forall in Hd. by apply Hd.
        + intros f2 C2. exact (Cut_trans _ _ _ _ _ _ _ C1 C2). }
    intros f2 C2. cbv beta.
    rewrite app_nil_r, <- postorder_root in C2.
    pose proof (Cut_trans _ _ _ _ _ _ _ C C2) as C02.
    eapply ok_mono.
    + apply (IHks Hks f2 _ _ C02 Hndks).
      intros x Hx. rewrite !elem_of_app.
      destruct (Hout x) as [HE HD]; [rewrite elem_of_app; by right|].
      split.
      * intros [H|H]; [contradiction|]. apply elem_of_branches in H.
        by apply (Hdisj x).
      * intros [H|H]; [contradiction|]. apply elem_of_postorder in H.
        by apply (Hdisj x).
    + intros f3 C3. by rewrite <- !app_assoc in C3.
Qed.

Lemma destroyBranches_cut t : razes t.
Proof.
  induction t as [r|r a IHa b IHb c IHc d IHd]; intros fuel f Hs Hnd Hd Hf.
  - destruct fuel; [simpl in Hf; lia|]. destruct Hs as (n & Hn & Hr).
    simpl. rewrite Hn. simpl. rewrite Hr. apply ok_Some, Cut_refl.
  - destruct fuel; [simpl in Hf; lia|].
    destruct Hs as ((n & Hn & Hr & Hem & Hk) & Ha & Hb & Hc & Hd').
    cbn [destroyBranches rootOf]. rewrite Hn. cbn [mbind option_bind]. rewrite Hr.
    unfold nodesToRemove, nodesLength. rewrite decide_False by exact Hem.
    rewrite Hk. cbn [take q0 q1 q2 q3].
    destruct (truncate_cut f r n Hn) as (f1 & Hf1 & C1).
    destruct (onPlanet (modify r _) f) as [f0|] eqn:E0; [|discriminate].
    cbn [mbind option_bind] in Hf1 |- *. rewrite Hf1. cbn [mbind option_bind].
    simpl in Hnd. apply NoDup_cons in Hnd as [Hr' Hnd].
    simpl in Hd, Hf.
    assert (H1 : Forall razes [a; b; c; d]) by (repeat constructor; assumption).
    assert (H2 : Forall (fun k => shaped f k /\
                   Forall (destroyable (planet f)) (preorder k) /\
                   (depth k < fuel)%nat) [a; b; c; d]).
    { assert (Hall : forall k, k ∈ [a; b; c; d] ->
                Forall (destroyable (planet f)) (preorder k)).
      { intros k Hk'. apply Forall_forall. intros x Hx.
        rewrite Forall_forall in Hd. apply Hd.
        apply elem_of_postorder in Hx. rewrite !elem_of_app.
        repeat (apply elem_of_cons in Hk' as [->|Hk']); [tauto..|].
        by apply elem_of_nil in Hk'. }
      repeat constructor; try assumption;
        try (apply Hall; repeat constructor); lia. }
    eapply ok_mono.
    + apply (raze_kids [a; b; c; d] fuel f H1 H2 f1 [r] [] C1).
      * simpl. by rewrite app_nil_r.
      * simpl. rewrite app_nil_r. intros x Hx. split.
        -- rewrite list_elem_of_singleton. intros ->. contradiction.
        -- apply not_elem_of_nil.
    + intros f2 C2. simpl in C2. by rewrite !app_nil_r in C2.
Qed.

Lemma shaped_ready f t :
  shaped f t -> NoDup (preorder t) ->
  forall d, d ∈ preorder t ->
    exists n, getNode (planet f) d = Some n /\ ready n = bool_decide (d ∈ branches t).
Proof.
  induction t as [r|r a IHa b IHb c IHc d0 IHd]; intros Hs Hnd d Hd.
  - destruct Hs as (n & Hn & Hr). apply list_elem_of_singleton in Hd as ->.
    exists n. split; [exact Hn|]. rewrite Hr. symmetry.
    apply bool_decide_eq_false_2, not_elem_of_nil.
  - destruct Hs as ((n & Hn & Hr & Hem & Hk) & Ha & Hb & Hc & Hd').
    simpl in Hnd, Hd. apply NoDup_cons in Hnd as [Hr' Hnd].
    apply elem_of_cons in Hd as [->|Hd].
    { exists n. split; [exact Hn|]. rewrite Hr. symmetry.
      apply bool_decide_eq_true_2. simpl. apply list_elem_of_here. }
    apply NoDup_app in Hnd as (Na & Dab & Hnd).
    apply NoDup_app in Hnd as (Nb & Dbc & Hnd).
    apply NoDup_app in Hnd as (Nc & Dcd & Nd).
    assert (Hne : d <> r) by (intros ->; contradiction).
    assert (Hin : forall k, d ∈ branches k -> d ∈ preorder k)
      by (intros k; apply elem_of_branches).
    rewrite !elem_of_app in Hd.
    assert (Hbr : forall k, d ∈ preorder k ->
              (exists n, getNode (planet f) d = Some n /\
                         ready n = bool_decide (d ∈ branches k)) ->
              (forall k', k' ∈ [a; b; c; d0] -> d ∈ branches k' -> d ∈ branches k) ->
              k ∈ [a; b; c; d0] ->
              exists n, getNode (planet f) d = Some n /\
                ready n = bool_decide (d ∈ branches (Branch r a b c d0))).
    { intros k Hdk (m & Hm & Hrm) Honly Hkin. exists m. split; [exact Hm|].
      rewrite Hrm. apply bool_decide_ext. simpl.
      rewrite elem_of_cons, !elem_of_app. split.
      - intros H. right.
        repeat (apply elem_of_cons in Hkin as [->|Hkin]); [tauto..|].
        by apply elem_of_nil in Hkin.
      - intros [H|H]; [contradiction|].
        destruct H as [H|[H|[H|H]]]; (eapply Honly; [|exact H]);
          repeat constructor. }
    destruct Hd as [Hd|[Hd|[Hd|Hd]]].
    + apply (Hbr a Hd (IHa Ha Na d Hd)); [|repeat constructor].
      intros k' Hk' Hb'.
      repeat (apply elem_of_cons in Hk' as [->|Hk']); try assumption.
      * exfalso. apply (Dab d Hd). rewrite !elem_of_app. left. by apply Hin.
      * exfalso. apply (Dab d Hd). rewrite !elem_of_app. right. left. by apply Hin.
      * exfalso. apply (Dab d Hd). rewrite !elem_of_app. right. right. by apply Hin.
      * by apply elem_of_nil in Hk'.
    + apply (Hbr b Hd (IHb Hb Nb d Hd)); [|repeat constructor].
      intros k' Hk' Hb'.
      repeat (apply elem_of_cons in Hk' as [->|Hk']); try assumption.
      * exfalso. apply (Dab d (Hin _ Hb')). rewrite !elem_of_app. by left.
      * exfalso. apply (Dbc d Hd). rewrite !elem_of_app. left. by apply Hin.
      * exfalso. apply (Dbc d Hd). rewrite !elem_of_app. right. by apply Hin.
      * by apply elem_of_nil in Hk'.
    + apply (Hbr c Hd (IHc Hc Nc d Hd)); [|repeat constructor].
      intros k' Hk' Hb'.
      repeat (apply elem_of_cons in Hk' as [->|Hk']); try assumption.
      * exfalso. apply (Dab d (Hin _ Hb')). rewrite !elem_of_app. right. by left.
      * exfalso. apply (Dbc d (Hin _ Hb')). rewrite !elem_of_app. by left.
      * exfalso. apply (Dcd d Hd). by apply Hin.
      * by apply elem_of_nil in Hk'.
    + apply (Hbr d0 Hd (IHd Hd' Nd d Hd)); [|repeat constructor].
      intros k' Hk' Hb'.
      repeat (apply elem_of_cons in Hk' as [->|Hk']); try assumption.
      * exfalso. apply (Dab d (Hin _ Hb')). rewrite !elem_of_app. right. by right.
      * exfalso. apply (Dbc d (Hin _ Hb')). rewrite !elem_of_app. by right.
      * exfalso. by apply (Dcd d (Hin _ Hb')).
      * by apply elem_of_nil in Hk'.
Qed.

Lemma cutNode_destroyed e n' n :
  set_neighbors None n' = set_neighbors None (cutNode e true n) ->
  state n' = Some quadTree.NOTRENDERING /\ segment n' = None /\
  parentNode n' = None /\ sideSize n' = None /\
  (e = true \/ ready n = false -> ready n' = false).
Proof.
  intros H.
  assert (Hs : forall X (obs : Node -> X),
            (forall v m, obs (set_neighbors v m) = obs m) ->
            obs n' = obs (cutNode e true n)).
  { intros X obs Hobs. rewrite <- (Hobs None n'), H. apply Hobs. }
  rewrite (Hs _ state), (Hs _ segment), (Hs _ parentNode), (Hs _ sideSize),
          (Hs _ ready) by reflexivity.
  destruct e; simpl; repeat split; try reflexivity.
  intros [?|?]; [discriminate|assumption].
Qed.

(** [destroyBranches] on the tree [t] under a node: every node below the
    root is destroyed, once, children before their parent and the
    subtrees in the order of the slots; the root is left alive, no longer
    [ready], its children array emptied; outside the tree only neighbour
    slots change, and they are only emptied. *)
Theorem destroyBranches_razes (fuel : nat) (f : Forest) (t : Tree) :
  shaped f t ->
  NoDup (preorder t) ->
  Forall (destroyable (planet f)) (razedBelow t) ->
  (depth t < fuel)%nat ->
  ok (destroyBranches fuel (rootOf t) f) (fun f' =>
    (exists n n',
       getNode (planet f) (rootOf t) = Some n /\
       getNode (planet f') (rootOf t) = Some n' /\
       ready n' = false /\ segment n' = segment n /\ state n' = state n /\
       parentNode n' = parentNode n /\
       (ready n = true ->
        nodes n' = quad_all None /\ nodesLength f' (rootOf t) = 0%nat)) /\
    (forall d, d ∈ razedBelow t ->
       exists n', getNode (planet f') d = Some n' /\
         state n' = Some quadTree.NOTRENDERING /\ segment n' = None /\
         neighbors n' = None /\ parentNode n' = None /\ sideSize n' = None /\
         ready n' = false) /\
    calls (planet f') = calls (planet f) ++ map destroySegment (razedBelow t) /\
    (forall r, r ∉ preorder t ->
       set_neighbors None <$> getNode (planet f') r =
       set_neighbors None <$> getNode (planet f) r) /\
    (forall a s b, holds (planet f') a s b -> holds (planet f) a s b) /\
    _renderedNodes (planet f') = _renderedNodes (planet f)).
Proof.
  intros Hs Hnd Hd Hf.
  eapply ok_mono; [by apply destroyBranches_cut|].
  intros f' C.
  assert (Hroot : rootOf t ∈ preorder t) by (destruct t; apply list_elem_of_here).
  split.
  { destruct (shaped_ready f t Hs Hnd _ Hroot) as (n & Hn & Hr).
    pose proof (cut_nodes _ _ _ _ C (rootOf t)) as N. rewrite Hn in N.
    rewrite (bool_decide_eq_false_2 (rootOf t ∈ razedBelow t)) in N
      by (by apply root_not_below).
    rewrite <- Hr in N.
    destruct (getNode (planet f') (rootOf t)) as [n'|] eqn:Hn'; [|discriminate].
    cbn [fmap option_fmap option_map] in N.
    assert (Eq : set_neighbors None n' = set_neighbors None (cutNode (ready n) false n))
      by congruence.
    assert (Ho : forall X (obs : Node -> X),
              (forall v m, obs (set_neighbors v m) = obs m) ->
              obs n' = obs (cutNode (ready n) false n)).
    { intros X obs Hobs. rewrite <- (Hobs None n'), Eq. apply Hobs. }
    exists n, n'. split; [exact Hn|]. split; [reflexivity|].
    rewrite (Ho _ ready), (Ho _ segment), (Ho _ state), (Ho _ parentNode),
            (Ho _ nodes) by reflexivity.
    destruct (ready n) eqn:Er; simpl; repeat split; try reflexivity; try congruence.
    unfold nodesLength. rewrite decide_True; [reflexivity|].
    rewrite (cut_emptied _ _ _ _ C), elem_of_union, elem_of_list_to_set. left.
    symmetry in Hr. by apply bool_decide_eq_true_1 in Hr. }
  split.
  { intros d Hdin.
    destruct (shaped_ready f t Hs Hnd d (razedBelow_preorder _ _ Hdin)) as (n & Hn & Hr).
    pose proof (cut_nodes _ _ _ _ C d) as N. rewrite Hn in N.
    rewrite (bool_decide_eq_true_2 (d ∈ razedBelow t)) in N by assumption.
    destruct (getNode (planet f') d) as [n'|] eqn:Hn'; [|discriminate].
    cbn [fmap option_fmap option_map] in N.
    assert (Eq : set_neighbors None n' =
                 set_neighbors None (cutNode (bool_decide (d ∈ branches t)) true n))
      by congruence.
    destruct (cutNode_destroyed _ _ _ Eq) as (H1 & H2 & H3 & H4 & H5).
    exists n'. split; [reflexivity|]. repeat (split; [assumption|]).
    split.
    - pose proof (cut_gone _ _ _ _ C d quadTree.N Hdin) as G.
      unfold neighborAt in G. rewrite Hn' in G. simpl in G.
      by destruct (neighbors n').
    - repeat (split; [assumption|]). apply H5. rewrite Hr.
      destruct (bool_decide (d ∈ branches t)); auto. }
  split; [apply (cut_calls _ _ _ _ C)|].
  split.
  { intros r Hr. apply (Cut_outside f f' _ _ r C).
    - intros H. by apply elem_of_branches in H.
    - intros H. by apply razedBelow_preorder in H. }
  split; [intros a s b; by apply (Cut_holds f f' _ _ a s b C)|].
  apply (cut_planet _ _ _ _ C).
Qed.

Lemma treeForest_destroyable (d : ref) :
  d ∈ preorder treeOfTreeWorld -> destroyable treeWorld d.
Proof.
  intros Hd. simpl in Hd.
  repeat (apply elem_of_cons in Hd as [->|Hd]);
    try (eexists; split; [reflexivity|]; split; [by eexists|]; split; [by eexists|];
         intros s m H; destruct s; discriminate).
  by apply elem_of_nil in Hd.
Qed.

Lemma treeForest_shaped : shaped treeForest treeOfTreeWorld.
Proof.
  simpl.
  repeat first
    [ split
    | apply Forall_cons
    | apply Forall_nil
    | (eexists; split; [reflexivity|]; repeat split; try reflexivity;
       apply not_elem_of_empty)
    | (eexists; split; reflexivity) ].
Qed.

Lemma destroyBranches_razes_witness :
  ok (destroyBranches 3 0%nat treeForest) (fun f' =>
    calls (planet f') =
      map destroySegment
        [5; 6; 7; 8; 1; 2; 9; 10; 11; 12; 3; 4]%nat /\
    exists n', getNode (planet f') 0%nat = Some n' /\ ready n' = false).
Proof.
  eapply ok_mono.
  - apply (destroyBranches_razes 3 treeForest treeOfTreeWorld).
    + apply treeForest_shaped.
    + apply (bool_decide_unpack _). vm_compute. exact I.
    + apply Forall_forall. intros d Hd. apply treeForest_destroyable.
      by apply razedBelow_preorder.
    + simpl. lia.
  - intros f' ((n & n' & _ & Hn' & Hr & _) & _ & Hc & _).
    split; [exact Hc|]. exists n'. split; assumption.
Defined.

(** ** traverseTree: the order of the visits *)

Lemma forEach_app {A S} (body : A -> S -> option S) l1 l2 s :
  forEach body (l1 ++ l2) s = forEach body l1 s ≫= forEach body l2.
Proof.
  revert s. induction l1 as [|a l1 IH]; intros s; [reflexivity|].
  simpl. destruct (body a s) as [s'|]; [simpl; apply IH|reflexivity].
Qed.

Lemma shaped_kept f f' t :
  emptied f' = emptied f ->
  kept (fun n => (ready n, nodes n)) (planet f) (planet f') ->
  shaped f t -> shaped f' t.
Proof.
  intros He Hk. induction t as [r|r a IHa b IHb c IHc d IHd]; simpl.
  - intros (n & Hn & Hr). specialize (Hk r). rewrite Hn in Hk.
    destruct (getNode (planet f') r) as [n'|]; [|discriminate].
    exists n'. split; [reflexivity|]. simpl in Hk. congruence.
  - intros ((n & Hn & Hr & Hem & Hq) & Ha & Hb & Hc & Hd).
    split; [|by auto].
    specialize (Hk r). rewrite Hn in Hk.
    destruct (getNode (planet f') r) as [n'|]; [|discriminate].
    exists n'. split; [reflexivity|]. simpl in Hk.
    split; [congruence|]. split; [by rewrite He|congruence].
Qed.

Lemma forEach_keepsTree callback l :
  keepsTree callback ->
  forall f f', forEach callback l f = Some f' ->
    emptied f' = emptied f /\
    kept (fun n => (ready n, nodes n)) (planet f) (planet f').
Proof.
  intros Hk. induction l as [|a l IH]; intros f f' H.
  - injection H as <-. split; [reflexivity|by intros r].
  - simpl in H. destruct (callback a f) as [f1|] eqn:E; [simpl in H|discriminate].
    destruct (Hk _ _ _ E) as [E1 K1]. destruct (IH _ _ H) as [E2 K2].
    split; [congruence|]. by eapply kept_trans.
Qed.

Lemma forNodes_step turns i body r f n p c :
  r ∉ emptied f ->
  getNode (planet f) r = Some n ->
  part_at i = Some p ->
  part_get (nodes n) p = Some c ->
  forNodes (Datatypes.S turns) i body r f =
  body c f ≫= forNodes turns (Datatypes.S i) body r.
Proof.
  intros He Hn Hp Hc. cbn [forNodes]. unfold nodesLength.
  rewrite (decide_False (P := r ∈ emptied f)) by exact He.
  assert (Hi : (i < 4)%nat).
  { destruct i as [|[|[|[|i]]]]; try lia. discriminate. }
  rewrite decide_True by exact Hi.
  unfold nodeAt. rewrite Hn. cbn [mbind option_bind]. rewrite Hp.
  cbn [mbind option_bind]. rewrite Hc. reflexivity.
Qed.

(** [traverseTree] calls the callback on the nodes of the tree in
    pre-order: on a node, then on everything under its NW child, then NE,
    SW and SE; it goes below [ready] nodes only.  This holds for every
    callback that leaves the children arrays and the [ready] flags alone;
    if the callback throws, the traversal stops there. *)
Theorem traverseTree_preorder (fuel : nat)
    (callback : ref -> Forest -> option Forest) (t : Tree) (f : Forest) :
  keepsTree callback ->
  shaped f t ->
  (depth t < fuel)%nat ->
  traverseTree fuel callback (rootOf t) f = forEach callback (preorder t) f.
Proof.
  intros Hk. revert fuel f.
  induction t as [r|r a IHa b IHb c IHc d IHd]; intros fuel f Hs Hf.
  - destruct fuel; [simpl in Hf; lia|]. simpl.
    destruct (callback r f) as [f1|] eqn:E; [simpl|reflexivity].
    destruct (Hk _ _ _ E) as [E1 K1].
    destruct (shaped_kept f f1 (Leaf r) E1 K1 Hs) as (n & Hn & Hr).
    rewrite Hn. simpl. by rewrite Hr.
  - destruct fuel; [simpl in Hf; lia|]. simpl in Hf.
    cbn [traverseTree rootOf preorder forEach].
    destruct (callback r f) as [f1|] eqn:E; [|reflexivity].
    cbn [mbind option_bind].
    destruct (Hk _ _ _ E) as [E1 K1].
    pose proof (shaped_kept f f1 _ E1 K1 Hs) as Hs1.
    assert (Hstep : forall f', shaped f' (Branch r a b c d) ->
      forall turns i p k rest,
        part_at i = Some p ->
        part_get (mkQuad (Some (rootOf a)) (Some (rootOf b)) (Some (rootOf c))
                         (Some (rootOf d))) p = Some (rootOf k) ->
        (forall f'', shaped f'' k ->
           traverseTree fuel callback (rootOf k) f'' = forEach callback (preorder k) f'') ->
        (forall f'', shaped f'' (Branch r a b c d) ->
           forNodes turns (Datatypes.S i) (traverseTree fuel callback) r f'' =
           forEach callback rest f'') ->
        shaped f' k ->
        forNodes (Datatypes.S turns) i (traverseTree fuel callback) r f' =
        forEach callback (preorder k ++ rest) f').
    { intros f' Hs' turns i p k rest Hp Hq IHk Hrest Hsk.
      destruct Hs' as ((n & Hn & Hr & Hem & Hq') & Hkids).
      rewrite (forNodes_step turns i _ r f' n p (rootOf k) Hem Hn Hp)
        by (by rewrite Hq').
      rewrite forEach_app, (IHk f' Hsk).
      destruct (forEach callback (preorder k) f') as [f''|] eqn:E'; [|reflexivity].
      cbn [mbind option_bind]. apply Hrest.
      destruct (forEach_keepsTree callback _ Hk _ _ E') as [E2 K2].
      apply (shaped_kept f' f'' _ E2 K2).
      simpl. split; [by exists n|exact Hkids]. }
    pose proof Hs1 as ((n & Hn & Hr & Hem & Hq) & Ha & Hb & Hc & Hd).
    rewrite Hn. cbn [mbind option_bind]. rewrite Hr.
    apply (Hstep f1 Hs1 3%nat 0%nat quadTree.NW a); try reflexivity; try assumption.
    { intros f'' Hs''. apply IHa; [exact Hs''|lia]. }
    intros f2 Hs2. pose proof Hs2 as (_ & _ & Hb2 & Hc2 & Hd2).
    apply (Hstep f2 Hs2 2%nat 1%nat quadTree.NE b); try reflexivity; try assumption.
    { intros f'' Hs''. apply IHb; [exact Hs''|lia]. }
    intros f3 Hs3. pose proof Hs3 as (_ & _ & _ & Hc3 & Hd3).
    apply (Hstep f3 Hs3 1%nat 2%nat quadTree.SW c); try reflexivity; try assumption.
    { intros f'' Hs''. apply IHc; [exact Hs''|lia]. }
    intros f4 Hs4. pose proof Hs4 as (_ & _ & _ & _ & Hd4).
    rewrite <- (app_nil_r (preorder d)).
    apply (Hstep f4 Hs4 0%nat 3%nat quadTree.SE d); try reflexivity; try assumption.
    intros f'' Hs''. apply IHd; [exact Hs''|lia].
Qed.

Lemma noteVisit_keepsTree : keepsTree noteVisit.
Proof.
  intros r f f' H. unfold noteVisit, onPlanet in H. simpl in H.
  injection H as <-. split; [reflexivity|by intros x].
Qed.

Lemma traverseTree_preorder_witness :
  traverseTree 3 noteVisit 0%nat treeForest =
  forEach noteVisit [0; 1; 5; 6; 7; 8; 2; 3; 9; 10; 11; 12; 4]%nat treeForest.
Proof.
  apply (traverseTree_preorder 3 noteVisit treeOfTreeWorld treeForest).
  - apply noteVisit_keepsTree.
  - apply treeForest_shaped.
  - simpl. lia.
Defined.

(** ** clearTree: the walked-through part of the tree is kept *)

Lemma Cut_alive_obs {X} (obs : Node -> X) f f' E D r :
  (forall v n, obs (set_neighbors v n) = obs n) ->
  (forall n, obs (truncated n) = obs n) ->
  Cut f f' E D -> r ∉ D ->
  obs <$> getNode (planet f') r = obs <$> getNode (planet f) r.
Proof.
  intros H1 H2 C HD. pose proof (cut_nodes _ _ _ _ C r) as N.
  rewrite (bool_decide_eq_false_2 _ HD) in N.
  destruct (getNode (planet f') r) as [a|], (getNode (planet f) r) as [b|];
    cbn [fmap option_fmap option_map] in *; try discriminate; [|reflexivity].
  assert (Eq : set_neighbors None a =
               set_neighbors None (cutNode (bool_decide (r ∈ E)) false b)) by congruence.
  f_equal. rewrite <- (H1 None a), Eq, H1.
  unfold cutNode. destruct (bool_decide (r ∈ E)); [apply H2|reflexivity].
Qed.

Lemma Cut_walkedAt f f' E D r :
  Cut f f' E D -> r ∉ D -> walkedAt (planet f') r = walkedAt (planet f) r.
Proof.
  intros C HD. unfold walkedAt.
  by rewrite (Cut_alive_obs state f f' E D r (fun _ _ => eq_refl) (fun _ => eq_refl) C HD).
Qed.

Lemma Cut_parented f f' E D p t :
  Cut f f' E D ->
  (forall x, x ∈ preorder t -> x ∉ D) ->
  parented f p t -> parented f' p t.
Proof.
  intros C. revert p. induction t as [r|r a IHa b IHb c IHc d IHd]; intros p Hout.
  - intros [(n & Hn & Hp) _]. split; [|exact I]. simpl in *.
    pose proof (Cut_alive_obs parentNode f f' E D r (fun _ _ => eq_refl)
                  (fun _ => eq_refl) C (Hout r (list_elem_of_here _ _))) as H.
    rewrite Hn in H. destruct (getNode (planet f') r) as [n'|]; [|discriminate].
    exists n'. split; [reflexivity|]. simpl in H. congruence.
  - intros [(n & Hn & Hp) (Ha & Hb & Hc & Hd)]. simpl in *.
    assert (Hsub : forall x, x ∈ preorder a ++ preorder b ++ preorder c ++ preorder d ->
                             x ∉ D).
    { intros x Hx. apply Hout. by apply list_elem_of_further. }
    split.
    + pose proof (Cut_alive_obs parentNode f f' E D r (fun _ _ => eq_refl)
                    (fun _ => eq_refl) C (Hout r (list_elem_of_here _ _))) as H.
      rewrite Hn in H. destruct (getNode (planet f') r) as [n'|]; [|discriminate].
      exists n'. split; [reflexivity|]. simpl in H. congruence.
    + repeat split.
      * apply IHa; [|exact Ha]. intros x Hx. apply Hsub. rewrite !elem_of_app. tauto.
      * apply IHb; [|exact Hb]. intros x Hx. apply Hsub. rewrite !elem_of_app. tauto.
      * apply IHc; [|exact Hc]. intros x Hx. apply Hsub. rewrite !elem_of_app. tauto.
      * apply IHd; [|exact Hd]. intros x Hx. apply Hsub. rewrite !elem_of_app. tauto.
Qed.

Lemma Cut_walkedChain f f' E D p anc :
  Cut f f' E D ->
  (forall x, x ∈ anc -> x ∉ D) ->
  walkedChain (planet f) p anc -> walkedChain (planet f') p anc.
Proof.
  intros C Hout H. induction H as [|a n rest Hn Hs Hc IH]; [constructor|].
  pose proof (Cut_alive_obs (fun n => (state n, parentNode n)) f f' E D a
                (fun _ _ => eq_refl) (fun _ => eq_refl) C
                (Hout a (list_elem_of_here _ _))) as H.
  rewrite Hn in H. destruct (getNode (planet f') a) as [n'|] eqn:Hn'; [|discriminate].
  simpl in H. injection H as H1 H2.
  eapply chain_up; [exact Hn'|congruence|].
  rewrite H2. apply IH. intros x Hx. apply Hout. by apply list_elem_of_further.
Qed.

Lemma walkedChain_ancestorsWalked w p anc fuel :
  walkedChain w p anc -> (length anc <= fuel)%nat ->
  ancestorsWalked fuel w p = Some true.
Proof.
  intros H. revert fuel. induction H as [|a n rest Hn Hs Hc IH]; intros fuel Hf.
  - by destruct fuel.
  - destruct fuel; [simpl in Hf; lia|]. simpl. rewrite Hn. simpl.
    rewrite bool_decide_eq_true_2 by exact Hs. apply IH. simpl in Hf. lia.
Qed.

Lemma elem_of_leaves t x : x ∈ leaves t -> x ∈ preorder t.
Proof.
  induction t as [r|r a IHa b IHb c IHc d IHd]; simpl; [auto|].
  rewrite elem_of_cons, !elem_of_app. intuition.
Qed.

Lemma cutAt_branches w t x : x ∈ cutAt w t -> x ∈ branches t.
Proof.
  induction t as [r|r a IHa b IHb c IHc d IHd]; simpl; [auto|].
  destruct (walkedAt w r); [|auto].
  rewrite elem_of_cons, !elem_of_app. intuition.
Qed.

Lemma cutBelow_razedBelow w t x : x ∈ cutBelow w t -> x ∈ razedBelow t.
Proof.
  induction t as [r|r a IHa b IHb c IHc d IHd]; simpl; [auto|].
  destruct (walkedAt w r); [|auto].
  rewrite !elem_of_app, !postorder_root, !elem_of_app. intuition.
Qed.

Lemma cutAt_ext w w' t :
  (forall x, x ∈ preorder t -> walkedAt w' x = walkedAt w x) ->
  cutAt w' t = cutAt w t /\ cutBelow w' t = cutBelow w t.
Proof.
  induction t as [r|r a IHa b IHb c IHc d IHd]; intros H; [by split|].
  simpl. rewrite (H r) by apply list_elem_of_here.
  destruct (walkedAt w r); [|by split].
  assert (Hsub : forall k, k ∈ [a; b; c; d] ->
            forall x, x ∈ preorder k -> walkedAt w' x = walkedAt w x).
  { intros k Hk x Hx. apply H. simpl. apply list_elem_of_further.
    rewrite !elem_of_app.
    repeat (apply elem_of_cons in Hk as [->|Hk]); [tauto..|].
    by apply elem_of_nil in Hk. }
  destruct IHa as [-> ->]; [apply Hsub; repeat constructor|].
  destruct IHb as [-> ->]; [apply Hsub; repeat constructor|].
  destruct IHc as [-> ->]; [apply Hsub; repeat constructor|].
  destruct IHd as [-> ->]; [apply Hsub; repeat constructor|].
  by split.
Qed.

Lemma clearable_Cut f f' E D p t :
  Cut f f' E D ->
  (forall x, x ∈ preorder t -> (x ∉ E) /\ (x ∉ D)) ->
  clearable f p t -> clearable f' p t.
Proof.
  intros C Hout (Hs & Hp & Hd & Hst & Hl).
  split; [by eapply Cut_shaped|].
  split; [eapply Cut_parented; [exact C| |exact Hp]; intros x Hx; by apply Hout|].
  split.
  { apply Forall_forall. intros x Hx. rewrite Forall_forall in Hd.
    eapply Cut_destroyable; [exact C| |by apply Hd].
    apply Hout. by apply razedBelow_preorder. }
  split.
  { intros x Hx. destruct (Hst x Hx) as (n & st & Hn & Hsn).
    pose proof (Cut_alive_obs state f f' E D x (fun _ _ => eq_refl)
                  (fun _ => eq_refl) C (proj2 (Hout x Hx))) as H.
    rewrite Hn in H. destruct (getNode (planet f') x) as [n'|]; [|discriminate].
    exists n', st. split; [reflexivity|]. simpl in H. congruence. }
  intros x Hx Hw. rewrite (cut_emptied _ _ _ _ C), elem_of_union. right.
  apply Hl; [exact Hx|]. rewrite <- Hw. symmetry.
  apply (Cut_walkedAt f f' E D x C). apply Hout. by apply elem_of_leaves.
Qed.

Lemma cutAt_stop w t :
  walkedAt w (rootOf t) = false ->
  cutAt w t = branches t /\ cutBelow w t = razedBelow t.
Proof. destruct t; simpl; [by split|]. by intros ->. Qed.

Lemma clear_kid k fuel f f1 E D p anc :
  clears k ->
  Cut f f1 E D ->
  (forall x, x ∈ preorder k -> (x ∉ E) /\ (x ∉ D)) ->
  (forall x, x ∈ anc -> x ∉ D) ->
  clearable f p k -> NoDup (preorder k) ->
  walkedChain (planet f) p anc ->
  (forall x, x ∈ anc -> x ∉ preorder k) ->
  (2 * depth k + length anc + 1 < fuel)%nat ->
  ok (clearTree fuel (rootOf k) f1)
     (fun f' => Cut f f' (E ++ cutAt (planet f) k) (D ++ cutBelow (planet f) k)).
Proof.
  intros IH C Hout Hanc Hc Hnd Hch Hdisj Hf.
  eapply ok_mono.
  - apply (IH fuel f1 p anc); [| exact Hnd | | exact Hdisj | exact Hf].
    + by eapply clearable_Cut.
    + by eapply Cut_walkedChain.
  - intros f2 C2.
    destruct (cutAt_ext (planet f) (planet f1) k) as [E1 E2].
    { intros x Hx. apply (Cut_walkedAt f f1 E D x C). by apply Hout. }
    rewrite E1, E2 in C2. by eapply Cut_trans.
Qed.

Lemma clearable_kid f p r a b c d k :
  clearable f p (Branch r a b c d) -> k ∈ [a; b; c; d] ->
  clearable f (Some r) k.
Proof.
  intros (Hs & Hp & Hd & Hst & Hl) Hk.
  destruct Hs as (_ & Sa & Sb & Sc & Sd). destruct Hp as (_ & Pa & Pb & Pc & Pd).
  assert (Hsub : forall x, x ∈ preorder k ->
            x ∈ preorder a ++ preorder b ++ preorder c ++ preorder d).
  { intros x Hx. rewrite !elem_of_app.
    repeat (apply elem_of_cons in Hk as [->|Hk]); [tauto..|].
    by apply elem_of_nil in Hk. }
  assert (Hlv : forall x, x ∈ leaves k -> x ∈ leaves (Branch r a b c d)).
  { intros x Hx. simpl. rewrite !elem_of_app.
    repeat (apply elem_of_cons in Hk as [->|Hk]); [tauto..|].
    by apply elem_of_nil in Hk. }
  split; [|split; [|split; [|split]]].
  - repeat (apply elem_of_cons in Hk as [->|Hk]); try assumption.
    by apply elem_of_nil in Hk.
  - repeat (apply elem_of_cons in Hk as [->|Hk]); try assumption.
    by apply elem_of_nil in Hk.
  - apply Forall_forall. intros x Hx. rewrite Forall_forall in Hd. apply Hd.
    simpl. apply razedBelow_preorder, Hsub in Hx.
    rewrite !elem_of_app in *. rewrite !elem_of_postorder. exact Hx.
  - intros x Hx. apply Hst. simpl. apply list_elem_of_further. by apply Hsub.
  - intros x Hx. apply Hl. by apply Hlv.
Qed.

Lemma clearTree_unfold fuel f p anc r n st :
  getNode (planet f) r = Some n -> parentNode n = p -> state n = Some st ->
  walkedChain (planet f) p anc -> (length anc <= fuel)%nat ->
  clearTree (Datatypes.S fuel) r f =
  match st with
  | quadTree.WALKTHROUGH => forNodes 4 0 (clearTree fuel) r f
  | _ => destroyBranches fuel r f
  end.
Proof.
  intros Hn Hp Hs Hc Hf. cbn [clearTree]. unfold getState. rewrite Hn.
  cbn [mbind option_bind]. rewrite Hp, (walkedChain_ancestorsWalked _ _ _ _ Hc Hf).
  cbn [mbind option_bind]. rewrite Hs. by destruct st.
Qed.

Lemma walkedAt_state w r n st :
  getNode w r = Some n -> state n = Some st ->
  walkedAt w r = bool_decide (st = quadTree.WALKTHROUGH).
Proof.
  intros Hn Hs. unfold walkedAt. rewrite Hn. simpl. rewrite Hs. by destruct st.
Qed.

Lemma kid_preorder (r : ref) a b c d k x :
  k ∈ [a; b; c; d] -> x ∈ preorder k ->
  x ∈ preorder a ++ preorder b ++ preorder c ++ preorder d.
Proof.
  intros Hk Hx. rewrite !elem_of_app.
  repeat (apply elem_of_cons in Hk as [->|Hk]); [tauto..|].
  by apply elem_of_nil in Hk.
Qed.

Lemma cut_in_preorder w k x :
  x ∈ cutAt w k \/ x ∈ cutBelow w k -> x ∈ preorder k.
Proof.
  intros [H|H].
  - by apply elem_of_branches, (cutAt_branches w).
  - by apply razedBelow_preorder, (cutBelow_razedBelow w).
Qed.

Lemma depth_kid r a b c d k :
  k ∈ [a; b; c; d] -> (depth k < depth (Branch r a b c d))%nat.
Proof.
  intros Hk. simpl.
  repeat (apply elem_of_cons in Hk as [->|Hk]); [lia..|].
  by apply elem_of_nil in Hk.
Qed.

Lemma clearTree_cut t : clears t.
Proof.
  induction t as [r|r a IHa b IHb c IHc d IHd];
    intros fuel f p anc Hc Hnd Hch Hdisj Hf.
  - destruct fuel as [|fuel]; [lia|].
    destruct Hc as (Hs & Hp & Hd & Hst & Hl).
    destruct Hs as (n & Hn & Hr). destruct Hp as [(n' & Hn' & Hpar) _].
    simpl in Hn'. rewrite Hn in Hn'. injection Hn' as <-.
    destruct (Hst r) as (n' & st & Hn' & Hst'); [apply list_elem_of_here|].
    rewrite Hn in Hn'. injection Hn' as <-.
    cbn [rootOf].
    rewrite (clearTree_unfold fuel f p anc r n st Hn Hpar Hst' Hch)
      by (simpl in Hf; lia).
    assert (Hdb : ok (destroyBranches fuel r f) (fun f' => Cut f f' [] [])).
    { destruct fuel; [simpl in Hf; lia|]. simpl. rewrite Hn. simpl. rewrite Hr.
      apply ok_Some, Cut_refl. }
    destruct st; try exact Hdb.
    assert (He : r ∈ emptied f).
    { apply Hl; [apply list_elem_of_here|].
      by rewrite (walkedAt_state _ _ _ _ Hn Hst'). }
    cbn [forNodes]. unfold nodesLength.
    rewrite (decide_True (P := r ∈ emptied f)) by exact He.
    rewrite decide_False by lia. apply ok_Some, Cut_refl.
  - destruct fuel as [|fuel]; [lia|].
    pose proof Hc as (Hs & Hp & Hd & Hst & Hl).
    destruct Hs as ((n & Hn & Hr & Hem & Hk) & Sa & Sb & Sc & Sd).
    destruct Hp as [(n' & Hn' & Hpar) _].
    simpl in Hn'. rewrite Hn in Hn'. injection Hn' as <-.
    destruct (Hst r) as (n' & st & Hn' & Hst'); [apply list_elem_of_here|].
    rewrite Hn in Hn'. injection Hn' as <-.
    cbn [rootOf].
    assert (Hdep : (2 * depth (Branch r a b c d) + length anc < fuel)%nat) by lia.
    rewrite (clearTree_unfold fuel f p anc r n st Hn Hpar Hst' Hch) by lia.
    pose proof (walkedAt_state _ _ _ _ Hn Hst') as Hw.
    assert (Hdb : walkedAt (planet f) r = false ->
                  ok (destroyBranches fuel r f)
                     (fun f' => Cut f f' (cutAt (planet f) (Branch r a b c d))
                                  (cutBelow (planet f) (Branch r a b c d)))).
    { intros Hw'. destruct (cutAt_stop (planet f) (Branch r a b c d) Hw') as [-> ->].
      apply (destroyBranches_cut (Branch r a b c d) fuel f);
        [by destruct Hc | exact Hnd | exact Hd | lia]. }
    destruct st; [by apply Hdb..|].
    cbn [cutAt cutBelow]. rewrite Hw. cbn [bool_decide decide_rel].
    rewrite bool_decide_eq_true_2 by reflexivity.
    assert (Hch' : walkedChain (planet f) (Some r) (r :: anc)).
    { eapply chain_up; [exact Hn | exact Hst' | by rewrite Hpar]. }
    cbn [preorder] in Hnd, Hdisj.
    apply NoDup_cons in Hnd as [Hr_out Hnd].
    assert (Hgen : forall x,
              x ∈ preorder a ++ preorder b ++ preorder c ++ preorder d ->
              x <> r /\ x ∉ anc).
    { intros x Hx. split; [by intros ->|].
      intros Ha. apply (Hdisj x Ha). by apply list_elem_of_further. }
    assert (Hstep : forall k turns i part f1 E D (Q : Forest -> Prop),
      clears k -> k ∈ [a; b; c; d] -> NoDup (preorder k) ->
      part_at i = Some part -> part_get (nodes n) part = Some (rootOf k) ->
      Cut f f1 E D ->
      (forall x, x ∈ E \/ x ∈ D -> x <> r /\ (x ∉ anc) /\ (x ∉ preorder k)) ->
      (forall f2, Cut f f2 (E ++ cutAt (planet f) k) (D ++ cutBelow (planet f) k) ->
                  ok (forNodes turns (Datatypes.S i) (clearTree fuel) r f2) Q) ->
      ok (forNodes (Datatypes.S turns) i (clearTree fuel) r f1) Q).
    { intros k turns i part f1 E D Q IH Hin Nk Hpa Hpg C Hout Hcont.
      assert (HrE : r ∉ E) by (intros H; by destruct (Hout r (or_introl H))).
      assert (HrD : r ∉ D) by (intros H; by destruct (Hout r (or_intror H))).
      assert (Hem1 : r ∉ emptied f1).
      { rewrite (cut_emptied _ _ _ _ C), elem_of_union, elem_of_list_to_set. tauto. }
      pose proof (Cut_outside_obs nodes f f1 E D r (fun _ _ => eq_refl) C HrE HrD) as Hn1.
      rewrite Hn in Hn1. destruct (getNode (planet f1) r) as [n1|] eqn:Hg1; [|discriminate].
      simpl in Hn1. injection Hn1 as Hn1.
      rewrite (forNodes_step turns i _ r f1 n1 part (rootOf k) Hem1 Hg1 Hpa)
        by (by rewrite Hn1).
      apply ok_bind with
        (P := fun f2 => Cut f f2 (E ++ cutAt (planet f) k) (D ++ cutBelow (planet f) k));
        [|exact Hcont].
      pose proof (depth_kid r a b c d k Hin) as Hdk.
      apply (clear_kid k fuel f f1 E D (Some r) (r :: anc) IH C).
      - intros x Hx. split; intros H.
        + by destruct (Hout x (or_introl H)) as (_ & _ & ?).
        + by destruct (Hout x (or_intror H)) as (_ & _ & ?).
      - intros x Hx HD. destruct (Hout x (or_intror HD)) as (? & ? & _).
        apply elem_of_cons in Hx as [->|Hx]; tauto.
      - by apply (clearable_kid f p r a b c d).
      - exact Nk.
      - exact Hch'.
      - intros x Hx Hk'. destruct (Hgen x (kid_preorder r a b c d k x Hin Hk')).
        apply elem_of_cons in Hx as [->|Hx]; tauto.
      - simpl length. lia. }
    apply NoDup_app in Hnd as (Na & Dab & Hnd).
    apply NoDup_app in Hnd as (Nb & Dbc & Hnd).
    apply NoDup_app in Hnd as (Nc & Dcd & Nd).
    pose proof (fun k x => cut_in_preorder (planet f) k x) as Hin.
    assert (La : a ∈ [a; b; c; d]) by apply list_elem_of_here.
    assert (Lb : b ∈ [a; b; c; d]) by (do 1 apply list_elem_of_further; apply list_elem_of_here).
    assert (Lc : c ∈ [a; b; c; d]) by (do 2 apply list_elem_of_further; apply list_elem_of_here).
    assert (Ld : d ∈ [a; b; c; d]) by (do 3 apply list_elem_of_further; apply list_elem_of_here).
    pose proof (fun x => kid_preorder r a b c d a x La) as Ga.
    pose proof (fun x => kid_preorder r a b c d b x Lb) as Gb.
    pose proof (fun x => kid_preorder r a b c d c x Lc) as Gc.
    apply (Hstep a 3%nat 0%nat quadTree.NW f [] [] _ IHa La Na eq_refl);
      [by rewrite Hk | apply Cut_refl | |].
    { intros x [H|H]; by apply elem_of_nil in H. }
    intros f1 C1.
    eapply (Hstep b 2%nat 1%nat quadTree.NE f1 _ _ _ IHb Lb Nb eq_refl);
      [by rewrite Hk | exact C1 | |].
    { intros x Hx. cbn [app] in Hx. apply Hin in Hx.
      destruct (Hgen x (Ga x Hx)). split; [|split]; try assumption.
      intros Hb. apply (Dab x Hx). rewrite !elem_of_app. tauto. }
    intros f2 C2.
    eapply (Hstep c 1%nat 2%nat quadTree.SW f2 _ _ _ IHc Lc Nc eq_refl);
      [by rewrite Hk | exact C2 | |].
    { intros x Hx. cbn [app] in Hx. rewrite !elem_of_app in Hx.
      assert (Hx' : x ∈ preorder a \/ x ∈ preorder b).
      { destruct Hx as [[H|H]|[H|H]]; [left|right|left|right]; apply Hin; tauto. }
      destruct Hx' as [Hx'|Hx'].
      - destruct (Hgen x (Ga x Hx')). split; [|split]; try assumption.
        intros Hb. apply (Dab x Hx'). rewrite !elem_of_app. tauto.
      - destruct (Hgen x (Gb x Hx')). split; [|split]; try assumption.
        intros Hb. apply (Dbc x Hx'). rewrite !elem_of_app. tauto. }
    intros f3 C3.
    eapply (Hstep d 0%nat 3%nat quadTree.SE f3 _ _ _ IHd Ld Nd eq_refl);
      [by rewrite Hk | exact C3 | |].
    { intros x Hx. cbn [app] in Hx. rewrite !elem_of_app in Hx.
      assert (Hx' : x ∈ preorder a \/ x ∈ preorder b \/ x ∈ preorder c).
      { destruct Hx as [[[H|H]|H]|[[H|H]|H]];
          [left|right;left|right;right|left|right;left|right;right]; apply Hin; tauto. }
      destruct Hx' as [Hx'|[Hx'|Hx']].
      - destruct (Hgen x (Ga x Hx')). split; [|split]; try assumption.
        intros Hb. apply (Dab x Hx'). rewrite !elem_of_app. tauto.
      - destruct (Hgen x (Gb x Hx')). split; [|split]; try assumption.
        intros Hb. apply (Dbc x Hx'). rewrite !elem_of_app. tauto.
      - destruct (Hgen x (Gc x Hx')). split; [|split]; try assumption.
        intros Hb. by apply (Dcd x Hx'). }
    intros f4 C4. cbn [forNodes]. apply ok_Some.
    cbn [app] in C4. by rewrite <- !app_assoc in C4.
Qed.

Lemma cutBelow_branch w t x :
  NoDup (preorder t) -> x ∈ cutBelow w t -> x ∈ branches t -> x ∈ cutAt w t.
Proof.
  induction t as [r|r a IHa b IHb c IHc d IHd]; intros Hnd Hb Hbr; [exact Hbr|].
  cbn [cutAt cutBelow] in *. destruct (walkedAt w r); [|exact Hbr].
  cbn [preorder] in Hnd. apply NoDup_cons in Hnd as [Hr Hnd].
  apply NoDup_app in Hnd as (Na & Dab & Hnd).
  apply NoDup_app in Hnd as (Nb & Dbc & Hnd).
  apply NoDup_app in Hnd as (Nc & Dcd & Nd).
  pose proof (fun k y H => cut_in_preorder w k y (or_intror H)) as P.
  pose proof elem_of_branches as B.
  assert (Hx : x <> r).
  { intros ->. apply Hr. rewrite !elem_of_app in *.
    destruct Hb as [H|[H|[H|H]]]; apply P in H; tauto. }
  cbn [branches] in Hbr. apply elem_of_cons in Hbr as [->|Hbr]; [done|].
  assert (Eab : forall y, y ∈ preorder a -> y ∈ preorder b -> False).
  { intros y H1 H2. apply (Dab y H1). rewrite !elem_of_app. tauto. }
  assert (Eac : forall y, y ∈ preorder a -> y ∈ preorder c -> False).
  { intros y H1 H2. apply (Dab y H1). rewrite !elem_of_app. tauto. }
  assert (Ead : forall y, y ∈ preorder a -> y ∈ preorder d -> False).
  { intros y H1 H2. apply (Dab y H1). rewrite !elem_of_app. tauto. }
  assert (Ebc : forall y, y ∈ preorder b -> y ∈ preorder c -> False).
  { intros y H1 H2. apply (Dbc y H1). rewrite !elem_of_app. tauto. }
  assert (Ebd : forall y, y ∈ preorder b -> y ∈ preorder d -> False).
  { intros y H1 H2. apply (Dbc y H1). rewrite !elem_of_app. tauto. }
  assert (Ecd : forall y, y ∈ preorder c -> y ∈ preorder d -> False)
    by (intros y H1 H2; by apply (Dcd y H1)).
  rewrite !elem_of_app in *.
  destruct Hb as [H|[H|[H|H]]], Hbr as [H'|[H'|[H'|H']]];
    first [ left; by apply IHa
          | right; left; by apply IHb
          | right; right; left; by apply IHc
          | right; right; right; by apply IHd
          | exfalso; apply P in H; apply B in H'; eauto ].
Qed.

(** [clearTree] on the tree [t] under a root, after a traversal that gave
    every node a state: it goes down through the nodes in the state
    [WALKTHROUGH] and stops at the first node in another state on each
    branch; what is below such a node is destroyed, once, children before
    their parent and in the order of the slots; the node itself is kept
    with its segment and state, no longer [ready] and its children array
    emptied; the walked-through nodes above are as before; outside the
    tree only neighbour slots change, and they are only emptied. *)
Theorem clearTree_prunes (fuel : nat) (f : Forest) (t : Tree) :
  clearable f None t ->
  NoDup (preorder t) ->
  (2 * depth t + 1 < fuel)%nat ->
  ok (clearTree fuel (rootOf t) f) (fun f' =>
    (forall x, x ∈ preorder t -> x ∉ cutBelow (planet f) t ->
       exists n n',
         getNode (planet f) x = Some n /\ getNode (planet f') x = Some n' /\
         state n' = state n /\ segment n' = segment n /\
         parentNode n' = parentNode n /\
         ready n' = (if bool_decide (x ∈ cutAt (planet f) t) then false else ready n) /\
         nodes n' = (if bool_decide (x ∈ cutAt (planet f) t)
                     then quad_all None else nodes n)) /\
    (forall d, d ∈ cutBelow (planet f) t ->
       exists n', getNode (planet f') d = Some n' /\
         state n' = Some quadTree.NOTRENDERING /\ segment n' = None /\
         neighbors n' = None /\ parentNode n' = None /\ sideSize n' = None /\
         ready n' = false) /\
    calls (planet f') =
      calls (planet f) ++ map destroySegment (cutBelow (planet f) t) /\
    (forall r, r ∉ preorder t ->
       set_neighbors None <$> getNode (planet f') r =
       set_neighbors None <$> getNode (planet f) r) /\
    (forall a s b, holds (planet f') a s b -> holds (planet f) a s b) /\
    _renderedNodes (planet f') = _renderedNodes (planet f)).
Proof.
  intros Hc Hnd Hf.
  eapply ok_mono.
  { apply (clearTree_cut t fuel f None []); [exact Hc | exact Hnd | constructor | |].
    - intros x Hx. by apply elem_of_nil in Hx.
    - simpl length. lia. }
  intros f' C. destruct Hc as (Hs & Hp & Hd & Hst & Hl).
  split.
  { intros x Hx Hout. destruct (Hst x Hx) as (n & st & Hn & _).
    pose proof (cut_nodes _ _ _ _ C x) as N. rewrite Hn in N.
    rewrite (bool_decide_eq_false_2 (x ∈ cutBelow (planet f) t)) in N by exact Hout.
    destruct (getNode (planet f') x) as [n'|] eqn:Hn'; [|discriminate].
    cbn [fmap option_fmap option_map] in N.
    assert (Eq : set_neighbors None n' =
                 set_neighbors None
                   (cutNode (bool_decide (x ∈ cutAt (planet f) t)) false n))
      by congruence.
    assert (Ho : forall X (obs : Node -> X),
              (forall v m, obs (set_neighbors v m) = obs m) ->
              obs n' = obs (cutNode (bool_decide (x ∈ cutAt (planet f) t)) false n)).
    { intros X obs Hobs. rewrite <- (Hobs None n'), Eq. apply Hobs. }
    exists n, n'. split; [exact Hn|]. split; [reflexivity|].
    rewrite (Ho _ ready), (Ho _ segment), (Ho _ state), (Ho _ parentNode),
            (Ho _ nodes) by reflexivity.
    destruct (bool_decide (x ∈ cutAt (planet f) t)); simpl; repeat split; reflexivity. }
  split.
  { intros d Hdin.
    assert (Hdp : d ∈ preorder t)
      by (by apply razedBelow_preorder, (cutBelow_razedBelow (planet f))).
    destruct (shaped_ready f t Hs Hnd d Hdp) as (n & Hn & Hr).
    pose proof (cut_nodes _ _ _ _ C d) as N. rewrite Hn in N.
    rewrite (bool_decide_eq_true_2 (d ∈ cutBelow (planet f) t)) in N by assumption.
    destruct (getNode (planet f') d) as [n'|] eqn:Hn'; [|discriminate].
    cbn [fmap option_fmap option_map] in N.
    assert (Eq : set_neighbors None n' =
                 set_neighbors None
                   (cutNode (bool_decide (d ∈ cutAt (planet f) t)) true n))
      by congruence.
    destruct (cutNode_destroyed _ _ _ Eq) as (H1 & H2 & H3 & H4 & H5).
    exists n'. split; [reflexivity|]. repeat (split; [assumption|]).
    split.
    - pose proof (cut_gone _ _ _ _ C d quadTree.N Hdin) as G.
      unfold neighborAt in G. rewrite Hn' in G. simpl in G.
      by destruct (neighbors n').
    - repeat (split; [assumption|]). apply H5. rewrite Hr.
      destruct (decide (d ∈ branches t)) as [Hb|Hb].
      + left. apply bool_decide_eq_true_2. by apply cutBelow_branch.
      + right. by apply bool_decide_eq_false_2. }
  split; [apply (cut_calls _ _ _ _ C)|].
  split.
  { intros r Hr. apply (Cut_outside f f' _ _ r C).
    - intros H. by apply (cutAt_branches (planet f)), elem_of_branches in H.
    - intros H. by apply (cutBelow_razedBelow (planet f)), razedBelow_preorder in H. }
  split; [intros a s b; by apply (Cut_holds f f' _ _ a s b C)|].
  apply (cut_planet _ _ _ _ C).
Qed.

Lemma renderedForest_clearable : clearable renderedForest None treeOfTreeWorld.
Proof.
  split; [|split; [|split; [|split]]].
  - simpl.
    repeat first
      [ split
      | (eexists; split; [reflexivity|]; repeat split; try reflexivity;
         apply (bool_decide_unpack _); vm_compute; exact I)
      | (eexists; split; reflexivity) ].
  - simpl. repeat first [ split | (eexists; split; reflexivity) ].
  - apply Forall_forall. intros x Hx. simpl in Hx.
    repeat (apply elem_of_cons in Hx as [->|Hx]);
      try (eexists; split; [reflexivity|]; split; [by eexists|]; split; [by eexists|];
           intros s m H; destruct s; discriminate).
    by apply elem_of_nil in Hx.
  - intros x Hx. simpl in Hx.
    repeat (apply elem_of_cons in Hx as [->|Hx]);
      try (eexists _, _; split; reflexivity).
    by apply elem_of_nil in Hx.
  - intros x Hx _. apply elem_of_list_to_set. exact Hx.
Qed.

Lemma clearTree_prunes_witness :
  ok (clearTree 6 0%nat renderedForest) (fun f' =>
    calls (planet f') = map destroySegment [5; 6; 7; 8]%nat /\
    (exists n1, getNode (planet f') 1%nat = Some n1 /\ ready n1 = false /\
                state n1 = Some quadTree.RENDERING) /\
    (exists n3, getNode (planet f') 3%nat = Some n3 /\ ready n3 = true)).
Proof.
  eapply ok_mono.
  - apply (clearTree_prunes 6 renderedForest treeOfTreeWorld).
    + apply renderedForest_clearable.
    + apply (bool_decide_unpack _). vm_compute. exact I.
    + simpl. lia.
  - intros f' (Hkeep & _ & Hc & _).
    split; [exact Hc|]. split.
    + destruct (Hkeep 1%nat) as (n & n' & Hn & Hn' & Hst & _ & _ & Hr & _).
      { apply (bool_decide_unpack _). vm_compute. exact I. }
      { apply (bool_decide_unpack _). vm_compute. exact I. }
      exists n'. split; [exact Hn'|]. split; [exact Hr|].
      rewrite Hst. vm_compute in Hn. by injection Hn as <-.
    + destruct (Hkeep 3%nat) as (n & n' & Hn & Hn' & _ & _ & _ & Hr & _).
      { apply (bool_decide_unpack _). vm_compute. exact I. }
      { apply (bool_decide_unpack _). vm_compute. exact I. }
      exists n'. split; [exact Hn'|]. rewrite Hr.
      vm_compute in Hn. by injection Hn as <-.
Defined.

(** ** renderTree: the rendered list and the states *)

Lemma walkFrame_refl w : walkFrame w w.
Proof. split; [apply kept_refl|reflexivity]. Qed.

Lemma walkFrame_trans w1 w2 w3 :
  walkFrame w1 w2 -> walkFrame w2 w3 -> walkFrame w1 w3.
Proof.
  intros [K1 R1] [K2 R2]. split; [by eapply kept_trans|congruence].
Qed.

Lemma modify_walkFrame r f w w' :
  modify r f w = Some w' ->
  (forall n n', f n = Some n' -> walkView n' = walkView n /\ zoomOf n' = zoomOf n) ->
  walkFrame w w'.
Proof.
  intros H Hf. split; [|by eapply modify_rendered].
  eapply modify_kept; [exact H|]. intros n n' Hn.
  destruct (Hf n n' Hn) as [-> ->]. reflexivity.
Qed.

Lemma modify_segment_walkFrame r g w w' :
  modify_segment r g w = Some w' ->
  (forall s, tileZoom (g s) = tileZoom s) -> walkFrame w w'.
Proof.
  intros H Hg. eapply modify_walkFrame; [exact H|].
  intros n n' Hn. simpl in Hn. unfold zoomOf.
  destruct (segment n) as [s|]; simpl in Hn; [|discriminate].
  injection Hn as <-. simpl. by rewrite Hg.
Qed.

Lemma call_walkFrame c w : walkFrame w (call c w).
Proof. split; [apply call_kept|reflexivity]. Qed.

Lemma seg_call_walkFrame r c w w' : seg_call r c w = Some w' -> walkFrame w w'.
Proof.
  unfold seg_call. intros H. destruct (segmentAt w r); [|discriminate].
  injection H as <-. apply call_walkFrame.
Qed.

Lemma seg_createPlainSegment_walkFrame r w w' :
  seg_createPlainSegment r w = Some w' -> walkFrame w w'.
Proof.
  intros H. eapply walkFrame_trans; [apply call_walkFrame|].
  eapply modify_segment_walkFrame; [exact H|reflexivity].
Qed.

Lemma seg_queue_walkFrame r w w' : seg_queue r w = Some w' -> walkFrame w w'.
Proof.
  intros H. eapply walkFrame_trans; [apply call_walkFrame|].
  eapply modify_segment_walkFrame; [exact H|reflexivity].
Qed.

(** Taking a run apart: every step that is left is named, and what it
    keeps is recorded. *)
Ltac walk_step E :=
  first
    [ apply seg_createPlainSegment_walkFrame in E
    | (apply modify_segment_walkFrame in E; [|reflexivity])
    | apply seg_queue_walkFrame in E
    | apply seg_call_walkFrame in E
    | (eapply modify_walkFrame in E;
       [|let Hf := fresh "Hf" in
         intros ? ? Hf;
         unfold assign_neighbor, assign_hasNeighbor, assign_sideSize in Hf;
         simplify_option_eq; split; reflexivity]) ].

Ltac run_apart step H :=
  repeat
    (cbn [mbind option_bind] in H;
     match type of H with
     | Some _ = Some _ => injection H as H; subst
     | None = Some _ => discriminate H
     | mbind _ ?m = Some _ =>
         let E := fresh "E" in destruct m eqn:E; [run_apart step E|]
     | (if ?c then _ else _) = Some _ => let E := fresh "E" in destruct c eqn:E
     | (match ?x with _ => _ end) = Some _ =>
         let E := fresh "E" in destruct x eqn:E; [run_apart step E..]
     end);
  try (cbn [mbind option_bind] in H; try step H).

Ltac walk_apart H := run_apart ltac:(fun E => walk_step E) H.

Ltac walk_chain :=
  solve [ apply walkFrame_refl
        | eassumption
        | eapply walkFrame_trans; [eassumption|walk_chain] ].

Lemma normalMapBeyondMaxZoom_walkFrame loops this pn seg w w' :
  normalMapBeyondMaxZoom loops this pn seg w = Some w' -> walkFrame w w'.
Proof.
  unfold normalMapBeyondMaxZoom. intros H. walk_apart H. all: walk_chain.
Qed.

Lemma whileNormalMapCreating_walkFrame loops this w w' :
  whileNormalMapCreating loops this w = Some w' -> walkFrame w w'.
Proof.
  unfold whileNormalMapCreating. intros H. walk_apart H.
  all: apply normalMapBeyondMaxZoom_walkFrame in H; walk_chain.
Qed.

Lemma subMesh_walkFrame this pn grid fgs fgsZ offsetX offsetY w r :
  subMesh this pn grid fgs fgsZ offsetX offsetY w = Some r -> walkFrame w r.2.
Proof.
  unfold subMesh. intros H. walk_apart H. all: simpl; walk_chain.
Qed.

Lemma interpolate_walkFrame this pn grid offsetX offsetY w r :
  interpolate this pn grid offsetX offsetY w = Some r -> walkFrame w r.2.
Proof.
  unfold interpolate. intros H. walk_apart H. all: simpl; walk_chain.
Qed.

Lemma inheritMesh_walkFrame this pn dZ2 offsetX offsetY w r :
  inheritMesh this pn dZ2 offsetX offsetY w = Some r -> walkFrame w r.2.
Proof.
  unfold inheritMesh. intros H. walk_apart H.
  all: repeat match goal with
       | E : subMesh _ _ _ _ _ _ _ _ = Some _ |- _ =>
           apply subMesh_walkFrame in E; simpl in E
       | E : interpolate _ _ _ _ _ _ = Some _ |- _ =>
           apply interpolate_walkFrame in E; simpl in E
       end.
  all: simpl; walk_chain.
Qed.

Lemma beyondMaxZoom_walkFrame loops this pn tv tn w w' :
  beyondMaxZoom loops this pn tv tn w = Some w' -> walkFrame w w'.
Proof.
  unfold beyondMaxZoom. intros H. walk_apart H. all: walk_chain.
Qed.

Lemma whileTerrainLoading_walkFrame loops this w r :
  whileTerrainLoading loops this w = Some r -> walkFrame w r.2.
Proof.
  unfold whileTerrainLoading. intros H. walk_apart H.
  all: repeat match goal with
       | E : inheritMesh _ _ _ _ _ _ = Some _ |- _ =>
           apply inheritMesh_walkFrame in E; simpl in E
       | E : beyondMaxZoom _ _ _ _ _ _ = Some _ |- _ =>
           apply beyondMaxZoom_walkFrame in E
       end.
  all: simpl; walk_chain.
Qed.

Lemma encounter_walkFrame x ni w w' : encounter x ni w = Some w' -> walkFrame w w'.
Proof.
  unfold encounter, link, negotiate, flag, resize. intros H. walk_apart H.
  all: walk_chain.
Qed.

Lemma scan_walkFrame x nis : forall w w', scan x nis w = Some w' -> walkFrame w w'.
Proof.
  induction nis as [|a nis IH]; intros w w' H; simpl in H.
  - injection H as <-. apply walkFrame_refl.
  - destruct (encounter x a w) as [w1|] eqn:E; [simpl in H|discriminate].
    eapply walkFrame_trans; [by eapply encounter_walkFrame|by eapply IH].
Qed.

Lemma settles_state x st w w' :
  modify x (fun n => Some (set_state (Some st) n)) w = Some w' ->
  settles x st [] w w'.
Proof.
  intros H. pose proof (modify_getNode _ _ _ _ H) as G.
  split; [|split; [|split]].
  - rewrite (G x), decide_True by reflexivity.
    apply modify_inv in H as (n & n' & Hn & [= <-] & _). by rewrite Hn.
  - rewrite app_nil_r. by eapply modify_rendered.
  - eapply modify_kept; [exact H|]. by intros n n' [= <-].
  - intros r Hr. by rewrite (G r), decide_False by congruence.
Qed.

Lemma settles_walkFrame x st added w w1 w2 :
  settles x st added w w1 -> walkFrame w1 w2 -> settles x st added w w2.
Proof.
  intros (S1 & S2 & S3 & S4) [K R].
  assert (Ks : kept state w1 w2).
  { intros r. specialize (K r). unfold walkView in K.
    destruct (getNode w2 r), (getNode w1 r); simpl in *; congruence. }
  assert (Kn : kept (fun n => (ready n, nodes n, zoomOf n)) w1 w2).
  { intros r. specialize (K r). unfold walkView in K.
    destruct (getNode w2 r), (getNode w1 r); simpl in *; congruence. }
  split; [|split; [|split]].
  - by rewrite (Ks x).
  - congruence.
  - by eapply kept_trans.
  - intros r Hr. rewrite (Ks r). by apply S4.
Qed.

Lemma walkFrame_settles x st added w w1 w2 :
  walkFrame w w1 -> settles x st added w1 w2 -> settles x st added w w2.
Proof.
  intros [K R] (S1 & S2 & S3 & S4).
  assert (Ks : kept state w w1).
  { intros r. specialize (K r). unfold walkView in K.
    destruct (getNode w1 r), (getNode w r); simpl in *; congruence. }
  assert (Kn : kept (fun n => (ready n, nodes n, zoomOf n)) w w1).
  { intros r. specialize (K r). unfold walkView in K.
    destruct (getNode w1 r), (getNode w r); simpl in *; congruence. }
  split; [|split; [|split]].
  - exact S1.
  - congruence.
  - by eapply kept_trans.
  - intros r Hr. rewrite (S4 r Hr). apply Ks.
Qed.

Lemma settles_again x st1 st2 l1 l2 w w1 w2 :
  settles x st1 l1 w w1 -> settles x st2 l2 w1 w2 ->
  settles x st2 (l1 ++ l2) w w2.
Proof.
  intros (A1 & A2 & A3 & A4) (B1 & B2 & B3 & B4).
  split; [|split; [|split]].
  - exact B1.
  - by rewrite B2, A2, app_assoc.
  - by eapply kept_trans.
  - intros r Hr. by rewrite (B4 r Hr), (A4 r Hr).
Qed.

Lemma set_activeCamera_walkFrame c w : walkFrame w (set_activeCamera c w).
Proof. split; [by intros r|reflexivity]. Qed.

Lemma renderTree_enter_settles x w w' :
  renderTree_enter x w = Some w' -> settles x quadTree.WALKTHROUGH [] w w'.
Proof.
  unfold renderTree_enter, renderTree_reset. intros H.
  destruct (modify x _ w) as [w0|] eqn:E0; [|discriminate].
  apply settles_state in E0. cbn [mbind option_bind] in H.
  eapply settles_walkFrame; [exact E0|].
  match type of H with
  | mbind _ ?m = Some _ =>
      destruct m as [w4|] eqn:E; [walk_apart E; cbn [mbind option_bind] in H|discriminate]
  end.
  destruct (getNode _ x) as [n|]; [cbn [mbind option_bind] in H|discriminate].
  destruct (parentNode n) as [p|]; [|walk_step H; walk_chain].
  destruct (modify x _ _) as [w5|] eqn:E5; [|discriminate].
  walk_step E5. cbn [mbind option_bind] in H.
  destruct (getNode w5 p) as [pn|]; [cbn [mbind option_bind] in H|discriminate].
  destruct (_cameraInside pn); [|injection H as <-; walk_chain].
  destruct (segment n) as [s|]; [cbn [mbind option_bind] in H|discriminate].
  destruct (cameraTest (activeCamera w5) s) as [[[|] pos]|];
    cbn [fmap option_fmap option_map fst] in H.
  - walk_step H.
    eapply walkFrame_trans; [|exact H].
    eapply walkFrame_trans; [|apply set_activeCamera_walkFrame].
    eapply walkFrame_trans; [|apply set_activeCamera_walkFrame].
    walk_chain.
  - injection H as <-.
    eapply walkFrame_trans; [|apply set_activeCamera_walkFrame]. walk_chain.
  - injection H as <-. walk_chain.
Qed.

Lemma addToRender_settles x w w' :
  addToRender x w = Some w' -> settles x quadTree.RENDERING [x] w w'.
Proof.
  unfold addToRender. intros H.
  destruct (modify x _ w) as [w0|] eqn:E0; [|discriminate].
  apply settles_state in E0. cbn [mbind option_bind] in H.
  destruct (scan x _ w0) as [w1|] eqn:E1; [|discriminate].
  apply scan_walkFrame in E1. cbn [mbind option_bind] in H. injection H as <-.
  pose proof (settles_walkFrame _ _ _ _ _ _ E0 E1) as (S1 & S2 & S3 & S4).
  split; [|split; [|split]]; try assumption.
  simpl. rewrite S2. by rewrite app_nil_r.
Qed.

Lemma hide_settles x p p' :
  hide x p = Some p' -> settles x quadTree.NOTRENDERING [] (world p) (world p').
Proof.
  unfold hide, onWorld. intros H.
  destruct (modify x _ (world p)) as [w0|] eqn:E0; [|discriminate].
  injection H as <-. by apply settles_state.
Qed.

Lemma renderNode_settles loops x p p' :
  renderNode loops false x p = Some p' ->
  settles x quadTree.RENDERING [x] (world p) (world p').
Proof.
  unfold renderNode, onWorld. intros H.
  destruct (segmentAt (world p) x) as [seg|]; [|discriminate].
  cbn [mbind option_bind] in H.
  match type of H with
  | mbind _ ?m = Some _ => destruct m as [p1|] eqn:E1; [|discriminate]
  end.
  assert (F1 : walkFrame (world p) (world p1)).
  { destruct (terrainReady seg); [injection E1 as <-; apply walkFrame_refl|].
    cbn [negb] in E1.
    destruct (whileTerrainLoading loops x (world p)) as [[go w1]|] eqn:E; [|discriminate].
    apply whileTerrainLoading_walkFrame in E. cbn [snd] in E.
    cbn [mbind option_bind] in E1.
    destruct go; [|injection E1 as <-; exact E].
    cbn [world set_world] in E1.
    destruct (seg_call x _ w1) as [w2|] eqn:E2; [|discriminate].
    apply seg_call_walkFrame in E2. injection E1 as <-.
    by eapply walkFrame_trans. }
  cbn [mbind option_bind] in H.
  destruct (segmentAt (world p1) x) as [seg1|]; [|discriminate].
  cbn [mbind option_bind] in H.
  match type of H with
  | mbind _ ?m = Some _ => destruct m as [p2|] eqn:E2; [|discriminate]
  end.
  assert (F2 : walkFrame (world p1) (world p2)).
  { destruct (_ && _); [|injection E2 as <-; apply walkFrame_refl].
    destruct (whileNormalMapCreating loops x (world p1)) as [w2|] eqn:E; [|discriminate].
    apply whileNormalMapCreating_walkFrame in E. by injection E2 as <-. }
  cbn [mbind option_bind] in H.
  destruct (getNode (world p2) x) as [n|]; [|discriminate].
  cbn [mbind option_bind] in H.
  destruct (segment n) as [seg2|]; [|discriminate].
  cbn [mbind option_bind] in H.
  match type of H with
  | mbind _ (addToRender x ?v) = Some _ =>
      destruct (addToRender x v) as [w3|] eqn:E3; [|discriminate];
      assert (Ev : v = world p2) by (repeat case_match; reflexivity)
  end.
  rewrite Ev in E3. apply addToRender_settles in E3.
  injection H as <-. cbn [world set_world].
  eapply walkFrame_settles; [|exact E3]. by eapply walkFrame_trans.
Qed.

Lemma prepareForRendering_settles loops h altVis x p p' :
  prepareForRendering loops h altVis false x p = Some p' ->
  exists t, (t = Hidden x \/ t = Shown x) /\
    settles x (match t with Shown _ => quadTree.RENDERING | _ => quadTree.NOTRENDERING end)
      (shownW t) (world p) (world p').
Proof.
  unfold prepareForRendering. intros H.
  destruct (num_ltb h 3000000); [destruct altVis|].
  - exists (Shown x). split; [by right|]. by eapply renderNode_settles.
  - exists (Hidden x). split; [by left|]. by apply hide_settles.
  - exists (Shown x). split; [by right|]. by eapply renderNode_settles.
Qed.

Lemma shaped_present w t x :
  shaped (forestOf w) t -> x ∈ preorder t -> is_Some (getNode w x).
Proof.
  induction t as [r|r a IHa b IHb c IHc d IHd]; simpl.
  - intros (n & Hn & _) Hx. apply list_elem_of_singleton in Hx as ->. by eexists.
  - intros ((n & Hn & _) & Ha & Hb & Hc & Hd) Hx.
    apply elem_of_cons in Hx as [->|Hx]; [by eexists|].
    rewrite !elem_of_app in Hx. intuition.
Qed.

Lemma shaped_local w w' t :
  (forall x, x ∈ preorder t ->
     walkView <$> getNode w' x = walkView <$> getNode w x) ->
  shaped (forestOf w) t -> shaped (forestOf w') t.
Proof.
  induction t as [r|r a IHa b IHb c IHc d IHd]; simpl; intros Hk.
  - intros (n & Hn & Hr). specialize (Hk r (list_elem_of_here _ _)).
    rewrite Hn in Hk. destruct (getNode w' r) as [n'|]; [|discriminate].
    exists n'. split; [reflexivity|]. unfold walkView in Hk. simpl in Hk. congruence.
  - intros ((n & Hn & Hr & Hem & Hq) & Ha & Hb & Hc & Hd).
    assert (Hsub : forall k, k ∈ [a; b; c; d] -> forall x, x ∈ preorder k ->
              walkView <$> getNode w' x = walkView <$> getNode w x).
    { intros k Hin x Hx. apply Hk, list_elem_of_further.
      by apply (kid_preorder r a b c d k). }
    split.
    + specialize (Hk r (list_elem_of_here _ _)). rewrite Hn in Hk.
      destruct (getNode w' r) as [n'|]; [|discriminate].
      exists n'. split; [reflexivity|]. unfold walkView in Hk. simpl in Hk.
      split; [congruence|]. split; [exact Hem|congruence].
    + split; [|split; [|split]].
      * apply IHa; [|exact Ha]. apply Hsub, list_elem_of_here.
      * apply IHb; [|exact Hb]. apply Hsub. do 1 apply list_elem_of_further.
        apply list_elem_of_here.
      * apply IHc; [|exact Hc]. apply Hsub. do 2 apply list_elem_of_further.
        apply list_elem_of_here.
      * apply IHd; [|exact Hd]. apply Hsub. do 3 apply list_elem_of_further.
        apply list_elem_of_here.
Qed.

Lemma marked_present w t x :
  marked w t -> x ∈ visitedW t -> is_Some (getNode w x).
Proof.
  induction t as [r|r|r a IHa b IHb c IHc d IHd]; simpl.
  - intros H Hx. apply list_elem_of_singleton in Hx as ->.
    destruct (getNode w r); [by eexists|discriminate].
  - intros H Hx. apply list_elem_of_singleton in Hx as ->.
    destruct (getNode w r); [by eexists|discriminate].
  - intros ((n & Hn & _) & Ha & Hb & Hc & Hd) Hx.
    apply elem_of_cons in Hx as [->|Hx]; [by eexists|].
    rewrite !elem_of_app in Hx. intuition.
Qed.

Lemma marked_local w w' t :
  (forall x, x ∈ visitedW t ->
     walkView <$> getNode w' x = walkView <$> getNode w x) ->
  marked w t -> marked w' t.
Proof.
  induction t as [r|r|r a IHa b IHb c IHc d IHd]; simpl; intros Hk.
  - intros H. specialize (Hk r (list_elem_of_here _ _)).
    destruct (getNode w' r), (getNode w r); simpl in *; try discriminate.
    unfold walkView in Hk. congruence.
  - intros H. specialize (Hk r (list_elem_of_here _ _)).
    destruct (getNode w' r), (getNode w r); simpl in *; try discriminate.
    unfold walkView in Hk. congruence.
  - intros ((n & Hn & Hs & Hr & Hq) & Ha & Hb & Hc & Hd).
    split.
    + specialize (Hk r (list_elem_of_here _ _)). rewrite Hn in Hk.
      destruct (getNode w' r) as [n'|]; [|discriminate].
      exists n'. split; [reflexivity|]. unfold walkView in Hk. simpl in Hk.
      repeat split; congruence.
    + split; [|split; [|split]].
      * apply IHa; [|exact Ha]. intros x Hx. apply Hk, list_elem_of_further.
        rewrite !elem_of_app. tauto.
      * apply IHb; [|exact Hb]. intros x Hx. apply Hk, list_elem_of_further.
        rewrite !elem_of_app. tauto.
      * apply IHc; [|exact Hc]. intros x Hx. apply Hk, list_elem_of_further.
        rewrite !elem_of_app. tauto.
      * apply IHd; [|exact Hd]. intros x Hx. apply Hk, list_elem_of_further.
        rewrite !elem_of_app. tauto.
Qed.

Lemma walkedOver_visited_present w w' K ts x :
  walkedOver w w' K ts -> x ∈ ts ≫= visitedW -> is_Some (getNode w' x).
Proof.
  intros W Hx. apply list_elem_of_bind in Hx as (t & Hx & Ht).
  pose proof (wo_marked _ _ _ _ W) as M. rewrite Forall_forall in M.
  by apply (marked_present w' t x (M t Ht)).
Qed.

Lemma walkedOver_present w w' K ts x :
  walkedOver w w' K ts -> is_Some (getNode w x) -> is_Some (getNode w' x).
Proof.
  intros W Hp. destruct (decide (x ∈ ts ≫= visitedW)) as [Hx|Hx].
  - by eapply walkedOver_visited_present.
  - pose proof (wo_frame _ _ _ _ W x Hx Hp) as F. destruct Hp as [n Hn].
    rewrite Hn in F. destruct (getNode w' x); [by eexists|discriminate].
Qed.

Lemma walkedOver_nil w : walkedOver w w [] [].
Proof.
  split; try reflexivity.
  - constructor.
  - constructor.
  - simpl. by rewrite app_nil_r.
  - intros x Hx. by apply elem_of_nil in Hx.
  - intros x Hn [m Hm]. congruence.
Qed.

Lemma walkedOver_snoc w w1 w2 K ts k t :
  walkedOver w w1 K ts ->
  walkedOver w1 w2 [k] [t] ->
  (forall x, x ∈ preorder k -> is_Some (getNode w x)) ->
  (forall x, x ∈ preorder k -> x ∉ K ≫= preorder) ->
  walkedOver w w2 (K ++ [k]) (ts ++ [t]).
Proof.
  intros W1 W2 Hpres Hdisj.
  assert (Hsep : forall x, x ∈ ts ≫= visitedW -> x ∈ [t] ≫= visitedW -> False).
  { intros x H1 H2.
    destruct (wo_origin _ _ _ _ W2 x H2) as [Hk|Hn].
    - rewrite bind_singleton in Hk.
      destruct (wo_origin _ _ _ _ W1 x H1) as [HK|Hn].
      + by apply (Hdisj x Hk).
      + destruct (Hpres x Hk) as [? ?]. congruence.
    - destruct (walkedOver_visited_present _ _ _ _ x W1 H1) as [? ?]. congruence. }
  split.
  - rewrite !map_app. f_equal; [apply (wo_roots _ _ _ _ W1)|apply (wo_roots _ _ _ _ W2)].
  - apply Forall_app. split; [|apply (wo_marked _ _ _ _ W2)].
    pose proof (wo_marked _ _ _ _ W1) as M. rewrite Forall_forall in M.
    apply Forall_forall. intros s Hs. apply (marked_local w1); [|by apply M].
    intros x Hx.
    assert (Hin : x ∈ ts ≫= visitedW) by (apply list_elem_of_bind; eauto).
    apply (wo_frame _ _ _ _ W2).
    + intros H2. by apply (Hsep x).
    + by eapply walkedOver_visited_present.
  - rewrite bind_app. apply NoDup_app. split; [apply (wo_once _ _ _ _ W1)|].
    split; [|apply (wo_once _ _ _ _ W2)].
    intros x H1 H2. by apply (Hsep x).
  - rewrite (wo_rendered _ _ _ _ W2), (wo_rendered _ _ _ _ W1), bind_app.
    by rewrite app_assoc.
  - intros x Hx. rewrite bind_app in Hx. rewrite bind_app.
    rewrite elem_of_app in Hx. rewrite elem_of_app.
    destruct Hx as [Hx|Hx].
    + destruct (wo_origin _ _ _ _ W1 x Hx); [left; by left|by right].
    + destruct (wo_origin _ _ _ _ W2 x Hx) as [Hk|Hn]; [left; by right|].
      right. destruct (getNode w x) eqn:Hg; [|reflexivity].
      destruct (walkedOver_present _ _ _ _ x W1) as [? ?]; [by eexists|congruence].
  - intros x Hx Hp. rewrite bind_app, elem_of_app in Hx.
    rewrite (wo_frame _ _ _ _ W2 x); [apply (wo_frame _ _ _ _ W1 x)| |]; try tauto.
    by eapply walkedOver_present.
  - intros x Hn Hp. rewrite bind_app, elem_of_app.
    destruct (getNode w1 x) as [m|] eqn:H1.
    + left. apply (wo_new _ _ _ _ W1 x Hn). by eexists.
    + right. by apply (wo_new _ _ _ _ W2 x H1).
Qed.

Lemma settles_walkView x st added w w' r :
  settles x st added w w' -> r <> x ->
  walkView <$> getNode w' r = walkView <$> getNode w r.
Proof.
  intros (_ & _ & S3 & S4) Hr. specialize (S3 r). specialize (S4 r Hr).
  unfold walkView.
  destruct (getNode w' r), (getNode w r); simpl in *; congruence.
Qed.

Lemma settles_present x st added w w' r :
  settles x st added w w' -> is_Some (getNode w r) <-> is_Some (getNode w' r).
Proof.
  intros (_ & _ & S3 & _). specialize (S3 r).
  destruct (getNode w' r), (getNode w r); simpl in *; try discriminate;
    split; intros [? ?]; try discriminate; by eexists.
Qed.

Lemma rootOf_preorder t : rootOf t ∈ preorder t.
Proof. destruct t; apply list_elem_of_here. Qed.

Lemma bind4 {A B} (f : A -> list B) a b c d :
  [a; b; c; d] ≫= f = f a ++ f b ++ f c ++ f d.
Proof. csimpl. by rewrite app_nil_r. Qed.

Lemma walkedOver_leaf x st added w w' t0 t :
  settles x st added w w' ->
  rootOf t0 = x ->
  (t = Hidden x /\ st = quadTree.NOTRENDERING /\ added = []) \/
  (t = Shown x /\ st = quadTree.RENDERING /\ added = [x]) ->
  walkedOver w w' [t0] [t].
Proof.
  intros S Hroot Ht.
  assert (Hv : visitedW t = [x]) by (destruct Ht as [(-> & _)|(-> & _)]; reflexivity).
  assert (Hs : shownW t = added)
    by (destruct Ht as [(-> & _ & ->)|(-> & _ & ->)]; reflexivity).
  assert (Hr : rootW t = x) by (destruct Ht as [(-> & _)|(-> & _)]; reflexivity).
  split.
  - simpl. by rewrite Hr, Hroot.
  - constructor; [|constructor]. destruct S as (S1 & _).
    destruct Ht as [(-> & -> & _)|(-> & -> & _)]; exact S1.
  - rewrite bind_singleton, Hv. apply NoDup_singleton.
  - rewrite bind_singleton, Hs. by destruct S as (_ & S2 & _).
  - intros y Hy. rewrite bind_singleton, Hv in Hy.
    apply list_elem_of_singleton in Hy as ->. left.
    rewrite bind_singleton, <- Hroot. apply rootOf_preorder.
  - intros y Hy _. rewrite bind_singleton, Hv in Hy.
    apply (settles_walkView x st added); [exact S|].
    intros ->. apply Hy, list_elem_of_here.
  - intros y Hn Hp. apply (settles_present _ _ _ _ _ y S) in Hp as [m Hm]. congruence.
Qed.

(** One child of a node the walk goes through. *)
Lemma kid_walk (rt : ref -> Planet -> option Planet) x part w2 n2 K ts k pi pj :
  (forall t0 p p', shaped (forestOf (world p)) t0 -> NoDup (preorder t0) ->
     rt (rootOf t0) p = Some p' ->
     exists t, walkedOver (world p) (world p') [t0] [t]) ->
  walkedOver w2 (world pi) K ts ->
  getNode w2 x = Some n2 ->
  part_get (nodes n2) part = Some (rootOf k) ->
  shaped (forestOf w2) k -> NoDup (preorder k) ->
  x ∉ K ≫= preorder ->
  (forall y, y ∈ preorder k -> y ∉ K ≫= preorder) ->
  renderChild rt x part pi = Some pj ->
  exists t, walkedOver w2 (world pj) (K ++ [k]) (ts ++ [t]).
Proof.
  intros IH W Hn2 Hpart Hs Hnd HxK Hdisj H.
  assert (Hout : forall y, is_Some (getNode w2 y) -> y ∉ K ≫= preorder ->
            y ∉ ts ≫= visitedW).
  { intros y [m Hm] HK Hv.
    destruct (wo_origin _ _ _ _ W y Hv) as [?|Hnone]; [done|congruence]. }
  unfold renderChild in H.
  pose proof (wo_frame _ _ _ _ W x (Hout x (mk_is_Some _ _ Hn2) HxK)
                (mk_is_Some _ _ Hn2)) as Fx.
  rewrite Hn2 in Fx. destruct (getNode (world pi) x) as [ni|]; [|discriminate].
  cbn [mbind option_bind] in H.
  assert (Hni : nodes ni = nodes n2).
  { unfold walkView in Fx. simpl in Fx. congruence. }
  rewrite Hni, Hpart in H. cbn [mbind option_bind] in H.
  destruct (IH k pi pj) as (t & Wk); [|exact Hnd|exact H|].
  - apply (shaped_local w2); [|exact Hs].
    intros y Hy. apply (wo_frame _ _ _ _ W).
    + apply Hout; [by eapply shaped_present|by apply Hdisj].
    + by eapply shaped_present.
  - exists t. apply (walkedOver_snoc w2 (world pi) (world pj)); try assumption.
    intros y Hy. by eapply shaped_present.
Qed.

(** The four children, in the order of the calls. *)
Lemma kids_walk (rt : ref -> Planet -> option Planet) x n2 a b c d p p' :
  (forall t0 p p', shaped (forestOf (world p)) t0 -> NoDup (preorder t0) ->
     rt (rootOf t0) p = Some p' ->
     exists t, walkedOver (world p) (world p') [t0] [t]) ->
  getNode (world p) x = Some n2 ->
  nodes n2 = mkQuad (Some (rootOf a)) (Some (rootOf b))
                    (Some (rootOf c)) (Some (rootOf d)) ->
  shaped (forestOf (world p)) a -> shaped (forestOf (world p)) b ->
  shaped (forestOf (world p)) c -> shaped (forestOf (world p)) d ->
  NoDup (x :: preorder a ++ preorder b ++ preorder c ++ preorder d) ->
  (p1 ← renderChild rt x quadTree.NW p;
   p2 ← renderChild rt x quadTree.NE p1;
   p3 ← renderChild rt x quadTree.SW p2;
   renderChild rt x quadTree.SE p3) = Some p' ->
  exists ta tb tc td,
    walkedOver (world p) (world p') [a; b; c; d] [ta; tb; tc; td].
Proof.
  intros IH Hn2 Hq Sa Sb Sc Sd Hnd H.
  apply NoDup_cons in Hnd as [Hx Hnd].
  rewrite !elem_of_app in Hx.
  apply NoDup_app in Hnd as (Na & Dab & Hnd).
  apply NoDup_app in Hnd as (Nb & Dbc & Hnd).
  apply NoDup_app in Hnd as (Nc & Dcd & Nd).
  destruct (renderChild rt x quadTree.NW p) as [p1|] eqn:E1; [|discriminate].
  cbn [mbind option_bind] in H.
  destruct (renderChild rt x quadTree.NE p1) as [p2|] eqn:E2; [|discriminate].
  cbn [mbind option_bind] in H.
  destruct (renderChild rt x quadTree.SW p2) as [p3|] eqn:E3; [|discriminate].
  cbn [mbind option_bind] in H.
  destruct (kid_walk rt x quadTree.NW (world p) n2 [] [] a p p1 IH
              (walkedOver_nil _) Hn2) as (ta & Wa); try assumption.
  { by rewrite Hq. }
  { intros Hy. by apply elem_of_nil in Hy. }
  { intros y _ Hy. by apply elem_of_nil in Hy. }
  cbn [app] in Wa.
  destruct (kid_walk rt x quadTree.NE (world p) n2 [a] [ta] b p1 p2 IH Wa Hn2)
    as (tb & Wb); try assumption.
  { by rewrite Hq. }
  { rewrite bind_singleton. tauto. }
  { intros y Hy. rewrite bind_singleton. intros Ha. apply (Dab y Ha).
    rewrite !elem_of_app. tauto. }
  cbn [app] in Wb.
  destruct (kid_walk rt x quadTree.SW (world p) n2 [a; b] [ta; tb] c p2 p3 IH Wb Hn2)
    as (tc & Wc); try assumption.
  { by rewrite Hq. }
  { csimpl. rewrite !elem_of_app, elem_of_nil. tauto. }
  { intros y Hy. csimpl. rewrite !elem_of_app, elem_of_nil. intros [Ha|[Hb|[]]].
    - apply (Dab y Ha). rewrite !elem_of_app. tauto.
    - apply (Dbc y Hb). rewrite !elem_of_app. tauto. }
  cbn [app] in Wc.
  destruct (kid_walk rt x quadTree.SE (world p) n2 [a; b; c] [ta; tb; tc] d p3 p' IH
              Wc Hn2) as (td & Wd); try assumption.
  { by rewrite Hq. }
  { csimpl. rewrite !elem_of_app, elem_of_nil. tauto. }
  { intros y Hy. csimpl. rewrite !elem_of_app, elem_of_nil. intros [Ha|[Hb|[Hc|[]]]].
    - apply (Dab y Ha). rewrite !elem_of_app. tauto.
    - apply (Dbc y Hb). rewrite !elem_of_app. tauto.
    - by apply (Dcd y Hc). }
  cbn [app] in Wd. by exists ta, tb, tc, td.
Qed.

Lemma split_assemble x w w1 w2 w' t0 n2 a b c d ta tb tc td :
  settles x quadTree.WALKTHROUGH [] w w1 ->
  rootOf t0 = x ->
  getNode w2 x = Some n2 ->
  state n2 = Some quadTree.WALKTHROUGH -> ready n2 = true ->
  nodes n2 = mkQuad (Some (rootOf a)) (Some (rootOf b))
                    (Some (rootOf c)) (Some (rootOf d)) ->
  _renderedNodes w2 = _renderedNodes w1 ->
  (forall y, is_Some (getNode w1 y) -> y <> x -> getNode w2 y = getNode w1 y) ->
  (forall y, y ∈ preorder a ++ preorder b ++ preorder c ++ preorder d ->
     y <> x /\ (y ∈ preorder t0 \/ getNode w1 y = None)) ->
  (forall y, getNode w1 y = None -> is_Some (getNode w2 y) ->
     y ∈ [rootOf a; rootOf b; rootOf c; rootOf d]) ->
  walkedOver w2 w' [a; b; c; d] [ta; tb; tc; td] ->
  walkedOver w w' [t0] [Split x ta tb tc td].
Proof.
  intros S Hroot Hn2 Hst Hrd Hq Hren Hsame Hkids Hnew W.
  assert (Hxv : x ∉ [ta; tb; tc; td] ≫= visitedW).
  { intros Hv. destruct (wo_origin _ _ _ _ W x Hv) as [Hin|Hnone]; [|congruence].
    rewrite bind4 in Hin. by destruct (Hkids x Hin). }
  assert (Hmono : forall y, is_Some (getNode w1 y) -> is_Some (getNode w2 y)).
  { intros y Hy. destruct (decide (y = x)) as [->|Hne]; [by eexists|].
    by rewrite Hsame. }
  pose proof (wo_roots _ _ _ _ W) as Hroots. simpl in Hroots.
  injection Hroots as Ra Rb Rc Rd.
  split.
  - simpl. by rewrite Hroot.
  - constructor; [|constructor]. simpl.
    pose proof (wo_marked _ _ _ _ W) as M.
    apply Forall_cons in M as [Ma M]. apply Forall_cons in M as [Mb M].
    apply Forall_cons in M as [Mc M]. apply Forall_cons in M as [Md _].
    split; [|by auto].
    pose proof (wo_frame _ _ _ _ W x Hxv (mk_is_Some _ _ Hn2)) as F.
    rewrite Hn2 in F. destruct (getNode w' x) as [n'|]; [|discriminate].
    exists n'. split; [reflexivity|]. unfold walkView in F. simpl in F.
    injection F as F1 F2 F3.
    split; [congruence|]. split; [congruence|].
    rewrite F3, Hq, Ra, Rb, Rc, Rd. reflexivity.
  - rewrite bind_singleton. cbn [visitedW]. apply NoDup_cons.
    rewrite <- bind4. split; [exact Hxv|apply (wo_once _ _ _ _ W)].
  - rewrite bind_singleton. cbn [shownW]. rewrite <- bind4.
    rewrite (wo_rendered _ _ _ _ W), Hren.
    destruct S as (_ & S2 & _). rewrite S2. by rewrite app_nil_r.
  - intros y Hy. rewrite bind_singleton in Hy. rewrite bind_singleton.
    cbn [visitedW] in Hy.
    apply elem_of_cons in Hy as [->|Hy].
    + left. rewrite <- Hroot. apply rootOf_preorder.
    + rewrite <- bind4 in Hy.
      assert (Hw1 : getNode w1 y = None -> getNode w y = None).
      { intros Hn. destruct (getNode w y) eqn:Hg; [|reflexivity].
        destruct (proj1 (settles_present _ _ _ _ _ y S)) as [? ?]; [by eexists|].
        congruence. }
      destruct (wo_origin _ _ _ _ W y Hy) as [Hin|Hnone].
      * rewrite bind4 in Hin. destruct (Hkids y Hin) as (_ & [?|?]); [by left|].
        right. by apply Hw1.
      * right. apply Hw1. destruct (getNode w1 y) eqn:Hg; [|reflexivity].
        destruct (Hmono y) as [? ?]; [by eexists|congruence].
  - intros y Hy Hp. rewrite bind_singleton in Hy. cbn [visitedW] in Hy.
    rewrite <- bind4 in Hy. rewrite not_elem_of_cons in Hy. destruct Hy as [Hne Hy].
    assert (Hp1 : is_Some (getNode w1 y)) by (by apply (settles_present _ _ _ _ _ y S)).
    rewrite (wo_frame _ _ _ _ W y Hy) by (by apply Hmono).
    rewrite (Hsame y Hp1 Hne).
    by apply (settles_walkView x quadTree.WALKTHROUGH []).
  - intros y Hn Hp. rewrite bind_singleton. cbn [visitedW].
    apply list_elem_of_further. rewrite <- bind4.
    assert (H1 : getNode w1 y = None).
    { destruct (getNode w1 y) eqn:Hg; [|reflexivity].
      destruct (proj2 (settles_present _ _ _ _ _ y S)) as [? ?]; [by eexists|].
      congruence. }
    destruct (getNode w2 y) as [m|] eqn:H2.
    + assert (Hy : y ∈ [rootOf a; rootOf b; rootOf c; rootOf d])
        by (apply Hnew; [exact H1|by eexists]).
      rewrite <- Ra, <- Rb, <- Rc, <- Rd in Hy. rewrite bind4, !elem_of_app.
      assert (Hroot' : forall t, rootW t ∈ visitedW t)
        by (intros t; destruct t; apply list_elem_of_here).
      repeat (apply elem_of_cons in Hy as [->|Hy]); auto.
      by apply elem_of_nil in Hy.
    + by apply (wo_new _ _ _ _ W y H2).
Qed.

Lemma traverseNodes_walk (rt : ref -> Planet -> option Planet) oracle x w p1 p2 t0
    n1 seg :
  (forall t0 p p', shaped (forestOf (world p)) t0 -> NoDup (preorder t0) ->
     rt (rootOf t0) p = Some p' ->
     exists t, walkedOver (world p) (world p') [t0] [t]) ->
  shaped (forestOf w) t0 -> NoDup (preorder t0) -> rootOf t0 = x ->
  settles x quadTree.WALKTHROUGH [] w (world p1) ->
  getNode (world p1) x = Some n1 -> segment n1 = Some seg ->
  traverseNodes rt oracle x p1 = Some p2 ->
  exists t, walkedOver w (world p2) [t0] [t].
Proof.
  intros IH Hs Hnd Hroot S Hn1 Hseg H.
  unfold traverseNodes in H. rewrite Hn1 in H. cbn [mbind option_bind] in H.
  pose proof S as (S1 & S2 & S3 & S4).
  pose proof (S3 x) as Kx. rewrite Hn1 in Kx.
  rewrite Hn1 in S1. simpl in S1. injection S1 as Hst1.
  destruct t0 as [r|r a b c d]; simpl in Hroot; subst r.
  - destruct Hs as (n & Hn & Hr). cbn [planet forestOf] in Hn.
    rewrite Hn in Kx. simpl in Kx.
    assert (Hr1 : ready n1 = false) by congruence.
    rewrite Hr1 in H. cbn [negb] in H. unfold onWorld in H.
    destruct (createChildrenNodes oracle x (world p1)) as [w2|] eqn:E; [|discriminate].
    cbn [mbind option_bind] in H.
    destruct (ok_inv _ _ w2 (createChildrenNodes_effect oracle x (world p1) n1 seg
                               Hn1 Hseg) E) as (kids & C).
    pose proof (kids_distinct _ _ _ _ _ _ _ C) as Hd.
    pose proof (kids_parent _ _ _ _ _ _ _ C) as Hp.
    destruct (kids_walk rt x _ (Leaf (q0 kids)) (Leaf (q1 kids)) (Leaf (q2 kids))
                (Leaf (q3 kids)) (set_world w2 p1) p2 IH Hp)
      as (ta & tb & tc & td & W); try exact H; try reflexivity.
    { exists (newNode oracle (SegmentPrototype n1) quadTree.NW (Some x)
                (nodeId n1 * 4 + 1) (tileZoom seg + 1)
                (childExtent (_extent seg) quadTree.NW)).
      split; [apply (kids_built _ _ _ _ _ _ _ C quadTree.NW)|reflexivity]. }
    { exists (newNode oracle (SegmentPrototype n1) quadTree.NE (Some x)
                (nodeId n1 * 4 + 1) (tileZoom seg + 1)
                (childExtent (_extent seg) quadTree.NE)).
      split; [apply (kids_built _ _ _ _ _ _ _ C quadTree.NE)|reflexivity]. }
    { exists (newNode oracle (SegmentPrototype n1) quadTree.SW (Some x)
                (nodeId n1 * 4 + 1) (tileZoom seg + 1)
                (childExtent (_extent seg) quadTree.SW)).
      split; [apply (kids_built _ _ _ _ _ _ _ C quadTree.SW)|reflexivity]. }
    { exists (newNode oracle (SegmentPrototype n1) quadTree.SE (Some x)
                (nodeId n1 * 4 + 1) (tileZoom seg + 1)
                (childExtent (_extent seg) quadTree.SE)).
      split; [apply (kids_built _ _ _ _ _ _ _ C quadTree.SE)|reflexivity]. }
    { exact Hd. }
    exists (Split x ta tb tc td).
    apply (split_assemble x w (world p1) w2 (world p2) (Leaf x) _
             (Leaf (q0 kids)) (Leaf (q1 kids)) (Leaf (q2 kids)) (Leaf (q3 kids))
             ta tb tc td S eq_refl Hp); try reflexivity; try assumption.
    + by destruct (kids_world _ _ _ _ _ _ _ C).
    + intros y [m Hm] Hne. apply (kids_others _ _ _ _ _ _ _ C); [exact Hne|].
      intros part ->. rewrite (kids_new _ _ _ _ _ _ _ C part) in Hm. discriminate.
    + intros y Hy. cbn [preorder app] in Hy.
      apply NoDup_cons in Hd as [Hx _].
      split; [by intros ->|]. right.
      repeat (apply elem_of_cons in Hy as [->|Hy]).
      * apply (kids_new _ _ _ _ _ _ _ C quadTree.NW).
      * apply (kids_new _ _ _ _ _ _ _ C quadTree.NE).
      * apply (kids_new _ _ _ _ _ _ _ C quadTree.SW).
      * apply (kids_new _ _ _ _ _ _ _ C quadTree.SE).
      * by apply elem_of_nil in Hy.
    + intros y Hy [m Hm]. cbn [rootOf].
      destruct (decide (y = q0 kids)) as [->|N0]; [apply list_elem_of_here|].
      destruct (decide (y = q1 kids)) as [->|N1];
        [do 1 apply list_elem_of_further; apply list_elem_of_here|].
      destruct (decide (y = q2 kids)) as [->|N2];
        [do 2 apply list_elem_of_further; apply list_elem_of_here|].
      destruct (decide (y = q3 kids)) as [->|N3];
        [do 3 apply list_elem_of_further; apply list_elem_of_here|].
      exfalso. rewrite (kids_others _ _ _ _ _ _ _ C y) in Hm; [congruence| |].
      * intros ->. congruence.
      * intros part. by destruct part.
  - destruct Hs as ((n & Hn & Hr & _ & Hq) & Sa & Sb & Sc & Sd).
    cbn [planet forestOf] in Hn. rewrite Hn in Kx. simpl in Kx.
    assert (Hr1 : ready n1 = true) by congruence.
    assert (Hq1 : nodes n1 = mkQuad (Some (rootOf a)) (Some (rootOf b))
                                     (Some (rootOf c)) (Some (rootOf d)))
      by congruence.
    rewrite Hr1 in H. cbn [negb mbind option_bind] in H.
    pose proof Hnd as Hnd'. cbn [preorder] in Hnd'.
    apply NoDup_cons in Hnd' as [Hx _].
    assert (Hloc : forall k, k ∈ [a; b; c; d] -> shaped (forestOf w) k ->
              shaped (forestOf (world p1)) k).
    { intros k Hk. apply shaped_local. intros y Hy.
      apply (settles_walkView x quadTree.WALKTHROUGH []); [exact S|].
      intros ->. apply Hx. by apply (kid_preorder x a b c d k). }
    destruct (kids_walk rt x n1 a b c d p1 p2 IH Hn1 Hq1)
      as (ta & tb & tc & td & W); try exact H; try exact Hnd.
    { apply Hloc; [apply list_elem_of_here|exact Sa]. }
    { apply Hloc; [do 1 apply list_elem_of_further; apply list_elem_of_here|exact Sb]. }
    { apply Hloc; [do 2 apply list_elem_of_further; apply list_elem_of_here|exact Sc]. }
    { apply Hloc; [do 3 apply list_elem_of_further; apply list_elem_of_here|exact Sd]. }
    exists (Split x ta tb tc td).
    apply (split_assemble x w (world p1) (world p1) (world p2) (Branch x a b c d) n1
             a b c d ta tb tc td S eq_refl Hn1); try reflexivity; try assumption.
    + intros y Hy. split; [by intros ->|]. left. by apply list_elem_of_further.
    + intros y Hy [m Hm]. congruence.
Qed.

Lemma renderTree_walkedOver loops view oracle maxZoom fuel :
  forall t0 p p',
    shaped (forestOf (world p)) t0 -> NoDup (preorder t0) ->
    renderTree fuel loops view oracle maxZoom (rootOf t0) p = Some p' ->
    exists t, walkedOver (world p) (world p') [t0] [t].
Proof.
  induction fuel as [|fuel IH]; intros t0 p p' Hs Hnd H; [discriminate|].
  cbn [renderTree] in H. set (x := rootOf t0) in *.
  destruct (onWorld (renderTree_enter x) p) as [p1|] eqn:E1; [|discriminate].
  cbn [mbind option_bind] in H. unfold onWorld in E1.
  destruct (renderTree_enter x (world p)) as [w1|] eqn:E; [|discriminate].
  apply renderTree_enter_settles in E. injection E1 as <-.
  cbn [world set_world] in H.
  destruct (getNode w1 x) as [n1|] eqn:Hn1; [|discriminate].
  cbn [mbind option_bind] in H.
  destruct (segment n1) as [seg|] eqn:Hseg; [|discriminate].
  cbn [mbind option_bind] in H.
  rewrite andb_false_r, orb_false_r in H.
  match type of H with
  | mbind _ ?m = Some _ => destruct m as [p2|] eqn:E2; [|discriminate]
  end.
  cbn [mbind option_bind] in H.
  assert (Hw : world p' = world p2).
  { injection H as <-. by destruct (containsSphere view w1 x && _). }
  rewrite Hw. clear H Hw.
  assert (Hleaf : forall h altVis,
            prepareForRendering loops h altVis false x (set_world w1 p) = Some p2 ->
            exists t, walkedOver (world p) (world p2) [t0] [t]).
  { intros h altVis Hp.
    destruct (prepareForRendering_settles _ _ _ _ _ _ Hp) as (t & Ht & S).
    cbn [world set_world] in S.
    pose proof (settles_again _ _ _ _ _ _ _ _ E S) as S'. cbn [app] in S'.
    exists t. eapply walkedOver_leaf; [exact S'|reflexivity|].
    destruct Ht as [-> | ->]; [left|right]; auto. }
  assert (Htrav : traverseNodes (renderTree fuel loops view oracle maxZoom) oracle x
                    (set_world w1 p) = Some p2 ->
                  exists t, walkedOver (world p) (world p2) [t0] [t]).
  { intros Ht.
    apply (traverseNodes_walk _ oracle x (world p) (set_world w1 p) p2 t0 n1 seg IH);
      try assumption; reflexivity. }
  destruct (_ || _).
  - destruct (_ && _); [by apply Htrav|].
    destruct (_ || _); [by eapply Hleaf|].
    destruct (_ <? _); [by apply Htrav|by eapply Hleaf].
  - apply hide_settles in E2. cbn [world set_world] in E2.
    pose proof (settles_again _ _ _ _ _ _ _ _ E E2) as S'. cbn [app] in S'.
    exists (Hidden x). eapply walkedOver_leaf; [exact S'|reflexivity|]. left. auto.
Qed.

(** ** whileNormalMapCreating: a segment is queued once *)

Lemma queuedRefs_app l1 l2 : queuedRefs (l1 ++ l2) = queuedRefs l1 ++ queuedRefs l2.
Proof. apply omap_app. Qed.

Lemma queuing_refl w : queuing w w.
Proof.
  exists []. split; [by rewrite app_nil_r|]. split; [constructor|].
  split; [|auto]. intros r Hr. by apply elem_of_nil in Hr.
Qed.

Lemma queuing_trans w1 w2 w3 : queuing w1 w2 -> queuing w2 w3 -> queuing w1 w3.
Proof.
  intros (a1 & C1 & N1 & Q1 & K1) (a2 & C2 & N2 & Q2 & K2).
  exists (a1 ++ a2). split; [by rewrite C2, C1, app_assoc|].
  rewrite queuedRefs_app. split; [|split].
  - apply NoDup_app. split; [exact N1|]. split; [|exact N2].
    intros r H1 H2. destruct (Q1 r H1) as [_ T]. by destruct (Q2 r H2).
  - intros r Hr. apply elem_of_app in Hr as [Hr|Hr].
    + destruct (Q1 r Hr). split; [assumption|]. by apply K2.
    + destruct (Q2 r Hr) as [F T]. split; [|exact T].
      intros H. apply F. by apply K1.
  - intros r Hr. by apply K2, K1.
Qed.

Lemma modify_calls r f w w' : modify r f w = Some w' -> calls w' = calls w.
Proof. intros H. by apply modify_inv in H as (n & n' & _ & _ & ->). Qed.

Lemma queued_kept w w' r :
  kept (onSegment _inTheQueue) w w' -> queued w' r = queued w r.
Proof. intros H. by apply kept_segmentAt. Qed.

Lemma queuing_kept w w' added :
  calls w' = calls w ++ added -> queuedRefs added = [] ->
  kept (onSegment _inTheQueue) w w' -> queuing w w'.
Proof.
  intros C Q K. exists added. split; [exact C|]. rewrite Q.
  split; [constructor|]. split.
  - intros r Hr. by apply elem_of_nil in Hr.
  - intros r Hr. by rewrite (queued_kept w w' r K).
Qed.

Lemma modify_segment_queuing r g w w' :
  modify_segment r g w = Some w' ->
  (forall s, _inTheQueue (g s) = _inTheQueue s) -> queuing w w'.
Proof.
  intros H Hg. apply (queuing_kept w w' []).
  - rewrite app_nil_r. by eapply modify_calls.
  - reflexivity.
  - by eapply modify_segment_kept.
Qed.

Lemma seg_createPlainSegment_queuing r w w' :
  seg_createPlainSegment r w = Some w' -> queuing w w'.
Proof.
  intros H. apply (queuing_kept w w' [createPlainSegment r]).
  - unfold seg_createPlainSegment in H. by rewrite (modify_calls _ _ _ _ H).
  - reflexivity.
  - eapply kept_trans; [apply (call_kept _ (createPlainSegment r))|].
    by eapply modify_segment_kept.
Qed.

Lemma loadTerrain_queuing r p w w' :
  seg_call r (loadTerrain p) w = Some w' -> queuing w w'.
Proof.
  unfold seg_call. intros H. destruct (segmentAt w r); [|discriminate].
  injection H as <-. apply (queuing_kept _ _ [loadTerrain p]); try reflexivity.
  apply call_kept.
Qed.

Lemma seg_queue_queuing r w w' s :
  seg_queue r w = Some w' -> segmentAt w r = Some s -> _inTheQueue s = false ->
  queuing w w'.
Proof.
  intros H Hs Hq. unfold seg_queue in H.
  pose proof (modify_calls _ _ _ _ H) as C.
  pose proof (modify_getNode _ _ _ _ H) as G.
  assert (Hq' : forall r', queued w' r' = if decide (r = r') then Some true
                                          else queued w r').
  { intros r'. unfold queued, segmentAt. rewrite (G r').
    destruct (decide (r = r')) as [<-|]; [|reflexivity].
    unfold segmentAt in Hs. change (getNode (call _ w) r) with (getNode w r).
    destruct (getNode w r) as [n|]; [|discriminate]. simpl in Hs |- *.
    rewrite Hs. reflexivity. }
  exists [normalMapCreator_queue r]. split; [exact C|].
  split; [apply NoDup_singleton|]. split.
  - intros r' Hr'. apply list_elem_of_singleton in Hr' as ->.
    split; [unfold queued; rewrite Hs; simpl; congruence|].
    by rewrite Hq', decide_True.
  - intros r' Hr'. rewrite Hq'. destruct (decide (r = r')); [reflexivity|exact Hr'].
Qed.

Lemma normalMapBeyondMaxZoom_queuing fuel this pn seg w w' :
  normalMapBeyondMaxZoom fuel this pn seg w = Some w' -> queuing w w'.
Proof.
  unfold normalMapBeyondMaxZoom. intros H.
  destruct (_ <? _); [|injection H as <-; apply queuing_refl].
  destruct (segmentAt w pn) as [pseg|]; [cbn [mbind option_bind] in H|discriminate].
  destruct (_ =? _).
  { eapply modify_segment_queuing; [exact H|reflexivity]. }
  destruct (climb _ _ w this) as [top|]; [cbn [mbind option_bind] in H|discriminate].
  destruct (segmentAt w top) as [pns|] eqn:Hpns;
    [cbn [mbind option_bind] in H|discriminate].
  destruct (seg_ready pns); cbn [negb] in H.
  - destruct (_inTheQueue pns) eqn:Hq; cbn [negb andb] in H;
      [injection H as <-; apply queuing_refl|].
    destruct (terrainIsLoading pns); cbn [negb] in H;
      [injection H as <-; apply queuing_refl|].
    by eapply seg_queue_queuing.
  - destruct (seg_createPlainSegment top w) as [w1|] eqn:E1;
      [cbn [mbind option_bind] in H|discriminate].
    eapply queuing_trans; [by eapply seg_createPlainSegment_queuing|].
    by eapply loadTerrain_queuing.
Qed.

Lemma whileNormalMapCreating_queuing fuel this w w' :
  whileNormalMapCreating fuel this w = Some w' -> queuing w w'.
Proof.
  unfold whileNormalMapCreating. intros H.
  destruct (getNode w this) as [n|] eqn:Hn; [cbn [mbind option_bind] in H|discriminate].
  destruct (segment n) as [seg|] eqn:Hseg; [cbn [mbind option_bind] in H|discriminate].
  match type of H with
  | mbind _ ?m = Some _ => destruct m as [w1|] eqn:E1; [|discriminate]
  end.
  cbn [mbind option_bind] in H.
  assert (Q1 : queuing w w1).
  { destruct (_ && _) eqn:G; [|injection E1 as <-; apply queuing_refl].
    apply andb_prop in G as [_ G]. apply negb_true_iff in G.
    eapply seg_queue_queuing; [exact E1| |exact G].
    unfold segmentAt. rewrite Hn. exact Hseg. }
  destruct (climb _ _ w1 this) as [pn|]; [cbn [mbind option_bind] in H|discriminate].
  destruct (segmentAt w1 pn) as [pseg|]; [cbn [mbind option_bind] in H|discriminate].
  destruct (modify_segment this _ w1) as [w2|] eqn:E2;
    [cbn [mbind option_bind] in H|discriminate].
  apply modify_segment_queuing in E2; [|reflexivity].
  destruct (segmentAt w2 pn) as [pseg'|]; [cbn [mbind option_bind] in H|discriminate].
  destruct (modify_segment this _ w2) as [w3|] eqn:E3;
    [cbn [mbind option_bind] in H|discriminate].
  apply modify_segment_queuing in E3; [|reflexivity].
  apply normalMapBeyondMaxZoom_queuing in H.
  eapply queuing_trans; [exact Q1|]. eapply queuing_trans; [exact E2|].
  by eapply queuing_trans.
Qed.

(** However often [whileNormalMapCreating] runs, and on whichever nodes,
    it hands a segment to the normal map creator at most once, and never
    a segment that is already flagged [_inTheQueue]. *)
Theorem whileNormalMapCreating_queue_once (fuel : nat) (rs : list ref)
    (w w' : World) :
  forEach (whileNormalMapCreating fuel) rs w = Some w' ->
  exists added,
    calls w' = calls w ++ added /\
    NoDup (queuedRefs added) /\
    (forall r, r ∈ queuedRefs added ->
       queued w r <> Some true /\ queued w' r = Some true) /\
    (forall r, queued w r = Some true -> queued w' r = Some true).
Proof.
  revert w. induction rs as [|r rs IH]; intros w H.
  - injection H as <-. apply queuing_refl.
  - simpl in H.
    destruct (whileNormalMapCreating fuel r w) as [w1|] eqn:E; [|discriminate].
    simpl in H. apply whileNormalMapCreating_queuing in E.
    apply (queuing_trans w w1 w' E). by apply IH.
Qed.

Lemma whileNormalMapCreating_queue_once_witness :
  exists w' added,
    forEach (whileNormalMapCreating 2) [0; 1; 0; 1]%nat loadedWorld = Some w' /\
    calls w' = added /\ queuedRefs added = [0; 1]%nat.
Proof.
  destruct (forEach (whileNormalMapCreating 2) [0; 1; 0; 1]%nat loadedWorld)
    as [w'|] eqn:E.
  - destruct (whileNormalMapCreating_queue_once 2 [0; 1; 0; 1]%nat loadedWorld w' E)
      as (added & C & N & Q & K).
    exists w', added. split; [reflexivity|]. split; [exact C|].
    vm_compute in E. injection E as <-. simpl in C. by rewrite <- C.
  - exfalso. vm_compute in E. discriminate E.
Defined.

(** ** renderTree: how deep the tree grows *)

Lemma deepened_refl B w : deepened B w w.
Proof.
  split; [intros r n Hn; by exists n|].
  intros r n z H1 H2. congruence.
Qed.

Lemma deepened_trans B w1 w2 w3 :
  deepened B w1 w2 -> deepened B w2 w3 -> deepened B w1 w3.
Proof.
  intros [A1 A2] [B1 B2]. split.
  - intros r n Hn. destruct (A1 r n Hn) as (n1 & Hn1 & Z1).
    destruct (B1 r n1 Hn1) as (n2 & Hn2 & Z2). exists n2. split; congruence.
  - intros r n z H1 H3 Hz. destruct (getNode w2 r) as [n2|] eqn:H2.
    + destruct (B1 r n2 H2) as (n3 & Hn3 & Z3).
      apply (A2 r n2 z H1 H2). congruence.
    + by apply (B2 r n z H2 H3).
Qed.

Lemma kept_deepened B w w' : kept zoomOf w w' -> deepened B w w'.
Proof.
  intros K. split.
  - intros r n Hn. specialize (K r). rewrite Hn in K.
    destruct (getNode w' r) as [n'|]; [|discriminate].
    exists n'. split; [reflexivity|]. simpl in K. congruence.
  - intros r n z H1 H2. specialize (K r). rewrite H1, H2 in K. discriminate.
Qed.

Lemma settles_deepened B x st added w w' : settles x st added w w' -> deepened B w w'.
Proof.
  intros (_ & _ & S3 & _). apply kept_deepened. intros r. specialize (S3 r).
  destruct (getNode w' r), (getNode w r); simpl in *; congruence.
Qed.

Lemma childrenCreated_deepened B oracle this n ps w w' kids :
  childrenCreated oracle this n ps w w' kids ->
  getNode w this = Some n ->
  tileZoom ps + 1 <= B -> deepened B w w'.
Proof.
  intros C Hn Hz. split.
  - intros r m Hm. destruct (decide (r = this)) as [->|Hne].
    + rewrite (kids_parent _ _ _ _ _ _ _ C). eexists. split; [reflexivity|].
      by assert (m = n) as -> by congruence.
    + exists m. split; [|reflexivity].
      rewrite (kids_others _ _ _ _ _ _ _ C r Hne); [exact Hm|].
      intros part ->. rewrite (kids_new _ _ _ _ _ _ _ C part) in Hm. discriminate.
  - intros r m z H1 H2 Hzm.
    assert (Hne : r <> this) by congruence.
    destruct (decide (r = q0 kids)) as [->|N0].
    { pose proof (kids_built _ _ _ _ _ _ _ C quadTree.NW) as Hb. simpl in Hb.
      rewrite Hb in H2. injection H2 as <-. injection Hzm as <-. exact Hz. }
    destruct (decide (r = q1 kids)) as [->|N1].
    { pose proof (kids_built _ _ _ _ _ _ _ C quadTree.NE) as Hb. simpl in Hb.
      rewrite Hb in H2. injection H2 as <-. injection Hzm as <-. exact Hz. }
    destruct (decide (r = q2 kids)) as [->|N2].
    { pose proof (kids_built _ _ _ _ _ _ _ C quadTree.SW) as Hb. simpl in Hb.
      rewrite Hb in H2. injection H2 as <-. injection Hzm as <-. exact Hz. }
    destruct (decide (r = q3 kids)) as [->|N3].
    { pose proof (kids_built _ _ _ _ _ _ _ C quadTree.SE) as Hb. simpl in Hb.
      rewrite Hb in H2. injection H2 as <-. injection Hzm as <-. exact Hz. }
    rewrite (kids_others _ _ _ _ _ _ _ C r Hne) in H2; [congruence|].
    intros part. by destruct part.
Qed.

Lemma hide_length x p p' :
  hide x p = Some p' -> gridSizeByZoom_length p' = gridSizeByZoom_length p.
Proof.
  unfold hide, onWorld. intros H.
  destruct (modify x _ (world p)); [|discriminate]. by injection H as <-.
Qed.

Lemma renderNode_length loops b x p p' :
  renderNode loops b x p = Some p' ->
  gridSizeByZoom_length p' = gridSizeByZoom_length p.
Proof.
  unfold renderNode, onWorld. intros H.
  destruct (segmentAt (world p) x) as [seg|]; [|discriminate].
  cbn [mbind option_bind] in H.
  match type of H with
  | mbind _ ?m = Some _ => destruct m as [p1|] eqn:E1; [|discriminate]
  end.
  assert (L1 : gridSizeByZoom_length p1 = gridSizeByZoom_length p).
  { destruct (negb _); [|by injection E1 as <-].
    destruct (whileTerrainLoading loops x (world p)) as [[go w1]|]; [|discriminate].
    cbn [mbind option_bind] in E1. destruct go; [|by injection E1 as <-].
    cbn [world set_world] in E1.
    destruct (seg_call x _ w1); [|discriminate]. by injection E1 as <-. }
  cbn [mbind option_bind] in H. rewrite <- L1.
  destruct b; [by eapply hide_length|].
  destruct (segmentAt (world p1) x) as [seg1|]; [|discriminate].
  cbn [mbind option_bind] in H.
  match type of H with
  | mbind _ ?m = Some _ => destruct m as [p2|] eqn:E2; [|discriminate]
  end.
  assert (L2 : gridSizeByZoom_length p2 = gridSizeByZoom_length p1).
  { destruct (_ && _); [|by injection E2 as <-].
    destruct (whileNormalMapCreating loops x (world p1)); [|discriminate].
    by injection E2 as <-. }
  cbn [mbind option_bind] in H. rewrite <- L2.
  destruct (getNode (world p2) x) as [n|]; [|discriminate].
  cbn [mbind option_bind] in H.
  destruct (segment n) as [seg2|]; [|discriminate].
  cbn [mbind option_bind] in H.
  match type of H with
  | mbind _ ?m = Some _ => destruct m as [w3|]; [|discriminate]
  end.
  injection H as <-. repeat case_match; reflexivity.
Qed.

Lemma prepareForRendering_length loops h altVis b x p p' :
  prepareForRendering loops h altVis b x p = Some p' ->
  gridSizeByZoom_length p' = gridSizeByZoom_length p.
Proof.
  unfold prepareForRendering. intros H.
  destruct (num_ltb h 3000000); [destruct altVis|];
    first [by eapply renderNode_length|by eapply hide_length].
Qed.

Lemma renderTree_deepened loops view oracle maxZoom fuel :
  forall x p p',
    renderTree fuel loops view oracle maxZoom x p = Some p' ->
    deepened (deepestZoom p) (world p) (world p') /\
    gridSizeByZoom_length p' = gridSizeByZoom_length p.
Proof.
  induction fuel as [|fuel IH]; intros x p p' H; [discriminate|].
  cbn [renderTree] in H.
  destruct (onWorld (renderTree_enter x) p) as [p1|] eqn:E1; [|discriminate].
  cbn [mbind option_bind] in H. unfold onWorld in E1.
  destruct (renderTree_enter x (world p)) as [w1|] eqn:E; [|discriminate].
  apply renderTree_enter_settles in E. injection E1 as <-.
  cbn [world set_world] in H.
  destruct (getNode w1 x) as [n1|] eqn:Hn1; [|discriminate].
  cbn [mbind option_bind] in H.
  destruct (segment n1) as [seg|] eqn:Hseg; [|discriminate].
  cbn [mbind option_bind] in H.
  rewrite andb_false_r, orb_false_r in H.
  match type of H with
  | mbind _ ?m = Some _ => destruct m as [p2|] eqn:E2; [|discriminate]
  end.
  cbn [mbind option_bind] in H.
  assert (Hw : world p' = world p2 /\
               gridSizeByZoom_length p' = gridSizeByZoom_length p2).
  { injection H as <-. by destruct (containsSphere view w1 x && _). }
  destruct Hw as [-> ->]. clear H.
  set (B := deepestZoom p).
  apply (settles_deepened B) in E.
  assert (Hgo : deepened B w1 (world p2) /\
                gridSizeByZoom_length p2 = gridSizeByZoom_length p);
    [|destruct Hgo; split; [by eapply deepened_trans|assumption]].
  assert (Hleaf : forall h altVis,
            prepareForRendering loops h altVis false x (set_world w1 p) = Some p2 ->
            deepened B w1 (world p2) /\
            gridSizeByZoom_length p2 = gridSizeByZoom_length p).
  { intros h altVis Hp. split; [|by apply prepareForRendering_length in Hp].
    destruct (prepareForRendering_settles _ _ _ _ _ _ Hp) as (t & _ & S).
    by eapply settles_deepened. }
  assert (Htrav : tileZoom seg + 1 <= B ->
            traverseNodes (renderTree fuel loops view oracle maxZoom) oracle x
              (set_world w1 p) = Some p2 ->
            deepened B w1 (world p2) /\
            gridSizeByZoom_length p2 = gridSizeByZoom_length p).
  { intros Hz Ht. unfold traverseNodes in Ht. cbn [world set_world] in Ht.
    rewrite Hn1 in Ht. cbn [mbind option_bind] in Ht.
    match type of Ht with
    | mbind _ ?m = Some _ => destruct m as [q0|] eqn:E0; [|discriminate]
    end.
    cbn [mbind option_bind] in Ht.
    assert (H0 : deepened B w1 (world q0) /\
                 gridSizeByZoom_length q0 = gridSizeByZoom_length p).
    { destruct (negb (ready n1)); [|injection E0 as <-; split;
                                    [apply deepened_refl|reflexivity]].
      unfold onWorld in E0. cbn [world set_world] in E0.
      destruct (createChildrenNodes oracle x w1) as [w2|] eqn:Ec; [|discriminate].
      injection E0 as <-. split; [|reflexivity].
      destruct (ok_inv _ _ w2 (createChildrenNodes_effect oracle x w1 n1 seg
                                 Hn1 Hseg) Ec) as (kids & C).
      by eapply childrenCreated_deepened. }
    destruct H0 as [D0 L0].
    assert (Hkid : forall part q q',
              gridSizeByZoom_length q = gridSizeByZoom_length p ->
              renderChild (renderTree fuel loops view oracle maxZoom) x part q = Some q' ->
              deepened B (world q) (world q') /\
              gridSizeByZoom_length q' = gridSizeByZoom_length p).
    { intros part q q' Lq Hq. unfold renderChild in Hq.
      destruct (getNode (world q) x) as [nq|]; [|discriminate].
      cbn [mbind option_bind] in Hq.
      destruct (part_get (nodes nq) part) as [c|]; [|discriminate].
      cbn [mbind option_bind] in Hq.
      destruct (IH c q q' Hq) as [Dq Lq']. split; [|congruence].
      unfold deepestZoom in Dq. rewrite Lq in Dq. exact Dq. }
    destruct (renderChild _ x quadTree.NW q0) as [q1|] eqn:R1; [|discriminate].
    cbn [mbind option_bind] in Ht.
    destruct (renderChild _ x quadTree.NE q1) as [q2|] eqn:R2; [|discriminate].
    cbn [mbind option_bind] in Ht.
    destruct (renderChild _ x quadTree.SW q2) as [q3|] eqn:R3; [|discriminate].
    cbn [mbind option_bind] in Ht.
    destruct (Hkid _ _ _ L0 R1) as [D1 L1].
    destruct (Hkid _ _ _ L1 R2) as [D2 L2].
    destruct (Hkid _ _ _ L2 R3) as [D3 L3].
    destruct (Hkid _ _ _ L3 Ht) as [D4 L4].
    split; [|exact L4].
    eapply deepened_trans; [exact D0|]. eapply deepened_trans; [exact D1|].
    eapply deepened_trans; [exact D2|]. by eapply deepened_trans. }
  destruct (_ || _).
  - destruct (_ && _) eqn:G1.
    { apply Htrav; [|exact E2]. apply andb_prop in G1 as [G1 _].
      apply Z.ltb_lt in G1. unfold B, deepestZoom. lia. }
    destruct (_ || _); [by eapply Hleaf|].
    destruct (tileZoom seg <? gridSizeByZoom_length _ - 1) eqn:G2; [|by eapply Hleaf].
    apply Htrav; [|exact E2]. apply Z.ltb_lt in G2.
    cbn [gridSizeByZoom_length set_world] in G2. unfold B, deepestZoom. lia.
  - split; [|by apply hide_length in E2].
    apply hide_settles in E2. by eapply settles_deepened.
Qed.

(** ** renderTree: a segment is queued once in a walk *)

Lemma modify_queuing r f w w' :
  modify r f w = Some w' ->
  (forall n n', f n = Some n' ->
     onSegment _inTheQueue n' = onSegment _inTheQueue n) ->
  queuing w w'.
Proof.
  intros H Hf. apply (queuing_kept w w' []).
  - rewrite app_nil_r. by eapply modify_calls.
  - reflexivity.
  - by eapply modify_kept.
Qed.

Lemma seg_call_queuing r c w w' :
  seg_call r c w = Some w' -> queuedRefs [c] = [] -> queuing w w'.
Proof.
  unfold seg_call. intros H Hc. destruct (segmentAt w r); [|discriminate].
  injection H as <-. apply (queuing_kept _ _ [c]); [reflexivity|exact Hc|].
  apply call_kept.
Qed.

Lemma same_store_queuing w w' :
  heap w' = heap w -> calls w' = calls w -> queuing w w'.
Proof.
  intros Hh Hc. apply (queuing_kept w w' []).
  - by rewrite app_nil_r.
  - reflexivity.
  - intros r. unfold getNode. by rewrite Hh.
Qed.

Ltac queue_step E :=
  first
    [ apply seg_createPlainSegment_queuing in E
    | (apply modify_segment_queuing in E; [|reflexivity])
    | (apply seg_call_queuing in E; [|reflexivity])
    | (eapply modify_queuing in E;
       [|let Hf := fresh "Hf" in
         intros ? ? Hf;
         unfold assign_neighbor, assign_hasNeighbor, assign_sideSize in Hf;
         simplify_option_eq; reflexivity]) ].

Ltac queue_apart H := run_apart ltac:(fun E => queue_step E) H.

Ltac queue_chain :=
  solve [ apply queuing_refl
        | eassumption
        | eapply queuing_trans; [eassumption|queue_chain] ].

Lemma subMesh_queuing this pn grid fgs fgsZ offsetX offsetY w r :
  subMesh this pn grid fgs fgsZ offsetX offsetY w = Some r -> queuing w r.2.
Proof.
  unfold subMesh. intros H. queue_apart H. all: simpl; queue_chain.
Qed.

Lemma interpolate_queuing this pn grid offsetX offsetY w r :
  interpolate this pn grid offsetX offsetY w = Some r -> queuing w r.2.
Proof.
  unfold interpolate. intros H. queue_apart H. all: simpl; queue_chain.
Qed.

Lemma inheritMesh_queuing this pn dZ2 offsetX offsetY w r :
  inheritMesh this pn dZ2 offsetX offsetY w = Some r -> queuing w r.2.
Proof.
  unfold inheritMesh. intros H. queue_apart H.
  all: repeat match goal with
       | E : subMesh _ _ _ _ _ _ _ _ = Some _ |- _ =>
           apply subMesh_queuing in E; simpl in E
       | E : interpolate _ _ _ _ _ _ = Some _ |- _ =>
           apply interpolate_queuing in E; simpl in E
       end.
  all: simpl; queue_chain.
Qed.

Lemma beyondMaxZoom_queuing loops this pn tv tn w w' :
  beyondMaxZoom loops this pn tv tn w = Some w' -> queuing w w'.
Proof.
  unfold beyondMaxZoom. intros H. queue_apart H. all: queue_chain.
Qed.

Lemma whileTerrainLoading_queuing loops this w r :
  whileTerrainLoading loops this w = Some r -> queuing w r.2.
Proof.
  unfold whileTerrainLoading. intros H. queue_apart H.
  all: repeat match goal with
       | E : inheritMesh _ _ _ _ _ _ = Some _ |- _ =>
           apply inheritMesh_queuing in E; simpl in E
       | E : beyondMaxZoom _ _ _ _ _ _ = Some _ |- _ =>
           apply beyondMaxZoom_queuing in E
       end.
  all: simpl; queue_chain.
Qed.

Lemma encounter_queuing x ni w w' : encounter x ni w = Some w' -> queuing w w'.
Proof.
  unfold encounter, link, negotiate, flag, resize. intros H. queue_apart H.
  all: queue_chain.
Qed.

Lemma scan_queuing x nis : forall w w', scan x nis w = Some w' -> queuing w w'.
Proof.
  induction nis as [|a nis IH]; intros w w' H; simpl in H.
  - injection H as <-. apply queuing_refl.
  - destruct (encounter x a w) as [w1|] eqn:E; [simpl in H|discriminate].
    eapply queuing_trans; [by eapply encounter_queuing|by eapply IH].
Qed.

Lemma addToRender_queuing x w w' : addToRender x w = Some w' -> queuing w w'.
Proof.
  unfold addToRender. intros H.
  destruct (modify x _ w) as [w0|] eqn:E0; [|discriminate].
  queue_step E0. cbn [mbind option_bind] in H.
  destruct (scan x _ w0) as [w1|] eqn:E1; [|discriminate].
  apply scan_queuing in E1. cbn [mbind option_bind] in H. injection H as <-.
  eapply queuing_trans; [exact E0|]. eapply queuing_trans; [exact E1|].
  by apply same_store_queuing.
Qed.

Lemma renderTree_enter_queuing x w w' :
  renderTree_enter x w = Some w' -> queuing w w'.
Proof.
  unfold renderTree_enter, renderTree_reset. intros H.
  match type of H with
  | mbind _ ?m = Some _ =>
      destruct m as [w4|] eqn:E; [queue_apart E; cbn [mbind option_bind] in H|discriminate]
  end.
  destruct (getNode _ x) as [n|]; [cbn [mbind option_bind] in H|discriminate].
  destruct (parentNode n) as [p|]; [|queue_step H; queue_chain].
  destruct (modify x _ _) as [w5|] eqn:E5; [|discriminate].
  queue_step E5. cbn [mbind option_bind] in H.
  destruct (getNode w5 p) as [pn|]; [cbn [mbind option_bind] in H|discriminate].
  destruct (_cameraInside pn); [|injection H as <-; queue_chain].
  destruct (segment n) as [s|]; [cbn [mbind option_bind] in H|discriminate].
  destruct (cameraTest (activeCamera w5) s) as [[[|] pos]|];
    cbn [fmap option_fmap option_map fst] in H.
  - queue_step H.
    eapply queuing_trans; [|exact H].
    eapply queuing_trans; [|by apply same_store_queuing].
    eapply queuing_trans; [|by apply same_store_queuing].
    queue_chain.
  - injection H as <-.
    eapply queuing_trans; [|by apply same_store_queuing]. queue_chain.
  - injection H as <-. queue_chain.
Qed.

Lemma childrenCreated_queuing oracle this n ps w w' kids :
  childrenCreated oracle this n ps w w' kids ->
  getNode w this = Some n -> queuing w w'.
Proof.
  intros C Hn. exists []. split.
  { rewrite app_nil_r. by destruct (kids_world _ _ _ _ _ _ _ C) as (_ & ? & _). }
  split; [constructor|]. split; [intros r Hr; by apply elem_of_nil in Hr|].
  intros r Hr. unfold queued, segmentAt in *.
  destruct (decide (r = this)) as [->|Hne].
  - rewrite (kids_parent _ _ _ _ _ _ _ C). rewrite Hn in Hr. exact Hr.
  - destruct (getNode w r) as [m|] eqn:Hm; [|discriminate].
    rewrite (kids_others _ _ _ _ _ _ _ C r Hne); [by rewrite Hm|].
    intros part ->. rewrite (kids_new _ _ _ _ _ _ _ C part) in Hm. discriminate.
Qed.

Lemma hide_queuing x p p' : hide x p = Some p' -> queuing (world p) (world p').
Proof.
  unfold hide, onWorld. intros H.
  destruct (modify x _ (world p)) as [w0|] eqn:E0; [|discriminate].
  injection H as <-. by queue_step E0.
Qed.

Lemma renderNode_queuing loops b x p p' :
  renderNode loops b x p = Some p' -> queuing (world p) (world p').
Proof.
  unfold renderNode, onWorld. intros H.
  destruct (segmentAt (world p) x) as [seg|]; [|discriminate].
  cbn [mbind option_bind] in H.
  match type of H with
  | mbind _ ?m = Some _ => destruct m as [p1|] eqn:E1; [|discriminate]
  end.
  assert (F1 : queuing (world p) (world p1)).
  { destruct (terrainReady seg); [injection E1 as <-; apply queuing_refl|].
    cbn [negb] in E1.
    destruct (whileTerrainLoading loops x (world p)) as [[go w1]|] eqn:E; [|discriminate].
    apply whileTerrainLoading_queuing in E. cbn [snd] in E.
    cbn [mbind option_bind] in E1.
    destruct go; [|injection E1 as <-; exact E].
    cbn [world set_world] in E1.
    destruct (seg_call x _ w1) as [w2|] eqn:E2; [|discriminate].
    apply seg_call_queuing in E2; [|reflexivity]. injection E1 as <-.
    by eapply queuing_trans. }
  cbn [mbind option_bind] in H.
  destruct b.
  { apply hide_queuing in H. by eapply queuing_trans. }
  destruct (segmentAt (world p1) x) as [seg1|]; [|discriminate].
  cbn [mbind option_bind] in H.
  match type of H with
  | mbind _ ?m = Some _ => destruct m as [p2|] eqn:E2; [|discriminate]
  end.
  assert (F2 : queuing (world p1) (world p2)).
  { destruct (_ && _); [|injection E2 as <-; apply queuing_refl].
    destruct (whileNormalMapCreating loops x (world p1)) as [w2|] eqn:E; [|discriminate].
    apply whileNormalMapCreating_queuing in E. by injection E2 as <-. }
  cbn [mbind option_bind] in H.
  destruct (getNode (world p2) x) as [n|]; [|discriminate].
  cbn [mbind option_bind] in H.
  destruct (segment n) as [seg2|]; [|discriminate].
  cbn [mbind option_bind] in H.
  match type of H with
  | mbind _ (addToRender x ?v) = Some _ =>
      destruct (addToRender x v) as [w3|] eqn:E3; [|discriminate];
      assert (Ev : v = world p2) by (repeat case_match; reflexivity)
  end.
  rewrite Ev in E3. apply addToRender_queuing in E3.
  injection H as <-. cbn [world set_world].
  eapply queuing_trans; [exact F1|]. by eapply queuing_trans.
Qed.

Lemma prepareForRendering_queuing loops h altVis b x p p' :
  prepareForRendering loops h altVis b x p = Some p' ->
  queuing (world p) (world p').
Proof.
  unfold prepareForRendering. intros H.
  destruct (num_ltb h 3000000); [destruct altVis|];
    first [by eapply renderNode_queuing|by eapply hide_queuing].
Qed.

Lemma renderTree_queuing loops view oracle maxZoom fuel :
  forall x p p',
    renderTree fuel loops view oracle maxZoom x p = Some p' ->
    queuing (world p) (world p').
Proof.
  induction fuel as [|fuel IH]; intros x p p' H; [discriminate|].
  cbn [renderTree] in H.
  destruct (onWorld (renderTree_enter x) p) as [p1|] eqn:E1; [|discriminate].
  cbn [mbind option_bind] in H. unfold onWorld in E1.
  destruct (renderTree_enter x (world p)) as [w1|] eqn:E; [|discriminate].
  apply renderTree_enter_queuing in E. injection E1 as <-.
  cbn [world set_world] in H.
  destruct (getNode w1 x) as [n1|] eqn:Hn1; [|discriminate].
  cbn [mbind option_bind] in H.
  destruct (segment n1) as [seg|] eqn:Hseg; [|discriminate].
  cbn [mbind option_bind] in H.
  match type of H with
  | mbind _ ?m = Some _ => destruct m as [p2|] eqn:E2; [|discriminate]
  end.
  cbn [mbind option_bind] in H.
  assert (Hw : world p' = world p2).
  { injection H as <-. by destruct (containsSphere view w1 x && _). }
  rewrite Hw. clear H Hw.
  apply (queuing_trans _ w1 _ E).
  assert (Htrav : traverseNodes (renderTree fuel loops view oracle maxZoom) oracle x
                    (set_world w1 p) = Some p2 ->
                  queuing w1 (world p2)).
  { intros Ht. unfold traverseNodes in Ht. cbn [world set_world] in Ht.
    rewrite Hn1 in Ht. cbn [mbind option_bind] in Ht.
    match type of Ht with
    | mbind _ ?m = Some _ => destruct m as [q0|] eqn:E0; [|discriminate]
    end.
    cbn [mbind option_bind] in Ht.
    assert (H0 : queuing w1 (world q0)).
    { destruct (negb (ready n1)); [|injection E0 as <-; apply queuing_refl].
      unfold onWorld in E0. cbn [world set_world] in E0.
      destruct (createChildrenNodes oracle x w1) as [w2|] eqn:Ec; [|discriminate].
      injection E0 as <-.
      destruct (ok_inv _ _ w2 (createChildrenNodes_effect oracle x w1 n1 seg
                                 Hn1 Hseg) Ec) as (kids & C).
      by eapply childrenCreated_queuing. }
    assert (Hkid : forall part q q',
              renderChild (renderTree fuel loops view oracle maxZoom) x part q = Some q' ->
              queuing (world q) (world q')).
    { intros part q q' Hq. unfold renderChild in Hq.
      destruct (getNode (world q) x) as [nq|]; [|discriminate].
      cbn [mbind option_bind] in Hq.
      destruct (part_get (nodes nq) part) as [c|]; [|discriminate].
      by apply (IH c). }
    destruct (renderChild _ x quadTree.NW q0) as [q1|] eqn:R1; [|discriminate].
    cbn [mbind option_bind] in Ht.
    destruct (renderChild _ x quadTree.NE q1) as [q2|] eqn:R2; [|discriminate].
    cbn [mbind option_bind] in Ht.
    destruct (renderChild _ x quadTree.SW q2) as [q3|] eqn:R3; [|discriminate].
    cbn [mbind option_bind] in Ht.
    apply Hkid in R1, R2, R3, Ht.
    eapply queuing_trans; [exact H0|]. eapply queuing_trans; [exact R1|].
    eapply queuing_trans; [exact R2|]. by eapply queuing_trans. }
  destruct (_ || _).
  - destruct (_ && _); [by apply Htrav|].
    destruct (_ || _); [by apply prepareForRendering_queuing in E2|].
    destruct (_ <? _); [by apply Htrav|by apply prepareForRendering_queuing in E2].
  - by apply hide_queuing in E2.
Qed.

(** ** renderTree: the divisors of a frame *)

Lemma steady_refl w : steady w w.
Proof. split; [apply kept_refl|]. intros r s s' H1 H2. congruence. Qed.

Lemma steady_zoom w w' r s :
  steady w w' -> segmentAt w r = Some s ->
  exists s', segmentAt w' r = Some s' /\ tileZoom s' = tileZoom s.
Proof.
  intros [K _] Hs. specialize (K r). unfold segmentAt, zoomOf in *.
  destruct (getNode w r) as [n|]; [|discriminate]. simpl in Hs.
  destruct (getNode w' r) as [n'|]; [|discriminate]. simpl in *.
  rewrite Hs in K. injection K as _ K.
  destruct (segment n') as [s'|]; [|discriminate].
  exists s'. split; [reflexivity|]. simpl in K. congruence.
Qed.

Lemma steady_trans w1 w2 w3 : steady w1 w2 -> steady w2 w3 -> steady w1 w3.
Proof.
  intros S1 S2. split; [eapply kept_trans; [apply S1|apply S2]|].
  intros r s s3 H1 H3 Hg.
  destruct (steady_zoom _ _ _ _ S1 H1) as (s2 & H2 & _).
  destruct S1 as [_ G1], S2 as [_ G2]. eauto.
Qed.

Lemma steady_sound w w' : steady w w' -> sound w -> sound w'.
Proof.
  intros S Hs r n' Hn'. pose proof S as [K G].
  pose proof (K r) as Kr. change (heap w' !! r) with (getNode w' r) in Hn'.
  rewrite Hn' in Kr. destruct (getNode w r) as [n|] eqn:Hn; [|discriminate].
  simpl in Kr. injection Kr as Kp Kz.
  specialize (Hs r n Hn). unfold soundNode in *. unfold zoomOf in Kz.
  destruct (segment n') as [s'|] eqn:Hs'; [|reflexivity].
  destruct (segment n) as [s|] eqn:Hseg; [|discriminate].
  simpl in Kz. injection Kz as Kz.
  rewrite Kp, Kz.
  apply andb_prop in Hs as [Hs Hpar]. apply andb_prop in Hs as [Hs Hhi].
  apply andb_prop in Hs as [Hg Hlo].
  rewrite Hlo, Hhi, andb_true_r.
  rewrite (G r s s'); [simpl| | |exact Hg].
  - destruct (parentNode n) as [pr|]; [|reflexivity].
    destruct (segmentAt w pr) as [ps|] eqn:Hps; [|discriminate].
    destruct (steady_zoom _ _ _ _ S Hps) as (ps' & -> & ->). exact Hpar.
  - unfold segmentAt. by rewrite Hn.
  - unfold segmentAt. by rewrite Hn'.
Qed.

Lemma modify_steady r f w w' :
  modify r f w = Some w' ->
  (forall n n', f n = Some n' ->
     parentNode n' = parentNode n /\ zoomOf n' = zoomOf n /\
     forall s s', segment n = Some s -> segment n' = Some s' ->
       nonZeroGrid s = true -> nonZeroGrid s' = true) ->
  steady w w'.
Proof.
  intros H Hf. split.
  - eapply modify_kept; [exact H|]. intros n n' Hn.
    destruct (Hf n n' Hn) as (-> & -> & _). reflexivity.
  - intros x s s' Hs Hs' Hg. unfold segmentAt in *.
    rewrite (modify_getNode _ _ _ _ H x) in Hs'.
    destruct (decide (r = x)) as [<-|]; [|congruence].
    destruct (getNode w r) as [n|]; [|discriminate]. simpl in Hs, Hs'.
    destruct (f n) as [n'|] eqn:E; [|discriminate]. simpl in Hs'.
    destruct (Hf n n' E) as (_ & _ & Hk). eauto.
Qed.

Lemma modify_segment_steady r g w w' :
  modify_segment r g w = Some w' ->
  (forall s, tileZoom (g s) = tileZoom s /\
             (nonZeroGrid s = true -> nonZeroGrid (g s) = true)) ->
  steady w w'.
Proof.
  intros H Hg. eapply modify_steady; [exact H|].
  intros n n' Hn. simpl in Hn. unfold zoomOf.
  destruct (segment n) as [s|]; simpl in Hn; [|discriminate].
  injection Hn as <-. simpl. destruct (Hg s) as [-> Hk].
  repeat split. intros s1 s2 [= <-] [= <-]. exact Hk.
Qed.

Lemma same_heap_steady w w' : heap w' = heap w -> steady w w'.
Proof.
  intros Hh. split.
  - intros r. unfold getNode. by rewrite Hh.
  - intros r s s'. unfold segmentAt, getNode. rewrite Hh. congruence.
Qed.

Lemma seg_call_steady r c w w' : seg_call r c w = Some w' -> steady w w'.
Proof.
  unfold seg_call. intros H. destruct (segmentAt w r); [|discriminate].
  injection H as <-. by apply same_heap_steady.
Qed.

Lemma seg_createPlainSegment_steady r w w' :
  seg_createPlainSegment r w = Some w' -> steady w w'.
Proof.
  intros H. eapply steady_trans; [|eapply modify_segment_steady; [exact H|]].
  - by apply same_heap_steady.
  - intros s. split; [reflexivity|auto].
Qed.

Lemma seg_queue_steady r w w' : seg_queue r w = Some w' -> steady w w'.
Proof.
  intros H. eapply steady_trans; [|eapply modify_segment_steady; [exact H|]].
  - by apply same_heap_steady.
  - intros s. split; [reflexivity|auto].
Qed.

Ltac steady_step E :=
  first
    [ apply seg_createPlainSegment_steady in E
    | (apply modify_segment_steady in E;
       [|intros ?; split; [reflexivity|
           first [ let G := fresh in intros G; exact G
                 | intros _; assumption
                 | intros _; reflexivity ]]])
    | apply seg_queue_steady in E
    | apply seg_call_steady in E
    | (eapply modify_steady in E;
       [|let Hf := fresh "Hf" in
         intros ? ? Hf;
         unfold assign_neighbor, assign_hasNeighbor, assign_sideSize in Hf;
         simplify_option_eq; repeat split; intros ? ? ? ?; congruence]) ].

Ltac steady_apart H := run_apart ltac:(fun E => steady_step E) H.

Ltac steady_chain :=
  solve [ apply steady_refl
        | eassumption
        | eapply steady_trans; [eassumption|steady_chain] ].

Lemma normalMapBeyondMaxZoom_steady loops this pn seg w w' :
  normalMapBeyondMaxZoom loops this pn seg w = Some w' -> steady w w'.
Proof.
  unfold normalMapBeyondMaxZoom. intros H. steady_apart H. all: steady_chain.
Qed.

Lemma whileNormalMapCreating_steady loops this w w' :
  whileNormalMapCreating loops this w = Some w' -> steady w w'.
Proof.
  unfold whileNormalMapCreating. intros H. steady_apart H.
  all: apply normalMapBeyondMaxZoom_steady in H; steady_chain.
Qed.

Lemma whole_nonZero grid : num_leb 1 grid = true -> negb (num_eqb grid 0) = true.
Proof.
  unfold num_leb, num_eqb. intros H. apply Qle_bool_iff in H.
  apply negb_true_iff. apply not_true_iff_false. intros E.
  apply Qeq_bool_iff in E. rewrite E in H. by apply Qle_bool_iff in H.
Qed.

Lemma subMesh_steady this pn grid fgs fgsZ offsetX offsetY w r :
  num_leb 1 grid = true ->
  subMesh this pn grid fgs fgsZ offsetX offsetY w = Some r -> steady w r.2.
Proof.
  unfold subMesh. intros Hg H. apply whole_nonZero in Hg.
  steady_apart H. all: simpl; steady_chain.
Qed.

Lemma interpolate_steady this pn grid offsetX offsetY w r :
  interpolate this pn grid offsetX offsetY w = Some r -> steady w r.2.
Proof.
  unfold interpolate. intros H. steady_apart H. all: simpl; steady_chain.
Qed.

Lemma inheritMesh_steady this pn dZ2 offsetX offsetY w r :
  inheritMesh this pn dZ2 offsetX offsetY w = Some r -> steady w r.2.
Proof.
  unfold inheritMesh. intros H. steady_apart H.
  all: repeat match goal with
       | G : num_leb 1 _ = true, E : subMesh _ _ _ _ _ _ _ _ = Some _ |- _ =>
           apply (subMesh_steady _ _ _ _ _ _ _ _ _ G) in E; simpl in E
       | E : interpolate _ _ _ _ _ _ = Some _ |- _ =>
           apply interpolate_steady in E; simpl in E
       end.
  all: simpl; steady_chain.
Qed.

Lemma beyondMaxZoom_steady loops this pn tv tn w w' :
  beyondMaxZoom loops this pn tv tn w = Some w' -> steady w w'.
Proof.
  unfold beyondMaxZoom. intros H. steady_apart H. all: steady_chain.
Qed.

Lemma whileTerrainLoading_steady loops this w r :
  whileTerrainLoading loops this w = Some r -> steady w r.2.
Proof.
  unfold whileTerrainLoading. intros H. steady_apart H.
  all: repeat match goal with
       | E : inheritMesh _ _ _ _ _ _ = Some _ |- _ =>
           apply inheritMesh_steady in E; simpl in E
       | E : beyondMaxZoom _ _ _ _ _ _ = Some _ |- _ =>
           apply beyondMaxZoom_steady in E
       end.
  all: simpl; steady_chain.
Qed.

Lemma encounter_steady x ni w w' : encounter x ni w = Some w' -> steady w w'.
Proof.
  unfold encounter, link, negotiate, flag, resize. intros H. steady_apart H.
  all: steady_chain.
Qed.

Lemma scan_steady x nis : forall w w', scan x nis w = Some w' -> steady w w'.
Proof.
  induction nis as [|a nis IH]; intros w w' H; simpl in H.
  - injection H as <-. apply steady_refl.
  - destruct (encounter x a w) as [w1|] eqn:E; [simpl in H|discriminate].
    eapply steady_trans; [by eapply encounter_steady|by eapply IH].
Qed.

Lemma addToRender_steady x w w' : addToRender x w = Some w' -> steady w w'.
Proof.
  unfold addToRender. intros H.
  destruct (modify x _ w) as [w0|] eqn:E0; [|discriminate].
  steady_step E0. cbn [mbind option_bind] in H.
  destruct (scan x _ w0) as [w1|] eqn:E1; [|discriminate].
  apply scan_steady in E1. cbn [mbind option_bind] in H. injection H as <-.
  eapply steady_trans; [exact E0|]. eapply steady_trans; [exact E1|].
  by apply same_heap_steady.
Qed.

Lemma renderTree_enter_steady x w w' :
  renderTree_enter x w = Some w' -> steady w w'.
Proof.
  unfold renderTree_enter, renderTree_reset. intros H.
  match type of H with
  | mbind _ ?m = Some _ =>
      destruct m as [w4|] eqn:E; [steady_apart E; cbn [mbind option_bind] in H|discriminate]
  end.
  destruct (getNode _ x) as [n|]; [cbn [mbind option_bind] in H|discriminate].
  destruct (parentNode n) as [p|]; [|steady_step H; steady_chain].
  destruct (modify x _ _) as [w5|] eqn:E5; [|discriminate].
  steady_step E5. cbn [mbind option_bind] in H.
  destruct (getNode w5 p) as [pn|]; [cbn [mbind option_bind] in H|discriminate].
  destruct (_cameraInside pn); [|injection H as <-; steady_chain].
  destruct (segment n) as [s|]; [cbn [mbind option_bind] in H|discriminate].
  destruct (cameraTest (activeCamera w5) s) as [[[|] pos]|];
    cbn [fmap option_fmap option_map fst] in H.
  - steady_step H.
    eapply steady_trans; [|exact H].
    eapply steady_trans; [|by apply same_heap_steady].
    eapply steady_trans; [|by apply same_heap_steady].
    steady_chain.
  - injection H as <-.
    eapply steady_trans; [|by apply same_heap_steady]. steady_chain.
  - injection H as <-. steady_chain.
Qed.

Lemma hide_steady x p p' : hide x p = Some p' -> steady (world p) (world p').
Proof.
  unfold hide, onWorld. intros H.
  destruct (modify x _ (world p)) as [w0|] eqn:E0; [|discriminate].
  injection H as <-. by steady_step E0.
Qed.

Lemma renderNode_steady loops b x p p' :
  renderNode loops b x p = Some p' -> steady (world p) (world p').
Proof.
  unfold renderNode, onWorld. intros H.
  destruct (segmentAt (world p) x) as [seg|]; [|discriminate].
  cbn [mbind option_bind] in H.
  match type of H with
  | mbind _ ?m = Some _ => destruct m as [p1|] eqn:E1; [|discriminate]
  end.
  assert (F1 : steady (world p) (world p1)).
  { destruct (terrainReady seg); [injection E1 as <-; apply steady_refl|].
    cbn [negb] in E1.
    destruct (whileTerrainLoading loops x (world p)) as [[go w1]|] eqn:E; [|discriminate].
    apply whileTerrainLoading_steady in E. cbn [snd] in E.
    cbn [mbind option_bind] in E1.
    destruct go; [|injection E1 as <-; exact E].
    cbn [world set_world] in E1.
    destruct (seg_call x _ w1) as [w2|] eqn:E2; [|discriminate].
    apply seg_call_steady in E2. injection E1 as <-.
    by eapply steady_trans. }
  cbn [mbind option_bind] in H.
  destruct b.
  { apply hide_steady in H. by eapply steady_trans. }
  destruct (segmentAt (world p1) x) as [seg1|]; [|discriminate].
  cbn [mbind option_bind] in H.
  match type of H with
  | mbind _ ?m = Some _ => destruct m as [p2|] eqn:E2; [|discriminate]
  end.
  assert (F2 : steady (world p1) (world p2)).
  { destruct (_ && _); [|injection E2 as <-; apply steady_refl].
    destruct (whileNormalMapCreating loops x (world p1)) as [w2|] eqn:E; [|discriminate].
    apply whileNormalMapCreating_steady in E. by injection E2 as <-. }
  cbn [mbind option_bind] in H.
  destruct (getNode (world p2) x) as [n|]; [|discriminate].
  cbn [mbind option_bind] in H.
  destruct (segment n) as [seg2|]; [|discriminate].
  cbn [mbind option_bind] in H.
  match type of H with
  | mbind _ (addToRender x ?v) = Some _ =>
      destruct (addToRender x v) as [w3|] eqn:E3; [|discriminate];
      assert (Ev : v = world p2) by (repeat case_match; reflexivity)
  end.
  rewrite Ev in E3. apply addToRender_steady in E3.
  injection H as <-. cbn [world set_world].
  eapply steady_trans; [exact F1|]. by eapply steady_trans.
Qed.

Lemma prepareForRendering_steady loops h altVis b x p p' :
  prepareForRendering loops h altVis b x p = Some p' ->
  steady (world p) (world p').
Proof.
  unfold prepareForRendering. intros H.
  destruct (num_ltb h 3000000); [destruct altVis|];
    first [by eapply renderNode_steady|by eapply hide_steady].
Qed.

Lemma childrenCreated_sound oracle this n ps w w' kids :
  childrenCreated oracle this n ps w w' kids ->
  getNode w this = Some n ->
  segment n = Some ps ->
  (forall proto z e, num_eqb (init_gridSize (oracle proto z e)) 0 = false) ->
  tileZoom ps + 1 <= 31 ->
  sound w -> sound w'.
Proof.
  intros C Hn Hps Ho Hz Hs.
  assert (Hthis : segmentAt w' this = Some ps).
  { unfold segmentAt. rewrite (kids_parent _ _ _ _ _ _ _ C). exact Hps. }
  assert (Hold : forall r, is_Some (getNode w r) -> segmentAt w' r = segmentAt w r).
  { intros r [m Hm]. destruct (decide (r = this)) as [->|Hne].
    - rewrite Hthis. unfold segmentAt. by rewrite Hn.
    - unfold segmentAt. rewrite (kids_others _ _ _ _ _ _ _ C r Hne); [reflexivity|].
      intros part ->. rewrite (kids_new _ _ _ _ _ _ _ C part) in Hm. discriminate. }
  assert (Hkeep : forall m, soundNode w m = true -> soundNode w' m = true).
  { intros m Hm. unfold soundNode in *.
    destruct (segment m) as [s|]; [|reflexivity].
    destruct (parentNode m) as [pr|]; [|exact Hm].
    destruct (segmentAt w pr) as [ps0|] eqn:Hps0;
      [|by rewrite andb_false_r in Hm].
    rewrite Hold, Hps0; [exact Hm|].
    unfold segmentAt in Hps0. destruct (getNode w pr); [eauto|discriminate]. }
  assert (H0 : 0 <= tileZoom ps).
  { specialize (Hs this n Hn). unfold soundNode in Hs. rewrite Hps in Hs.
    apply andb_prop in Hs as [Hs _]. apply andb_prop in Hs as [Hs _].
    apply andb_prop in Hs as [_ Hs]. by apply Z.leb_le in Hs. }
  assert (Hkid : forall part, soundNode w'
            (newNode oracle (SegmentPrototype n) part (Some this) (nodeId n * 4 + 1)
               (tileZoom ps + 1) (childExtent (_extent ps) part)) = true).
  { intros part. unfold soundNode, newNode, newSegment, nonZeroGrid. simpl.
    rewrite Ho, Hthis. simpl.
    rewrite Z.eqb_refl, andb_true_r. apply andb_true_intro.
    split; apply Z.leb_le; lia. }
  intros r m Hm. change (heap w' !! r) with (getNode w' r) in Hm.
  destruct (decide (r = this)) as [->|Hne].
  { rewrite (kids_parent _ _ _ _ _ _ _ C) in Hm. injection Hm as <-.
    apply (Hkeep n (Hs this n Hn)). }
  destruct (decide (r = q0 kids)) as [->|N0].
  { pose proof (kids_built _ _ _ _ _ _ _ C quadTree.NW) as Hb. simpl in Hb.
    rewrite Hb in Hm. injection Hm as <-. apply Hkid. }
  destruct (decide (r = q1 kids)) as [->|N1].
  { pose proof (kids_built _ _ _ _ _ _ _ C quadTree.NE) as Hb. simpl in Hb.
    rewrite Hb in Hm. injection Hm as <-. apply Hkid. }
  destruct (decide (r = q2 kids)) as [->|N2].
  { pose proof (kids_built _ _ _ _ _ _ _ C quadTree.SW) as Hb. simpl in Hb.
    rewrite Hb in Hm. injection Hm as <-. apply Hkid. }
  destruct (decide (r = q3 kids)) as [->|N3].
  { pose proof (kids_built _ _ _ _ _ _ _ C quadTree.SE) as Hb. simpl in Hb.
    rewrite Hb in Hm. injection Hm as <-. apply Hkid. }
  rewrite (kids_others _ _ _ _ _ _ _ C r Hne) in Hm; [|intros part; by destruct part].
  apply Hkeep. by apply (Hs r m).
Qed.

Lemma renderTree_sound loops view oracle maxZoom fuel :
  forall x p p',
    renderTree fuel loops view oracle maxZoom x p = Some p' ->
    soundFrame oracle p -> soundFrame oracle p'.
Proof.
  induction fuel as [|fuel IH]; intros x p p' H [Hs Hl Ho]; [discriminate|].
  pose proof (renderTree_deepened _ _ _ _ _ _ _ _ H) as [_ Hlen].
  split; [|by rewrite Hlen|exact Ho].
  cbn [renderTree] in H.
  destruct (onWorld (renderTree_enter x) p) as [p1|] eqn:E1; [|discriminate].
  cbn [mbind option_bind] in H. unfold onWorld in E1.
  destruct (renderTree_enter x (world p)) as [w1|] eqn:E; [|discriminate].
  apply renderTree_enter_steady in E. injection E1 as <-.
  cbn [world set_world] in H.
  destruct (getNode w1 x) as [n1|] eqn:Hn1; [|discriminate].
  cbn [mbind option_bind] in H.
  destruct (segment n1) as [seg|] eqn:Hseg; [|discriminate].
  cbn [mbind option_bind] in H.
  match type of H with
  | mbind _ ?m = Some _ => destruct m as [p2|] eqn:E2; [|discriminate]
  end.
  cbn [mbind option_bind] in H.
  assert (Hw : world p' = world p2).
  { injection H as <-. by destruct (containsSphere view w1 x && _). }
  rewrite Hw. clear H Hw Hlen.
  apply (steady_sound _ _ E) in Hs.
  assert (Htrav : tileZoom seg + 1 <= 31 ->
            traverseNodes (renderTree fuel loops view oracle maxZoom) oracle x
              (set_world w1 p) = Some p2 ->
            sound (world p2)).
  { intros Hz Ht. unfold traverseNodes in Ht. cbn [world set_world] in Ht.
    rewrite Hn1 in Ht. cbn [mbind option_bind] in Ht.
    match type of Ht with
    | mbind _ ?m = Some _ => destruct m as [q0|] eqn:E0; [|discriminate]
    end.
    cbn [mbind option_bind] in Ht.
    assert (H0 : soundFrame oracle q0).
    { destruct (negb (ready n1)); [|injection E0 as <-; by split].
      unfold onWorld in E0. cbn [world set_world] in E0.
      destruct (createChildrenNodes oracle x w1) as [w2|] eqn:Ec; [|discriminate].
      injection E0 as <-. split; [|exact Hl|exact Ho].
      destruct (ok_inv _ _ w2 (createChildrenNodes_effect oracle x w1 n1 seg
                                 Hn1 Hseg) Ec) as (kids & C).
      by eapply childrenCreated_sound. }
    assert (Hkid : forall part q q',
              renderChild (renderTree fuel loops view oracle maxZoom) x part q = Some q' ->
              soundFrame oracle q -> soundFrame oracle q').
    { intros part q q' Hq. unfold renderChild in Hq.
      destruct (getNode (world q) x) as [nq|]; [|discriminate].
      cbn [mbind option_bind] in Hq.
      destruct (part_get (nodes nq) part) as [c|]; [|discriminate].
      by apply (IH c). }
    destruct (renderChild _ x quadTree.NW q0) as [q1|] eqn:R1; [|discriminate].
    cbn [mbind option_bind] in Ht.
    destruct (renderChild _ x quadTree.NE q1) as [q2|] eqn:R2; [|discriminate].
    cbn [mbind option_bind] in Ht.
    destruct (renderChild _ x quadTree.SW q2) as [q3|] eqn:R3; [|discriminate].
    cbn [mbind option_bind] in Ht.
    apply (Hkid _ _ _ Ht), (Hkid _ _ _ R3), (Hkid _ _ _ R2), (Hkid _ _ _ R1), H0. }
  destruct (_ || _).
  - destruct (_ && _) eqn:G1.
    { apply Htrav; [|exact E2]. apply andb_prop in G1 as [G1 _].
      apply Z.ltb_lt in G1. lia. }
    destruct (_ || _);
      [apply prepareForRendering_steady in E2; by apply (steady_sound _ _ E2)|].
    destruct (tileZoom seg <? gridSizeByZoom_length _ - 1) eqn:G2;
      [|apply prepareForRendering_steady in E2; by apply (steady_sound _ _ E2)].
    apply Htrav; [|exact E2]. apply Z.ltb_lt in G2.
    cbn [gridSizeByZoom_length set_world] in G2. lia.
  - apply hide_steady in E2. by apply (steady_sound _ _ E2).
Qed.

(** The divisors on a sound world. *)

Lemma sound_segment w r s :
  sound w -> segmentAt w r = Some s ->
  num_eqb (gridSize s) 0 = false /\ 0 <= tileZoom s <= 31.
Proof.
  intros Hs H. unfold segmentAt in H.
  destruct (getNode w r) as [n|] eqn:Hn; [|discriminate]. simpl in H.
  specialize (Hs r n Hn). unfold soundNode in Hs. rewrite H in Hs.
  apply andb_prop in Hs as [Hs _]. apply andb_prop in Hs as [Hs Hhi].
  apply andb_prop in Hs as [Hg Hlo]. apply negb_true_iff in Hg.
  apply Z.leb_le in Hlo, Hhi. auto.
Qed.

Lemma sound_parent w r n s pr :
  sound w -> getNode w r = Some n -> segment n = Some s -> parentNode n = Some pr ->
  exists ps, segmentAt w pr = Some ps /\ tileZoom s = tileZoom ps + 1.
Proof.
  intros Hs Hn Hseg Hp. specialize (Hs r n Hn). unfold soundNode in Hs.
  rewrite Hseg, Hp in Hs. apply andb_prop in Hs as [_ Hs].
  destruct (segmentAt w pr) as [ps|]; [|discriminate].
  exists ps. split; [reflexivity|]. by apply Z.eqb_eq in Hs.
Qed.

Lemma sound_climb stop w fuel :
  sound w ->
  forall r pn s ps,
    climb fuel stop w r = Some pn ->
    segmentAt w r = Some s -> segmentAt w pn = Some ps ->
    pn = r \/ tileZoom ps < tileZoom s.
Proof.
  intros Hs. induction fuel as [|fuel IH]; intros r pn s ps H Hr Hpn; [discriminate|].
  simpl in H. unfold segmentAt in Hr.
  destruct (getNode w r) as [n|] eqn:Hn; [|discriminate]. simpl in H, Hr.
  destruct (parentNode n) as [pr|] eqn:Hp; [|injection H as <-; by left].
  rewrite Hr in H. simpl in H.
  destruct (stop s); [injection H as <-; by left|].
  destruct (sound_parent w r n s pr Hs Hn Hr Hp) as (ps0 & Hps0 & Hz).
  right. destruct (IH pr pn ps0 ps H Hps0 Hpn) as [->|Hlt].
  - assert (ps = ps0) as -> by congruence. lia.
  - lia.
Qed.

Lemma shl32_nonzero k : 0 <= k <= 30 -> shl32 2 k <> 0.
Proof.
  intros Hk. assert (exists n : nat, (n <= 30)%nat /\ k = Z.of_nat n) as (n & Hn & ->).
  { exists (Z.to_nat k). split; lia. }
  do 31 (destruct n as [|n]; [vm_compute; discriminate|]). lia.
Qed.

(** The seam ratio of line 399 is defined for every node of a sound world
    that has a segment. *)
Lemma seamRatio_defined w ap ni bp :
  sound w -> segmentAt w ni = Some bp -> is_Some (seamRatio ap bp).
Proof.
  intros Hs Hb. destruct (sound_segment w ni bp Hs Hb) as [Hg _].
  unfold seamRatio, num_div.
  destruct (num_eqb (_ * _) 0) eqn:E; [|eauto].
  exfalso. unfold num_eqb in *. apply Qeq_bool_iff in E.
  apply Qmult_integral in E as [E|E].
  - apply Qeq_bool_iff in E. congruence.
  - unfold pow2 in E. revert E. apply Qpower_not_0. discriminate.
Qed.

(** When the climb of whileTerrainLoading (line 512) from a node whose
    terrain is not ready stops at a node whose terrain is ready, [dZ2]
    (line 518) is not zero, and the quotients of lines 529, 532 and 555 are
    defined. *)
Lemma inheritMesh_defined w loops this pn seg pseg :
  sound w ->
  segmentAt w this = Some seg ->
  climb loops terrainReady w this = Some pn ->
  segmentAt w pn = Some pseg ->
  terrainReady seg = false -> terrainReady pseg = true ->
  let dZ2 := shl32 2 (tileZoom seg - tileZoom pseg - 1) in
  dZ2 <> 0 /\
  exists grid fgsZ,
    num_div (gridSize pseg) (inject_Z dZ2) = Some grid /\
    num_div (fileGridSize (terrain w)) (inject_Z dZ2) = Some fgsZ /\
    is_Some (num_div 1 grid).
Proof.
  intros Hs Hseg Hc Hpseg Hr Hpr dZ2.
  destruct (sound_segment w this seg Hs Hseg) as [_ Hz].
  destruct (sound_segment w pn pseg Hs Hpseg) as [Hg Hpz].
  assert (Hd : dZ2 <> 0).
  { apply shl32_nonzero.
    destruct (sound_climb terrainReady w loops Hs this pn seg pseg Hc Hseg Hpseg)
      as [->|Hlt]; [|lia].
    assert (seg = pseg) as -> by congruence. congruence. }
  split; [exact Hd|].
  assert (Hq : num_eqb (inject_Z dZ2) 0 = false).
  { apply not_true_iff_false. intros E. apply Qeq_bool_iff in E.
    apply Hd. unfold Qeq in E. simpl in E. lia. }
  unfold num_div. rewrite Hq. eexists _, _. split; [reflexivity|].
  split; [reflexivity|].
  destruct (num_eqb (_ / _) 0) eqn:E; [|eauto].
  exfalso. unfold num_eqb in *. apply Qeq_bool_iff in E.
  apply not_true_iff_false in Hg, Hq. apply Hg. apply Qeq_bool_iff.
  unfold Qdiv in E. apply Qmult_integral in E as [E|E]; [exact E|].
  exfalso. apply Hq. apply Qeq_bool_iff.
  rewrite <- (Qinv_involutive (inject_Z dZ2)). rewrite E. reflexivity.
Qed.

(** ** renderTree: a frame on a sound planet

    The properties of a whole frame are stated for a planet that is sound
    ([soundFrame]): there no quotient of the frame has a zero divisor
    ([seamRatio_defined], [inheritMesh_defined]), and the planet is sound
    again when the frame returns, so that the next frame starts as this
    one did. *)

(** [renderTree] on the root of a tree of nodes, on a sound planet: the
    call ends at each node in one of three ways; the node is hidden (state
    [NOTRENDERING]), sent to rendering (state [RENDERING], appended to the
    rendered list), or walked through (state [WALKTHROUGH], [ready], and
    the call goes on to its four children, created if they were not
    there).  Every node is visited at most once, so a node is never
    rendered together with a node above or below it, the rendered list
    grows by exactly the nodes left in the state [RENDERING], in the order
    NW, NE, SW, SE, the nodes the walk did not reach keep their state and
    their children, and every node created on the way is visited.  The
    planet is sound again afterwards. *)
Theorem renderTree_walk (fuel loops : nat) (view : View) (oracle : SegmentOracle)
    (maxZoom : option Z) (t0 : Tree) (p p' : Planet) :
  soundFrame oracle p ->
  shaped (forestOf (world p)) t0 ->
  NoDup (preorder t0) ->
  renderTree fuel loops view oracle maxZoom (rootOf t0) p = Some p' ->
  soundFrame oracle p' /\
  exists t : Walked,
    rootW t = rootOf t0 /\
    marked (world p') t /\
    NoDup (visitedW t) /\
    _renderedNodes (world p') = _renderedNodes (world p) ++ shownW t /\
    (forall x, x ∈ visitedW t ->
       x ∈ preorder t0 \/ getNode (world p) x = None) /\
    (forall x, x ∉ visitedW t -> is_Some (getNode (world p) x) ->
       walkView <$> getNode (world p') x = walkView <$> getNode (world p) x) /\
    (forall x, getNode (world p) x = None -> is_Some (getNode (world p') x) ->
       x ∈ visitedW t).
Proof.
  intros Hsound Hs Hnd H.
  split; [by eapply renderTree_sound|].
  destruct (renderTree_walkedOver loops view oracle maxZoom fuel t0 p p' Hs Hnd H)
    as (t & W).
  pose proof (wo_new _ _ _ _ W) as Nw.
  exists t.
  pose proof (wo_roots _ _ _ _ W) as R. simpl in R. injection R as R.
  pose proof (wo_marked _ _ _ _ W) as M. apply Forall_cons in M as [M _].
  pose proof (wo_once _ _ _ _ W) as N. rewrite bind_singleton in N.
  pose proof (wo_rendered _ _ _ _ W) as L. rewrite bind_singleton in L.
  pose proof (wo_origin _ _ _ _ W) as O.
  pose proof (wo_frame _ _ _ _ W) as F.
  repeat split; try assumption.
  - intros x Hx. specialize (O x). rewrite !bind_singleton in O. by apply O.
  - intros x Hx. specialize (F x). rewrite bind_singleton in F. by apply F.
  - intros x Hx Hp. specialize (Nw x). rewrite bind_singleton in Nw. by apply Nw.
Qed.

Lemma renderTree_walk_witness :
  exists p' t,
    renderTree 4 3 sampleView sampleOracle None 0%nat samplePlanet = Some p' /\
    soundFrame sampleOracle p' /\
    rootW t = 0%nat /\ marked (world p') t /\ NoDup (visitedW t) /\
    _renderedNodes (world p') = shownW t.
Proof.
  destruct (renderTree 4 3 sampleView sampleOracle None 0%nat samplePlanet)
    as [p'|] eqn:E.
  - destruct (renderTree_walk 4 3 sampleView sampleOracle None treeOfTreeWorld
                samplePlanet p') as (S & t & R & M & N & L & _).
    + split; [|simpl; lia|reflexivity].
      apply (bool_decide_unpack _). vm_compute. exact I.
    + apply treeForest_shaped.
    + apply (bool_decide_unpack _). vm_compute. exact I.
    + exact E.
    + exists p', t. split; [reflexivity|]. split; [exact S|].
      repeat split; assumption.
  - exfalso. vm_compute in E. discriminate E.
Defined.

(** On a sound planet [renderTree] creates no node deeper than the
    terrain's list of grid sizes goes: a node that is new after the call
    has a zoom of at most [gridSizeByZoom.length - 1], or of at most 2
    where that is less (the split of lines 311-312); no node that was
    there changes its zoom; and the planet is sound again afterwards. *)
Theorem renderTree_depth (fuel loops : nat) (view : View) (oracle : SegmentOracle)
    (maxZoom : option Z) (x : ref) (p p' : Planet) :
  soundFrame oracle p ->
  renderTree fuel loops view oracle maxZoom x p = Some p' ->
  soundFrame oracle p' /\
  (forall r n z, getNode (world p) r = None -> getNode (world p') r = Some n ->
     zoomOf n = Some z -> z <= Z.max 2 (gridSizeByZoom_length p - 1)) /\
  (forall r n, getNode (world p) r = Some n ->
     exists n', getNode (world p') r = Some n' /\ zoomOf n' = zoomOf n).
Proof.
  intros Hsound H.
  split; [by eapply renderTree_sound|].
  destruct (renderTree_deepened loops view oracle maxZoom fuel x p p' H) as [[D1 D2] _].
  split; [exact D2|exact D1].
Qed.

Lemma renderTree_depth_witness :
  exists p',
    renderTree 4 3 sampleView sampleOracle None 0%nat samplePlanet = Some p' /\
    soundFrame sampleOracle p' /\
    (exists n, getNode (world p') 13%nat = Some n /\ zoomOf n = Some 2) /\
    (forall r n z, getNode treeWorld r = None -> getNode (world p') r = Some n ->
       zoomOf n = Some z -> z <= 19).
Proof.
  destruct (renderTree 4 3 sampleView sampleOracle None 0%nat samplePlanet)
    as [p'|] eqn:E.
  - exists p'. split; [reflexivity|].
    destruct (renderTree_depth 4 3 sampleView sampleOracle None 0%nat samplePlanet
                p') as (S & D & _).
    + split; [|simpl; lia|reflexivity].
      apply (bool_decide_unpack _). vm_compute. exact I.
    + exact E.
    + split; [exact S|]. split; [|exact D].
      vm_compute in E. injection E as <-. eexists. split; reflexivity.
  - exfalso. vm_compute in E. discriminate E.
Defined.

(** In a walk of [renderTree] on a sound planet, however many nodes it
    renders, no segment is handed to the normal map creator twice, and
    none that is already flagged [_inTheQueue]; no flag is taken back; and
    the planet is sound again afterwards. *)
Theorem renderTree_queue_once (fuel loops : nat) (view : View)
    (oracle : SegmentOracle) (maxZoom : option Z) (x : ref) (p p' : Planet) :
  soundFrame oracle p ->
  renderTree fuel loops view oracle maxZoom x p = Some p' ->
  soundFrame oracle p' /\
  exists added,
    calls (world p') = calls (world p) ++ added /\
    NoDup (queuedRefs added) /\
    (forall r, r ∈ queuedRefs added ->
       queued (world p) r <> Some true /\ queued (world p') r = Some true) /\
    (forall r, queued (world p) r = Some true -> queued (world p') r = Some true).
Proof.
  intros Hsound H. split; [by eapply renderTree_sound|].
  by eapply renderTree_queuing.
Qed.

Lemma renderTree_queue_once_witness :
  (exists p' added,
     renderTree 3 3 litView sampleOracle None 0%nat litPlanet = Some p' /\
     calls (world p') = added /\ queuedRefs added = [1; 2; 3; 4]%nat) /\
  (exists p' added,
     renderTree 3 3 rootView sampleOracle None 0%nat rootPlanet = Some p' /\
     calls (world p') = added /\ queuedRefs added = [0%nat] /\
     _renderedNodes (world p') = [0%nat]).
Proof.
  split.
  - destruct (renderTree 3 3 litView sampleOracle None 0%nat litPlanet) as [p'|] eqn:E.
    + destruct (renderTree_queue_once 3 3 litView sampleOracle None 0%nat litPlanet p')
        as (_ & added & C & _).
      * split; [|simpl; lia|reflexivity].
        apply (bool_decide_unpack _). vm_compute. exact I.
      * exact E.
      * exists p', added. split; [reflexivity|]. split; [exact C|].
        vm_compute in E. injection E as <-. simpl in C. by rewrite <- C.
    + exfalso. vm_compute in E. discriminate E.
  - destruct (renderTree 3 3 rootView sampleOracle None 0%nat rootPlanet) as [p'|] eqn:E.
    + destruct (renderTree_queue_once 3 3 rootView sampleOracle None 0%nat rootPlanet p')
        as (_ & added & C & _).
      * split; [|simpl; lia|reflexivity].
        apply (bool_decide_unpack _). vm_compute. exact I.
      * exact E.
      * exists p', added. split; [reflexivity|]. split; [exact C|].
        vm_compute in E. injection E as <-. simpl in C. rewrite <- C.
        split; reflexivity.
    + exfalso. vm_compute in E. discriminate E.
Defined.
